(** * libFirm back end: Belady spilling, chordal colouring, list scheduling

    A shallow embedding of the parts of
      - ir/be/bespillbelady.c  (working sets, [displace], [belady],
                                [compute_block_start_info], [fix_block_borders])
      - ir/be/bechordal.c      ([get_next_free_reg], [get_decisive_partner_regs],
                                [pair_up_operands], the loops of
                                [handle_constraints], [assign])
      - ir/be/belistsched.c    ([make_ready], [add_to_sched], [list_sched_block],
                                [be_list_sched_graph])
      - ir/be/benode.c         (input and output requirements, [be_new_Perm],
                                [be_Perm_reduce], [be_Keep_add_node],
                                [be_new_Return], frame entities, the
                                requirement of a Phi)
    together with the properties proved about them.

    Conventions.  An [ir_node *] is the node's index (a [nat]); [NULL] is
    index 0.  A C [int] that only counts is a [nat], one that may go negative
    is a [Z].  Code that can fail returns a [result]: a fired [assert], a
    dereferenced [NULL], an access outside an array, or (for the recursive
    functions, which are modelled with fuel) an exhausted fuel budget. *)

From stdpp Require Import base option list gmap sorting strings.
From Stdlib Require Import ZArith Lia.

Abbreviation ir_node := nat (only parsing).
Abbreviation NULL := 0 (only parsing).

(** ** Outcomes of fallible code *)

Inductive err : Type :=
| assert_failed     (* an assert() of the source fired *)
| null_deref        (* a NULL pointer was dereferenced *)
| out_of_bounds     (* an index outside its array or register file *)
| out_of_fuel.      (* the model's recursion budget ran out *)

Inductive result (A : Type) : Type :=
| Ok (a : A)
| Err (e : err).
Arguments Ok {A} a.
Arguments Err {A} e.

Global Instance result_ret : MRet result := λ A a, Ok a.
Global Instance result_bind : MBind result := λ A B k m,
  match m with
  | Ok a => k a
  | Err e => Err e
  end.

Definition assert_ (b : bool) : result unit :=
  if b then Ok tt else Err assert_failed.

Definition is_Ok {A} (r : result A) : Prop := ∃ a, r = Ok a.

(** Monadic left fold: a C [for] loop whose body can fail. *)
Fixpoint foldM {A S} (f : S → A → result S) (l : list A) (s : S) : result S :=
  match l with
  | [] => Ok s
  | x :: l' => s' ← f s x; foldM f l' s'
  end.

(** [for (x = first; p(x); x = next(x))] over a list: the longest prefix
    whose members all satisfy [p]. *)
Fixpoint take_while {A} (p : A → bool) (l : list A) : list A :=
  match l with
  | [] => []
  | x :: l' => if p x then x :: take_while p l' else []
  end.

(** A string literal in a C condition is a non-null pointer: true. *)
Definition string_literal_is_true (s : string) : bool := true.

(** ** The IR as the passes see it

    Everything the three passes read from the graph, the liveness and the
    architecture description.  The graph itself is built elsewhere; here it is
    a table of answers. *)

Record irn_live_t := LiveEntry { li_irn : ir_node; li_is_in : bool }.

Record ir_graph := {
  is_Phi : ir_node → bool;
  is_Proj : ir_node → bool;
  is_Block : ir_node → bool;
  is_End : ir_node → bool;
  is_Unknown : ir_node → bool;            (* get_irn_opcode(n) == iro_Unknown *)
  is_mode_T : ir_node → bool;             (* get_irn_mode(n) == mode_T *)
  get_nodes_block : ir_node → ir_node;
  get_irn_in : ir_node → list ir_node;    (* get_irn_n(n, 0 .. arity-1) *)
  get_irn_deps : ir_node → list ir_node;  (* dependency inputs *)
  get_Block_cfgpred_blocks : ir_node → list ir_node;
  get_irg_start_block : ir_node;
  sched : ir_node → list ir_node;         (* sched_foreach(blk, irn) *)
  live_foreach : ir_node → list irn_live_t;
  irn_reg_class : ir_node → nat;          (* class of the value's register *)
  flag_ignore : ir_node → bool;           (* arch_irn_flags_ignore *)
  flag_dont_spill : ir_node → bool;       (* arch_irn_flags_dont_spill *)
  be_get_next_use : ir_node → nat → ir_node → bool → nat
}.

(** * Belady spilling (bespillbelady.c) *)

Module Belady.

Record loc_t := Loc { irn : ir_node; time : nat }.

Global Instance loc_eq_dec : EqDecision loc_t.
Proof. solve_decision. Defined.

(** Modelled from the spec: [loc_compare] (declared outside these sources)
    orders locations by increasing next-use distance, so the [qsort] calls
    return the same entries sorted by increasing [time].  How ties come out
    is up to the C library, so the sort is a parameter with its contract. *)
Definition loc_le (a b : loc_t) : Prop := time a ≤ time b.

Record loc_sorter := {
  qsort :> list loc_t → list loc_t;
  qsort_perm : ∀ l, qsort l ≡ₚ l;
  qsort_sorted : ∀ l, Sorted loc_le (qsort l)
}.

Global Instance loc_le_dec : RelDecision loc_le.
Proof. intros a b. unfold loc_le. apply _. Defined.

Global Instance loc_le_total : Total loc_le.
Proof. intros a b. unfold loc_le. lia. Qed.

Global Instance loc_le_trans : Transitive loc_le.
Proof. intros a b c. unfold loc_le. lia. Qed.

(** One [qsort] that meets the contract: stdpp's merge sort. *)
Definition merge_qsort : loc_sorter :=
  {| qsort := merge_sort loc_le;
     qsort_perm := merge_sort_Permutation loc_le;
     qsort_sorted := Sorted_merge_sort loc_le |}.

(** [struct _workset_t]: the current length and the inlined array of
    [n_regs] locations.  Entries at index [len] and above are dead but still
    in memory; [workset_insert] writes only the [irn] of the slot it takes. *)
Record workset_t := Workset { len : nat; vals : list loc_t }.

Global Instance workset_eq_dec : EqDecision workset_t.
Proof. solve_decision. Defined.

(** The values [workset_foreach] visits, in order. *)
Definition ws_irns (w : workset_t) : list ir_node :=
  irn <$> take (len w) (vals w).

Record block_info_t := BlockInfo {
  ws_start : option workset_t;
  ws_end : option workset_t
}.

(** What the pass asks of the spill environment (bespill.h). *)
Record spill_env_t := SpillEnv {
  reloads : list (ir_node * ir_node);            (* be_add_reload(val, before) *)
  spilled_phis : list ir_node;                   (* be_spill_phi(phi) *)
  edge_reloads : list (ir_node * ir_node * nat)  (* be_add_reload_on_edge(val, blk, pos) *)
}.

(** The mutable part of [belady_env_t], and the block infos that the source
    keeps in the blocks' link fields. *)
Record belady_env_t := BeladyEnv {
  ws : workset_t;
  instr : ir_node;
  instr_nr : nat;
  used : gset ir_node;
  senv : spill_env_t;
  links : gmap ir_node block_info_t
}.

Definition set_ws (w : workset_t) (e : belady_env_t) : belady_env_t :=
  BeladyEnv w (instr e) (instr_nr e) (used e) (senv e) (links e).
Definition set_instr (i : ir_node) (e : belady_env_t) : belady_env_t :=
  BeladyEnv (ws e) i (instr_nr e) (used e) (senv e) (links e).
Definition set_instr_nr (n : nat) (e : belady_env_t) : belady_env_t :=
  BeladyEnv (ws e) (instr e) n (used e) (senv e) (links e).
Definition set_used (u : gset ir_node) (e : belady_env_t) : belady_env_t :=
  BeladyEnv (ws e) (instr e) (instr_nr e) u (senv e) (links e).
Definition set_senv (s : spill_env_t) (e : belady_env_t) : belady_env_t :=
  BeladyEnv (ws e) (instr e) (instr_nr e) (used e) s (links e).
Definition set_links (l : gmap ir_node block_info_t) (e : belady_env_t) : belady_env_t :=
  BeladyEnv (ws e) (instr e) (instr_nr e) (used e) (senv e) l.

Definition be_add_reload (val before : ir_node) (s : spill_env_t) : spill_env_t :=
  SpillEnv (reloads s ++ [(val, before)]) (spilled_phis s) (edge_reloads s).
Definition be_spill_phi (phi : ir_node) (s : spill_env_t) : spill_env_t :=
  SpillEnv (reloads s) (spilled_phis s ++ [phi]) (edge_reloads s).
Definition be_add_reload_on_edge (val blk : ir_node) (pos : nat) (s : spill_env_t)
  : spill_env_t :=
  SpillEnv (reloads s) (spilled_phis s) (edge_reloads s ++ [(val, blk, pos)]).

Section Pass.

(** The constants of one run of the pass: the graph, the register class
    [cls], its number [n_regs] of non-ignore registers, and the C library's
    sort. *)
Variable g : ir_graph.
Variable cls : nat.
Variable n_regs : nat.
Variable sorter : loc_sorter.

(** Modelled from the spec: [arch_irn_consider_in_reg_alloc] (a macro of
    bearch.h, not among these sources) accepts the values of the current
    class that are not flagged ignore; "ignored values and values outside
    the current class are silently dropped by insert". *)
Definition arch_irn_consider_in_reg_alloc (val : ir_node) : bool :=
  bool_decide (irn_reg_class g val = cls) && negb (flag_ignore g val).

Definition new_workset : workset_t :=
  Workset 0 (replicate n_regs (Loc NULL 0)).

Definition workset_clone (w : workset_t) : workset_t := w.

Definition workset_copy (tgt src : workset_t) : workset_t := src.

(** [memcpy(&ws->vals[0], locs, (ws->len = count) * sizeof(locs[0]))] *)
Definition workset_bulk_fill (w : workset_t) (count : nat) (locs : list loc_t)
  : workset_t :=
  Workset count (take count locs ++ drop count (vals w)).

Definition workset_contains (w : workset_t) (val : ir_node) : bool :=
  bool_decide (val ∈ ws_irns w).

Definition set_irn (val : ir_node) (l : loc_t) : loc_t := Loc val (time l).
Definition set_time (t : nat) (l : loc_t) : loc_t := Loc (irn l) t.

Definition workset_insert (w : workset_t) (val : ir_node) : result workset_t :=
  if negb (arch_irn_consider_in_reg_alloc val) then Ok w
  else if workset_contains w val then Ok w
  else
    _ ← assert_ (bool_decide (len w < n_regs));
    Ok (Workset (S (len w)) (alter (set_irn val) (len w) (vals w))).

Definition workset_clear (w : workset_t) : workset_t := Workset 0 (vals w).

(** [ws->vals[i] = ws->vals[--ws->len]] at the first [i] holding [val]. *)
Definition workset_remove (w : workset_t) (val : ir_node) : workset_t :=
  match list_find (λ l, irn l = val) (take (len w) (vals w)) with
  | Some (i, _) =>
      let last := len w - 1 in
      Workset last (<[i := nth last (vals w) (Loc NULL 0)]> (vals w))
  | None => w
  end.

Definition workset_set_time (w : workset_t) (i t : nat) : workset_t :=
  Workset (len w) (alter (set_time t) i (vals w)).
Definition workset_set_length (w : workset_t) (length : nat) : workset_t :=
  Workset length (vals w).
Definition workset_get_length (w : workset_t) : nat := len w.
Definition workset_get_val (w : workset_t) (i : nat) : ir_node :=
  irn (nth i (vals w) (Loc NULL 0)).

(** [qsort(ws->vals, ws->len, ...)]: only the live prefix is sorted. *)
Definition workset_sort (w : workset_t) : workset_t :=
  Workset (len w) (sorter (take (len w) (vals w)) ++ drop (len w) (vals w)).

(** A workset as the allocation functions leave it: the array has [n_regs]
    slots and the length stays within it. *)
Definition workset_wf (w : workset_t) : Prop :=
  length (vals w) = n_regs ∧ len w ≤ n_regs.

Definition get_distance (from : ir_node) (from_step : nat) (def : ir_node)
    (skip_from_uses : bool) : result nat :=
  let dist := be_get_next_use g from from_step def skip_from_uses in
  _ ← assert_ (negb (flag_ignore g def));
  if flag_dont_spill g def then Ok 0 else Ok dist.

(** *** [displace] *)

(** Step 1, the body of [workset_foreach(new_vals, val, iter)]: the state is
    the environment and the array [to_insert] filled so far ([demand] is its
    length; the array has [n_regs] slots). *)
Definition displace_scan (is_usage : bool) (st : belady_env_t * list ir_node)
    (val : ir_node) : result (belady_env_t * list ir_node) :=
  let env := st.1 in
  let to_insert := st.2 in
  let env := if is_usage then set_used ({[val]} ∪ used env) env else env in
  if negb (workset_contains (ws env) val) then
    if bool_decide (length to_insert < n_regs) then
      let env :=
        if is_usage
        then set_senv (be_add_reload val (instr env) (senv env)) env
        else env in
      Ok (env, to_insert ++ [val])
    else Err out_of_bounds
  else
    _ ← assert_ (is_usage
                  || string_literal_is_true "Defined value already in workset?!?");
    Ok (env, to_insert).

(** Step 2, first loop: every slot gets its current next-use distance. *)
Definition update_time (env : belady_env_t) (is_usage : bool) (w : workset_t)
    (i : nat) : result workset_t :=
  t ← get_distance (instr env) (instr_nr env) (workset_get_val w i)
         (negb is_usage);
  Ok (workset_set_time w i t).

(** Step 2, second loop body: an evicted value that was not used so far in
    this block leaves the block's start set, and is spilled if it is a Phi. *)
Definition dispose (env : belady_env_t) (irn : ir_node) : result belady_env_t :=
  if bool_decide (irn ∈ used env) then Ok env
  else
    let curr_bb := get_nodes_block g (instr env) in
    match links env !! curr_bb with
    | None => Err null_deref
    | Some info =>
        match ws_start info with
        | None => Err null_deref
        | Some wss =>
            let info' := BlockInfo (Some (workset_remove wss irn)) (ws_end info) in
            let env := set_links (<[curr_bb := info']> (links env)) env in
            Ok (if is_Phi g irn
                then set_senv (be_spill_phi irn (senv env)) env
                else env)
        end
    end.

(** The values at positions [max_allowed .. len-1]. *)
Definition evicted (w : workset_t) (max_allowed : nat) : list ir_node :=
  drop max_allowed (ws_irns w).

Definition make_room (env : belady_env_t) (is_usage : bool) (max_allowed : nat)
  : result belady_env_t :=
  if bool_decide (max_allowed < workset_get_length (ws env)) then
    w ← foldM (update_time env is_usage) (seq 0 (len (ws env))) (ws env);
    let w := workset_sort w in
    env ← foldM dispose (evicted w max_allowed) (set_ws w env);
    Ok (set_ws (workset_set_length (ws env) max_allowed) env)
  else Ok env.

(** [demand] never exceeds [n_regs] when step 1 succeeds (the bound of
    [to_insert]), so [n_regs - demand] does not go below zero. *)
Definition displace (env : belady_env_t) (new_vals : workset_t)
    (is_usage : bool) : result belady_env_t :=
  st ← foldM (displace_scan is_usage) (ws_irns new_vals) (env, []);
  let to_insert := st.2 in
  let demand := length to_insert in
  let max_allowed := n_regs - demand in
  env ← make_room st.1 is_usage max_allowed;
  w ← foldM workset_insert to_insert (ws env);
  Ok (set_ws w env).

(** *** The block walk of [belady] *)

(** One round of [sched_foreach(blk, irn)]; [rest] is what follows [irn] in
    the schedule, [new_vals] the scratch workset of the block. *)
Definition belady_instr (irn : ir_node) (rest : list ir_node)
    (st : belady_env_t * workset_t) : result (belady_env_t * workset_t) :=
  let env := st.1 in
  let new_vals := st.2 in
  _ ← assert_ (bool_decide (workset_get_length (ws env) ≤ n_regs));
  if is_Proj g irn || is_Phi g irn then Ok (env, new_vals)
  else
    let env := set_instr irn env in
    new_vals ← foldM workset_insert (get_irn_in g irn) (workset_clear new_vals);
    env ← displace env new_vals true;
    new_vals ← (if is_mode_T g irn
                 then foldM workset_insert (take_while (is_Proj g) rest)
                        (workset_clear new_vals)
                 else workset_insert (workset_clear new_vals) irn);
    env ← displace env new_vals false;
    Ok (set_instr_nr (S (instr_nr env)) env, new_vals).

Fixpoint belady_walk (l : list ir_node) (st : belady_env_t * workset_t)
  : result (belady_env_t * workset_t) :=
  match l with
  | [] => Ok st
  | irn :: rest => st' ← belady_instr irn rest st; belady_walk rest st'
  end.

(** *** [compute_block_start_info] *)

(** Modelled from the spec: [sched_first] (besched_t.h, not among these
    sources) is "the block's first instruction"; the schedule is a ring
    through the block, so an empty one yields the block itself. *)
Definition sched_first (blk : ir_node) : ir_node := hd blk (sched g blk).

(** The Phis heading the schedule, then the live-ins, each of the current
    class, with their distance from the first instruction. *)
Definition starter_values (blk : ir_node) : list ir_node :=
  filter (λ n, arch_irn_consider_in_reg_alloc n = true)
         (take_while (is_Phi g) (sched g blk))
  ++ (li_irn <$> filter (λ li, li_is_in li = true
                               ∧ arch_irn_consider_in_reg_alloc (li_irn li) = true)
                        (live_foreach g blk)).

Definition starter_loc (blk : ir_node) (n : ir_node) : result loc_t :=
  t ← get_distance (sched_first blk) 0 n false; Ok (Loc n t).

Definition collect_starters (blk : ir_node) : result (list loc_t) :=
  foldM (λ acc n, l ← starter_loc blk n; Ok (acc ++ [l]))
        (starter_values blk) [].

Definition set_ws_start (blk : ir_node) (w : workset_t)
    (l : gmap ir_node block_info_t) : gmap ir_node block_info_t :=
  alter (λ bi, BlockInfo (Some w) (ws_end bi)) blk l.
Definition set_ws_end (blk : ir_node) (w : workset_t)
    (l : gmap ir_node block_info_t) : gmap ir_node block_info_t :=
  alter (λ bi, BlockInfo (ws_start bi) (Some w)) blk l.

(** Phis of this block that did not make it into the start set. *)
Definition spill_left_phis (blk : ir_node) (rest : list loc_t) (s : spill_env_t)
  : spill_env_t :=
  foldl (λ s l, if negb (is_Phi g (irn l))
                   || negb (bool_decide (get_nodes_block g (irn l) = blk))
                then s else be_spill_phi (irn l) s) s rest.

(** The else branch: the [min(count, n_regs)] best starters. *)
Definition start_from_starters (blk : ir_node) (count : nat)
    (starters : list loc_t) (env : belady_env_t) : belady_env_t :=
  let ws_count := min count n_regs in
  let w := workset_bulk_fill new_workset ws_count starters in
  set_senv (spill_left_phis blk (drop ws_count starters) (senv env))
    (set_links (set_ws_start blk w (links env)) env).

(** [belady_rec] stands for the recursive call [belady(pred_blk, env)]. *)
Definition compute_block_start_info
    (belady_rec : ir_node → belady_env_t → result belady_env_t)
    (blk : ir_node) (env : belady_env_t) : result belady_env_t :=
  match links env !! blk with
  | Some _ => Ok env
  | None =>
      let env := set_links (<[blk := BlockInfo None None]> (links env)) env in
      starters ← collect_starters blk;
      let count := length starters in
      let starters := sorter starters in
      if bool_decide (length (get_Block_cfgpred_blocks g blk) = 1)
         && bool_decide (blk ≠ get_irg_start_block g) then
        let pred_blk := hd NULL (get_Block_cfgpred_blocks g blk) in
        env ← (match links env !! pred_blk with
                | None => belady_rec pred_blk env
                | Some _ => Ok env
                end);
        match links env !! pred_blk with
        | None => Err null_deref
        | Some pred_info =>
            match ws_end pred_info with
            | None => Err assert_failed
            | Some we =>
                Ok (set_links (set_ws_start blk (workset_clone we) (links env)) env)
            end
        end
      else Ok (start_from_starters blk count starters env)
  end.

(** *** [belady] *)

(** [workset_copy(bel->ws, blk_info->ws_start)], a fresh [used] set and
    instruction number 0: the state in which the walk of a block starts. *)
Definition belady_walk_init (wss : workset_t) (env : belady_env_t)
  : belady_env_t :=
  let env := set_ws (workset_copy (ws env) wss) env in
  set_instr_nr 0 (set_used ∅ env).

Fixpoint belady (fuel : nat) (blk : ir_node) (env : belady_env_t)
  : result belady_env_t :=
  match fuel with
  | 0 => Err out_of_fuel
  | S fuel =>
      match links env !! blk with
      | Some _ => Ok env
      | None =>
          env ← compute_block_start_info (belady fuel) blk env;
          match links env !! blk with
          | None => Err null_deref
          | Some blk_info =>
              match ws_start blk_info with
              | None => Err null_deref
              | Some wss =>
                  st ← belady_walk (sched g blk)
                         (belady_walk_init wss env, new_workset);
                  let env := st.1 in
                  Ok (set_links (set_ws_end blk (workset_clone (ws env)) (links env)) env)
              end
          end
      end
  end.

(** The states in which the rounds of [sched_foreach] start, for as long as
    the walk runs. *)
Fixpoint belady_walk_states (l : list ir_node) (st : belady_env_t * workset_t)
  : list (belady_env_t * workset_t) :=
  match l with
  | [] => []
  | irn :: rest =>
      st :: match belady_instr irn rest st with
            | Ok st' => belady_walk_states rest st'
            | Err _ => []
            end
  end.

(** The same for the walk that [belady (S fuel) blk env] performs on [blk]
    itself. *)
Definition belady_rounds (fuel : nat) (blk : ir_node) (env : belady_env_t)
  : list (belady_env_t * workset_t) :=
  match links env !! blk with
  | Some _ => []
  | None =>
      match compute_block_start_info (belady fuel) blk env with
      | Err _ => []
      | Ok env =>
          match links env !! blk with
          | None => []
          | Some blk_info =>
              match ws_start blk_info with
              | None => []
              | Some wss =>
                  belady_walk_states (sched g blk)
                    (belady_walk_init wss env, new_workset)
              end
          end
      end
  end.

(** *** [fix_block_borders] *)

(** The body of [workset_foreach(wsb, irnb, iter)] for predecessor [i]. *)
Definition fix_value (blk : ir_node) (i : nat) (wsp : option workset_t)
    (s : spill_env_t) (irnb : ir_node) : result spill_env_t :=
  irnb ← (if is_Phi g irnb && bool_decide (blk = get_nodes_block g irnb)
           then match get_irn_in g irnb !! i with
                | Some a => Ok a
                | None => Err out_of_bounds
                end
           else Ok irnb);
  if is_Unknown g irnb then Ok s
  else
    match wsp with
    | None => Err null_deref
    | Some wsp =>
        if bool_decide (irnb ∈ ws_irns wsp) then Ok s
        else Ok (be_add_reload_on_edge irnb blk i s)
    end.

Definition fix_pred (blk : ir_node) (wsb : workset_t)
    (links : gmap ir_node block_info_t) (s : spill_env_t)
    (ip : nat * ir_node) : result spill_env_t :=
  match links !! ip.2 with
  | None => Err null_deref
  | Some pred_info => foldM (fix_value blk ip.1 (ws_end pred_info)) (ws_irns wsb) s
  end.

Definition fix_block_borders (blk : ir_node) (env : belady_env_t)
  : result belady_env_t :=
  match links env !! blk with
  | None => Err null_deref
  | Some info =>
      match ws_start info with
      | None =>
          (* wsb == NULL is only dereferenced inside the loop over the preds *)
          match get_Block_cfgpred_blocks g blk with
          | [] => Ok env
          | _ :: _ => Err null_deref
          end
      | Some wsb =>
          s ← foldM (fix_pred blk wsb (links env))
                 (imap (λ i p, (i, p)) (get_Block_cfgpred_blocks g blk)) (senv env);
          Ok (set_senv s env)
      end
  end.

(** *** The pass: both block walks of [be_spill_belady_spill_env] *)

Definition initial_env : belady_env_t :=
  BeladyEnv new_workset NULL 0 ∅ (SpillEnv [] [] []) ∅.

(** [blocks] is the order in which [irg_block_walk_graph] visits the blocks. *)
Definition be_spill_belady (fuel : nat) (blocks_post blocks_pre : list ir_node)
  : result belady_env_t :=
  env ← foldM (λ env blk, belady fuel blk env) blocks_post initial_env;
  foldM (λ env blk, fix_block_borders blk env) blocks_pre env.

End Pass.

End Belady.

(** * Chordal colouring (bechordal.c) *)

Module Chordal.

(** ** Bitsets *)

(** Modelled from the spec: the bitset type and operations of adt/bitset.h
    are not among these sources.  A bitset of [n] bits is the integer whose
    binary digits they are; the operations are the bitwise ones their names
    say ("[free := ¬colors ∧ allocatable]; choose the lowest set bit"), and
    [bitset_contains(a, b)] tells whether [a] is a subset of [b] ("if one
    partner's [regs] is a subset of the other's, the subset wins"). *)
Definition bitset_t := Z.

Definition bitset_is_set (b : bitset_t) (i : nat) : bool :=
  Z.testbit b (Z.of_nat i).
Definition bitset_set (b : bitset_t) (i : nat) : bitset_t :=
  Z.setbit b (Z.of_nat i).
Definition bitset_clear (b : bitset_t) (i : nat) : bitset_t :=
  Z.clearbit b (Z.of_nat i).
Definition bitset_clear_all (b : bitset_t) : bitset_t := 0%Z.
Definition bitset_copy (tgt src : bitset_t) : bitset_t := src.
Definition bitset_flip_all (n : nat) (b : bitset_t) : bitset_t :=
  Z.lxor b (Z.ones (Z.of_nat n)).
Definition bitset_and (tgt src : bitset_t) : bitset_t := Z.land tgt src.
Definition bitset_contains (lhs rhs : bitset_t) : bool :=
  (Z.land lhs rhs =? lhs)%Z.

(** The set bits among [0 .. n-1], ascending: what [bitset_foreach] visits. *)
Definition bitset_elems (n : nat) (b : bitset_t) : list nat :=
  filter (λ i, bitset_is_set b i = true) (seq 0 n).

(** The lowest set bit at or above [from], or [(size_t)-1]. *)
Definition bitset_next_set (n : nat) (b : bitset_t) (from : nat) : Z :=
  match filter (λ i, bitset_is_set b i = true) (seq from (n - from)) with
  | i :: _ => Z.of_nat i
  | [] => (-1)%Z
  end.

(** ** Operands of an instruction (beinsn_t.h) *)

(** [partner] is the index, in the instruction's operand array, of the
    operand the source points to. *)
Record be_operand_t := Operand {
  carrier : ir_node;
  regs : bitset_t;
  req_cls : nat;
  partner : option nat
}.

Section Alloc.

(** One run of the allocator: the graph, the class, its number of registers
    and the registers the allocator may hand out. *)
Variable g : ir_graph.
Variable cls : nat.
Variable n_regs : nat.
Variable allocatable_regs : bitset_t.

Definition get_next_free_reg (colors : bitset_t) : Z :=
  let tmp := bitset_copy 0%Z colors in
  let tmp := bitset_flip_all n_regs tmp in
  let tmp := bitset_and tmp allocatable_regs in
  bitset_next_set n_regs tmp 0.

(** [op->partner], a pointer into the operand array [ops]. *)
Definition partner_op (ops : list be_operand_t) (op : be_operand_t)
  : result (option be_operand_t) :=
  match partner op with
  | None => Ok None
  | Some j =>
      match ops !! j with
      | None => Err out_of_bounds
      | Some o2 => Ok (Some o2)
      end
  end.

(** The result [NULL] is [None]. *)
Definition get_decisive_partner_regs (ops : list be_operand_t)
    (o1 : be_operand_t) : result (option bitset_t) :=
  o2 ← partner_op ops o1;
  match o2 with
  | None => Ok (Some (regs o1))
  | Some o2 =>
      _ ← assert_ (bool_decide (req_cls o1 = req_cls o2));
      if bitset_contains (regs o1) (regs o2) then Ok (Some (regs o1))
      else if bitset_contains (regs o2) (regs o1) then Ok (Some (regs o2))
      else Ok None
  end.

(** *** The operand loop of [handle_constraints] *)

(** [partners] is the pmap from a node to its partner node ([NULL] is
    [None]), [alloc_nodes] the left nodes chosen so far ([n_alloc] is their
    number), [bp] the edges (left node, colour) added to the bipartite
    graph. *)
Record constr_state := ConstrState {
  partners : gmap ir_node (option ir_node);
  alloc_nodes : list ir_node;
  bp : list (nat * nat)
}.

Definition n_alloc (st : constr_state) : nat := length (alloc_nodes st).

Definition pmap_contains (m : gmap ir_node (option ir_node)) (k : ir_node)
  : bool :=
  bool_decide (is_Some (m !! k)).

Definition list_contains_irn (l : list ir_node) (irn : ir_node) : bool :=
  bool_decide (irn ∈ l).

(** The edges [bipartite_add(bp, n_alloc, col)] for the colours of [bs]. *)
Definition constraint_edges (left : nat) (bs : option bitset_t)
  : list (nat * nat) :=
  match bs with
  | Some bs => (λ col, (left, col)) <$> bitset_elems n_regs bs
  | None => []
  end.

(** The body of [for (int i = 0; i < insn->n_ops; ++i)]. *)
Definition handle_operand (ops : list be_operand_t) (st : constr_state)
    (op : be_operand_t) : result constr_state :=
  o2 ← partner_op ops op;
  if match o2 with
     | Some o2 => pmap_contains (partners st) (carrier o2)
     | None => false
     end
  then Ok st
  else
    let partner := carrier <$> o2 in
    let pm := <[carrier op := partner]> (partners st) in
    let pm := match partner with
              | Some p => <[p := Some (carrier op)]> pm
              | None => pm
              end in
    if list_contains_irn (alloc_nodes st) (carrier op)
    then Ok (ConstrState pm (alloc_nodes st) (bp st))
    else
      if bool_decide (n_alloc st < n_regs) then
        bs ← get_decisive_partner_regs ops op;
        Ok (ConstrState pm (alloc_nodes st ++ [carrier op])
              (bp st ++ constraint_edges (n_alloc st) bs))
      else Err out_of_bounds.

Definition handle_operands (ops : list be_operand_t) : result constr_state :=
  foldM (handle_operand ops) ops (ConstrState ∅ [] []).

(** *** The colours of the matching

    [assignment] is what the matching returns: per left node a colour, or a
    negative number.  The loop asserts a colour for every left node and sets
    it on the node and on its partner. *)
Definition assign_matched (st : constr_state) (assignment : list Z)
    (registers : gmap ir_node nat) (i : nat) : result (gmap ir_node nat) :=
  match assignment !! i, alloc_nodes st !! i with
  | Some a, Some irn =>
      _ ← assert_ (bool_decide (0 ≤ a)%Z);
      if bool_decide (Z.to_nat a < n_regs) then
        let reg := Z.to_nat a in
        let registers := if bool_decide (irn ≠ NULL)
                         then <[irn := reg]> registers else registers in
        match partners st !! irn with
        | Some (Some p) =>
            Ok (if bool_decide (p ≠ NULL) then <[p := reg]> registers
                else registers)
        | _ => Ok registers
        end
      else Err out_of_bounds
  | _, _ => Err out_of_bounds
  end.

Definition assign_matching (st : constr_state) (assignment : list Z)
    (registers : gmap ir_node nat) : result (gmap ir_node nat) :=
  foldM (assign_matched st assignment) (seq 0 (n_alloc st)) registers.

(** ** The colouring walk [assign] *)

Record border_t := Border { is_def : bool; b_irn : ir_node }.

(** The colour mask, the liveness bitset (indexed by node index) and the
    registers set on the nodes so far. *)
Record alloc_state := AllocState {
  colors : bitset_t;
  live : bitset_t;
  registers : gmap ir_node nat
}.

(** Modelled from the spec: [arch_irn_consider_in_reg_alloc] and
    [be_is_live_in] are declared outside these sources; a value is considered
    if it is of the class and not ignored, and live-in if the liveness lists
    it as live at the block's entry. *)
Definition arch_irn_consider_in_reg_alloc (irn : ir_node) : bool :=
  bool_decide (irn_reg_class g irn = cls) && negb (flag_ignore g irn).

Definition live_ins (block : ir_node) : list ir_node :=
  li_irn <$> filter (λ li, li_is_in li = true) (live_foreach g block).

Definition be_is_live_in (block irn : ir_node) : bool :=
  bool_decide (irn ∈ live_ins block).

(** [arch_register_for_index]: the register file has [n_regs] entries. *)
Definition arch_register_for_index (col : Z) : result nat :=
  if bool_decide (0 ≤ col < Z.of_nat n_regs)%Z then Ok (Z.to_nat col)
  else Err out_of_bounds.

(** The body of the loop over the live-ins. *)
Definition assign_live_in (st : alloc_state) (irn : ir_node)
  : result alloc_state :=
  if arch_irn_consider_in_reg_alloc irn then
    match registers st !! irn with
    | None => Err assert_failed
    | Some reg =>
        Ok (AllocState (bitset_set (colors st) reg) (bitset_set (live st) irn)
              (registers st))
    end
  else Ok st.

(** The body of [foreach_border_head(head, b)]. *)
Definition assign_border (block : ir_node) (st : alloc_state) (b : border_t)
  : result alloc_state :=
  let irn := b_irn b in
  let nr := irn in
  if negb (is_def b) then
    match registers st !! irn with
    | None => Err assert_failed
    | Some reg =>
        Ok (AllocState (bitset_clear (colors st) reg)
              (bitset_clear (live st) nr) (registers st))
    end
  else if negb (be_is_live_in block irn) then
    cr ← (match registers st !! irn with
          | Some reg =>
              _ ← assert_ (negb (bitset_is_set (colors st) reg));
              Ok (reg, registers st)
          | None =>
              _ ← assert_ (negb (flag_ignore g irn));
              reg ← arch_register_for_index (get_next_free_reg (colors st));
              Ok (reg, <[irn := reg]> (registers st))
          end);
    let colors' := bitset_set (colors st) cr.1 in
    _ ← assert_ (negb (bitset_is_set (live st) nr));
    Ok (AllocState colors' (bitset_set (live st) nr) cr.2)
  else Ok st.

Definition assign (block : ir_node) (border : list border_t)
    (registers : gmap ir_node nat) : result alloc_state :=
  let st := AllocState (bitset_clear_all 0%Z) (bitset_clear_all 0%Z) registers in
  st ← foldM assign_live_in (live_ins block) st;
  foldM (assign_border block) border st.

End Alloc.

End Chordal.

(** * List scheduling (belistsched.c) *)

Module ListSched.

(** What the scheduler reads beyond [ir_graph]: the out edges (one user per
    edge, so a user can occur more than once), the node kinds it asks for,
    and [to_appear_in_schedule] (besched.h). *)
Record sched_graph := SchedGraph {
  irg :> ir_graph;
  out_edges : ir_node → list ir_node;       (* foreach_out_edge *)
  dep_out_edges : ir_node → list ir_node;   (* ... of EDGE_KIND_DEP *)
  is_Anchor : ir_node → bool;
  be_is_Start : ir_node → bool;
  be_is_Keep : ir_node → bool;
  be_is_CopyKeep : ir_node → bool;
  is_Sync : ir_node → bool;
  mode_is_datab : ir_node → bool;           (* of the node's mode *)
  skip_Proj : ir_node → ir_node;
  to_appear_in_schedule : ir_node → bool
}.

(** [sched_irn_t]; the counter is an [unsigned]. *)
Record sched_irn_t := SchedIrn {
  num_not_sched_user : Z;
  already_sched : bool
}.

(** The selector's callbacks over its block environment [S].  A callback the
    source allows to be [NULL] is one that leaves [S] alone. *)
Record list_sched_selector_t (S : Type) := Selector {
  node_ready : S → ir_node → ir_node → S;
  select : S → list ir_node → list ir_node → ir_node * S;
  node_selected : S → ir_node → S
}.
Arguments node_ready {S} _ _ _ _.
Arguments select {S} _ _ _ _.
Arguments node_selected {S} _ _ _.

(** The order in which a node set is iterated is the hash table's business:
    any order of the members. *)
Record nodeset_order := {
  iterate :> list ir_node → list ir_node;
  iterate_members : ∀ l x, x ∈ iterate l ↔ x ∈ l
}.

Definition insertion_order : nodeset_order :=
  {| iterate := λ l, l; iterate_members := λ l x, iff_refl _ |}.

Definition ir_nodeset_insert (s : list ir_node) (n : ir_node) : list ir_node :=
  if bool_decide (n ∈ s) then s else s ++ [n].
Definition ir_nodeset_remove (s : list ir_node) (n : ir_node) : list ir_node :=
  filter (λ x, x ≠ n) s.
Definition ir_nodeset_contains (s : list ir_node) (n : ir_node) : bool :=
  bool_decide (n ∈ s).

(** [block_sched_env_t]: the scheduling info of the graph (shared by all
    blocks), the ready set, the live set, the block's schedule so far, and
    the selector's block environment. *)
Record block_sched_env_t (S : Type) := BlockEnv {
  sched_info : list sched_irn_t;
  cands : list ir_node;
  live : list ir_node;
  schedule : list ir_node;
  selector_block_env : S
}.
Arguments BlockEnv {S} _ _ _ _ _.
Arguments sched_info {S} _.
Arguments cands {S} _.
Arguments live {S} _.
Arguments schedule {S} _.
Arguments selector_block_env {S} _.

Section Scheduler.

Variable S : Type.
Variable g : sched_graph.
Variable selector : list_sched_selector_t S.
Variable order : nodeset_order.
(** The block being scheduled. *)
Variable block : ir_node.

Local Abbreviation env_t := (block_sched_env_t S).

(** Code that changes the environment and may stop early; the environment
    reached is kept in either case. *)
Definition M (A : Type) : Type := env_t → result A * env_t.

Global Instance M_ret : MRet M := λ A a env, (Ok a, env).
Global Instance M_bind : MBind M := λ A B k m env,
  match m env with
  | (Ok a, env') => k a env'
  | (Err e, env') => (Err e, env')
  end.

Definition fail {A} (e : err) : M A := λ env, (Err e, env).
Definition get : M env_t := λ env, (Ok env, env).
Definition modify (f : env_t → env_t) : M unit := λ env, (Ok tt, f env).
Definition skip : M unit := mret tt.
Definition massert (b : bool) : M unit :=
  if b then skip else fail assert_failed.

Fixpoint mfor {A} (f : A → M unit) (l : list A) : M unit :=
  match l with
  | [] => skip
  | x :: l' => _ ← f x; mfor f l'
  end.

Definition set_sched_info (i : list sched_irn_t) (e : env_t) : env_t :=
  BlockEnv i (cands e) (live e) (schedule e) (selector_block_env e).
Definition set_cands (c : list ir_node) (e : env_t) : env_t :=
  BlockEnv (sched_info e) c (live e) (schedule e) (selector_block_env e).
Definition set_live (l : list ir_node) (e : env_t) : env_t :=
  BlockEnv (sched_info e) (cands e) l (schedule e) (selector_block_env e).
Definition set_schedule (s : list ir_node) (e : env_t) : env_t :=
  BlockEnv (sched_info e) (cands e) (live e) s (selector_block_env e).
Definition set_selector_env (s : S) (e : env_t) : env_t :=
  BlockEnv (sched_info e) (cands e) (live e) (schedule e) s.

(** [env->sched_info[idx]] behind [assert(idx < ARR_LEN(env->sched_info))]. *)
Definition info_at (n : ir_node) : M sched_irn_t :=
  env ← get;
  match sched_info env !! n with
  | Some i => mret i
  | None => fail assert_failed
  end.

Definition is_already_scheduled (n : ir_node) : M bool :=
  i ← info_at n; mret (already_sched i).

Definition set_already_scheduled (n : ir_node) : M unit :=
  i ← info_at n;
  modify (λ env, set_sched_info
                   (<[n := SchedIrn (num_not_sched_user i) true]> (sched_info env))
                   env).

Definition to_unsigned (z : Z) : Z := (z mod 2 ^ 32)%Z.
Definition to_int (z : Z) : Z :=
  (if z mod 2 ^ 32 <? 2 ^ 31 then z mod 2 ^ 32 else z mod 2 ^ 32 - 2 ^ 32)%Z.

Definition set_irn_not_sched_user (n : ir_node) (num : Z) : M unit :=
  i ← info_at n;
  modify (λ env, set_sched_info
                   (<[n := SchedIrn (to_unsigned num) (already_sched i)]>
                      (sched_info env)) env).

Definition add_irn_not_sched_user (n : ir_node) (num : Z) : M Z :=
  i ← info_at n;
  let v := to_unsigned (num_not_sched_user i + num) in
  _ ← modify (λ env, set_sched_info
                       (<[n := SchedIrn v (already_sched i)]> (sched_info env))
                       env);
  mret (to_int v).

Definition get_irn_n_edges (n : ir_node) : nat := length (out_edges g n).

(** [get_irn_in_or_dep(irn, 0 .. get_irn_ins_or_deps(irn) - 1)] *)
Definition ins_or_deps (irn : ir_node) : list ir_node :=
  get_irn_in g irn ++ get_irn_deps g irn.

(** The loop over the operands in [make_ready]: false as soon as an operand
    of this block is not yet scheduled. *)
Fixpoint operands_scheduled (irn : ir_node) (ops : list ir_node) : M bool :=
  match ops with
  | [] => mret true
  | op :: rest =>
      if is_Block g op then
        _ ← massert (is_End g irn); operands_scheduled irn rest
      else
        a ← is_already_scheduled op;
        if negb a && bool_decide (get_nodes_block g op = block)
        then mret false
        else operands_scheduled irn rest
  end.

(** [add_to_sched] stands for the recursive call. *)
Definition make_ready (add_to_sched : ir_node → M unit) (pred irn : ir_node)
  : M bool :=
  if is_Block g irn || bool_decide (get_irn_n_edges irn = 0) then mret false
  else if negb (bool_decide (block = get_nodes_block g irn)) then mret false
  else
    ok ← operands_scheduled irn (ins_or_deps irn);
    if negb ok then mret false
    else
      _ ← (if negb (to_appear_in_schedule g irn) then add_to_sched irn
           else
             _ ← modify (λ env, set_cands (ir_nodeset_insert (cands env) irn) env);
             modify (λ env, set_selector_env
                              (node_ready selector (selector_block_env env) irn pred)
                              env));
      mret true.

Definition make_users_ready (add_to_sched : ir_node → M unit) (irn : ir_node)
  : M unit :=
  let try_user user :=
    if negb (is_Phi g user)
    then _ ← make_ready add_to_sched irn user; skip
    else skip in
  _ ← mfor try_user (out_edges g irn);
  mfor try_user (dep_out_edges g irn).

(** [get_num_successors]; the recursion follows the Projs of a tuple. *)
Fixpoint get_num_successors (fuel : nat) (irn : ir_node) : result Z :=
  match fuel with
  | 0 => Err out_of_fuel
  | Datatypes.S fuel =>
      if is_mode_T g irn then
        foldM (λ sum proj,
                 if is_mode_T g proj then
                   n ← get_num_successors fuel proj; Ok (sum + n)%Z
                 else if mode_is_datab g proj
                      then Ok (sum + Z.of_nat (get_irn_n_edges proj))%Z
                      else Ok sum)
              (out_edges g irn) 0%Z
      else
        Ok (Z.of_nat (length (filter (λ u, is_End g u = false) (out_edges g irn))))
  end.

Definition update_sched_liveness (fuel : nat) (irn : ir_node) : M unit :=
  if is_Proj g irn then skip
  else
    _ ← mfor (λ op,
               let op := skip_Proj g op in
               env ← get;
               if ir_nodeset_contains (live env) op then
                 n ← add_irn_not_sched_user op (-1);
                 if (n <=? 0)%Z
                 then modify (λ env, set_live (ir_nodeset_remove (live env) op) env)
                 else skip
               else skip)
           (reverse (ins_or_deps irn));
    match get_num_successors fuel irn with
    | Err e => fail e
    | Ok i =>
        if (0 <? i)%Z then
          _ ← set_irn_not_sched_user irn i;
          modify (λ env, set_live (ir_nodeset_insert (live env) irn) env)
        else skip
    end.

Fixpoint add_to_sched (fuel : nat) (irn : ir_node) : M unit :=
  match fuel with
  | 0 => fail out_of_fuel
  | Datatypes.S fuel =>
      _ ← (if to_appear_in_schedule g irn then
             _ ← update_sched_liveness fuel irn;
             _ ← modify (λ env, set_schedule (schedule env ++ [irn]) env);
             modify (λ env, set_cands (ir_nodeset_remove (cands env) irn) env)
           else skip);
      _ ← modify (λ env, set_selector_env
                           (node_selected selector (selector_block_env env) irn)
                           env);
      _ ← set_already_scheduled irn;
      make_users_ready (add_to_sched fuel) irn
  end.

(** *** [list_sched_block] *)

(** The check of the operands when the ready set is seeded: every operand
    met before one of this block goes into the live set. *)
Fixpoint seed_operands (ops : list ir_node) : M bool :=
  match ops with
  | [] => mret true
  | operand :: rest =>
      if bool_decide (get_nodes_block g operand = block) then mret false
      else
        _ ← modify (λ env, set_live (ir_nodeset_insert (live env) operand) env);
        seed_operands rest
  end.

(** The body of [foreach_out_edge(block, edge)]. *)
Definition seed (fuel : nat) (irn : ir_node) : M unit :=
  if is_End g irn then skip
  else
    let users := get_irn_n_edges irn in
    if bool_decide (users = 0) then skip
    else if bool_decide (users = 1)
            && is_Anchor g (hd NULL (out_edges g irn)) then skip
    else if is_Phi g irn then add_to_sched fuel irn
    else if be_is_Start g irn then add_to_sched fuel irn
    else
      seed_operands (ins_or_deps irn) ≫= λ ready : bool,
      if ready
      then _ ← make_ready (add_to_sched fuel) NULL irn; skip
      else skip.

Definition is_keep (irn : ir_node) : bool :=
  be_is_Keep g irn || be_is_CopyKeep g irn || is_Sync g irn.

(** One round of [while (ir_nodeset_size(&be.cands) > 0)]. *)
Definition pick : M ir_node :=
  env ← get;
  match list_find (λ irn, is_keep irn = true) (order (cands env)) with
  | Some (_, irn) => mret irn
  | None =>
      let r := select selector (selector_block_env env) (cands env) (live env) in
      _ ← modify (set_selector_env r.2);
      mret r.1
  end.

Fixpoint sched_loop (fuel : nat) : M unit :=
  match fuel with
  | 0 => fail out_of_fuel
  | Datatypes.S fuel' =>
      env ← get;
      if bool_decide (cands env = []) then skip
      else
        irn ← pick;
        _ ← add_to_sched fuel' irn;
        _ ← modify (λ env, set_cands (ir_nodeset_remove (cands env) irn) env);
        sched_loop fuel'
  end.

(** [info] is the scheduling info of the graph as the blocks scheduled
    before left it, [s0] what [init_block] returned. *)
Definition list_sched_block (fuel : nat) (info : list sched_irn_t) (s0 : S)
  : result unit * env_t :=
  (_ ← mfor (seed fuel) (out_edges g block); sched_loop fuel)
    (BlockEnv info [] [] [] s0).

End Scheduler.

End ListSched.

(** * Pairing of operands and the Projs of a Perm (bechordal.c) *)

Module ChordalConstr.
Import Chordal.

(** Modelled from the spec: two more operations of adt/bitset.h on a bitset
    of [n] bits, the number of set bits ("[u]'s [regs] has minimum
    cardinality") and the test for no set bit ("[o.regs ∩ u.regs ≠ ∅]"). *)
Definition bitset_popcount (n : nat) (b : bitset_t) : nat :=
  length (bitset_elems n b).
Definition bitset_is_empty (n : nat) (b : bitset_t) : bool :=
  bool_decide (bitset_elems n b = []).

Definition set_partner (p : option nat) (o : be_operand_t) : be_operand_t :=
  Operand (carrier o) (regs o) (req_cls o) p.

Section Pairing.

Variable n_regs : nat.
(** Modelled from the spec: [be_values_interfere(lv, op->irn, op->carrier)]
    (beintlive_t.h); [op->irn] is the instruction the operands belong to, so
    this is whether the operand's value "interferes with the defining
    instruction". *)
Variable be_values_interfere : ir_node → bool.
(** [insn->use_start]: the operands before it are the out operands. *)
Variable use_start : nat.

(** The body of the inner loop over the in operands: [st] is [smallest] (an
    index into the operands) with [smallest_n_regs]. *)
Definition pair_candidate (ops : list be_operand_t) (out_op : be_operand_t)
    (st : option nat * nat) (i : nat) : option nat * nat :=
  match ops !! i with
  | None => st
  | Some op =>
      if bool_decide (is_Some (partner op)) || be_values_interfere (carrier op)
      then st
      else
        let bs := bitset_copy 0%Z (regs op) in
        let bs := bitset_and bs (regs out_op) in
        let n_total := bitset_popcount n_regs (regs op) in
        if negb (bitset_is_empty n_regs bs) && bool_decide (n_total < st.2)
        then (Some i, n_total)
        else st
  end.

(** The body of the loop over the out operands. *)
Definition pair_out (ops : list be_operand_t) (j : nat)
  : result (list be_operand_t) :=
  match ops !! j with
  | None => Err out_of_bounds
  | Some out_op =>
      let found := foldl (pair_candidate ops out_op) (None, n_regs + 1)
                     (seq use_start (length ops - use_start)) in
      match found.1 with
      | None => Ok ops
      | Some s =>
          match ops !! s with
          | None => Err out_of_bounds
          | Some smallest =>
              let ops :=
                imap (λ i op,
                        if bool_decide (use_start ≤ i)
                           && bool_decide (carrier op = carrier smallest)
                        then set_partner (Some j) op else op) ops in
              let ops := alter (set_partner (Some s)) j ops in
              Ok (alter (set_partner (Some j)) s ops)
          end
      end
  end.

Definition pair_up_operands (ops : list be_operand_t)
  : result (list be_operand_t) :=
  foldM pair_out (seq 0 use_start) ops.

End Pairing.

Section PermProjs.

Variable n_regs : nat.
Variable allocatable_regs : bitset_t.

(** "Put the colors of all Projs in a bitset." *)
Definition proj_colors (projs : list ir_node) (registers : gmap ir_node nat)
  : bitset_t :=
  foldl (λ bs proj, match registers !! proj with
                    | Some reg => bitset_set bs reg
                    | None => bs
                    end) 0%Z projs.

(** "Assign the not yet assigned Projs of the Perm a suitable color." *)
Definition assign_proj (st : bitset_t * gmap ir_node nat) (proj : ir_node)
  : result (bitset_t * gmap ir_node nat) :=
  match st.2 !! proj with
  | Some _ => Ok st
  | None =>
      let col := get_next_free_reg n_regs allocatable_regs st.1 in
      new_reg ← arch_register_for_index n_regs col;
      Ok (bitset_set st.1 new_reg, <[proj := new_reg]> st.2)
  end.

(** The last step of [handle_constraints]; [projs] are the users of the
    Perm as [foreach_out_edge] visits them. *)
Definition assign_perm_projs (projs : list ir_node)
    (registers : gmap ir_node nat) : result (gmap ir_node nat) :=
  st ← foldM assign_proj projs (proj_colors projs registers, registers);
  Ok st.2.

End PermProjs.

Section PermUsers.

Variable g : ir_graph.
Variable n_regs : nat.
Variable allocatable_regs : bitset_t.
(** Modelled from the spec: [be_values_interfere(lv, proj, irn)]
    (beintlive_t.h) for the instruction [irn] being handled: whether the
    projection "is live across" the instruction. *)
Variable proj_interferes : ir_node → bool.

(** The body of [foreach_out_edge(perm, edge)] in the second loop of
    [handle_constraints]: a Proj of the Perm that lives through the
    instruction and is no operand becomes a left node with an edge to every
    allocatable register. *)
Definition handle_perm_proj (st : constr_state) (proj : ir_node)
  : result constr_state :=
  _ ← assert_ (is_Proj g proj);
  if negb (proj_interferes proj) || pmap_contains (partners st) proj
  then Ok st
  else if list_contains_irn (alloc_nodes st) proj then Ok st
  else
    _ ← assert_ (bool_decide (n_alloc st < n_regs));
    Ok (ConstrState (<[proj := None]> (partners st))
          (alloc_nodes st ++ [proj])
          (bp st ++ constraint_edges n_regs (n_alloc st) (Some allocatable_regs))).

(** [perm_users] is [None] when [pre_process_constraints] made no Perm
    ([perm == NULL]), and otherwise the users of the Perm as
    [foreach_out_edge] visits them. *)
Definition handle_perm_projs (perm_users : option (list ir_node))
    (st : constr_state) : result constr_state :=
  match perm_users with
  | None => Ok st
  | Some projs => foldM handle_perm_proj projs st
  end.

End PermUsers.

End ChordalConstr.

(** * Scheduling a graph (belistsched.c) *)

Module ListSchedGraph.
Import ListSched.

Section Graph.

Variable S : Type.
Variable g : sched_graph.
Variable selector : list_sched_selector_t S.
Variable order : nodeset_order.
(** The hooks of the selector around the blocks: [S] holds all of the
    selector's state, so [init_graph] is the state after
    [selector->init_graph(irg)], [init_block sel block] the state after
    [selector->init_block(env->selector_env, block)] and [finish_block] the
    state after [selector->finish_block(be.selector_block_env)]. *)
Variable init_graph : S.
Variable init_block : S → ir_node → S.
Variable finish_block : S → S.

(** [irg_block_walk_graph(irg, list_sched_block, NULL, &env)] over the blocks
    in the order of the walk: every block is scheduled with the scheduling
    info the blocks before it left, and its schedule is kept with it. *)
Fixpoint sched_blocks (fuel : nat) (blocks : list ir_node) (sel : S)
    (info : list sched_irn_t)
  : result (list (ir_node * list ir_node)) * list sched_irn_t :=
  match blocks with
  | [] => (Ok [], info)
  | block :: rest =>
      match list_sched_block S g selector order block fuel info
              (init_block sel block) with
      | (Ok _, env) =>
          match sched_blocks fuel rest (finish_block (selector_block_env env))
                  (sched_info env) with
          | (Ok scheds, info') => (Ok ((block, schedule env) :: scheds), info')
          | (Err e, info') => (Err e, info')
          end
      | (Err e, env) => (Err e, sched_info env)
      end
  end.

(** [num_nodes] is [get_irg_last_idx(irg)]; the scheduling info starts out
    zeroed. *)
Definition be_list_sched_graph (fuel num_nodes : nat) (blocks : list ir_node)
  : result (list (ir_node * list ir_node)) :=
  (sched_blocks fuel blocks init_graph
     (replicate num_nodes (SchedIrn 0 false))).1.

End Graph.

End ListSchedGraph.

(** * Backend nodes (benode.c) *)

Module BeNode.

(** The opcodes of the backend nodes ([beo_Spill] ... [beo_Barrier]). *)
Inductive be_opcode : Type :=
| beo_Spill | beo_Reload | beo_Perm | beo_MemPerm | beo_Copy | beo_Keep
| beo_CopyKeep | beo_Call | beo_Return | beo_IncSP | beo_AddSP | beo_SubSP
| beo_RegParams | beo_FrameAddr | beo_Barrier.

Global Instance be_opcode_eq_dec : EqDecision be_opcode.
Proof. solve_decision. Defined.

(** Entities, types and registers are handled by reference only; [None] is
    the [NULL] pointer. *)
Abbreviation ir_entity := nat (only parsing).
Abbreviation ir_type := nat (only parsing).
Abbreviation arch_register_t := nat (only parsing).

(** The attribute behind the common header ("a shared attribute header and
    per-kind extension"): [be_frame_attr_t], [be_call_attr_t],
    [be_return_attr_t], [be_incsp_attr_t], [be_memperm_attr_t], or nothing
    more than the header ([be_node_attr_t]). *)
Inductive be_attr : Type :=
| attr_node
| attr_frame (ent : option ir_entity) (offset : Z)
| attr_call (ent : option ir_entity) (pop : Z) (call_tp : option ir_type)
| attr_return (num_ret_vals : Z) (pop : Z) (emit_pop : Z)
| attr_incsp (offset : Z) (align : Z)
| attr_memperm (in_entities out_entities : list (option ir_entity)).

(** The attribute type an opcode is registered with in [be_init_op], all
    fields zero. *)
Definition zero_attr (op : be_opcode) : be_attr :=
  match op with
  | beo_Spill | beo_Reload | beo_FrameAddr => attr_frame None 0
  | beo_Call => attr_call None 0 None
  | beo_Return => attr_return 0 0 0
  | beo_IncSP => attr_incsp 0 0
  | beo_MemPerm => attr_memperm [] []
  | _ => attr_node
  end.

(** The attribute is of the type the opcode is registered with. *)
Definition attr_fits (op : be_opcode) (a : be_attr) : bool :=
  match op, a with
  | (beo_Spill | beo_Reload | beo_FrameAddr), attr_frame _ _ => true
  | beo_Call, attr_call _ _ _ => true
  | beo_Return, attr_return _ _ _ => true
  | beo_IncSP, attr_incsp _ _ => true
  | beo_MemPerm, attr_memperm _ _ => true
  | (beo_Perm | beo_Copy | beo_Keep | beo_CopyKeep | beo_AddSP | beo_SubSP
     | beo_RegParams | beo_Barrier), attr_node => true
  | _, _ => false
  end.

Section Nodes.

(** Modelled from the spec: "architecture-specific register classes and
    requirement descriptors" are external (bearch.h); the nodes hold
    pointers to them, which are passed on and compared but never looked
    into here. *)
Variable arch_register_req_t : Type.
Variable arch_no_register_req : arch_register_req_t.
Variable arch_register_class_t : Type.
(** [cls->class_req] *)
Variable class_req : arch_register_class_t → arch_register_req_t.

(** [reg_out_info_t] of the backend info: the register and the requirement
    of an output. *)
Record reg_out_info_t := OutInfo {
  out_reg : option arch_register_t;
  out_req : arch_register_req_t
}.

(** A backend node: what the functions of benode.c read and write of the
    [ir_node], of its attribute and of its backend info.  [reg_data] is
    [attr->reg_data] (one [in_req] each) and [out_infos] is
    [info->out_infos]; both are arrays with their own length ([ARR_LEN]),
    which need not be the number of inputs. *)
Record be_node := Node {
  opcode : be_opcode;
  node_in : list ir_node;
  reg_data : list arch_register_req_t;
  out_infos : list reg_out_info_t;
  attr : be_attr
}.

Definition set_node_in (l : list ir_node) (n : be_node) : be_node :=
  Node (opcode n) l (reg_data n) (out_infos n) (attr n).
Definition set_reg_data (l : list arch_register_req_t) (n : be_node) : be_node :=
  Node (opcode n) (node_in n) l (out_infos n) (attr n).
Definition set_out_infos (l : list reg_out_info_t) (n : be_node) : be_node :=
  Node (opcode n) (node_in n) (reg_data n) l (attr n).
Definition set_attr (a : be_attr) (n : be_node) : be_node :=
  Node (opcode n) (node_in n) (reg_data n) (out_infos n) a.

Definition set_out_req (r : arch_register_req_t) (o : reg_out_info_t)
  : reg_out_info_t := OutInfo (out_reg o) r.

(** ** The node interface

    Modelled from the spec: the "IR construction and ownership" is an
    external collaborator of which "only the interfaces matter" (irnode.c
    is not among the sources).  What benode.c uses of it: a new node has its
    inputs and a zeroed attribute of its opcode; the inputs are an array
    that can be read inside its bounds, replaced, and extended at its
    end. *)
Definition new_ir_node (op : be_opcode) (ins : list ir_node) : be_node :=
  Node op ins [] [] (zero_attr op).

Definition get_irn_arity (n : be_node) : nat := length (node_in n).

Definition get_irn_n (n : be_node) (pos : Z) : result ir_node :=
  if bool_decide (0 ≤ pos)%Z then
    match node_in n !! Z.to_nat pos with
    | Some x => Ok x
    | None => Err out_of_bounds
    end
  else Err out_of_bounds.

(** [add_irn_n] returns the position of the new input. *)
Definition add_irn_n (n : be_node) (x : ir_node) : be_node * Z :=
  (set_node_in (node_in n ++ [x]) n, Z.of_nat (get_irn_arity n)).

Definition set_irn_in (n : be_node) (arity : Z) (ins : list ir_node)
  : result be_node :=
  if bool_decide (0 ≤ arity)%Z && bool_decide (Z.to_nat arity ≤ length ins)
  then Ok (set_node_in (take (Z.to_nat arity) ins) n)
  else Err out_of_bounds.

Definition be_is_Perm (n : be_node) : bool := bool_decide (opcode n = beo_Perm).
Definition be_is_Keep (n : be_node) : bool := bool_decide (opcode n = beo_Keep).
Definition be_is_IncSP (n : be_node) : bool := bool_decide (opcode n = beo_IncSP).
Definition be_is_Call (n : be_node) : bool := bool_decide (opcode n = beo_Call).
Definition be_is_MemPerm (n : be_node) : bool :=
  bool_decide (opcode n = beo_MemPerm).

(** ** Requirements *)

(** [rd = &attr->reg_data[pos]; assert(pos < ARR_LEN(attr->reg_data));
    rd->in_req = req]: the assertion bounds [pos] from above only; a
    negative [pos] that gets past it stores outside the array. *)
Definition be_set_constr_in (node : be_node) (pos : Z)
    (req : arch_register_req_t) : result be_node :=
  _ ← assert_ (bool_decide (pos < Z.of_nat (length (reg_data node)))%Z);
  if bool_decide (0 ≤ pos)%Z
  then Ok (set_reg_data (<[Z.to_nat pos := req]> (reg_data node)) node)
  else Err out_of_bounds.

(** [info->out_infos[pos].req = req], unchecked. *)
Definition be_set_constr_out (node : be_node) (pos : Z)
    (req : arch_register_req_t) : result be_node :=
  if bool_decide (0 ≤ pos < Z.of_nat (length (out_infos node)))%Z
  then Ok (set_out_infos (alter (set_out_req req) (Z.to_nat pos)
                            (out_infos node)) node)
  else Err out_of_bounds.

(** What [init_node_attr] leaves in the two arrays; a negative number asks
    for an empty array that can grow.  The attribute keeps the zeroes of
    [new_ir_node]. *)
Definition init_node_attr (node : be_node) (n_inputs n_outputs : Z) : be_node :=
  let rd := if bool_decide (0 ≤ n_inputs)%Z
            then replicate (Z.to_nat n_inputs) arch_no_register_req else [] in
  let oi := if bool_decide (0 ≤ n_outputs)%Z
            then replicate (Z.to_nat n_outputs) (OutInfo None arch_no_register_req)
            else [] in
  set_out_infos oi (set_reg_data rd node).

Definition add_register_req_out (node : be_node) : be_node :=
  set_out_infos (out_infos node ++ [OutInfo None arch_no_register_req]) node.

Definition add_register_req_in (node : be_node) : be_node :=
  set_reg_data (reg_data node ++ [arch_no_register_req]) node.

Definition be_node_set_reg_class_in (irn : be_node) (pos : Z)
    (cls : arch_register_class_t) : result be_node :=
  be_set_constr_in irn pos (class_req cls).

Definition be_node_set_reg_class_out (irn : be_node) (pos : Z)
    (cls : arch_register_class_t) : result be_node :=
  be_set_constr_out irn pos (class_req cls).

Definition be_node_get_out_reg_req (irn : be_node) (pos : Z)
  : result arch_register_req_t :=
  _ ← assert_ (bool_decide (pos < Z.of_nat (length (out_infos irn)))%Z);
  if bool_decide (0 ≤ pos)%Z then
    match out_infos irn !! Z.to_nat pos with
    | Some o => Ok (out_req o)
    | None => Err out_of_bounds
    end
  else Err out_of_bounds.

Definition be_node_get_in_reg_req (irn : be_node) (pos : Z)
  : result arch_register_req_t :=
  _ ← assert_ (bool_decide (0 ≤ pos)%Z);
  if bool_decide (Z.of_nat (get_irn_arity irn) ≤ pos)%Z
     || bool_decide (Z.of_nat (length (reg_data irn)) ≤ pos)%Z
  then Ok arch_no_register_req
  else
    match reg_data irn !! Z.to_nat pos with
    | Some r => Ok r
    | None => Err out_of_bounds
    end.

(** ** Constructors *)

(** The body of the loop of [be_new_Perm]. *)
Definition perm_set_classes (cls : arch_register_class_t) (irn : be_node)
    (i : nat) : result be_node :=
  irn ← be_node_set_reg_class_in irn (Z.of_nat i) cls;
  be_node_set_reg_class_out irn (Z.of_nat i) cls.

(** [in] holds [n] nodes. *)
Definition be_new_Perm (cls : arch_register_class_t) (n : nat)
    (ins : list ir_node) : result be_node :=
  _ ← (if bool_decide (n ≤ length ins) then Ok tt else Err out_of_bounds);
  let irn := new_ir_node beo_Perm (take n ins) in
  let irn := init_node_attr irn (Z.of_nat n) (Z.of_nat n) in
  foldM (perm_set_classes cls) (seq 0 n) irn.

(** The body of the loop of [be_Perm_reduce]: [st] is [new_in] so far with
    the node as updated in place; [old_data] and [old_infos] are the saved
    copies, and the inputs are still the old ones. *)
Definition perm_reduce_step (perm : be_node) (map : list Z)
    (old_data : list arch_register_req_t) (old_infos : list reg_out_info_t)
    (st : list ir_node * be_node) (i : nat) : result (list ir_node * be_node) :=
  match map !! i with
  | None => Err out_of_bounds
  | Some idx =>
      op ← get_irn_n perm idx;
      match old_data !! Z.to_nat idx, old_infos !! Z.to_nat idx with
      | Some rd, Some oi =>
          if bool_decide (i < length (reg_data st.2))
             && bool_decide (i < length (out_infos st.2))
          then Ok (st.1 ++ [op],
                   set_out_infos (<[i := oi]> (out_infos st.2))
                     (set_reg_data (<[i := rd]> (reg_data st.2)) st.2))
          else Err out_of_bounds
      | _, _ => Err out_of_bounds
      end
  end.

Definition be_Perm_reduce (perm : be_node) (new_size : Z) (map : list Z)
  : result be_node :=
  let arity := get_irn_arity perm in
  _ ← assert_ (be_is_Perm perm);
  _ ← assert_ (bool_decide (new_size ≤ Z.of_nat arity)%Z);
  (* memcpy of [arity] entries each *)
  _ ← (if bool_decide (arity ≤ length (reg_data perm))
          && bool_decide (arity ≤ length (out_infos perm))
       then Ok tt else Err out_of_bounds);
  let old_data := take arity (reg_data perm) in
  let old_infos := take arity (out_infos perm) in
  st ← foldM (perm_reduce_step perm map old_data old_infos)
         (seq 0 (Z.to_nat new_size)) ([], perm);
  set_irn_in st.2 new_size st.1.

(** [be_Keep_add_node] *)
Definition be_Keep_add_node (keep : be_node) (cls : arch_register_class_t)
    (node : ir_node) : result be_node :=
  _ ← assert_ (be_is_Keep keep);
  let (keep, n) := add_irn_n keep node in
  let keep := add_register_req_in keep in
  be_node_set_reg_class_in keep n cls.

(** The loop of [be_new_Return] (and of [be_new_Keep]). *)
Definition add_inputs (res : be_node) (ins : list ir_node) : be_node :=
  foldl (λ res x, add_register_req_in (add_irn_n res x).1) res ins.

(** [in] holds [n] nodes; [pop] is an [unsigned]. *)
Definition be_new_Return (n_res : Z) (pop : Z) (n : nat) (ins : list ir_node)
  : result be_node :=
  _ ← (if bool_decide (n ≤ length ins) then Ok tt else Err out_of_bounds);
  let res := new_ir_node beo_Return [] in
  let res := init_node_attr res (-1) 1 in
  let res := add_inputs res (take n ins) in
  res ← be_set_constr_out res 0 arch_no_register_req;
  Ok (set_attr (attr_return n_res pop 0) res).

Definition be_Return_append_node (ret : be_node) (node : ir_node)
  : be_node * Z :=
  let (ret, pos) := add_irn_n ret node in
  (add_register_req_in ret, pos).

(** ** Frame entities *)

Definition be_has_frame_entity (irn : be_node) : bool :=
  match opcode irn with
  | beo_Spill | beo_Reload | beo_FrameAddr => true
  | _ => false
  end.

(** A node whose opcode passes the test has a [be_frame_attr_t]; reading
    one out of another attribute is reading outside it. *)
Definition be_get_frame_entity (irn : be_node) : result (option ir_entity) :=
  if be_has_frame_entity irn then
    match attr irn with
    | attr_frame ent _ => Ok ent
    | _ => Err out_of_bounds
    end
  else Ok None.

(** [is_be_node(irn)] holds of every node of this model. *)
Definition be_get_frame_offset (irn : be_node) : result Z :=
  if be_has_frame_entity irn then
    match attr irn with
    | attr_frame _ offset => Ok offset
    | _ => Err out_of_bounds
    end
  else Ok 0%Z.

Definition be_node_set_frame_entity (irn : be_node) (ent : option ir_entity)
  : result be_node :=
  _ ← assert_ (be_has_frame_entity irn);
  match attr irn with
  | attr_frame _ offset => Ok (set_attr (attr_frame ent offset) irn)
  | _ => Err out_of_bounds
  end.

Definition be_node_set_frame_offset (irn : be_node) (offset : Z)
  : result be_node :=
  if negb (be_has_frame_entity irn) then Ok irn
  else
    match attr irn with
    | attr_frame ent _ => Ok (set_attr (attr_frame ent offset) irn)
    | _ => Err out_of_bounds
    end.

End Nodes.

End BeNode.

(** * The requirement of a Phi (benode.c) *)

Module PhiReq.

Section Phi.

Variable g : ir_graph.
(** Modelled from the spec: "architecture-specific register classes and
    requirement descriptors" are external (bearch.h): a requirement names
    its class, a class has its "any register" requirement, and every node
    has a requirement on its output. *)
Variable arch_register_req_t : Type.
Variable arch_no_register_req : arch_register_req_t.
Variable arch_register_class_t : Type.
(** [req->cls], [NULL] for a requirement without class. *)
Variable req_cls : arch_register_req_t → option arch_register_class_t.
Variable class_req : arch_register_class_t → arch_register_req_t.
(** [arch_get_register_req_out(op)] *)
Variable arch_get_register_req_out : ir_node → arch_register_req_t.
(** [mode_is_datab(get_irn_mode(node))] *)
Variable mode_is_datab : ir_node → bool.

(** [*visited]: [None] is the [NULL] pointer, before the set is made. *)
Definition pset := option (gset ir_node).

Definition pset_find_ptr (visited : pset) (n : ir_node) : bool :=
  match visited with
  | Some v => bool_decide (n ∈ v)
  | None => false
  end.

Definition pset_insert_ptr (visited : pset) (n : ir_node) : pset :=
  Some ({[n]} ∪ default ∅ visited).

(** The second loop of [get_Phi_reg_req_recursive]: the first operand for
    which the search [rec] finds a requirement. *)
Fixpoint first_req (rec : ir_node → pset → result (option arch_register_req_t * pset))
    (ops : list ir_node) (visited : pset)
  : result (option arch_register_req_t * pset) :=
  match ops with
  | [] => Ok (None, visited)
  | op :: rest =>
      r ← rec op visited;
      match r.1 with
      | Some _ => Ok r
      | None => first_req rec rest r.2
      end
  end.

(** The result is the requirement ([None] for [NULL]) with the visited set
    as the call leaves it. *)
Fixpoint get_Phi_reg_req_recursive (fuel : nat) (phi : ir_node) (visited : pset)
  : result (option arch_register_req_t * pset) :=
  match fuel with
  | 0 => Err out_of_fuel
  | S fuel' =>
      if pset_find_ptr visited phi then Ok (None, visited)
      else
        match list_find (λ op, is_Phi g op = false) (get_irn_in g phi) with
        | Some (_, op) => Ok (Some (arch_get_register_req_out op), visited)
        | None =>
            let visited := pset_insert_ptr visited phi in
            first_req (get_Phi_reg_req_recursive fuel') (get_irn_in g phi)
              visited
        end
  end.

(** [cache] is [info->out_infos[0].req] of the Phis, absent while [NULL].
    The result is the requirement with the cache as the call leaves it. *)
Definition phi_get_irn_reg_req (fuel : nat) (node : ir_node)
    (cache : gmap ir_node arch_register_req_t)
  : result (arch_register_req_t * gmap ir_node arch_register_req_t) :=
  match cache !! node with
  | Some req => Ok (req, cache)
  | None =>
      if negb (mode_is_datab node)
      then Ok (arch_no_register_req, <[node := arch_no_register_req]> cache)
      else
        r ← get_Phi_reg_req_recursive fuel node None;
        match r.1 with
        | None => Err null_deref
        | Some req =>
            match req_cls req with
            | None => Err assert_failed
            | Some cls => Ok (class_req cls, <[node := class_req cls]> cache)
            end
        end
  end.

End Phi.

End PhiReq.


(** * The vocabulary of the properties *)

(** [terminates r]: [r] is a result of the code itself, not an exhausted
    budget.  Only the recursion [belady] → [compute_block_start_info] →
    [belady] and the scheduler's loops consume fuel. *)
Definition terminates {A} (r : result A) : Prop := r ≠ Err out_of_fuel.

Module BeladySpec.

Import Belady.

Section Vocabulary.

Variable g : ir_graph.
Variable cls : nat.
Variable n_regs : nat.
Variable sorter : loc_sorter.

Local Abbreviation workset_wf := (workset_wf n_regs).

(** The new values that are not resident: what step 1 puts in [to_insert]. *)
Definition not_resident (w : workset_t) (l : list ir_node) : list ir_node :=
  filter (λ v, v ∉ ws_irns w) l.

(** What step 1 leaves in the environment. *)
Definition scanned (is_usage : bool) (l : list ir_node) (env : belady_env_t)
  : belady_env_t :=
  if is_usage then
    set_senv (SpillEnv (reloads (senv env)
                        ++ ((λ v, (v, instr env)) <$> not_resident (ws env) l))
                       (spilled_phis (senv env)) (edge_reloads (senv env)))
      (set_used (list_to_set l ∪ used env) env)
  else env.

(** The distance [get_distance] answers for a value that is not ignored. *)
Definition distance_of (env : belady_env_t) (is_usage : bool) (v : ir_node)
  : nat :=
  if flag_dont_spill g v then 0
  else be_get_next_use g (instr env) (instr_nr env) v (negb is_usage).

Definition retime (env : belady_env_t) (is_usage : bool) (l : loc_t) : loc_t :=
  Loc (irn l) (distance_of env is_usage (irn l)).

(** The block whose start set [dispose] reaches for has one. *)
Definition has_start_set (env : belady_env_t) : Prop :=
  ∃ info wss, links env !! get_nodes_block g (instr env) = Some info
              ∧ ws_start info = Some wss.

(** The live prefix after the new times and the sort. *)
Definition resorted (env : belady_env_t) (is_usage : bool) : list loc_t :=
  sorter (retime env is_usage <$> take (len (ws env)) (vals (ws env))).

(** Every start and end set recorded for a block is well formed. *)
Definition links_wf (lk : gmap ir_node block_info_t) : Prop :=
  ∀ b info w, lk !! b = Some info →
              ws_start info = Some w ∨ ws_end info = Some w → workset_wf w.

(** The invariant of the pass. *)
Definition belady_inv (env : belady_env_t) : Prop :=
  workset_wf (ws env) ∧ links_wf (links env).

(** The state of the walk: the environment and the scratch set. *)
Definition walk_inv (st : belady_env_t * workset_t) : Prop :=
  belady_inv st.1 ∧ workset_wf st.2.

(** Block infos are only ever added. *)
Definition links_grow (e e' : belady_env_t) : Prop :=
  ∀ b, is_Some (links e !! b) → is_Some (links e' !! b).

(** The distance of a starter from the block's first instruction, as
    [get_distance] answers it for a value that is not ignored. *)
Definition start_distance (blk v : ir_node) : nat :=
  if flag_dont_spill g v then 0
  else be_get_next_use g (sched_first g blk) 0 v false.

Definition start_loc (blk v : ir_node) : loc_t := Loc v (start_distance blk v).

(** The values a start set is chosen from, in the words of the design: "all
    values live at block entry plus phis defined here", those of them that
    the class is allocated for.  The values live at entry are the block's
    live-in set; the Phis defined in [blk] are the Phis, among the nodes of
    its schedule, whose block is [blk]. *)
Definition live_at_entry (blk : ir_node) : list ir_node :=
  li_irn <$> filter (λ li, li_is_in li = true) (live_foreach g blk).

Definition phis_defined_in (blk : ir_node) : list ir_node :=
  filter (λ v, is_Phi g v = true ∧ get_nodes_block g v = blk) (sched g blk).

Definition entry_values (blk : ir_node) : list ir_node :=
  filter (λ v, arch_irn_consider_in_reg_alloc g cls v = true)
         (live_at_entry blk ++ phis_defined_in blk).

(** The block of the data model, "ordered sequence of instructions, plus a
    phi prefix": the schedule of [blk] is Phis of [blk], then nodes that are
    not Phis. *)
Definition phi_prefix (blk : ir_node) : Prop :=
  ∃ phis rest,
    sched g blk = phis ++ rest
    ∧ Forall (λ v, is_Phi g v = true ∧ get_nodes_block g v = blk) phis
    ∧ Forall (λ v, is_Phi g v = false) rest.

(** Blocks of [U] that have no info yet. *)
Definition unvisited (U : list ir_node) (lk : gmap ir_node block_info_t)
  : list ir_node :=
  filter (λ b, lk !! b = None) U.

(** [U] contains the single predecessors of its blocks. *)
Definition pred_closed (U : list ir_node) : Prop :=
  ∀ b p, b ∈ U → get_Block_cfgpred_blocks g b = [p] → p ∈ U.

(** The value looked for at the end of predecessor [i]: the [i]-th argument
    of a Phi of [blk], the value itself otherwise. *)
Definition edge_value (blk : ir_node) (i : nat) (v : ir_node) : ir_node :=
  if is_Phi g v && bool_decide (blk = get_nodes_block g v)
  then nth i (get_irn_in g v) NULL
  else v.

(** The end set recorded for a block. *)
Definition end_set (lk : gmap ir_node block_info_t) (p : ir_node) : workset_t :=
  default (new_workset n_regs) (lk !! p ≫= ws_end).

(** The reloads a value of the start set asks for on edge [i] from [p]. *)
Definition value_reloads (blk : ir_node) (lk : gmap ir_node block_info_t)
    (i : nat) (p : ir_node) (v : ir_node) : list (ir_node * ir_node * nat) :=
  let v' := edge_value blk i v in
  if is_Unknown g v' || bool_decide (v' ∈ ws_irns (end_set lk p)) then []
  else [(v', blk, i)].

Definition border_reloads (blk : ir_node) (wsb : workset_t)
    (lk : gmap ir_node block_info_t) : list (ir_node * ir_node * nat) :=
  imap (λ i p, (i, p)) (get_Block_cfgpred_blocks g blk)
  ≫= λ ip, ws_irns wsb ≫= value_reloads blk lk ip.1 ip.2.

Definition add_edge_reloads (l : list (ir_node * ir_node * nat))
    (s : spill_env_t) : spill_env_t :=
  SpillEnv (reloads s) (spilled_phis s) (edge_reloads s ++ l).

(** A Phi of [blk] has an argument for edge [i]. *)
Definition has_edge_arg (blk : ir_node) (i : nat) (v : ir_node) : Prop :=
  is_Phi g v = true → blk = get_nodes_block g v → i < length (get_irn_in g v).

End Vocabulary.

End BeladySpec.

Module ChordalSpec.

Import Chordal.

Section Vocabulary.

Variable allocatable_regs : bitset_t.

(** [a] is a subset of [b]. *)
Definition bitset_subset (a b : bitset_t) : Prop :=
  ∀ i, bitset_is_set a i = true → bitset_is_set b i = true.

(** Edges only leave left nodes that exist. *)
Definition edges_bounded (st : constr_state) : Prop :=
  ∀ e, e ∈ bp st → e.1 < n_alloc st.

(** Left node [n] exists and has no edge. *)
Definition unconstrained_left (n : nat) (st : constr_state) : Prop :=
  n < n_alloc st ∧ ∀ c, (n, c) ∉ bp st.

(** An assignment that uses only edges of the graph. *)
Definition respects_edges (st : constr_state) (assignment : list Z) : Prop :=
  ∀ i a, assignment !! i = Some a → (0 ≤ a)%Z → (i, Z.to_nat a) ∈ bp st.

(** Register [i] may be handed out and is not taken in [colors]. *)
Definition free_reg (colors : bitset_t) (i : nat) : Prop :=
  bitset_is_set allocatable_regs i = true ∧ bitset_is_set colors i = false.

End Vocabulary.

End ChordalSpec.

Module ListSchedSpec.

Import ListSched.

Section Vocabulary.

Variable S : Type.
Variable g : sched_graph.
Variable selector : list_sched_selector_t S.
Variable order : nodeset_order.
Variable block : ir_node.
(** The scheduling info when the block is entered. *)
Variable info0 : list sched_irn_t.

Local Abbreviation env_t := (block_sched_env_t S).
Local Abbreviation M := (M S).
Local Abbreviation ins_or_deps := (ins_or_deps g).

(** *** A Hoare logic for [M]

    [hoare P m Q E]: from a state in [P], [m] ends in [Q] with its result or
    stops in [E]. *)
Definition hoare {A} (P : env_t → Prop) (m : M A) (Q : A → env_t → Prop)
    (E : env_t → Prop) : Prop :=
  ∀ env, P env →
    match m env with
    | (Ok a, env') => Q a env'
    | (Err _, env') => E env'
    end.

Definition flagged (info : list sched_irn_t) (u : ir_node) : Prop :=
  ∃ i, info !! u = Some i ∧ already_sched i = true.

(** [u] is marked as already scheduled. *)
Definition already (env : env_t) (u : ir_node) : Prop :=
  flagged (sched_info env) u.

(** The operands of [n] that wait for the scheduler: those of this block,
    blocks apart. *)
Definition local_operand (n u : ir_node) : Prop :=
  u ∈ ins_or_deps n ∧ is_Block g u = false ∧ get_nodes_block g u = block.

Definition operands_done (env : env_t) (n : ir_node) : Prop :=
  ∀ u, local_operand n u → already env u.

(** A node marked as scheduled was marked before the block was entered, or
    does not appear in schedules, or is in the schedule. *)
Definition entered (sch : list ir_node) (u : ir_node) : Prop :=
  flagged info0 u ∨ to_appear_in_schedule g u = false ∨ u ∈ sch.

(** Every scheduled instruction that went through the ready set comes after
    its operands of this block. *)
Definition respects_dag (sch : list ir_node) : Prop :=
  ∀ l1 n l2 u, sch = l1 ++ n :: l2 →
    is_Phi g n = false → be_is_Start g n = false →
    local_operand n u → entered l1 u.

Definition sched_inv (env : env_t) : Prop :=
  (∀ n, n ∈ cands env → operands_done env n)
  ∧ (∀ u, already env u → entered (schedule env) u)
  ∧ respects_dag (schedule env).

(** The invariant, together with a set [K] of nodes known to be marked; as
    no mark is ever taken back, [K] can be any such set. *)
Definition sched_inv_with (K : ir_node → Prop) (env : env_t) : Prop :=
  sched_inv env ∧ ∀ u, K u → already env u.

(** What [add_to_sched] asks of its argument: a Phi, the Start node, a node
    that stays out of the schedule, or a node whose operands are done. *)
Definition addable (env : env_t) (n : ir_node) : Prop :=
  is_Phi g n = true ∨ be_is_Start g n = true
  ∨ to_appear_in_schedule g n = false ∨ operands_done env n.

Definition add_spec (add : ir_node → M unit) : Prop :=
  ∀ K n, hoare (λ env, sched_inv_with K env ∧ addable env n) (add n)
           (λ _, sched_inv_with K) (sched_inv_with K).

(** The selector's contract: [select] returns a member of the ready set. *)
Definition selects_ready : Prop :=
  ∀ s c l, c ≠ [] → (select selector s c l).1 ∈ c.

(** The Start node has no operand in its block. *)
Definition start_without_operands : Prop :=
  ∀ n u, be_is_Start g n = true → ¬ local_operand n u.

End Vocabulary.

End ListSchedSpec.

Module BeladyPassSpec.
Import Belady.
Section Vocabulary.
Variable g : ir_graph.
Variable n_regs : nat.

(** Every block with info has both its sets, the blocks of [P] apart. *)
Definition complete_except (P : ir_node → Prop)
    (lk : gmap ir_node block_info_t) : Prop :=
  ∀ b info, lk !! b = Some info → ¬ P b →
            is_Some (ws_start info) ∧ is_Some (ws_end info).

Definition links_complete (lk : gmap ir_node block_info_t) : Prop :=
  complete_except (λ _, False) lk.

(** No set of [i] is missing in [i']. *)
Definition info_le (i i' : block_info_t) : Prop :=
  (is_Some (ws_start i) → is_Some (ws_start i'))
  ∧ (is_Some (ws_end i) → is_Some (ws_end i')).

(** The same blocks have info, and no set was taken back. *)
Definition links_kept (lk lk' : gmap ir_node block_info_t) : Prop :=
  ∀ b, option_Forall2 info_le (lk !! b) (lk' !! b).

(** The start set recorded for a block. *)
Definition start_set (lk : gmap ir_node block_info_t) (b : ir_node) : workset_t :=
  default (new_workset n_regs) (lk !! b ≫= ws_start).

(** The Phis of [blk] have an argument for each predecessor of [blk]. *)
Definition phi_args_cover (blk : ir_node) : Prop :=
  ∀ v, is_Phi g v = true → get_nodes_block g v = blk →
       length (get_Block_cfgpred_blocks g blk) ≤ length (get_irn_in g v).

End Vocabulary.
End BeladyPassSpec.

Module ColouringSpec.
Import Chordal.
Section Vocabulary.
Variable g : ir_graph.
Variable cls : nat.

(** [v] is marked in the liveness bitset. *)
Definition live_at (st : alloc_state) (v : ir_node) : Prop :=
  bitset_is_set (live st) v = true.

(** The colour mask holds exactly the registers of the live values, and no
    two live values share a register. *)
Definition colouring_inv (st : alloc_state) : Prop :=
  (∀ v, live_at st v →
        ∃ r, registers st !! v = Some r ∧ bitset_is_set (colors st) r = true)
  ∧ (∀ v w r, live_at st v → live_at st w →
              registers st !! v = Some r → registers st !! w = Some r → v = w)
  ∧ (∀ r, bitset_is_set (colors st) r = true →
          ∃ v, live_at st v ∧ registers st !! v = Some r).

(** The live-ins of the class. *)
Definition considered_live_ins (block : ir_node) : list ir_node :=
  filter (λ v, arch_irn_consider_in_reg_alloc g cls v = true) (live_ins g block).

(** The values live after a border event. *)
Definition live_after (block : ir_node) (lv : gset ir_node) (b : border_t)
  : gset ir_node :=
  if is_def b
  then if be_is_live_in g block (b_irn b) then lv else {[b_irn b]} ∪ lv
  else lv ∖ {[b_irn b]}.

(** Every use event of the border list meets a live value. *)
Fixpoint uses_are_live (block : ir_node) (lv : gset ir_node)
    (border : list border_t) : Prop :=
  match border with
  | [] => True
  | b :: rest =>
      (is_def b = false → b_irn b ∈ lv)
      ∧ uses_are_live block (live_after block lv b) rest
  end.

End Vocabulary.
End ColouringSpec.

Module PermProjsSpec.
Import Chordal.
Section Vocabulary.
Variable n_regs : nat.
Variable allocatable_regs : bitset_t.

(** What the loop keeps: the bitset covers the registers of the Projs, the
    registers only grow, only Projs get registers, and a register given in
    the loop is allocatable and not shared with another Proj. *)
Definition projs_inv (projs : list ir_node) (registers0 : gmap ir_node nat)
    (st : bitset_t * gmap ir_node nat) : Prop :=
  (∀ p r, p ∈ projs → st.2 !! p = Some r → bitset_is_set st.1 r = true)
  ∧ (∀ p r, registers0 !! p = Some r → st.2 !! p = Some r)
  ∧ (∀ p, p ∉ projs → st.2 !! p = registers0 !! p)
  ∧ (∀ p r, registers0 !! p = None → st.2 !! p = Some r →
            r < n_regs ∧ bitset_is_set allocatable_regs r = true
            ∧ ∀ q, q ∈ projs → q ≠ p → st.2 !! q ≠ Some r).

End Vocabulary.
End PermProjsSpec.

Module PairingSpec.
Import Chordal.
Import ChordalConstr.
Section Vocabulary.
Variable n_regs : nat.
Variable be_values_interfere : ir_node → bool.
Variable use_start : nat.

(** Bit [c] is one of the [n_regs] bits and set in both. *)
Definition common_reg (a b : bitset_t) (c : nat) : Prop :=
  c < n_regs ∧ bitset_is_set a c = true ∧ bitset_is_set b c = true.

(** In operand [i] may become the partner of [out_op]: it has no partner,
    its value does not interfere and the two allow a common register. *)
Definition pair_cand (ops : list be_operand_t) (out_op : be_operand_t)
    (i : nat) : Prop :=
  use_start ≤ i
  ∧ ∃ op, ops !! i = Some op ∧ partner op = None
          ∧ be_values_interfere (carrier op) = false
          ∧ ∃ c, common_reg (regs op) (regs out_op) c.

(** The number of registers operand [i] allows. *)
Definition n_allowed (ops : list be_operand_t) (i : nat) : nat :=
  default 0 (bitset_popcount n_regs ∘ regs <$> ops !! i).

(** Only the partners differ. *)
Definition same_operands (ops ops' : list be_operand_t) : Prop :=
  carrier <$> ops' = carrier <$> ops ∧ regs <$> ops' = regs <$> ops
  ∧ req_cls <$> ops' = req_cls <$> ops.

(** What the rounds of the out operands before [k] have established: an
    out operand's partner is an in operand that points back, does not
    interfere and shares a register with it; an in operand's partner is an
    out operand whose partner carries the same value; in operands with the
    same value have the same partner. *)
Definition pairing_inv (k : nat) (ops : list be_operand_t) : Prop :=
  (∀ j o s, ops !! j = Some o → j < use_start → partner o = Some s →
     j < k ∧ use_start ≤ s
     ∧ ∃ os, ops !! s = Some os ∧ partner os = Some j
             ∧ be_values_interfere (carrier os) = false
             ∧ ∃ c, common_reg (regs os) (regs o) c)
  ∧ (∀ i o j, ops !! i = Some o → use_start ≤ i → partner o = Some j →
       j < k ∧ j < use_start
       ∧ ∃ oj s os, ops !! j = Some oj ∧ partner oj = Some s
                    ∧ ops !! s = Some os ∧ carrier os = carrier o)
  ∧ (∀ i i' o o', ops !! i = Some o → ops !! i' = Some o' →
       use_start ≤ i → use_start ≤ i' → carrier o = carrier o' →
       partner o = partner o').

End Vocabulary.
End PairingSpec.

Module MatchingSpec.
Import Chordal.
Section Vocabulary.

(** The left nodes are distinct and not [NULL], the partner of a left node
    is no left node, and no two left nodes have the same partner. *)
Definition clean_pairs (st : constr_state) : Prop :=
  NoDup (alloc_nodes st)
  ∧ (∀ a, a ∈ alloc_nodes st → a ≠ NULL)
  ∧ ∀ a p, a ∈ alloc_nodes st → partners st !! a = Some (Some p) →
           (p ∉ alloc_nodes st)
           ∧ ∀ a', a' ∈ alloc_nodes st → partners st !! a' = Some (Some p) →
                   a' = a.

(** Whoever is recorded as a partner has an entry of its own. *)
Definition partners_closed (st : constr_state) : Prop :=
  ∀ a p, partners st !! a = Some (Some p) → is_Some (partners st !! p).

(** What the loop over the Projs of the Perm keeps of the state [st0] it
    starts from: the pairs stay clean and closed, the left nodes of [st0]
    keep their places and every entry of the partner map of [st0] its
    value, and a new entry belongs to a left node. *)
Definition perm_users_inv (st0 st : constr_state) : Prop :=
  clean_pairs st ∧ partners_closed st
  ∧ (∃ added, alloc_nodes st = alloc_nodes st0 ++ added)
  ∧ (∀ k, is_Some (partners st0 !! k) → partners st !! k = partners st0 !! k)
  ∧ (∀ k, is_Some (partners st !! k) →
          is_Some (partners st0 !! k) ∨ k ∈ alloc_nodes st).

Variable use_start : nat.

(** The value of the partner of an operand. *)
Definition partner_carrier (ops : list be_operand_t) (o : be_operand_t)
  : option ir_node :=
  partner o ≫= λ s, carrier <$> ops !! s.

(** Operand [i] becomes a left node: an out operand, or an in operand
    without partner. *)
Definition left_op (i : nat) (o : be_operand_t) : Prop :=
  i < use_start ∨ partner o = None.

(** The operands as [pair_up_operands] leaves them, for an instruction in
    SSA form: partners point at each other across the out and the in
    operands, in operands with the same value have the same partner, the
    value of an out operand is the value of no other operand, and no value
    is [NULL]. *)
Definition paired_operands (ops : list be_operand_t) : Prop :=
  (∀ j o s, ops !! j = Some o → j < use_start → partner o = Some s →
     use_start ≤ s ∧ ∃ os, ops !! s = Some os ∧ partner os = Some j)
  ∧ (∀ i o j, ops !! i = Some o → use_start ≤ i → partner o = Some j →
       j < use_start
       ∧ ∃ oj s os, ops !! j = Some oj ∧ partner oj = Some s
                    ∧ ops !! s = Some os ∧ carrier os = carrier o)
  ∧ (∀ i i' o o', ops !! i = Some o → ops !! i' = Some o' →
       use_start ≤ i → use_start ≤ i' → carrier o = carrier o' →
       partner o = partner o')
  ∧ (∀ j i o o', ops !! j = Some o → ops !! i = Some o' → j < use_start →
       carrier o = carrier o' → j = i)
  ∧ (∀ o, o ∈ ops → carrier o ≠ NULL).

(** The state of the operand loop of [handle_constraints] after the first
    [k] operands. *)
Definition handle_inv (ops : list be_operand_t) (k : nat) (st : constr_state)
  : Prop :=
  NoDup (alloc_nodes st)
  ∧ (∀ a, a ∈ alloc_nodes st ↔
          ∃ i o, i < k ∧ ops !! i = Some o ∧ carrier o = a ∧ left_op i o)
  ∧ (∀ i o, i < k → ops !! i = Some o → left_op i o →
            partners st !! carrier o = Some (partner_carrier ops o))
  ∧ (∀ m, is_Some (partners st !! m) →
          ∃ i o, i < k ∧ ops !! i = Some o ∧ left_op i o
                 ∧ (carrier o = m ∨ partner_carrier ops o = Some m)).

End Vocabulary.
End MatchingSpec.

Module LocalSchedSpec.
Import ListSched.
Import ListSchedSpec.

Section Vocabulary.

Variable S : Type.
Variable g : sched_graph.
Variable block : ir_node.
Variable info0 : list sched_irn_t.

Local Abbreviation env_t := (block_sched_env_t S).

(** The Phis and the Start node among the users of the block node are nodes
    of the block. *)
Definition block_users_local : Prop :=
  ∀ n, n ∈ out_edges g block →
       is_Phi g n = true ∨ be_is_Start g n = true →
       get_nodes_block g n = block.

(** A node that is scheduled in this block. *)
Definition local_node (n : ir_node) : Prop := get_nodes_block g n = block.

(** The ready set and the schedule hold nodes of the block that appear in
    schedules; a mark is from before the block or on a node of the block. *)
Definition local_inv (env : env_t) : Prop :=
  (∀ n, n ∈ cands env → local_node n ∧ to_appear_in_schedule g n = true)
  ∧ (∀ n, n ∈ schedule env → local_node n ∧ to_appear_in_schedule g n = true)
  ∧ (∀ u, already S env u → flagged info0 u ∨ local_node u)
  ∧ (∀ u, flagged info0 u → already S env u).

(** Changes that leave the marks, the ready set and the schedule alone. *)
Definition same_core (env env' : env_t) : Prop :=
  (∀ u, already S env' u ↔ already S env u)
  ∧ cands env' = cands env ∧ schedule env' = schedule env.

Definition core_stable (I : env_t → Prop) : Prop :=
  ∀ env env', same_core env env' → I env → I env'.

End Vocabulary.

End LocalSchedSpec.

Module BeNodeSpec.
Import BeNode.
Section Vocabulary.
Variable arch_register_req_t : Type.

(** The attribute is the one of the node's opcode. *)
Definition node_wf (n : be_node arch_register_req_t) : Prop :=
  attr_fits (opcode _ n) (attr _ n) = true.

(** Every input has its entry in [reg_data]. *)
Definition reqs_cover (n : be_node arch_register_req_t) : Prop :=
  get_irn_arity _ n ≤ length (reg_data _ n).

End Vocabulary.
End BeNodeSpec.

Module PhiReqSpec.

Section Vocabulary.

Variable g : ir_graph.

(** [q] is [p] or a Phi reached from [p] through operands that are Phis. *)
Definition phi_chain : ir_node → ir_node → Prop :=
  rtc (λ a b, b ∈ get_irn_in g a ∧ is_Phi g b = true).

(** [op] is an operand that is no Phi, of [p] or of a Phi on a chain from
    [p]. *)
Definition reaches_operand (p op : ir_node) : Prop :=
  ∃ q, phi_chain p q ∧ op ∈ get_irn_in g q ∧ is_Phi g op = false.

(** [U] holds the Phis among the operands of its members. *)
Definition phi_closed (U : gset ir_node) : Prop :=
  ∀ q op, q ∈ U → op ∈ get_irn_in g q → is_Phi g op = true → op ∈ U.

(** What a call of the search on [phi] with the visited set [v] returns:
    the set has grown, inside [U]; a requirement is that of an operand
    reached from [phi]; without one, [phi] is visited and every newly
    visited node has only Phis as operands, all visited. *)
Definition search_post (arch_register_req_t : Type)
    (arch_get_register_req_out : ir_node → arch_register_req_t)
    (U : gset ir_node) (phi : ir_node) (v : option (gset ir_node))
    (r : option arch_register_req_t * option (gset ir_node)) : Prop :=
  default ∅ v ⊆ default ∅ r.2 ∧ default ∅ r.2 ⊆ default ∅ v ∪ U
  ∧ match r.1 with
    | Some req =>
        ∃ op, reaches_operand phi op ∧ req = arch_get_register_req_out op
    | None =>
        phi ∈ default ∅ r.2
        ∧ ∀ x, x ∈ default ∅ r.2 → x ∉ default ∅ v →
               ∀ op, op ∈ get_irn_in g x →
                     is_Phi g op = true ∧ op ∈ default ∅ r.2
    end.

End Vocabulary.

End PhiReqSpec.


(** * Example graphs *)

(** A graph without Phis or blocks of interest: every node is an ordinary
    value of class 0, not ignored, next used after 7 steps. *)
Definition plain_graph : ir_graph :=
  {| is_Phi := λ _, false; is_Proj := λ _, false; is_Block := λ _, false;
     is_End := λ _, false; is_Unknown := λ _, false; is_mode_T := λ _, false;
     get_nodes_block := λ _, 1; get_irn_in := λ _, [];
     get_irn_deps := λ _, []; get_Block_cfgpred_blocks := λ _, [];
     get_irg_start_block := 1; sched := λ _, []; live_foreach := λ _, [];
     irn_reg_class := λ _, 0; flag_ignore := λ _, false;
     flag_dont_spill := λ _, false; be_get_next_use := λ _ _ _ _, 7 |}.

(** A loop and its exit.
<<
      block 1 (start):  10 = a;  11 = b
      block 2 (preds 1, 2):  20 = Phi(10, 21);  21 = op(20)
      block 3 (pred 2):  30 = c
>>
    [b] is live through block 2; the Phi 20 and [b] are used again after
    node 30. *)
Definition loop_graph : ir_graph :=
  {| is_Phi := λ n, bool_decide (n = 20);
     is_Proj := λ _, false;
     is_Block := λ n, bool_decide (n ∈ [1; 2; 3]);
     is_End := λ _, false; is_Unknown := λ _, false; is_mode_T := λ _, false;
     get_nodes_block := λ n, n `div` 10;
     get_irn_in := λ n, match n with
                        | 20 => [10; 21]
                        | 21 => [20]
                        | _ => []
                        end;
     get_irn_deps := λ _, [];
     get_Block_cfgpred_blocks := λ b, match b with
                                      | 2 => [1; 2]
                                      | 3 => [2]
                                      | _ => []
                                      end;
     get_irg_start_block := 1;
     sched := λ b, match b with
                   | 1 => [10; 11]
                   | 2 => [20; 21]
                   | 3 => [30]
                   | _ => []
                   end;
     live_foreach := λ b, match b with
                          | 2 => [LiveEntry 11 true]
                          | 3 => [LiveEntry 11 true; LiveEntry 20 true;
                                  LiveEntry 21 true]
                          | _ => []
                          end;
     irn_reg_class := λ _, 0;
     flag_ignore := λ _, false;
     flag_dont_spill := λ _, false;
     be_get_next_use := λ from _ def _,
       match def, from with
       | 20, 20 => 1
       | 20, 21 => 5
       | 20, _ => 9
       | 21, _ => 2
       | 11, _ => 7
       | _, _ => 4
       end |}.

(** The loop block for the scheduler.
<<
      block 1:  10 = a;  11 = b
      block 2 (preds 1, 2):  20 = Phi(10, 22);  21 = op(11);  22 = op(20, 21)
>>
    Every node appears in schedules. *)
Definition sched_loop_irg : ir_graph :=
  {| is_Phi := λ n, bool_decide (n = 20);
     is_Proj := λ _, false;
     is_Block := λ n, bool_decide (n ∈ [1; 2]);
     is_End := λ _, false; is_Unknown := λ _, false; is_mode_T := λ _, false;
     get_nodes_block := λ n, n `div` 10;
     get_irn_in := λ n, match n with
                        | 20 => [10; 22]
                        | 21 => [11]
                        | 22 => [20; 21]
                        | _ => []
                        end;
     get_irn_deps := λ _, [];
     get_Block_cfgpred_blocks := λ b, match b with
                                      | 2 => [1; 2]
                                      | _ => []
                                      end;
     get_irg_start_block := 1;
     sched := λ _, [];
     live_foreach := λ _, [];
     irn_reg_class := λ _, 0;
     flag_ignore := λ _, false;
     flag_dont_spill := λ _, false;
     be_get_next_use := λ _ _ _ _, 1 |}.

Definition sched_loop_graph : ListSched.sched_graph :=
  {| ListSched.irg := sched_loop_irg;
     ListSched.out_edges := λ n, match n with
                                 | 1 => [10; 11]
                                 | 2 => [20; 21; 22]
                                 | 10 => [20]
                                 | 11 => [21]
                                 | 20 => [22]
                                 | 21 => [22]
                                 | 22 => [20]
                                 | _ => []
                                 end;
     ListSched.dep_out_edges := λ _, [];
     ListSched.is_Anchor := λ _, false;
     ListSched.be_is_Start := λ _, false;
     ListSched.be_is_Keep := λ _, false;
     ListSched.be_is_CopyKeep := λ _, false;
     ListSched.is_Sync := λ _, false;
     ListSched.mode_is_datab := λ _, true;
     ListSched.skip_Proj := λ n, n;
     ListSched.to_appear_in_schedule := λ _, true |}.

(** The selector that takes the first node of the ready set. *)
Definition first_selector : ListSched.list_sched_selector_t unit :=
  {| ListSched.node_ready := λ s _ _, s;
     ListSched.select := λ s c _, (hd NULL c, s);
     ListSched.node_selected := λ s _, s |}.

(** Scheduling info for 40 nodes, nothing scheduled yet. *)
Definition fresh_sched_info : list ListSched.sched_irn_t :=
  replicate 40 (ListSched.SchedIrn 0 false).

(** Block 3 of [loop_graph] when its walk reaches the definition of node 30:
    the working set is the end set of block 2, nothing was used so far. *)
Definition loop_ws3 : Belady.workset_t :=
  Belady.Workset 2 [Belady.Loc 20 5; Belady.Loc 21 7].

Definition loop_env3 : Belady.belady_env_t :=
  Belady.BeladyEnv loop_ws3 30 0 ∅ (Belady.SpillEnv [] [] [])
    {[ 3 := Belady.BlockInfo (Some loop_ws3) None ]}.

Definition loop_new_vals3 : Belady.workset_t :=
  Belady.Workset 1 [Belady.Loc 30 0; Belady.Loc 0 0].

(** A state before the border fixup in which the end set of block 2 misses
    the Phi argument 21 and the live-through value 11. *)
Definition borders_env : Belady.belady_env_t :=
  Belady.BeladyEnv (Belady.Workset 0 [Belady.Loc 0 0; Belady.Loc 0 0]) 0 0 ∅
    (Belady.SpillEnv [] [] [])
    {[ 1 := Belady.BlockInfo
              (Some (Belady.Workset 0 [Belady.Loc 0 0; Belady.Loc 0 0]))
              (Some (Belady.Workset 2 [Belady.Loc 10 0; Belady.Loc 11 0]));
       2 := Belady.BlockInfo
              (Some (Belady.Workset 2 [Belady.Loc 20 1; Belady.Loc 11 7]))
              (Some (Belady.Workset 1 [Belady.Loc 20 5; Belady.Loc 30 7])) ]}.


(** ** Inputs for the further properties *)

(** A full working set of two registers. *)
Definition full_ws : Belady.workset_t :=
  Belady.Workset 2 [Belady.Loc 10 0; Belady.Loc 11 0].

(** An instruction with the out operand 20 and the in operands 10 and 11 on
    three registers: 20 and 10 allow [{r0, r1}], 11 allows [{r1, r2}]; no
    operand is paired yet. *)
Definition insn_ops : list Chordal.be_operand_t :=
  [Chordal.Operand 20 3%Z 0 None; Chordal.Operand 10 3%Z 0 None;
   Chordal.Operand 11 6%Z 0 None].

(** The same operands after the out operand was paired with the first in
    operand. *)
Definition insn_ops_paired : list Chordal.be_operand_t :=
  [Chordal.Operand 20 3%Z 0 (Some 1); Chordal.Operand 10 3%Z 0 (Some 0);
   Chordal.Operand 11 6%Z 0 None].

(** A Perm of three values with a requirement of its own on every input and
    output. *)
Definition perm3 : BeNode.be_node nat :=
  BeNode.Node nat BeNode.beo_Perm [10; 11; 12] [1; 2; 3]
    [BeNode.OutInfo nat None 1; BeNode.OutInfo nat None 2;
     BeNode.OutInfo nat None 3] BeNode.attr_node.

(** A Spill of value 11 without entity. *)
Definition spill_node : BeNode.be_node nat :=
  BeNode.Node nat BeNode.beo_Spill [10; 11] [0; 1]
    [BeNode.OutInfo nat None 0] (BeNode.attr_frame None 0).

(** A graph in which node 30 is a Proj (of the Perm placed before the
    instruction of [insn_ops]). *)
Definition perm_graph : ir_graph :=
  {| is_Phi := λ _, false; is_Proj := λ n, bool_decide (n = 30);
     is_Block := λ _, false;
     is_End := λ _, false; is_Unknown := λ _, false; is_mode_T := λ _, false;
     get_nodes_block := λ _, 1; get_irn_in := λ _, [];
     get_irn_deps := λ _, []; get_Block_cfgpred_blocks := λ _, [];
     get_irg_start_block := 1; sched := λ _, []; live_foreach := λ _, [];
     irn_reg_class := λ _, 0; flag_ignore := λ _, false;
     flag_dont_spill := λ _, false; be_get_next_use := λ _ _ _ _, 7 |}.

(** * Properties *)

(** ** The result monad and loops *)

Lemma bind_Ok {A B} (m : result A) (k : A → result B) b :
  m ≫= k = Ok b → ∃ a, m = Ok a ∧ k a = Ok b.
Proof. destruct m as [a|e]; simpl; [eauto | discriminate]. Qed.

Lemma assert_Ok b u : assert_ b = Ok u → b = true.
Proof. destruct b; [done | discriminate]. Qed.

(** Splits a hypothesis [x ← m; k = Ok r] into its two halves. *)
Tactic Notation "inv_bind" hyp(H) :=
  let a := fresh "a" in
  let Ha := fresh "Ha" in
  apply bind_Ok in H; destruct H as (a & Ha & H).

Tactic Notation "inv_bind" hyp(H) "as" ident(a) ident(Ha) :=
  apply bind_Ok in H; destruct H as (a & Ha & H).

Ltac inv_Ok H := injection H as H; try subst.

Lemma foldM_app {A S} (f : S → A → result S) l1 l2 s :
  foldM f (l1 ++ l2) s = (s' ← foldM f l1 s; foldM f l2 s').
Proof.
  revert s; induction l1 as [|x l1 IH]; intros s; simpl; [done|].
  destruct (f s x); simpl; [apply IH | done].
Qed.

(** An invariant of the loop body is an invariant of the loop. *)
Lemma foldM_invariant {A S} (P : S → Prop) (f : S → A → result S) l :
  (∀ s x s', x ∈ l → P s → f s x = Ok s' → P s') →
  ∀ s s', P s → foldM f l s = Ok s' → P s'.
Proof.
  induction l as [|x l IH]; intros Hf s s' Hs H; simpl in H.
  - by inversion H; subst.
  - inv_bind H. eapply IH; [| |exact H].
    + intros t y t' Hy Ht Hfy. eapply Hf; [by right | exact Ht | exact Hfy].
    + eapply Hf; [by left | exact Hs | exact Ha].
Qed.

(** A loop whose body cannot fail under the invariant does not fail. *)
Lemma foldM_total {A S} (P : S → Prop) (f : S → A → result S) l :
  (∀ s x, x ∈ l → P s → ∃ s', f s x = Ok s' ∧ P s') →
  ∀ s, P s → ∃ s', foldM f l s = Ok s' ∧ P s'.
Proof.
  induction l as [|x l IH]; intros Hf s Hs; simpl; [eauto|].
  destruct (Hf s x) as (s1 & -> & Hs1); [by left | done |]. simpl.
  apply IH; [|done]. intros t y Hy Ht. apply Hf; [by right | done].
Qed.

(** ** Working sets *)

Section WorksetFacts.

Import Belady.

Variable g : ir_graph.
Variable cls : nat.
Variable n_regs : nat.

Local Abbreviation workset_wf := (workset_wf n_regs).
Local Abbreviation workset_insert := (workset_insert g cls n_regs).
Local Abbreviation new_workset := (new_workset n_regs).
Local Abbreviation consider := (arch_irn_consider_in_reg_alloc g cls).

Lemma new_workset_wf : workset_wf new_workset.
Proof. split; simpl; [apply length_replicate | lia]. Qed.

Lemma ws_irns_length w : workset_wf w → length (ws_irns w) = len w.
Proof.
  intros [Hl Hn]. unfold ws_irns. rewrite length_fmap, length_take. lia.
Qed.

Lemma workset_contains_true w val :
  workset_contains w val = true ↔ val ∈ ws_irns w.
Proof. unfold workset_contains. apply bool_decide_eq_true. Qed.

Lemma workset_contains_false w val :
  workset_contains w val = false ↔ val ∉ ws_irns w.
Proof. unfold workset_contains. apply bool_decide_eq_false. Qed.

(** Taking a free slot appends the value to the visited sequence. *)
Lemma ws_irns_take_slot w val :
  len w < length (vals w) →
  ws_irns (Workset (S (len w)) (alter (set_irn val) (len w) (vals w)))
  = ws_irns w ++ [val].
Proof.
  intros Hlt. unfold ws_irns; simpl.
  destruct (lookup_lt_is_Some_2 (vals w) (len w) Hlt) as [x Hx].
  rewrite (take_S_r _ _ (set_irn val x)).
  - rewrite take_alter_ge by lia. by rewrite fmap_app.
  - by rewrite list_lookup_alter_eq, Hx.
Qed.

(** The three ways [workset_insert] can end well. *)
Lemma workset_insert_cases w val w' :
  workset_wf w →
  workset_insert w val = Ok w' →
  (w' = w ∧ (consider val = false ∨ val ∈ ws_irns w))
  ∨ (consider val = true ∧ (val ∉ ws_irns w) ∧ len w < n_regs
     ∧ len w' = S (len w) ∧ length (vals w') = length (vals w)
     ∧ ws_irns w' = ws_irns w ++ [val]).
Proof.
  intros [Hl Hn] H. unfold Belady.workset_insert in H.
  destruct (consider val) eqn:Hc; simpl in H; [|inv_Ok H; auto].
  destruct (workset_contains w val) eqn:Hin.
  { inv_Ok H. left. split; [done|]. right. by apply workset_contains_true. }
  inv_bind H. apply assert_Ok, bool_decide_eq_true in Ha. inv_Ok H.
  right. split_and!; simpl; try done.
  - by apply workset_contains_false.
  - apply length_alter.
  - apply ws_irns_take_slot. lia.
Qed.

Lemma workset_insert_wf w val w' :
  workset_wf w → workset_insert w val = Ok w' → workset_wf w'.
Proof.
  intros Hwf H. destruct (workset_insert_cases _ _ _ Hwf H)
    as [[-> _]|(_ & _ & Hlt & Hlen & Hvals & _)]; [done|].
  destruct Hwf as [Hl Hn]. split; [congruence | lia].
Qed.

Lemma workset_insert_NoDup w val w' :
  workset_wf w → NoDup (ws_irns w) → workset_insert w val = Ok w' →
  NoDup (ws_irns w').
Proof.
  intros Hwf Hnd H. destruct (workset_insert_cases _ _ _ Hwf H)
    as [[-> _]|(_ & Hnin & _ & _ & _ & ->)]; [done|].
  apply NoDup_app. split_and!; [done | | apply NoDup_singleton].
  intros x Hx Hx'. apply list_elem_of_singleton in Hx'. by subst.
Qed.

Lemma workset_insert_contained w val :
  val ∈ ws_irns w → workset_insert w val = Ok w.
Proof.
  intros Hin. unfold Belady.workset_insert.
  destruct (consider val); simpl; [|done].
  apply workset_contains_true in Hin. by rewrite Hin.
Qed.

Lemma workset_insert_dropped w val :
  consider val = false → workset_insert w val = Ok w.
Proof. intros Hc. unfold Belady.workset_insert. by rewrite Hc. Qed.

End WorksetFacts.

Section InsertIdempotent.

Import Belady.

Variable g : ir_graph.
Variable cls : nat.
Variable n_regs : nat.

Local Abbreviation workset_wf := (workset_wf n_regs).
Local Abbreviation workset_insert := (workset_insert g cls n_regs).
Local Abbreviation new_workset := (new_workset n_regs).

Lemma inserts_NoDup l : ∀ w w',
  workset_wf w → NoDup (ws_irns w) → foldM workset_insert l w = Ok w' →
  workset_wf w' ∧ NoDup (ws_irns w').
Proof.
  intros w w' Hwf Hnd H.
  apply (foldM_invariant (λ w, workset_wf w ∧ NoDup (ws_irns w))
           workset_insert l) with (s := w); [|done|done].
  intros s x s' _ [Hs1 Hs2] Hx. split.
  - by eapply workset_insert_wf.
  - by eapply workset_insert_NoDup.
Qed.

(** C9: [workset_insert] is idempotent and keeps worksets free of duplicates.
    Inserting a value that is already contained, that belongs to another
    register class, or that is flagged ignore returns the workset as it was
    (same length, same array); inserting a value twice gives what inserting
    it once gives (also when the insert fails on a full workset); an insert
    into a duplicate-free workset leaves it duplicate-free, so every workset
    filled by inserts into a fresh one is duplicate-free. *)
Theorem workset_insert_idempotent (w : workset_t) (val : ir_node) :
  workset_wf w →
  (val ∈ ws_irns w ∨ irn_reg_class g val ≠ cls ∨ flag_ignore g val = true →
   workset_insert w val = Ok w)
  ∧ (w' ← workset_insert w val; workset_insert w' val) = workset_insert w val
  ∧ (NoDup (ws_irns w) →
     ∀ w', workset_insert w val = Ok w' →
           NoDup (ws_irns w') ∧ len w ≤ len w' ≤ S (len w))
  ∧ (∀ l w', foldM workset_insert l new_workset = Ok w' → NoDup (ws_irns w')).
Proof.
  intros Hwf. split_and!.
  - intros [Hin|[Hc|Hi]].
    + by apply workset_insert_contained.
    + apply workset_insert_dropped. unfold arch_irn_consider_in_reg_alloc.
      by rewrite bool_decide_eq_false_2.
    + apply workset_insert_dropped. unfold arch_irn_consider_in_reg_alloc.
      rewrite Hi. apply andb_false_r.
  - destruct (workset_insert w val) as [w'|e] eqn:H; simpl; [|done].
    destruct (workset_insert_cases _ _ _ _ _ _ Hwf H)
      as [[-> _]|(_ & _ & _ & _ & _ & Hirns)]; [done|].
    apply workset_insert_contained. rewrite Hirns.
    apply elem_of_app. right. by left.
  - intros Hnd w' H. split; [by eapply workset_insert_NoDup|].
    destruct (workset_insert_cases _ _ _ _ _ _ Hwf H)
      as [[-> _]|(_ & _ & _ & -> & _)]; lia.
  - intros l w' H. eapply inserts_NoDup; [apply new_workset_wf| |exact H].
    unfold ws_irns; simpl. apply NoDup_nil_2.
Qed.

End InsertIdempotent.

Lemma workset_insert_idempotent_witness :
  Belady.workset_wf 2 (Belady.Workset 1 [Belady.Loc 5 0; Belady.Loc 0 0])
  ∧ (w' ← Belady.workset_insert plain_graph 0 2
             (Belady.Workset 1 [Belady.Loc 5 0; Belady.Loc 0 0]) 6;
     Belady.workset_insert plain_graph 0 2 w' 6)
    = Ok (Belady.Workset 2 [Belady.Loc 5 0; Belady.Loc 6 0]).
Proof.
  assert (Hwf : Belady.workset_wf 2
                  (Belady.Workset 1 [Belady.Loc 5 0; Belady.Loc 0 0])).
  { split; simpl; lia. }
  split; [exact Hwf|].
  rewrite (proj1 (proj2 (workset_insert_idempotent plain_graph 0 2 _ 6 Hwf))).
  reflexivity.
Defined.

(** ** [displace] *)

Section DisplaceFacts.

Import Belady.
Import BeladySpec.

Variable g : ir_graph.
Variable cls : nat.
Variable n_regs : nat.
Variable sorter : loc_sorter.

Local Abbreviation workset_wf := (workset_wf n_regs).
Local Abbreviation workset_insert := (workset_insert g cls n_regs).
Local Abbreviation consider := (arch_irn_consider_in_reg_alloc g cls).
Local Abbreviation displace_scan := (displace_scan n_regs).
Local Abbreviation get_distance := (get_distance g).
Local Abbreviation update_time := (update_time g).
Local Abbreviation dispose := (dispose g).
Local Abbreviation make_room := (make_room g sorter).
Local Abbreviation displace := (displace g cls n_regs sorter).

Local Abbreviation distance_of := (distance_of g).
Local Abbreviation retime := (retime g).
Local Abbreviation has_start_set := (has_start_set g).
Local Abbreviation resorted := (resorted g sorter).

Lemma scanned_nil is_usage env : scanned is_usage [] env = env.
Proof.
  destruct env as [w i n u [r s e] l], is_usage; unfold BeladySpec.scanned, BeladySpec.not_resident;
    simpl; [|done].
  unfold set_senv, set_used; simpl. rewrite app_nil_r.
  f_equal. apply (left_id_L ∅ (∪)).
Qed.

Lemma displace_scan_resident is_usage env acc val :
  val ∈ ws_irns (ws env) →
  displace_scan is_usage (env, acc) val
  = Ok (if is_usage then set_used ({[val]} ∪ used env) env else env, acc).
Proof.
  intros Hin. unfold Belady.displace_scan; simpl.
  apply workset_contains_true in Hin.
  destruct is_usage; simpl; by rewrite Hin.
Qed.

Lemma displace_scan_new is_usage env acc val :
  val ∉ ws_irns (ws env) → length acc < n_regs →
  displace_scan is_usage (env, acc) val
  = Ok (if is_usage
        then set_senv (be_add_reload val (instr env) (senv env))
               (set_used ({[val]} ∪ used env) env)
        else env, acc ++ [val]).
Proof.
  intros Hin Hlt. unfold Belady.displace_scan; simpl.
  apply workset_contains_false in Hin.
  destruct is_usage; simpl; rewrite Hin; simpl;
    by rewrite bool_decide_eq_true_2.
Qed.

Lemma displace_scan_full is_usage env acc val :
  val ∉ ws_irns (ws env) → ¬ length acc < n_regs →
  displace_scan is_usage (env, acc) val = Err out_of_bounds.
Proof.
  intros Hin Hlt. unfold Belady.displace_scan; simpl.
  apply workset_contains_false in Hin.
  destruct is_usage; simpl; rewrite Hin; simpl;
    by rewrite bool_decide_eq_false_2.
Qed.

Lemma scanned_cons_resident is_usage val l env :
  val ∈ ws_irns (ws env) →
  scanned is_usage l
    (if is_usage then set_used ({[val]} ∪ used env) env else env)
  = scanned is_usage (val :: l) env.
Proof.
  intros Hin. destruct env as [w i n u [r s e] lk], is_usage; [|done].
  unfold BeladySpec.scanned, BeladySpec.not_resident, set_senv, set_used; simpl in *.
  rewrite filter_cons_False by (intros H; by apply H).
  f_equal. by rewrite (assoc_L (∪)), (comm_L (∪) (list_to_set l)).
Qed.

Lemma scanned_cons_new is_usage val l env :
  val ∉ ws_irns (ws env) →
  scanned is_usage l
    (if is_usage
     then set_senv (be_add_reload val (instr env) (senv env))
            (set_used ({[val]} ∪ used env) env)
     else env)
  = scanned is_usage (val :: l) env.
Proof.
  intros Hin. destruct env as [w i n u [r s e] lk], is_usage; [|done].
  unfold BeladySpec.scanned, BeladySpec.not_resident, set_senv, set_used, be_add_reload; simpl in *.
  rewrite filter_cons_True by done. simpl. rewrite <- app_assoc. simpl.
  f_equal. by rewrite (assoc_L (∪)), (comm_L (∪) (list_to_set l)).
Qed.

Lemma scanned_ws is_usage l env : ws (scanned is_usage l env) = ws env.
Proof. by destruct is_usage. Qed.
Lemma scanned_links is_usage l env : links (scanned is_usage l env) = links env.
Proof. by destruct is_usage. Qed.
Lemma scanned_instr is_usage l env : instr (scanned is_usage l env) = instr env.
Proof. by destruct is_usage. Qed.
Lemma scanned_instr_nr is_usage l env :
  instr_nr (scanned is_usage l env) = instr_nr env.
Proof. by destruct is_usage. Qed.

(** Step 1 as a whole: it succeeds exactly when [to_insert] does not
    overflow, and then yields the non-resident values in order. *)
Lemma displace_scan_loop is_usage l : ∀ env acc,
  foldM (displace_scan is_usage) l (env, acc)
  = if bool_decide (length (acc ++ not_resident (ws env) l) ≤ n_regs
                    ∨ not_resident (ws env) l = [])
    then Ok (scanned is_usage l env, acc ++ not_resident (ws env) l)
    else Err out_of_bounds.
Proof.
  induction l as [|val l IH]; intros env acc; simpl.
  { rewrite bool_decide_eq_true_2 by (by right).
    by rewrite scanned_nil, app_nil_r. }
  destruct (decide (val ∈ ws_irns (ws env))) as [Hin|Hin].
  - rewrite displace_scan_resident by done. simpl. rewrite IH.
    assert (Hws : ws (if is_usage then set_used ({[val]} ∪ used env) env else env)
                  = ws env) by (by destruct is_usage).
    rewrite Hws, scanned_cons_resident by done.
    unfold BeladySpec.not_resident.
    rewrite (filter_cons_False _ val) by (intros H; by apply H). done.
  - destruct (decide (length acc < n_regs)) as [Hlt|Hlt].
    + rewrite displace_scan_new by done. simpl. rewrite IH.
      assert (Hws : ws (if is_usage
                        then set_senv (be_add_reload val (instr env) (senv env))
                               (set_used ({[val]} ∪ used env) env)
                        else env) = ws env) by (by destruct is_usage).
      rewrite Hws, scanned_cons_new by done.
      unfold BeladySpec.not_resident. rewrite (filter_cons_True _ val) by done.
      rewrite <- app_assoc. simpl.
      apply (f_equal (λ b : bool, if b then _ else _)).
      apply bool_decide_ext. rewrite !length_app. simpl.
      split; [intros [H|H]; [by left|left] | intros [H|H]; [by left|done]].
      rewrite H. simpl. lia.
    + rewrite displace_scan_full by done. simpl.
      rewrite bool_decide_eq_false_2; [done|].
      unfold BeladySpec.not_resident. rewrite (filter_cons_True _ val) by done.
      rewrite length_app. simpl. intros [H|H]; [lia|done].
Qed.

Lemma set_ws_same env : set_ws (ws env) env = env.
Proof. by destruct env. Qed.

(** C10: a definition ([is_usage = 0]) of a value that is already in the
    working set does not abort [displace].  The guard
    [assert(is_usage || "Defined value already in workset?!?")] has a string
    literal, hence a true value, as its second disjunct, so it holds also for
    [is_usage = 0]; the round of step 1 for such a value leaves the
    environment and [to_insert] (hence [demand]) as they were, in particular
    no reload is recorded; over a whole [new_vals] the value never shows up
    in [to_insert] and [is_usage = 0] records no reload at all; and when the
    value is all of [new_vals], the call returns the environment unchanged. *)
Theorem displace_def_resident_skipped env new_vals to_insert val :
  val ∈ ws_irns (ws env) →
  assert_ (false || string_literal_is_true "Defined value already in workset?!?")
  = Ok tt
  ∧ displace_scan false (env, to_insert) val = Ok (env, to_insert)
  ∧ (∀ st, foldM (displace_scan false) (ws_irns new_vals) (env, to_insert) = Ok st →
       (val ∉ not_resident (ws env) (ws_irns new_vals))
       ∧ st.2 = to_insert ++ not_resident (ws env) (ws_irns new_vals)
       ∧ st.1 = env)
  ∧ (workset_wf (ws env) → ws_irns new_vals = [val] →
     displace env new_vals false = Ok env).
Proof.
  intros Hin. split_and!.
  - reflexivity.
  - by rewrite displace_scan_resident.
  - intros st H. rewrite displace_scan_loop in H.
    case_bool_decide; [|done]. inv_Ok H. simpl. split_and!; [|done|done].
    unfold BeladySpec.not_resident. rewrite list_elem_of_filter. tauto.
  - intros [Hl Hn] Hnv. unfold Belady.displace. rewrite Hnv. simpl.
    rewrite displace_scan_resident by done. simpl.
    unfold Belady.make_room, workset_get_length.
    rewrite bool_decide_eq_false_2 by lia. simpl.
    by rewrite set_ws_same.
Qed.

(** *** Step 2: new times, sort, dispose *)

Lemma get_distance_not_ignored env is_usage v :
  flag_ignore g v = false →
  get_distance (instr env) (instr_nr env) v (negb is_usage)
  = Ok (distance_of env is_usage v).
Proof.
  intros Hi. unfold Belady.get_distance, BeladySpec.distance_of. rewrite Hi. simpl.
  by destruct (flag_dont_spill g v).
Qed.

Lemma retime_irn env is_usage (l : list loc_t) :
  irn <$> (retime env is_usage <$> l) = irn <$> l.
Proof. rewrite <- list_fmap_compose. by apply list_fmap_ext. Qed.

Lemma update_time_shape env is_usage w i w' :
  update_time env is_usage w i = Ok w' →
  len w' = len w ∧ length (vals w') = length (vals w).
Proof.
  unfold Belady.update_time. intros H. inv_bind H. inv_Ok H. simpl.
  by rewrite length_alter.
Qed.

Lemma update_times_shape env is_usage l w w' :
  foldM (update_time env is_usage) l w = Ok w' →
  len w' = len w ∧ length (vals w') = length (vals w).
Proof.
  intros H.
  apply (foldM_invariant
           (λ x, len x = len w ∧ length (vals x) = length (vals w))
           (update_time env is_usage) l) with (s := w); [|done|done].
  intros s x s' _ [Hs1 Hs2] Hx. apply update_time_shape in Hx. lia.
Qed.

(** After [k] rounds the first [k] slots carry their current distance. *)
Lemma update_times_prefix env is_usage w k :
  k ≤ len w → len w ≤ length (vals w) →
  Forall (λ v, flag_ignore g v = false) (ws_irns w) →
  foldM (update_time env is_usage) (seq 0 k) w
  = Ok (Workset (len w)
          ((retime env is_usage <$> take k (vals w)) ++ drop k (vals w))).
Proof.
  intros Hk Hlen Hign. induction k as [|k IH].
  { simpl. by destruct w. }
  rewrite seq_S, foldM_app, IH by lia. simpl.
  destruct (lookup_lt_is_Some_2 (vals w) k) as [x Hx]; [lia|].
  assert (Hlk : length (retime env is_usage <$> take k (vals w)) = k).
  { rewrite length_fmap, length_take. lia. }
  unfold Belady.update_time, workset_get_val, workset_set_time. simpl.
  rewrite (nth_lookup_Some _ _ _ x).
  2:{ rewrite lookup_app_r by lia. rewrite Hlk, Nat.sub_diag.
      by rewrite lookup_drop, Nat.add_0_r. }
  rewrite get_distance_not_ignored.
  2:{ rewrite Forall_forall in Hign. apply Hign. unfold ws_irns.
      apply list_elem_of_fmap. exists x. split; [done|].
      apply elem_of_take. exists k. split; [done | lia]. }
  simpl. do 2 f_equal.
  rewrite (take_S_r _ _ x) by done. rewrite fmap_app. simpl.
  rewrite <- app_assoc. simpl.
  rewrite (drop_S _ x k) by done.
  replace k with (length (retime env is_usage <$> take k (vals w)) + 0) at 1 by lia.
  rewrite alter_app_r. by simpl.
Qed.

Lemma dispose_keeps env irn env' :
  dispose env irn = Ok env' →
  ws env' = ws env ∧ instr env' = instr env ∧ instr_nr env' = instr_nr env
  ∧ used env' = used env ∧ reloads (senv env') = reloads (senv env)
  ∧ edge_reloads (senv env') = edge_reloads (senv env).
Proof.
  unfold Belady.dispose. intros H.
  case_bool_decide; [by inv_Ok H|].
  destruct (links env !! _) as [info|]; [|done].
  destruct (ws_start info) as [wss|]; [|done].
  inv_Ok H. by destruct (is_Phi g irn).
Qed.

Lemma disposes_keep l : ∀ env env',
  foldM dispose l env = Ok env' →
  ws env' = ws env ∧ instr env' = instr env ∧ instr_nr env' = instr_nr env
  ∧ used env' = used env ∧ reloads (senv env') = reloads (senv env)
  ∧ edge_reloads (senv env') = edge_reloads (senv env).
Proof.
  intros env env' H.
  apply (foldM_invariant
           (λ x, ws x = ws env ∧ instr x = instr env ∧ instr_nr x = instr_nr env
                 ∧ used x = used env ∧ reloads (senv x) = reloads (senv env)
                 ∧ edge_reloads (senv x) = edge_reloads (senv env))
           dispose l) with (s := env); [|done|done].
  intros s x s' _ Hs Hx. apply dispose_keeps in Hx.
  destruct Hx as (-> & -> & -> & -> & -> & ->). exact Hs.
Qed.

Lemma dispose_total env irn :
  has_start_set env → ∃ env', dispose env irn = Ok env' ∧ has_start_set env'.
Proof.
  intros (info & wss & Hl & Hs). unfold Belady.dispose.
  case_bool_decide; [exists env; split; [done|by exists info, wss]|].
  rewrite Hl, Hs. eexists. split; [done|].
  unfold BeladySpec.has_start_set.
  destruct (is_Phi g irn); simpl; rewrite lookup_insert_eq; eauto.
Qed.

(** What [dispose] does with a value that was not used so far: the start
    set of the block of the current instruction loses it, and it is marked
    for spilling if it is a Phi, of whatever block. *)
Lemma dispose_unused env irn info wss :
  irn ∉ used env →
  links env !! get_nodes_block g (instr env) = Some info →
  ws_start info = Some wss →
  ∃ env', dispose env irn = Ok env'
    ∧ links env' = <[get_nodes_block g (instr env) :=
                       BlockInfo (Some (workset_remove wss irn)) (ws_end info)]>
                     (links env)
    ∧ spilled_phis (senv env')
      = spilled_phis (senv env) ++ (if is_Phi g irn then [irn] else []).
Proof.
  intros Hu Hl Hs. unfold Belady.dispose.
  rewrite bool_decide_eq_false_2 by done. rewrite Hl, Hs.
  eexists. split; [done|].
  destruct (is_Phi g irn); simpl; [done|]. by rewrite app_nil_r.
Qed.

Lemma disposes_total l env :
  has_start_set env → ∃ env', foldM dispose l env = Ok env' ∧ has_start_set env'.
Proof.
  intros H. apply (foldM_total has_start_set); [|done].
  intros s x _ Hs. by apply dispose_total.
Qed.

(** *** Step 3: the inserts *)

Lemma workset_insert_fresh w v :
  consider v = true → v ∉ ws_irns w → len w < n_regs →
  workset_insert w v
  = Ok (Workset (S (len w)) (alter (set_irn v) (len w) (vals w))).
Proof.
  intros Hc Hnin Hlt. unfold Belady.workset_insert. rewrite Hc. simpl.
  apply workset_contains_false in Hnin. rewrite Hnin.
  by rewrite bool_decide_eq_true_2.
Qed.

Lemma inserts_fresh l : ∀ w,
  workset_wf w → NoDup l → (∀ v, v ∈ l → v ∉ ws_irns w) →
  Forall (λ v, consider v = true) l → len w + length l ≤ n_regs →
  ∃ w', foldM workset_insert l w = Ok w' ∧ workset_wf w'
        ∧ len w' = len w + length l
        ∧ ws_irns w' = ws_irns w ++ l
        ∧ take (len w) (vals w') = take (len w) (vals w).
Proof.
  induction l as [|v l IH]; intros w Hwf Hnd Hdis Hcons Hlen.
  { exists w. rewrite app_nil_r. simpl. split_and!; [done|done|lia|done|done]. }
  apply NoDup_cons in Hnd as [Hv Hnd]. apply Forall_cons in Hcons as [Hc Hcons].
  simpl in Hlen. destruct Hwf as [Hl Hn].
  assert (Hnin : v ∉ ws_irns w) by (apply Hdis; by left).
  change (foldM workset_insert (v :: l) w)
    with (s' ← workset_insert w v; foldM workset_insert l s').
  rewrite workset_insert_fresh by (done || lia).
  change (Ok ?a ≫= ?k) with (k a). cbv beta.
  set (w1 := Workset (S (len w)) (alter (set_irn v) (len w) (vals w))).
  assert (Hirns : ws_irns w1 = ws_irns w ++ [v]).
  { apply ws_irns_take_slot. lia. }
  destruct (IH w1) as (w' & Hw' & Hwf' & Hlen' & Hirns' & Htake).
  - split; simpl; [by rewrite length_alter | lia].
  - done.
  - intros x Hx. rewrite Hirns. intros [Hx'|Hx']%elem_of_app.
    + eapply Hdis; [by right | done].
    + apply list_elem_of_singleton in Hx'. by subst.
  - done.
  - simpl. lia.
  - exists w'. split_and!; [done|done|simpl; simpl in Hlen'; lia| |].
    + rewrite Hirns', Hirns, <- app_assoc. done.
    + simpl in Htake.
      apply (f_equal (take (len w))) in Htake.
      rewrite !take_take, Nat.min_l in Htake by lia.
      rewrite Htake. apply take_alter_ge. lia.
Qed.

Lemma inserts_wf l : ∀ w w',
  workset_wf w → foldM workset_insert l w = Ok w' → workset_wf w'.
Proof.
  intros w w' Hwf H.
  apply (foldM_invariant workset_wf workset_insert l) with (s := w);
    [|done|done].
  intros s x s' _ Hs Hx. by eapply workset_insert_wf.
Qed.

Lemma resorted_length env is_usage :
  len (ws env) ≤ length (vals (ws env)) →
  length (resorted env is_usage) = len (ws env).
Proof.
  intros H. unfold BeladySpec.resorted. rewrite (qsort_perm sorter).
  rewrite length_fmap, length_take. lia.
Qed.

Lemma resorted_irns env is_usage :
  irn <$> resorted env is_usage ≡ₚ ws_irns (ws env).
Proof.
  unfold BeladySpec.resorted, ws_irns. rewrite (qsort_perm sorter).
  by rewrite retime_irn.
Qed.

Lemma resorted_split env is_usage n a b :
  a ∈ take n (resorted env is_usage) → b ∈ drop n (resorted env is_usage) →
  time a ≤ time b.
Proof.
  intros Ha Hb.
  assert (Hs : StronglySorted loc_le
                 (take n (resorted env is_usage) ++ drop n (resorted env is_usage))).
  { rewrite take_drop. apply Sorted_StronglySorted; [apply _|].
    apply (qsort_sorted sorter). }
  exact (StronglySorted_app_1_elem_of _ _ _ _ _ Hs Ha Hb).
Qed.

(** Step 2 when room has to be made. *)
Lemma make_room_evicts env is_usage max_allowed :
  max_allowed < len (ws env) → len (ws env) ≤ length (vals (ws env)) →
  Forall (λ v, flag_ignore g v = false) (ws_irns (ws env)) →
  has_start_set env →
  ∃ env', make_room env is_usage max_allowed = Ok env'
    ∧ ws env' = Workset max_allowed
                  (resorted env is_usage ++ drop (len (ws env)) (vals (ws env))).
Proof.
  intros Hlt Hlen Hign Hss. unfold Belady.make_room, workset_get_length.
  rewrite bool_decide_eq_true_2 by done.
  rewrite update_times_prefix by (done || lia). simpl.
  set (w1 := Workset _ _).
  assert (Hpre : length (retime env is_usage <$> take (len (ws env)) (vals (ws env)))
                 = len (ws env)).
  { rewrite length_fmap, length_take. lia. }
  assert (Hw : workset_sort sorter w1
               = Workset (len (ws env))
                   (resorted env is_usage ++ drop (len (ws env)) (vals (ws env)))).
  { unfold workset_sort, w1, BeladySpec.resorted; simpl.
    rewrite take_app_length' by done. by rewrite drop_app_length' by done. }
  assert (Hev : evicted (workset_sort sorter w1) max_allowed
                = irn <$> drop max_allowed (resorted env is_usage)).
  { unfold evicted, ws_irns. rewrite Hw. simpl.
    rewrite take_app_length' by (by rewrite resorted_length).
    by rewrite fmap_drop. }
  rewrite Hev.
  destruct (disposes_total (irn <$> drop max_allowed (resorted env is_usage))
              (set_ws (workset_sort sorter w1) env)) as (env2 & H2 & Hss2).
  { exact Hss. }
  rewrite H2. simpl. eexists. split; [done|].
  destruct (disposes_keep _ _ _ H2) as (Hws & _).
  simpl. rewrite Hws. simpl. by rewrite Hw.
Qed.

(** C2: when the working set holds more than [k - demand] values, [displace]
    gives every member its current next-use distance ([get_distance] from the
    current instruction, skipping the uses at it exactly for a definition),
    sorts the members by increasing distance and cuts the set after position
    [k - demand]: the members kept are the first [k - demand] of the sorted
    order, so none of them has a larger distance than any evicted one; the
    [demand] new values are then appended and the length is [k], hence at
    most [k]. *)
Theorem displace_keeps_nearest env new_vals is_usage :
  let to_insert := not_resident (ws env) (ws_irns new_vals) in
  let demand := length to_insert in
  let max_allowed := n_regs - demand in
  workset_wf (ws env) → workset_wf new_vals →
  NoDup (ws_irns new_vals) →
  Forall (λ v, consider v = true) (ws_irns new_vals) →
  Forall (λ v, flag_ignore g v = false) (ws_irns (ws env)) →
  has_start_set env →
  max_allowed < len (ws env) →
  ∃ env' sorted,
    displace env new_vals is_usage = Ok env'
    ∧ sorted ≡ₚ retime env is_usage <$> take (len (ws env)) (vals (ws env))
    ∧ Forall (λ l, get_distance (instr env) (instr_nr env) (irn l) (negb is_usage)
                   = Ok (time l)) sorted
    ∧ Sorted loc_le sorted
    ∧ take max_allowed (vals (ws env')) = take max_allowed sorted
    ∧ ws_irns (ws env') = (irn <$> take max_allowed sorted) ++ to_insert
    ∧ (∀ a b, a ∈ take max_allowed sorted → b ∈ drop max_allowed sorted →
              time a ≤ time b)
    ∧ len (ws env') = n_regs.
Proof.
  intros to_insert demand max_allowed [Hl Hn] Hnv Hnd Hcons Hign Hss Hlt.
  assert (Hdem : demand ≤ n_regs).
  { unfold demand, to_insert, BeladySpec.not_resident.
    etrans; [apply length_filter|]. rewrite (ws_irns_length n_regs) by done.
    by destruct Hnv. }
  set (env1 := scanned is_usage (ws_irns new_vals) env).
  assert (Hws1 : ws env1 = ws env) by apply scanned_ws.
  destruct (make_room_evicts env1 is_usage max_allowed)
    as (env2 & H2 & Hws2).
  { by rewrite Hws1. }
  { rewrite Hws1. lia. }
  { by rewrite Hws1. }
  { unfold BeladySpec.has_start_set, env1. by rewrite scanned_links, scanned_instr. }
  assert (Hres : resorted env1 is_usage = resorted env is_usage).
  { unfold BeladySpec.resorted, BeladySpec.retime, BeladySpec.distance_of, env1.
    by rewrite scanned_ws, scanned_instr, scanned_instr_nr. }
  rewrite Hres, Hws1 in Hws2.
  set (sorted := resorted env is_usage) in *.
  assert (Hsl : length sorted = len (ws env)).
  { apply resorted_length. lia. }
  assert (Hirns2 : ws_irns (ws env2) = irn <$> take max_allowed sorted).
  { unfold ws_irns. rewrite Hws2. simpl. by rewrite take_app_le by lia. }
  destruct (inserts_fresh to_insert (ws env2))
    as (w3 & H3 & Hwf3 & Hlen3 & Hirns3 & Htake3).
  { rewrite Hws2. split; simpl; [|lia].
    rewrite length_app, length_drop. lia. }
  { by apply NoDup_filter. }
  { intros v Hv. rewrite Hirns2. intros Hv'.
    apply list_elem_of_filter in Hv as [Hv _]. apply Hv.
    rewrite <- (resorted_irns env is_usage). fold sorted.
    apply list_elem_of_fmap in Hv' as (x & -> & Hx).
    apply list_elem_of_fmap_2. by eapply subseteq_take. }
  { apply Forall_forall. intros v [_ Hv]%list_elem_of_filter.
    rewrite Forall_forall in Hcons. by apply Hcons. }
  { rewrite Hws2. simpl. fold demand. lia. }
  exists (set_ws w3 env2), sorted. split_and!.
  - unfold Belady.displace. rewrite displace_scan_loop.
    rewrite bool_decide_eq_true_2.
    2:{ left. simpl. fold to_insert demand. lia. }
    simpl. fold to_insert demand max_allowed env1.
    rewrite H2. simpl. by rewrite H3.
  - apply (qsort_perm sorter).
  - unfold sorted, BeladySpec.resorted. rewrite (qsort_perm sorter).
    apply Forall_fmap, Forall_forall. intros x Hx. simpl.
    apply get_distance_not_ignored.
    rewrite Forall_forall in Hign. apply Hign.
    unfold ws_irns. by apply list_elem_of_fmap_2.
  - apply (qsort_sorted sorter).
  - simpl. rewrite Hws2 in Htake3. simpl in Htake3. rewrite Htake3.
    by rewrite take_app_le by lia.
  - simpl. by rewrite Hirns3, Hirns2.
  - apply resorted_split.
  - simpl. rewrite Hlen3, Hws2. simpl. fold demand. lia.
Qed.

End DisplaceFacts.

(** ** The bound [k] on the working set *)

Section BeladyBound.

Import Belady.
Import BeladySpec.

Variable g : ir_graph.
Variable cls : nat.
Variable n_regs : nat.
Variable sorter : loc_sorter.

Local Abbreviation workset_wf := (workset_wf n_regs).
Local Abbreviation workset_insert := (workset_insert g cls n_regs).
Local Abbreviation new_workset := (new_workset n_regs).
Local Abbreviation dispose := (dispose g).
Local Abbreviation make_room := (make_room g sorter).
Local Abbreviation displace := (displace g cls n_regs sorter).
Local Abbreviation belady_instr := (belady_instr g cls n_regs sorter).
Local Abbreviation belady_walk := (belady_walk g cls n_regs sorter).
Local Abbreviation belady_walk_states := (belady_walk_states g cls n_regs sorter).
Local Abbreviation compute_block_start_info :=
  (compute_block_start_info g cls n_regs sorter).
Local Abbreviation belady := (belady g cls n_regs sorter).
Local Abbreviation belady_rounds := (belady_rounds g cls n_regs sorter).

Local Abbreviation links_wf := (links_wf n_regs).
Local Abbreviation belady_inv := (belady_inv n_regs).
Local Abbreviation walk_inv := (walk_inv n_regs).

Lemma workset_remove_wf w val : workset_wf w → workset_wf (workset_remove w val).
Proof.
  intros [Hl Hn]. unfold workset_remove.
  destruct (list_find _ _) as [[i x]|]; [|done].
  split; simpl; [by rewrite length_insert | lia].
Qed.

Lemma workset_sort_wf w : workset_wf w → workset_wf (workset_sort sorter w).
Proof.
  intros [Hl Hn]. split; simpl; [|done].
  rewrite length_app, (qsort_perm sorter), length_take, length_drop. lia.
Qed.

Lemma links_wf_insert lk b info :
  links_wf lk →
  (∀ w, ws_start info = Some w ∨ ws_end info = Some w → workset_wf w) →
  links_wf (<[b := info]> lk).
Proof.
  intros Hlk Hinfo b' info' w Hb' Hw.
  destruct (decide (b = b')) as [->|Hne].
  - rewrite lookup_insert_eq in Hb'. inv_Ok Hb'. by apply Hinfo.
  - rewrite lookup_insert_ne in Hb' by done. by eapply Hlk.
Qed.

Lemma dispose_inv env irn env' :
  belady_inv env → dispose env irn = Ok env' → belady_inv env'.
Proof.
  intros [Hws Hlk] H. unfold Belady.dispose in H.
  case_bool_decide; [by inv_Ok H|].
  destruct (links env !! _) as [info|] eqn:Hinfo; [|done].
  destruct (ws_start info) as [wss|] eqn:Hwss; [|done].
  inv_Ok H.
  assert (Hlk' : links_wf (<[get_nodes_block g (instr env) :=
                              BlockInfo (Some (workset_remove wss irn)) (ws_end info)]>
                             (links env))).
  { apply links_wf_insert; [done|]. simpl. intros w [Hw|Hw].
    - inv_Ok Hw. apply workset_remove_wf. eapply Hlk; eauto.
    - eapply Hlk; eauto. }
  by destruct (is_Phi g irn).
Qed.

Lemma make_room_inv env is_usage max_allowed env' :
  belady_inv env → max_allowed ≤ n_regs →
  make_room env is_usage max_allowed = Ok env' → belady_inv env'.
Proof.
  intros [Hws Hlk] Hm H. unfold Belady.make_room in H.
  case_bool_decide; [|by inv_Ok H].
  inv_bind H as w Hw. inv_bind H as env2 H2. inv_Ok H.
  apply update_times_shape in Hw as [Hlen Hvals].
  assert (Hinv2 : belady_inv env2).
  { apply (foldM_invariant belady_inv dispose
             (evicted (workset_sort sorter w) max_allowed))
      with (s := set_ws (workset_sort sorter w) env); [| |done].
    - intros s x s' _ Hs Hx. by eapply dispose_inv.
    - split; [|done]. simpl. apply workset_sort_wf.
      destruct Hws as [Hl Hn]. split; [congruence | lia]. }
  destruct Hinv2 as [[Hl2 Hn2] Hlk2]. split; [|done].
  split; simpl; [done | lia].
Qed.

Lemma displace_inv env new_vals is_usage env' :
  belady_inv env → displace env new_vals is_usage = Ok env' → belady_inv env'.
Proof.
  intros Hinv H. unfold Belady.displace in H.
  rewrite displace_scan_loop in H. case_bool_decide; [|done]. simpl in H.
  inv_bind H as env2 H2. inv_bind H as w3 H3. inv_Ok H.
  assert (Hinv2 : belady_inv env2).
  { eapply make_room_inv; [| |exact H2]; [|lia].
    destruct Hinv. split; by rewrite ?scanned_ws, ?scanned_links. }
  destruct Hinv2 as [Hws2 Hlk2]. split; [|done]. simpl.
  by eapply (inserts_wf g cls n_regs).
Qed.

Lemma workset_clear_wf w : workset_wf w → workset_wf (workset_clear w).
Proof. intros [Hl Hn]. split; simpl; [done | lia]. Qed.

Lemma belady_instr_inv irn rest st st' :
  walk_inv st → belady_instr irn rest st = Ok st' → walk_inv st'.
Proof.
  intros [Hinv Hnv] H. unfold Belady.belady_instr in H.
  inv_bind H as u Hu. clear u Hu.
  destruct (is_Proj g irn || is_Phi g irn); [by inv_Ok H|].
  inv_bind H as nv1 H1. inv_bind H as env1 H2.
  inv_bind H as nv2 H3. inv_bind H as env2 H4. inv_Ok H.
  assert (Hnv1 : workset_wf nv1).
  { eapply (inserts_wf g cls n_regs); [|exact H1]. by apply workset_clear_wf. }
  assert (Hinv1 : belady_inv env1).
  { eapply displace_inv; [|exact H2]. exact Hinv. }
  assert (Hnv2 : workset_wf nv2).
  { destruct (is_mode_T g irn).
    - eapply (inserts_wf g cls n_regs); [|exact H3]. by apply workset_clear_wf.
    - eapply (workset_insert_wf g cls n_regs); [|exact H3].
      by apply workset_clear_wf. }
  assert (Hinv2 : belady_inv env2) by (by eapply displace_inv).
  by split.
Qed.

Lemma belady_walk_inv l : ∀ st st',
  walk_inv st → belady_walk l st = Ok st' → walk_inv st'.
Proof.
  induction l as [|irn rest IH]; intros st st' Hst H; simpl in H.
  - by inv_Ok H.
  - inv_bind H. eapply IH; [|exact H]. by eapply belady_instr_inv.
Qed.

Lemma belady_walk_states_inv l : ∀ st0 st,
  walk_inv st0 → st ∈ belady_walk_states l st0 → walk_inv st.
Proof.
  induction l as [|irn rest IH]; intros st0 st Hst0 Hin; simpl in Hin.
  - by apply elem_of_nil in Hin.
  - apply elem_of_cons in Hin as [->|Hin]; [done|].
    destruct (belady_instr irn rest st0) as [st1|e] eqn:H1.
    + eapply IH; [|exact Hin]. by eapply belady_instr_inv.
    + by apply elem_of_nil in Hin.
Qed.

Lemma links_wf_set_ws_start lk blk w :
  links_wf lk → workset_wf w → links_wf (set_ws_start blk w lk).
Proof.
  intros Hlk Hw b info w' Hb Hw'. unfold set_ws_start in Hb.
  destruct (decide (blk = b)) as [->|Hne].
  - rewrite lookup_alter_eq in Hb.
    destruct (lk !! b) as [bi|] eqn:Hbi; [|done]. simpl in Hb. inv_Ok Hb.
    simpl in Hw'. destruct Hw' as [Hw'|Hw'].
    + by inv_Ok Hw'.
    + eapply Hlk; eauto.
  - rewrite lookup_alter_ne in Hb by done. by eapply Hlk.
Qed.

Lemma links_wf_set_ws_end lk blk w :
  links_wf lk → workset_wf w → links_wf (set_ws_end blk w lk).
Proof.
  intros Hlk Hw b info w' Hb Hw'. unfold set_ws_end in Hb.
  destruct (decide (blk = b)) as [->|Hne].
  - rewrite lookup_alter_eq in Hb.
    destruct (lk !! b) as [bi|] eqn:Hbi; [|done]. simpl in Hb. inv_Ok Hb.
    simpl in Hw'. destruct Hw' as [Hw'|Hw'].
    + eapply Hlk; eauto.
    + by inv_Ok Hw'.
  - rewrite lookup_alter_ne in Hb by done. by eapply Hlk.
Qed.

Lemma workset_bulk_fill_wf count (locs : list loc_t) :
  count ≤ length locs → count ≤ n_regs →
  workset_wf (workset_bulk_fill new_workset count locs).
Proof.
  intros Hc Hn. split; simpl; [|done].
  rewrite length_app, length_take, length_drop, length_replicate. lia.
Qed.

Lemma start_from_starters_inv blk (starters : list loc_t) env :
  belady_inv env →
  belady_inv (start_from_starters g n_regs blk (length starters)
                (sorter starters) env).
Proof.
  intros [Hws Hlk]. split; [done|]. simpl.
  apply links_wf_set_ws_start; [done|].
  apply workset_bulk_fill_wf; [|lia].
  rewrite (qsort_perm sorter). lia.
Qed.

Lemma compute_block_start_info_inv rec blk env env' :
  (∀ b e e', belady_inv e → rec b e = Ok e' → belady_inv e') →
  belady_inv env → compute_block_start_info rec blk env = Ok env' →
  belady_inv env'.
Proof.
  intros Hrec Hinv H. unfold Belady.compute_block_start_info in H.
  destruct (links env !! blk) as [?|] eqn:Hblk; [by inv_Ok H|].
  inv_bind H as starters Hst.
  set (env0 := set_links (<[blk := BlockInfo None None]> (links env)) env) in *.
  assert (Hinv0 : belady_inv env0).
  { destruct Hinv as [Hws Hlk]. split; [done|]. simpl.
    apply links_wf_insert; [done|]. simpl. by intros w [?|?]. }
  destruct (bool_decide _ && bool_decide _).
  - inv_bind H as env1 H1.
    assert (Hinv1 : belady_inv env1).
    { destruct (links env0 !! _); [by inv_Ok H1 | by eapply Hrec]. }
    destruct (links env1 !! _) as [pred_info|] eqn:Hpi; [|done].
    destruct (ws_end pred_info) as [we|] eqn:Hwe; [|done]. inv_Ok H.
    destruct Hinv1 as [Hws1 Hlk1]. split; [done|]. simpl.
    apply links_wf_set_ws_start; [done|]. eapply Hlk1; eauto.
  - inv_Ok H. by apply start_from_starters_inv.
Qed.

Lemma belady_inv_preserved fuel : ∀ blk env env',
  belady_inv env → belady fuel blk env = Ok env' → belady_inv env'.
Proof.
  induction fuel as [|fuel IH]; intros blk env env' Hinv H; simpl in H;
    [done|].
  destruct (links env !! blk) as [?|] eqn:Hblk; [by inv_Ok H|].
  inv_bind H as env1 H1.
  assert (Hinv1 : belady_inv env1).
  { eapply compute_block_start_info_inv; [|exact Hinv|exact H1]. exact IH. }
  destruct (links env1 !! blk) as [info|] eqn:Hinfo; [|done].
  destruct (ws_start info) as [wss|] eqn:Hwss; [|done].
  inv_bind H as st Hst. inv_Ok H.
  assert (Hst' : walk_inv st).
  { eapply belady_walk_inv; [|exact Hst].
    destruct Hinv1 as [Hws1 Hlk1]. split; [split|]; simpl.
    - eapply Hlk1; eauto.
    - done.
    - apply new_workset_wf. }
  destruct Hst' as [[Hws Hlk] _]. split; [done|]. simpl.
  by apply links_wf_set_ws_end.
Qed.

Lemma initial_env_inv : belady_inv (initial_env n_regs).
Proof.
  split; simpl; [apply new_workset_wf|]. intros b info w Hb. done.
Qed.

(** C1: the working set never exceeds [k = n_regs].  A successful
    [workset_insert] into a workset of at most [k] entries leaves at most [k]
    entries; the invariant that the working set and all recorded start and
    end sets hold at most [k] entries is true of the initial environment and
    kept by [belady] for every block; and under it, every round of the walk
    over the scheduled instructions of every block starts with a working set
    of length at most [k]. *)
Theorem belady_workset_bounded :
  (∀ w val w', workset_wf w → workset_insert w val = Ok w' →
               len w' ≤ n_regs ∧ workset_wf w')
  ∧ belady_inv (initial_env n_regs)
  ∧ (∀ fuel blk env env',
       belady_inv env → belady fuel blk env = Ok env' → belady_inv env')
  ∧ (∀ fuel blk env st,
       belady_inv env → st ∈ belady_rounds fuel blk env →
       len (ws st.1) ≤ n_regs).
Proof.
  split_and!.
  - intros w val w' Hwf H.
    assert (Hwf' : workset_wf w') by (by eapply (workset_insert_wf g cls n_regs)).
    split; [by destruct Hwf' | done].
  - apply initial_env_inv.
  - apply belady_inv_preserved.
  - intros fuel blk env st Hinv Hin. unfold Belady.belady_rounds in Hin.
    destruct (links env !! blk) as [?|] eqn:Hblk; [by apply elem_of_nil in Hin|].
    destruct (compute_block_start_info _ blk env) as [env1|e] eqn:H1;
      [|by apply elem_of_nil in Hin].
    assert (Hinv1 : belady_inv env1).
    { eapply compute_block_start_info_inv; [|exact Hinv|exact H1].
      apply belady_inv_preserved. }
    destruct (links env1 !! blk) as [info|] eqn:Hinfo;
      [|by apply elem_of_nil in Hin].
    destruct (ws_start info) as [wss|] eqn:Hwss; [|by apply elem_of_nil in Hin].
    apply belady_walk_states_inv in Hin as [[[_ Hn] _] _]; [done|].
    destruct Hinv1 as [Hws1 Hlk1]. split; [split|]; simpl.
    + eapply Hlk1; eauto.
    + done.
    + apply new_workset_wf.
Qed.

End BeladyBound.

(** ** The start set of a block *)

Section BlockStart.

Import Belady.
Import BeladySpec.

Variable g : ir_graph.
Variable cls : nat.
Variable n_regs : nat.
Variable sorter : loc_sorter.

Local Abbreviation consider := (arch_irn_consider_in_reg_alloc g cls).
Local Abbreviation new_workset := (new_workset n_regs).
Local Abbreviation dispose := (dispose g).
Local Abbreviation make_room := (make_room g sorter).
Local Abbreviation displace := (displace g cls n_regs sorter).
Local Abbreviation belady_instr := (belady_instr g cls n_regs sorter).
Local Abbreviation belady_walk := (belady_walk g cls n_regs sorter).
Local Abbreviation starter_values := (starter_values g cls).
Local Abbreviation starter_loc := (starter_loc g).
Local Abbreviation collect_starters := (collect_starters g cls).
Local Abbreviation compute_block_start_info :=
  (compute_block_start_info g cls n_regs sorter).
Local Abbreviation belady := (belady g cls n_regs sorter).

Local Abbreviation start_distance := (start_distance g).
Local Abbreviation start_loc := (start_loc g).
Local Abbreviation pred_closed := (pred_closed g).
Local Abbreviation entry_values := (entry_values g cls).
Local Abbreviation phi_prefix := (phi_prefix g).

Lemma links_grow_refl e : links_grow e e.
Proof. by intros b. Qed.

Lemma links_grow_trans e1 e2 e3 :
  links_grow e1 e2 → links_grow e2 e3 → links_grow e1 e3.
Proof. intros H1 H2 b Hb. by apply H2, H1. Qed.

Lemma dispose_grow env irn env' :
  dispose env irn = Ok env' → links_grow env env'.
Proof.
  unfold Belady.dispose. intros H b Hb.
  case_bool_decide; [by inv_Ok H|].
  destruct (links env !! get_nodes_block g (instr env)) as [info|]; [|done].
  destruct (ws_start info) as [wss|]; [|done]. inv_Ok H.
  assert (is_Some (<[get_nodes_block g (instr env) :=
                      BlockInfo (Some (workset_remove wss irn)) (ws_end info)]>
                     (links env) !! b)).
  { rewrite lookup_insert. case_decide; [by eexists | done]. }
  by destruct (is_Phi g irn).
Qed.

Lemma disposes_grow l : ∀ env env',
  foldM dispose l env = Ok env' → links_grow env env'.
Proof.
  intros env env' H.
  apply (foldM_invariant (links_grow env) dispose l) with (s := env);
    [|apply links_grow_refl|done].
  intros s x s' _ Hs Hx. eapply links_grow_trans; [exact Hs|].
  by eapply dispose_grow.
Qed.

Lemma displace_grow env new_vals is_usage env' :
  displace env new_vals is_usage = Ok env' → links_grow env env'.
Proof.
  intros H. unfold Belady.displace in H.
  rewrite displace_scan_loop in H. case_bool_decide; [|done]. simpl in H.
  inv_bind H as env2 H2. inv_bind H as w3 H3. inv_Ok H.
  unfold Belady.make_room in H2. intros b Hb. simpl.
  case_bool_decide.
  - inv_bind H2 as w Hw. inv_bind H2 as env3 H3'. inv_Ok H2. simpl.
    apply disposes_grow in H3'. apply H3'. simpl. by rewrite scanned_links.
  - inv_Ok H2. by rewrite scanned_links.
Qed.

Lemma belady_instr_grow irn rest st st' :
  belady_instr irn rest st = Ok st' → links_grow st.1 st'.1.
Proof.
  intros H. unfold Belady.belady_instr in H.
  inv_bind H as u Hu. clear u Hu.
  destruct (is_Proj g irn || is_Phi g irn); [inv_Ok H; apply links_grow_refl|].
  inv_bind H as nv1 H1. inv_bind H as env1 H2.
  inv_bind H as nv2 H3. inv_bind H as env2 H4. inv_Ok H. simpl.
  apply displace_grow in H2, H4. intros b Hb. apply H4, H2. exact Hb.
Qed.

Lemma belady_walk_grow l : ∀ st st',
  belady_walk l st = Ok st' → links_grow st.1 st'.1.
Proof.
  induction l as [|irn rest IH]; intros st st' H; simpl in H.
  - inv_Ok H. apply links_grow_refl.
  - inv_bind H as st1 H1. eapply links_grow_trans.
    + by eapply belady_instr_grow.
    + by apply IH.
Qed.

Lemma set_ws_start_grow blk w (lk : gmap ir_node block_info_t) b :
  is_Some (lk !! b) → is_Some (set_ws_start blk w lk !! b).
Proof.
  intros [x Hx]. unfold set_ws_start. rewrite lookup_alter.
  case_decide; subst; rewrite Hx; by eexists.
Qed.

Lemma set_ws_end_grow blk w (lk : gmap ir_node block_info_t) b :
  is_Some (lk !! b) → is_Some (set_ws_end blk w lk !! b).
Proof.
  intros [x Hx]. unfold set_ws_end. rewrite lookup_alter.
  case_decide; subst; rewrite Hx; by eexists.
Qed.

Lemma compute_block_start_info_grow rec blk env env' :
  (∀ b e e', rec b e = Ok e' → links_grow e e') →
  compute_block_start_info rec blk env = Ok env' →
  links_grow env env' ∧ is_Some (links env' !! blk).
Proof.
  intros Hrec H. unfold Belady.compute_block_start_info in H.
  destruct (links env !! blk) as [?|] eqn:Hblk.
  { inv_Ok H. split; [apply links_grow_refl | by rewrite Hblk]. }
  inv_bind H as starters Hst.
  set (env0 := set_links (<[blk := BlockInfo None None]> (links env)) env) in *.
  assert (H0 : ∀ b, is_Some (links env !! b) ∨ b = blk → is_Some (links env0 !! b)).
  { intros b Hb. simpl. destruct (decide (blk = b)) as [->|Hne].
    - rewrite lookup_insert_eq. by eexists.
    - rewrite lookup_insert_ne by done.
      destruct Hb as [?| ->]; [done | congruence]. }
  destruct (bool_decide _ && bool_decide _).
  - inv_bind H as env1 H1.
    assert (H01 : links_grow env0 env1).
    { destruct (links env0 !! _); [inv_Ok H1; apply links_grow_refl|].
      by eapply Hrec. }
    destruct (links env1 !! _) as [pred_info|] eqn:Hpi; [|done].
    destruct (ws_end pred_info) as [we|] eqn:Hwe; [|done]. inv_Ok H.
    split; [intros b Hb|]; simpl; apply set_ws_start_grow, H01, H0; auto.
  - inv_Ok H.
    split; [intros b Hb|]; simpl; apply set_ws_start_grow, H0; auto.
Qed.

Lemma belady_grow fuel : ∀ blk env env',
  belady fuel blk env = Ok env' → links_grow env env'.
Proof.
  induction fuel as [|fuel IH]; intros blk env env' H; simpl in H; [done|].
  destruct (links env !! blk) as [?|] eqn:Hblk.
  { inv_Ok H. apply links_grow_refl. }
  inv_bind H as env1 H1.
  apply compute_block_start_info_grow in H1 as [H1 _]; [|exact IH].
  destruct (links env1 !! blk) as [info|] eqn:Hinfo; [|done].
  destruct (ws_start info) as [wss|] eqn:Hwss; [|done].
  inv_bind H as st Hst. inv_Ok H.
  apply belady_walk_grow in Hst. simpl in Hst.
  intros b Hb. simpl. apply set_ws_end_grow, Hst. simpl. by apply H1.
Qed.

(** *** Fuel *)

Lemma terminates_Ok {A} (a : A) : terminates (Ok a).
Proof. done. Qed.

Lemma terminates_bind {A B} (m : result A) (k : A → result B) :
  terminates m → (∀ a, m = Ok a → terminates (k a)) → terminates (m ≫= k).
Proof.
  destruct m as [a|e]; intros H1 H2; [by apply H2|].
  unfold terminates in *. simpl. congruence.
Qed.

Lemma terminates_foldM {A S} (f : S → A → result S) l :
  (∀ s x, terminates (f s x)) → ∀ s, terminates (foldM f l s).
Proof.
  intros Hf. induction l as [|x l IH]; intros s; simpl; [done|].
  apply terminates_bind; [apply Hf | intros; apply IH].
Qed.

Lemma terminates_assert b : terminates (assert_ b).
Proof. by destruct b. Qed.

Lemma workset_insert_terminates w val :
  terminates (workset_insert g cls n_regs w val).
Proof.
  unfold workset_insert. destruct (negb _); [done|].
  destruct (workset_contains w val); [done|].
  apply terminates_bind; [apply terminates_assert | done].
Qed.

Lemma get_distance_terminates from step def skip :
  terminates (get_distance g from step def skip).
Proof.
  unfold get_distance. apply terminates_bind; [apply terminates_assert|].
  intros _ _. by destruct (flag_dont_spill g def).
Qed.

Lemma dispose_terminates env irn : terminates (dispose env irn).
Proof.
  unfold Belady.dispose. case_bool_decide; [done|].
  destruct (links env !! _) as [info|]; [|done].
  by destruct (ws_start info).
Qed.

Lemma displace_terminates env new_vals is_usage :
  terminates (displace env new_vals is_usage).
Proof.
  unfold Belady.displace. rewrite displace_scan_loop.
  case_bool_decide; [|done]. simpl.
  apply terminates_bind.
  - unfold Belady.make_room. case_bool_decide; [|done].
    apply terminates_bind.
    + apply terminates_foldM. intros s x. unfold update_time.
      apply terminates_bind; [apply get_distance_terminates | done].
    + intros w _. apply terminates_bind; [|done].
      apply terminates_foldM, dispose_terminates.
  - intros env2 _. apply terminates_bind; [|done].
    apply terminates_foldM, workset_insert_terminates.
Qed.

Lemma belady_instr_terminates irn rest st :
  terminates (belady_instr irn rest st).
Proof.
  unfold Belady.belady_instr.
  apply terminates_bind; [apply terminates_assert|]. intros _ _.
  destruct (is_Proj g irn || is_Phi g irn); [done|].
  apply terminates_bind; [apply terminates_foldM, workset_insert_terminates|].
  intros nv1 _. apply terminates_bind; [apply displace_terminates|].
  intros env1 _. apply terminates_bind.
  { destruct (is_mode_T g irn);
      [apply terminates_foldM|]; apply workset_insert_terminates. }
  intros nv2 _. apply terminates_bind; [apply displace_terminates | done].
Qed.

Lemma belady_walk_terminates l : ∀ st, terminates (belady_walk l st).
Proof.
  induction l as [|irn rest IH]; intros st; simpl; [done|].
  apply terminates_bind; [apply belady_instr_terminates | intros; apply IH].
Qed.

Lemma consider_not_ignored v : consider v = true → flag_ignore g v = false.
Proof.
  unfold arch_irn_consider_in_reg_alloc. intros [_ H]%andb_true_iff.
  by apply negb_true_iff in H.
Qed.

Lemma starter_values_considered blk v :
  v ∈ starter_values blk → consider v = true.
Proof.
  unfold Belady.starter_values. intros [H|H]%elem_of_app.
  - by apply list_elem_of_filter in H as [H _].
  - apply list_elem_of_fmap in H as (li & -> & H).
    by apply list_elem_of_filter in H as [[_ H] _].
Qed.

Lemma starter_loc_considered blk v :
  consider v = true → starter_loc blk v = Ok (start_loc blk v).
Proof.
  intros Hc. unfold Belady.starter_loc, get_distance, BeladySpec.start_loc, BeladySpec.start_distance.
  rewrite (consider_not_ignored v Hc). simpl.
  by destruct (flag_dont_spill g v).
Qed.

Lemma collect_starters_total blk :
  collect_starters blk = Ok (start_loc blk <$> starter_values blk).
Proof.
  unfold Belady.collect_starters.
  assert (H : ∀ l acc, (∀ v, v ∈ l → consider v = true) →
            foldM (λ acc n, l ← starter_loc blk n; Ok (acc ++ [l])) l acc
            = Ok (acc ++ (start_loc blk <$> l))).
  { induction l as [|v l IH]; intros acc Hl.
    - simpl. by rewrite app_nil_r.
    - cbn [foldM]. rewrite starter_loc_considered by (apply Hl; by left).
      simpl. rewrite IH by (intros; apply Hl; by right).
      by rewrite <- app_assoc. }
  apply (H _ []). apply starter_values_considered.
Qed.

Lemma unvisited_insert_le U (lk : gmap ir_node block_info_t) blk info :
  length (unvisited U (<[blk := info]> lk)) ≤ length (unvisited U lk).
Proof.
  induction U as [|b U IH]; [done|]. unfold BeladySpec.unvisited in *.
  rewrite !filter_cons. destruct (decide (b = blk)) as [->|Hne].
  - rewrite lookup_insert_eq. rewrite decide_False by done.
    case_decide; simpl; lia.
  - rewrite lookup_insert_ne by done. case_decide; simpl; lia.
Qed.

Lemma unvisited_insert_lt U (lk : gmap ir_node block_info_t) blk info :
  blk ∈ U → lk !! blk = None →
  length (unvisited U (<[blk := info]> lk)) < length (unvisited U lk).
Proof.
  induction U as [|b U IH]; intros Hin Hnone; [by apply elem_of_nil in Hin|].
  unfold BeladySpec.unvisited in *. rewrite !filter_cons.
  destruct (decide (b = blk)) as [->|Hne].
  - rewrite lookup_insert_eq. rewrite decide_False by done.
    rewrite decide_True by done. simpl.
    pose proof (unvisited_insert_le U lk blk info) as Hle.
    unfold BeladySpec.unvisited in Hle. lia.
  - rewrite lookup_insert_ne by done.
    apply elem_of_cons in Hin as [->|Hin]; [done|].
    case_decide; simpl; [apply -> Nat.succ_lt_mono|]; by apply IH.
Qed.

Lemma compute_block_start_info_terminates rec blk env :
  (links env !! blk = None →
   length (get_Block_cfgpred_blocks g blk) = 1 →
   terminates (rec (hd NULL (get_Block_cfgpred_blocks g blk))
                 (set_links (<[blk := BlockInfo None None]> (links env)) env))) →
  terminates (compute_block_start_info rec blk env).
Proof.
  intros Hrec. unfold Belady.compute_block_start_info.
  destruct (links env !! blk) as [?|] eqn:Hblk; [done|].
  rewrite collect_starters_total. simpl.
  destruct (bool_decide (length _ = 1)) eqn:Hlen; simpl; [|done].
  destruct (bool_decide (blk ≠ _)); simpl; [|done].
  apply bool_decide_eq_true in Hlen.
  apply terminates_bind.
  - simpl.
    destruct (<[blk:=BlockInfo None None]> (links env)
                !! hd 0 (get_Block_cfgpred_blocks g blk));
      [done | by apply Hrec].
  - intros env1 _. destruct (links env1 !! _) as [pi|]; [|done].
    by destruct (ws_end pi).
Qed.

(** With more fuel than there are unvisited blocks, [belady] answers. *)
Lemma belady_terminates U fuel : ∀ blk env,
  pred_closed U → blk ∈ U → length (unvisited U (links env)) < fuel →
  terminates (belady fuel blk env).
Proof.
  induction fuel as [|fuel IH]; intros blk env Hcl Hin Hfuel; [lia|]. simpl.
  destruct (links env !! blk) as [?|] eqn:Hblk; [done|].
  apply terminates_bind.
  - apply compute_block_start_info_terminates. intros _ Hlen.
    destruct (get_Block_cfgpred_blocks g blk) as [|p [|??]] eqn:Hp;
      simpl in Hlen; try done. simpl.
    apply IH; [done | by eapply Hcl |]. simpl.
    pose proof (unvisited_insert_lt U (links env) blk (BlockInfo None None)
                  Hin Hblk). lia.
  - intros env1 _. destruct (links env1 !! blk) as [info|]; [|done].
    destruct (ws_start info) as [wss|]; [|done].
    apply terminates_bind; [apply belady_walk_terminates | done].
Qed.

Lemma bulk_fill_irns count (locs : list loc_t) :
  count ≤ length locs →
  ws_irns (workset_bulk_fill new_workset count locs) = irn <$> take count locs.
Proof.
  intros Hc. unfold ws_irns, workset_bulk_fill; simpl.
  rewrite take_app_length' by (rewrite length_take; lia). done.
Qed.

(** The Phis the code collects are the leading Phis of the schedule; on a
    block with a Phi prefix these are the Phis defined in the block. *)
Lemma take_while_phi_prefix (phis rest : list ir_node) :
  Forall (λ v, is_Phi g v = true) phis →
  Forall (λ v, is_Phi g v = false) rest →
  take_while (is_Phi g) (phis ++ rest) = phis.
Proof.
  intros Hp Hr. induction Hp as [|v phis Hv _ IH]; simpl.
  - destruct Hr as [|v rest Hv _]; simpl; [done | by rewrite Hv].
  - by rewrite Hv, IH.
Qed.

Lemma phis_defined_in_prefix blk :
  phi_prefix blk →
  phis_defined_in g blk = take_while (is_Phi g) (sched g blk).
Proof.
  intros (phis & rest & Hs & Hp & Hr). unfold phis_defined_in. rewrite Hs.
  rewrite take_while_phi_prefix;
    [| by eapply Forall_impl; [exact Hp | intros v [? _]] | exact Hr].
  rewrite filter_app.
  assert (H1 : filter (λ v, is_Phi g v = true ∧ get_nodes_block g v = blk) phis
               = phis).
  { clear Hs. induction Hp as [|v phis Hv _ IH]; [done|].
    rewrite filter_cons_True by done. by rewrite IH. }
  assert (H2 : filter (λ v, is_Phi g v = true ∧ get_nodes_block g v = blk) rest
               = []).
  { clear Hs. induction Hr as [|v rest Hv _ IH]; [done|].
    rewrite filter_cons_False; [done|]. intros [Hphi _]. congruence. }
  by rewrite H1, H2, app_nil_r.
Qed.

Lemma live_at_entry_considered blk :
  filter (λ v, consider v = true) (live_at_entry g blk)
  = li_irn <$> filter (λ li, li_is_in li = true ∧ consider (li_irn li) = true)
                      (live_foreach g blk).
Proof.
  unfold live_at_entry.
  induction (live_foreach g blk) as [|li l IH]; [done|].
  destruct (decide (li_is_in li = true)) as [Hin|Hin].
  - rewrite (filter_cons_True (λ li, li_is_in li = true)) by done.
    rewrite fmap_cons.
    destruct (decide (consider (li_irn li) = true)) as [Hc|Hc].
    + rewrite !filter_cons_True by done. rewrite fmap_cons. by rewrite IH.
    + rewrite !filter_cons_False by tauto. exact IH.
  - rewrite (filter_cons_False (λ li, li_is_in li = true)) by done.
    rewrite filter_cons_False by tauto. exact IH.
Qed.

(** On a block with a Phi prefix the code collects the entry values. *)
Lemma starter_values_entry_values blk :
  phi_prefix blk → starter_values blk ≡ₚ entry_values blk.
Proof.
  intros Hpre. unfold Belady.starter_values, BeladySpec.entry_values.
  rewrite filter_app, live_at_entry_considered.
  rewrite (phis_defined_in_prefix blk Hpre). apply Permutation_app_comm.
Qed.

Lemma Sorted_loc_le_take n (l : list loc_t) :
  Sorted loc_le l → Sorted loc_le (take n l).
Proof.
  intros Hs. apply StronglySorted_Sorted.
  apply Sorted_StronglySorted in Hs; [|apply _].
  rewrite <- (take_drop n l) in Hs. by apply StronglySorted_app_1_l in Hs.
Qed.

(** C5: the start working set of a block.  Let [blk] be a block without info
    and let the fuel cover the unvisited blocks of a predecessor-closed set
    around it; then [compute_block_start_info] answers.  If [blk] has exactly
    one CFG predecessor and is not the start block, a successful call has
    run [belady] on the predecessor if that had no info yet, and the start
    set of [blk] is a clone of the predecessor's end set.  For every other
    block the call succeeds with the result of the code's collection, and,
    the block's Phis being the prefix of its schedule, the start set is
    chosen from the block's live-ins plus its Phis (of the class), each with
    its next-use distance from the block's first instruction: with [count]
    the number of these values, the start set is a well-formed working set
    that holds [min(k, count)] of them, it and the values left out together
    are exactly these values, it is sorted ascending by distance, and no
    value kept has a larger distance than one left out. *)
Theorem block_start_set U fuel blk env :
  let env0 := set_links (<[blk := BlockInfo None None]> (links env)) env in
  let starters := start_loc blk <$> starter_values blk in
  let count := length starters in
  links env !! blk = None →
  pred_closed U → blk ∈ U → length (unvisited U (links env)) ≤ fuel →
  terminates (compute_block_start_info (belady fuel) blk env)
  ∧ (∀ pred env',
       get_Block_cfgpred_blocks g blk = [pred] →
       blk ≠ get_irg_start_block g →
       compute_block_start_info (belady fuel) blk env = Ok env' →
       ∃ env1 we,
         (match links env0 !! pred with
          | None => belady fuel pred env0
          | Some _ => Ok env0
          end) = Ok env1
         ∧ ws_end <$> links env1 !! pred = Some (Some we)
         ∧ env' = set_links (set_ws_start blk (workset_clone we) (links env1)) env1
         ∧ ws_start <$> links env' !! blk = Some (Some we)
         ∧ ws_end <$> links env' !! pred = Some (Some we))
  ∧ (¬ (length (get_Block_cfgpred_blocks g blk) = 1
        ∧ blk ≠ get_irg_start_block g) →
     ∃ w,
       compute_block_start_info (belady fuel) blk env
       = Ok (start_from_starters g n_regs blk count (sorter starters) env0)
       ∧ links (start_from_starters g n_regs blk count (sorter starters) env0)
           !! blk = Some (BlockInfo (Some w) None)
       ∧ sorter starters ≡ₚ starters
       ∧ Sorted loc_le (sorter starters)
       ∧ len w = min count n_regs
       ∧ take (len w) (vals w) = take (min count n_regs) (sorter starters)
       ∧ ws_irns w = irn <$> take (min count n_regs) (sorter starters)
       ∧ (∀ a b, a ∈ take (min count n_regs) (sorter starters) →
                 b ∈ drop (min count n_regs) (sorter starters) →
                 time a ≤ time b))
  ∧ (¬ (length (get_Block_cfgpred_blocks g blk) = 1
        ∧ blk ≠ get_irg_start_block g) →
     phi_prefix blk →
     ∃ env' w left,
       compute_block_start_info (belady fuel) blk env = Ok env'
       ∧ ws_start <$> links env' !! blk = Some (Some w)
       ∧ Belady.workset_wf n_regs w
       ∧ len w = min n_regs (length (entry_values blk))
       ∧ take (len w) (vals w) ++ left ≡ₚ start_loc blk <$> entry_values blk
       ∧ ws_irns w ++ (irn <$> left) ≡ₚ entry_values blk
       ∧ Sorted loc_le (take (len w) (vals w))
       ∧ (∀ a b, a ∈ take (len w) (vals w) → b ∈ left → time a ≤ time b)).
Proof.
  intros env0 starters count Hblk Hcl Hin Hfuel.
  assert (Hc : min count n_regs ≤ length (sorter starters)).
  { rewrite (qsort_perm sorter). unfold count. lia. }
  assert (Hrun : ¬ (length (get_Block_cfgpred_blocks g blk) = 1
                    ∧ blk ≠ get_irg_start_block g) →
                 compute_block_start_info (belady fuel) blk env
                 = Ok (start_from_starters g n_regs blk count (sorter starters)
                         env0)).
  { intros Hother.
    unfold Belady.compute_block_start_info. rewrite Hblk.
    rewrite collect_starters_total. simpl.
    destruct (bool_decide (length _ = 1)) eqn:Hlen; simpl.
    - destruct (bool_decide (blk ≠ _)) eqn:Hns; simpl.
      { apply bool_decide_eq_true in Hlen, Hns. by destruct Hother. }
      reflexivity.
    - reflexivity. }
  assert (Hcut : ∀ a b, a ∈ take (min count n_regs) (sorter starters) →
                        b ∈ drop (min count n_regs) (sorter starters) →
                        time a ≤ time b).
  { intros a b Ha Hb.
    assert (Hs : StronglySorted loc_le
                   (take (min count n_regs) (sorter starters)
                    ++ drop (min count n_regs) (sorter starters))).
    { rewrite take_drop. apply Sorted_StronglySorted; [apply _|].
      apply (qsort_sorted sorter). }
    exact (StronglySorted_app_1_elem_of _ _ _ _ _ Hs Ha Hb). }
  split_and!.
  - apply compute_block_start_info_terminates. intros _ Hlen.
    destruct (get_Block_cfgpred_blocks g blk) as [|p [|??]] eqn:Hp;
      simpl in Hlen; try done. simpl.
    destruct fuel as [|fuel].
    { pose proof (unvisited_insert_lt U (links env) blk (BlockInfo None None)
                    Hin Hblk). lia. }
    apply (belady_terminates U); [done | by eapply Hcl |]. simpl.
    pose proof (unvisited_insert_lt U (links env) blk (BlockInfo None None)
                  Hin Hblk). lia.
  - intros pred env' Hpred Hns H.
    unfold Belady.compute_block_start_info in H. rewrite Hblk in H.
    rewrite collect_starters_total in H. simpl in H.
    rewrite Hpred in H. simpl in H.
    rewrite (bool_decide_eq_true_2 _ Hns) in H. simpl in H.
    fold env0 in H. inv_bind H as env1 H1.
    destruct (links env1 !! pred) as [pred_info|] eqn:Hpi; [|done].
    destruct (ws_end pred_info) as [we|] eqn:Hwe; [|done]. inv_Ok H.
    assert (Hne : blk ≠ pred).
    { intros <-.
      assert (Hbi : links env0 !! blk = Some (BlockInfo None None)).
      { unfold env0. simpl. apply lookup_insert_eq. }
      rewrite lookup_insert_eq in H1. inv_Ok H1. rewrite Hbi in Hpi.
      by inv_Ok Hpi. }
    assert (Hgrow : links_grow env0 env1).
    { destruct (<[blk:=BlockInfo None None]> (links env) !! pred);
        [inv_Ok H1; apply links_grow_refl|].
      by eapply belady_grow. }
    destruct (Hgrow blk) as [bi Hbi].
    { unfold env0. simpl. rewrite lookup_insert_eq. by eexists. }
    exists env1, we. split_and!; [done | by rewrite Hpi, <- Hwe | done | |].
    + simpl. unfold set_ws_start. by rewrite lookup_alter_eq, Hbi.
    + simpl. unfold set_ws_start. rewrite lookup_alter_ne by done.
      by rewrite Hpi, <- Hwe.
  - intros Hother.
    eexists. split_and!.
    + by apply Hrun.
    + simpl. unfold set_ws_start. rewrite lookup_alter_eq, lookup_insert_eq.
      simpl. reflexivity.
    + apply (qsort_perm sorter).
    + apply (qsort_sorted sorter).
    + done.
    + simpl. by rewrite take_app_length' by (rewrite length_take; lia).
    + by apply bulk_fill_irns.
    + exact Hcut.
  - intros Hother Hpre.
    pose proof (starter_values_entry_values blk Hpre) as Hvals.
    assert (Hlocs : sorter starters ≡ₚ start_loc blk <$> entry_values blk).
    { rewrite (qsort_perm sorter). unfold starters. by rewrite Hvals. }
    assert (Hcount : count = length (entry_values blk)).
    { unfold count, starters. by rewrite length_fmap, Hvals. }
    set (w := workset_bulk_fill new_workset (min count n_regs)
                (sorter starters)).
    assert (Hlen : len w = min count n_regs) by done.
    assert (Htake : take (len w) (vals w)
                    = take (min count n_regs) (sorter starters)).
    { rewrite Hlen. unfold w, workset_bulk_fill. cbn [vals].
      by rewrite take_app_length' by (rewrite length_take; lia). }
    exists (start_from_starters g n_regs blk count (sorter starters) env0), w,
      (drop (min count n_regs) (sorter starters)).
    split_and!.
    + by apply Hrun.
    + unfold start_from_starters, env0. simpl.
      unfold set_ws_start. rewrite lookup_alter_eq, lookup_insert_eq.
      reflexivity.
    + apply workset_bulk_fill_wf; [exact Hc | lia].
    + rewrite Hlen, <- Hcount. lia.
    + rewrite Htake, take_drop. exact Hlocs.
    + unfold ws_irns. rewrite Htake, <- fmap_app, take_drop, Hlocs.
      rewrite <- list_fmap_compose.
      by rewrite <- (list_fmap_id (entry_values blk)) at 2.
    + rewrite Htake. apply Sorted_loc_le_take, (qsort_sorted sorter).
    + rewrite Htake. exact Hcut.
Qed.

End BlockStart.

(** ** Block borders *)

Section BlockBorders.

Import Belady.
Import BeladySpec.

Variable g : ir_graph.
Variable n_regs : nat.

Local Abbreviation fix_value := (fix_value g).
Local Abbreviation fix_pred := (fix_pred g).
Local Abbreviation fix_block_borders := (fix_block_borders g).

Local Abbreviation edge_value := (edge_value g).
Local Abbreviation end_set := (end_set n_regs).
Local Abbreviation value_reloads := (value_reloads g n_regs).
Local Abbreviation border_reloads := (border_reloads g n_regs).
Local Abbreviation has_edge_arg := (has_edge_arg g).

Lemma add_edge_reloads_nil s : add_edge_reloads [] s = s.
Proof. destruct s. unfold BeladySpec.add_edge_reloads. simpl. by rewrite app_nil_r. Qed.

Lemma add_edge_reloads_app l1 l2 s :
  add_edge_reloads l2 (add_edge_reloads l1 s) = add_edge_reloads (l1 ++ l2) s.
Proof. unfold BeladySpec.add_edge_reloads. simpl. by rewrite app_assoc. Qed.

Lemma fix_value_reloads blk lk i p pi wsp s v :
  lk !! p = Some pi → ws_end pi = Some wsp → has_edge_arg blk i v →
  fix_value blk i (ws_end pi) s v
  = Ok (add_edge_reloads (value_reloads blk lk i p v) s).
Proof.
  intros Hp Hwsp Harg. unfold Belady.fix_value, BeladySpec.value_reloads, BeladySpec.edge_value.
  assert (Hend : end_set lk p = wsp).
  { unfold BeladySpec.end_set. rewrite Hp. simpl. by rewrite Hwsp. }
  rewrite Hend, Hwsp.
  destruct (is_Phi g v && bool_decide (blk = get_nodes_block g v)) eqn:Hphi.
  - apply andb_true_iff in Hphi as [Hphi Hb%bool_decide_eq_true].
    destruct (lookup_lt_is_Some_2 (get_irn_in g v) i (Harg Hphi Hb)) as [a Ha].
    rewrite Ha. simpl. rewrite (nth_lookup_Some _ _ _ _ Ha).
    destruct (is_Unknown g a); simpl; rewrite ?add_edge_reloads_nil; [done|].
    destruct (bool_decide (_ ∈ ws_irns wsp)); simpl;
      rewrite ?add_edge_reloads_nil; reflexivity.
  - simpl. destruct (is_Unknown g v); simpl; rewrite ?add_edge_reloads_nil;
      [done|].
    destruct (bool_decide (_ ∈ ws_irns wsp)); simpl;
      rewrite ?add_edge_reloads_nil; reflexivity.
Qed.

Lemma fix_values_reloads blk lk i p pi wsp l : ∀ s,
  lk !! p = Some pi → ws_end pi = Some wsp →
  (∀ v, v ∈ l → has_edge_arg blk i v) →
  foldM (fix_value blk i (ws_end pi)) l s
  = Ok (add_edge_reloads (l ≫= value_reloads blk lk i p) s).
Proof.
  induction l as [|v l IH]; intros s Hp Hwsp Harg.
  - simpl. by rewrite add_edge_reloads_nil.
  - cbn [foldM]. rewrite (fix_value_reloads blk lk i p pi wsp) by
      (done || apply Harg; by left).
    simpl. rewrite IH by (done || intros; apply Harg; by right).
    by rewrite add_edge_reloads_app.
Qed.

Lemma fix_preds_reloads blk wsb lk ips : ∀ s,
  (∀ ip, ip ∈ ips → ∃ pi wsp, lk !! ip.2 = Some pi ∧ ws_end pi = Some wsp) →
  (∀ ip v, ip ∈ ips → v ∈ ws_irns wsb → has_edge_arg blk ip.1 v) →
  foldM (fix_pred blk wsb lk) ips s
  = Ok (add_edge_reloads
          (ips ≫= λ ip, ws_irns wsb ≫= value_reloads blk lk ip.1 ip.2) s).
Proof.
  induction ips as [|ip ips IH]; intros s Hp Harg.
  - simpl. by rewrite add_edge_reloads_nil.
  - destruct (Hp ip) as (pi & wsp & Hpi & Hwsp); [by left|].
    assert (H1 : fix_pred blk wsb lk s ip
                 = Ok (add_edge_reloads
                         (ws_irns wsb ≫= value_reloads blk lk ip.1 ip.2) s)).
    { unfold Belady.fix_pred. rewrite Hpi.
      apply (fix_values_reloads blk lk ip.1 ip.2 pi wsp); [done|done|].
      intros; apply Harg; [by left | done]. }
    cbn [foldM]. rewrite H1. simpl. rewrite IH.
    + by rewrite add_edge_reloads_app.
    + intros; apply Hp; by right.
    + intros; apply Harg; [by right | done].
Qed.

(** C6: the edge fixup.  Let [blk] have a start set [wsb], let every
    predecessor have an end set, and let the Phis of [blk] in [wsb] have an
    argument per predecessor.  Then [fix_block_borders] succeeds and adds
    exactly the reloads [border_reloads]: for predecessor [p] at index [i]
    and value [v] of the start set, with [v'] the [i]-th argument of [v] if
    [v] is a Phi of [blk] and [v] itself otherwise, the reload of [v'] on
    edge [(p, blk, i)] is among them if and only if [v'] is not an Unknown
    and is not contained in the end set of [p]. *)
Theorem fix_block_borders_reloads blk env info wsb :
  links env !! blk = Some info → ws_start info = Some wsb →
  (∀ i p, get_Block_cfgpred_blocks g blk !! i = Some p →
          ∃ pi wsp, links env !! p = Some pi ∧ ws_end pi = Some wsp) →
  (∀ i p v, get_Block_cfgpred_blocks g blk !! i = Some p →
            v ∈ ws_irns wsb → has_edge_arg blk i v) →
  fix_block_borders blk env
  = Ok (set_senv (add_edge_reloads (border_reloads blk wsb (links env)) (senv env))
          env)
  ∧ (∀ i p v, get_Block_cfgpred_blocks g blk !! i = Some p →
              v ∈ ws_irns wsb →
              (edge_value blk i v, blk, i) ∈ border_reloads blk wsb (links env)
              ↔ is_Unknown g (edge_value blk i v) = false
                ∧ edge_value blk i v ∉ ws_irns (end_set (links env) p)).
Proof.
  intros Hinfo Hwsb Hpreds Hargs. split.
  - unfold Belady.fix_block_borders. rewrite Hinfo, Hwsb.
    rewrite fix_preds_reloads; [done| |].
    + intros [i p] [i' [p' [[= -> ->] Hip]]]%elem_of_lookup_imap. eauto.
    + intros [i p] v [i' [p' [[= -> ->] Hip]]]%elem_of_lookup_imap Hv. eauto.
  - intros i p v Hip Hv. unfold BeladySpec.border_reloads. split.
    + intros ([i2 p2] & Hin & Hip2)%list_elem_of_bind.
      apply elem_of_lookup_imap in Hip2 as (i3 & p3 & [= -> ->] & Hip3).
      apply list_elem_of_bind in Hin as (v2 & Hin & Hv2). simpl in Hin.
      unfold BeladySpec.value_reloads in Hin.
      destruct (is_Unknown g (edge_value blk i3 v2)) eqn:Hu; simpl in Hin;
        [by apply elem_of_nil in Hin|].
      case_bool_decide; [by apply elem_of_nil in Hin|].
      apply list_elem_of_singleton in Hin. injection Hin as Hev Hi. subst i3.
      rewrite Hev. split; [done|]. congruence.
    + intros [Hu Hnin]. apply list_elem_of_bind. exists (i, p). split.
      * apply list_elem_of_bind. exists v. split; [|done]. simpl.
        unfold BeladySpec.value_reloads. rewrite Hu. simpl.
        rewrite bool_decide_eq_false_2 by done. by left.
      * apply elem_of_lookup_imap. eauto.
Qed.

End BlockBorders.

(** ** The pass on the loop example *)

Section LoopExample.

Import Belady.
Import BeladySpec.

Lemma loop_blocks_closed : pred_closed loop_graph [1; 2; 3].
Proof.
  intros b p Hb Hp.
  repeat (apply elem_of_cons in Hb as [->|Hb]); simpl in Hp;
    try discriminate; [|by apply elem_of_nil in Hb].
  injection Hp as <-. by right; left.
Qed.

End LoopExample.

Lemma belady_workset_bounded_witness :
  Forall (λ st, Belady.len (Belady.ws st.1) ≤ 2)
    (Belady.belady_rounds loop_graph 0 2 Belady.merge_qsort 5 3
       (Belady.initial_env 2))
  ∧ length (Belady.belady_rounds loop_graph 0 2 Belady.merge_qsort 5 3
              (Belady.initial_env 2)) = 1.
Proof.
  split; [|reflexivity].
  apply Forall_forall. intros st Hst.
  apply (proj2 (proj2 (proj2
           (belady_workset_bounded loop_graph 0 2 Belady.merge_qsort)))
           5 3 (Belady.initial_env 2) st); [|exact Hst].
  apply initial_env_inv.
Defined.

Lemma displace_def_resident_skipped_witness :
  30 ∈ Belady.ws_irns loop_new_vals3
  ∧ Belady.displace plain_graph 0 2 Belady.merge_qsort
      (Belady.set_ws loop_new_vals3 loop_env3) loop_new_vals3 false
    = Ok (Belady.set_ws loop_new_vals3 loop_env3).
Proof.
  assert (Hin : 30 ∈ Belady.ws_irns loop_new_vals3) by (by left).
  split; [exact Hin|].
  apply (displace_def_resident_skipped plain_graph 0 2 Belady.merge_qsort
           (Belady.set_ws loop_new_vals3 loop_env3) loop_new_vals3 [] 30 Hin).
  - split; simpl; lia.
  - reflexivity.
Defined.

Lemma displace_keeps_nearest_witness :
  ∃ env' sorted,
    Belady.displace loop_graph 0 2 Belady.merge_qsort loop_env3
      loop_new_vals3 false = Ok env'
    ∧ sorted = [Belady.Loc 21 2; Belady.Loc 20 9]
    ∧ Belady.ws_irns (Belady.ws env') = [21; 30]
    ∧ Belady.len (Belady.ws env') = 2.
Proof.
  destruct (displace_keeps_nearest loop_graph 0 2 Belady.merge_qsort
              loop_env3 loop_new_vals3 false)
    as (env' & sorted & H & Hperm & _ & Hsorted & _ & Hirns & _ & Hlen).
  - split; simpl; lia.
  - split; simpl; lia.
  - apply NoDup_singleton.
  - by repeat constructor.
  - by repeat constructor.
  - exists (Belady.BlockInfo (Some loop_ws3) None), loop_ws3. by split.
  - simpl. lia.
  - exists env', [Belady.Loc 21 2; Belady.Loc 20 9].
    split; [exact H|]. split; [reflexivity|].
    assert (Hr : Belady.displace loop_graph 0 2 Belady.merge_qsort loop_env3
                   loop_new_vals3 false
                 = Ok (Belady.BeladyEnv
                         (Belady.Workset 2 [Belady.Loc 21 2; Belady.Loc 30 9])
                         30 0 ∅ (Belady.SpillEnv [] [20] [])
                         {[ 3 := Belady.BlockInfo
                                   (Some (Belady.Workset 1
                                            [Belady.Loc 21 7; Belady.Loc 21 7]))
                                   None ]}))
      by (vm_compute; reflexivity).
    rewrite Hr in H. injection H as <-. split; reflexivity.
Defined.

(** Block 2 of the loop: the Phi 20, then 21. *)
Lemma loop_phi_prefix : BeladySpec.phi_prefix loop_graph 2.
Proof.
  exists [20], [21]. split; [reflexivity|].
  split; repeat constructor.
Qed.

Lemma block_start_set_witness :
  (terminates
    (Belady.compute_block_start_info loop_graph 0 2 Belady.merge_qsort
       (Belady.belady loop_graph 0 2 Belady.merge_qsort 5) 3
       (Belady.initial_env 2))
  ∧ ∃ env', Belady.compute_block_start_info loop_graph 0 2 Belady.merge_qsort
              (Belady.belady loop_graph 0 2 Belady.merge_qsort 5) 3
              (Belady.initial_env 2) = Ok env'
            ∧ Belady.ws_start <$> Belady.links env' !! 3
              = Some (Some (Belady.Workset 2 [Belady.Loc 20 5; Belady.Loc 21 7])))
  ∧ BeladySpec.phi_prefix loop_graph 2
  ∧ BeladySpec.entry_values loop_graph 0 2 = [11; 20]
  ∧ ∃ env' w,
      Belady.compute_block_start_info loop_graph 0 1 Belady.merge_qsort
        (Belady.belady loop_graph 0 1 Belady.merge_qsort 5) 2
        (Belady.initial_env 1) = Ok env'
      ∧ Belady.ws_start <$> Belady.links env' !! 2 = Some (Some w)
      ∧ Belady.ws_irns w = [20].
Proof.
  split.
  - pose proof (block_start_set loop_graph 0 2 Belady.merge_qsort [1; 2; 3] 5 3
                  (Belady.initial_env 2)) as H.
    destruct H as (Hterm & Hone & _).
    + reflexivity.
    + exact loop_blocks_closed.
    + by right; right; left.
    + simpl. vm_compute. lia.
    + split; [exact Hterm|].
      destruct (Belady.compute_block_start_info loop_graph 0 2 Belady.merge_qsort
                  (Belady.belady loop_graph 0 2 Belady.merge_qsort 5) 3
                  (Belady.initial_env 2)) as [env'|e] eqn:Hrun;
        [|by vm_compute in Hrun].
      exists env'. split; [reflexivity|].
      destruct (Hone 2 env') as (env1 & we & _ & Hwe & _ & Hws & Hwe');
        [reflexivity | by vm_compute | reflexivity |].
      rewrite Hws, <- Hwe'.
      assert (Hr : Belady.ws_end <$> Belady.links env' !! 2
                   = Some (Some (Belady.Workset 2
                                   [Belady.Loc 20 5; Belady.Loc 21 7]))).
      { vm_compute in Hrun. injection Hrun as <-. by vm_compute. }
      exact Hr.
  - split; [exact loop_phi_prefix|]. split; [reflexivity|].
    pose proof (block_start_set loop_graph 0 1 Belady.merge_qsort [1; 2; 3] 5 2
                  (Belady.initial_env 1)) as H.
    destruct H as (_ & _ & _ & Hmany).
    + reflexivity.
    + exact loop_blocks_closed.
    + by right; left.
    + simpl. vm_compute. lia.
    + destruct Hmany
        as (env' & w & left & Hrun & Hws & [Hvals _] & Hlen & Hperm & _ & _ & Hcut).
      * simpl. intros [Hl _]. discriminate.
      * exact loop_phi_prefix.
      * exists env', w. split; [exact Hrun|]. split; [exact Hws|].
        change (BeladySpec.entry_values loop_graph 0 2) with [11; 20] in *.
        simpl in Hlen. unfold Belady.ws_irns. rewrite Hlen in *.
        change (BeladySpec.start_loc loop_graph 2 <$> [11; 20])
          with [Belady.Loc 11 7; Belady.Loc 20 1] in Hperm.
        destruct (Belady.vals w) as [|a [|??]]; try discriminate.
        simpl in Hperm, Hcut |- *. symmetry in Hperm.
        apply Permutation_length_2_inv in Hperm as [Heq|Heq].
        -- injection Heq as -> ->.
           specialize (Hcut (Belady.Loc 11 7) (Belady.Loc 20 1)).
           simpl in Hcut. assert (7 ≤ 1); [|lia].
           apply Hcut; by left.
        -- by injection Heq as -> ->.
Defined.

Lemma fix_block_borders_reloads_witness :
  Belady.edge_reloads
    (Belady.senv
       (match Belady.fix_block_borders loop_graph 2 borders_env with
        | Ok env' => env'
        | Err _ => borders_env
        end))
  = [(21, 2, 1); (11, 2, 1)].
Proof.
  destruct (fix_block_borders_reloads loop_graph 2 2 borders_env
              (Belady.BlockInfo (Some (Belady.Workset 2 [Belady.Loc 20 1;
                                                          Belady.Loc 11 7]))
                                (Some (Belady.Workset 1 [Belady.Loc 20 5;
                                                          Belady.Loc 30 7])))
              (Belady.Workset 2 [Belady.Loc 20 1; Belady.Loc 11 7]))
    as [H _].
  - reflexivity.
  - reflexivity.
  - intros [|[|i]] p Hp; simpl in Hp; try discriminate;
      injection Hp as <-; eexists _, _; split; reflexivity.
  - intros i p v Hp Hv Hphi _. simpl.
    apply lookup_lt_Some in Hp. simpl in Hp.
    simpl in Hphi. apply bool_decide_eq_true in Hphi. subst v. simpl. lia.
  - rewrite H. reflexivity.
Defined.

(** C7 (what the code does): in the pass over [loop_graph] with two
    registers, block 3 starts with the end set of its predecessor, which
    holds the Phi 20 of block 2.  The definition of node 30 evicts the Phi
    before any use in block 3, and [displace] marks it for spilling, although
    it is a Phi of block 2 and not of the block being walked; it is the only
    Phi the pass marks.  The eviction also takes it out of the start set of
    block 3. *)
Theorem displace_spills_phi_of_other_block :
  is_Phi loop_graph 20 = true
  ∧ get_nodes_block loop_graph 20 = 2
  ∧ get_nodes_block loop_graph (Belady.instr loop_env3) = 3
  ∧ (20 ∉ Belady.used loop_env3)
  ∧ (∃ env', Belady.displace loop_graph 0 2 Belady.merge_qsort loop_env3
               loop_new_vals3 false = Ok env'
             ∧ Belady.spilled_phis (Belady.senv env') = [20]
             ∧ Belady.ws_irns (Belady.ws env') = [21; 30]
             ∧ (Belady.ws_start <$> Belady.links env' !! 3)
               = Some (Some (Belady.Workset 1 [Belady.Loc 21 7; Belady.Loc 21 7])))
  ∧ (∃ env', Belady.be_spill_belady loop_graph 0 2 Belady.merge_qsort 5
               [1; 2; 3] [3; 2; 1] = Ok env'
             ∧ Belady.spilled_phis (Belady.senv env') = [20]).
Proof.
  split_and!; [reflexivity | reflexivity | reflexivity | set_solver | |].
  - eexists. split; [vm_compute; reflexivity|]. split_and!; reflexivity.
  - eexists. split; [vm_compute; reflexivity|]. reflexivity.
Qed.

(** ** Bitsets *)

Section BitsetFacts.

Import Chordal.
Import ChordalSpec.

Lemma bitset_contains_subset a b :
  bitset_contains a b = true ↔ bitset_subset a b.
Proof.
  unfold bitset_contains, ChordalSpec.bitset_subset, bitset_is_set.
  rewrite Z.eqb_eq. split.
  - intros H i Hi. rewrite <- H in Hi. rewrite Z.land_spec in Hi.
    by apply andb_true_iff in Hi as [_ Hi].
  - intros H. apply Z.bits_inj'. intros n Hn. rewrite Z.land_spec.
    destruct (Z.testbit a n) eqn:Ha; [|done]. simpl.
    specialize (H (Z.to_nat n)). rewrite Z2Nat.id in H by done. by apply H.
Qed.

Lemma bitset_subset_antisym a b :
  bitset_subset a b → bitset_subset b a → a = b.
Proof.
  intros Hab Hba. apply Z.bits_inj'. intros n Hn.
  specialize (Hab (Z.to_nat n)). specialize (Hba (Z.to_nat n)).
  unfold bitset_is_set in *. rewrite Z2Nat.id in Hab, Hba by done.
  destruct (Z.testbit a n), (Z.testbit b n); auto.
  by symmetry; apply Hab.
Qed.

Lemma bitset_is_set_set b i j :
  bitset_is_set (bitset_set b i) j = bool_decide (i = j) || bitset_is_set b j.
Proof.
  unfold bitset_is_set, bitset_set. rewrite Z.setbit_eqb by lia.
  f_equal. case_bool_decide as H.
  - subst. apply Z.eqb_refl.
  - apply Z.eqb_neq. lia.
Qed.

Lemma bitset_is_set_clear b i j :
  bitset_is_set (bitset_clear b i) j
  = negb (bool_decide (i = j)) && bitset_is_set b j.
Proof.
  unfold bitset_is_set, bitset_clear. rewrite Z.clearbit_eqb by lia.
  rewrite andb_comm. f_equal. f_equal. case_bool_decide as H.
  - subst. apply Z.eqb_refl.
  - apply Z.eqb_neq. lia.
Qed.

Lemma bitset_elems_spec n b i :
  i ∈ bitset_elems n b ↔ i < n ∧ bitset_is_set b i = true.
Proof.
  unfold bitset_elems. rewrite list_elem_of_filter, elem_of_seq.
  intuition lia.
Qed.

(** The first element of a filtered ascending range is its least member. *)
Lemma filter_seq_head (P : nat → Prop) `{∀ i, Decision (P i)} from len i l :
  filter P (seq from len) = i :: l →
  from ≤ i < from + len ∧ P i ∧ ∀ j, from ≤ j < i → ¬ P j.
Proof.
  revert from. induction len as [|len IH]; intros from Hf; [done|].
  simpl in Hf. rewrite filter_cons in Hf. destruct (decide (P from)) as [Hp|Hp].
  - injection Hf as <- _. split_and!; [lia | lia | done | lia].
  - apply IH in Hf as (Hr & Hi & Hj). split_and!; [lia | lia | done |].
    intros j Hj'. destruct (decide (j = from)) as [->|Hne]; [done|].
    apply Hj. lia.
Qed.

Lemma filter_seq_nil (P : nat → Prop) `{∀ i, Decision (P i)} from len :
  filter P (seq from len) = [] → ∀ j, from ≤ j < from + len → ¬ P j.
Proof.
  intros Hf j Hj Hp.
  assert (Hin : j ∈ filter P (seq from len)).
  { apply list_elem_of_filter. split; [done|]. apply elem_of_seq. lia. }
  rewrite Hf in Hin. by apply elem_of_nil in Hin.
Qed.

End BitsetFacts.

(** ** Decisive constraints *)

Section Constraints.

Import Chordal.
Import ChordalSpec.

Variable n_regs : nat.

Local Abbreviation handle_operand := (handle_operand n_regs).
Local Abbreviation constraint_edges := (constraint_edges n_regs).
Local Abbreviation assign_matched := (assign_matched n_regs).
Local Abbreviation assign_matching := (assign_matching n_regs).

(** What one round of the operand loop can do to the left nodes and the
    edges: nothing, or one more left node with its constraint edges. *)
Lemma handle_operand_cases ops st op st' :
  handle_operand ops st op = Ok st' →
  (alloc_nodes st' = alloc_nodes st ∧ bp st' = bp st)
  ∨ (∃ bs, get_decisive_partner_regs ops op = Ok bs
           ∧ alloc_nodes st' = alloc_nodes st ++ [carrier op]
           ∧ bp st' = bp st ++ constraint_edges (n_alloc st) bs).
Proof.
  unfold Chordal.handle_operand. intros H. inv_bind H as o2 Ho2.
  destruct (match o2 with Some _ => _ | None => _ end); [inv_Ok H; by left|].
  destruct (list_contains_irn _ _); [inv_Ok H; by left|].
  case_bool_decide; [|done]. inv_bind H as bs Hbs. inv_Ok H. right.
  exists bs. by split_and!.
Qed.

Lemma constraint_edges_left n bs e : e ∈ constraint_edges n bs → e.1 = n.
Proof.
  unfold Chordal.constraint_edges. destruct bs as [bs|].
  - by intros (col & -> & _)%list_elem_of_fmap.
  - by intros ?%elem_of_nil.
Qed.

Lemma handle_operand_bounded ops st op st' :
  edges_bounded st → handle_operand ops st op = Ok st' → edges_bounded st'.
Proof.
  intros Hb H e He. unfold n_alloc.
  destruct (handle_operand_cases _ _ _ _ H) as [[Hn Hbp]|(bs & _ & Hn & Hbp)];
    rewrite Hn; rewrite Hbp in He.
  - by apply Hb.
  - rewrite length_app. simpl. apply elem_of_app in He as [He|He].
    + apply Hb in He. unfold n_alloc in He. lia.
    + apply constraint_edges_left in He. unfold n_alloc in He. lia.
Qed.

Lemma handle_operand_unconstrained ops n st op st' :
  unconstrained_left n st → handle_operand ops st op = Ok st' →
  unconstrained_left n st'.
Proof.
  intros [Hn Hc] H. unfold ChordalSpec.unconstrained_left, n_alloc in *.
  destruct (handle_operand_cases _ _ _ _ H) as [[Hn' Hbp]|(bs & _ & Hn' & Hbp)];
    rewrite Hn', Hbp; [done|].
  rewrite length_app. split; [lia|]. intros c [He|He]%elem_of_app.
  - by eapply Hc.
  - apply constraint_edges_left in He. simpl in He. unfold n_alloc in He. lia.
Qed.

Lemma foldM_steps {A S} (f : S → A → result S) l : ∀ s s' x,
  foldM f l s = Ok s' → x ∈ l → ∃ s1 s2, f s1 x = Ok s2.
Proof.
  induction l as [|y l IH]; intros s s' x H Hx; [by apply elem_of_nil in Hx|].
  simpl in H. inv_bind H as s1 H1.
  apply elem_of_cons in Hx as [->|Hx]; [eauto|]. by eapply IH.
Qed.

Lemma unconstrained_left_fails n st assignment registers :
  unconstrained_left n st → respects_edges st assignment →
  ¬ is_Ok (assign_matching st assignment registers).
Proof.
  intros [Hn Hc] Hres [r Hr]. unfold Chordal.assign_matching in Hr.
  destruct (foldM_steps _ _ _ _ n Hr) as (r1 & r2 & H).
  { apply elem_of_seq. lia. }
  unfold Chordal.assign_matched in H.
  destruct (assignment !! n) as [a|] eqn:Ha; [|done].
  destruct (alloc_nodes st !! n); [|done].
  inv_bind H as u Hu. apply assert_Ok, bool_decide_eq_true in Hu.
  by eapply Hc, Hres.
Qed.

(** C4: the decisive constraint of an operand.  Without a partner it is the
    operand's own [regs].  With a partner (of the same class), if the
    operand's [regs] is a subset of the partner's it is the operand's, and if
    the partner's is a subset of the operand's it is the partner's: the
    subset wins.  If neither is a subset of the other there is none.  In
    [handle_constraints] an operand that becomes a left node gets one edge
    per register of its decisive constraint and none when there is none;
    such a left node has no edge at the end of the loop either, so whatever
    matching of the graph is computed, the assertion that every left node
    received a colour fails. *)
Theorem decisive_partner_regs ops o1 :
  (partner o1 = None →
   get_decisive_partner_regs ops o1 = Ok (Some (regs o1)))
  ∧ (∀ j o2, partner o1 = Some j → ops !! j = Some o2 →
       req_cls o1 = req_cls o2 →
       (bitset_subset (regs o1) (regs o2) →
        get_decisive_partner_regs ops o1 = Ok (Some (regs o1)))
       ∧ (bitset_subset (regs o2) (regs o1) →
          get_decisive_partner_regs ops o1 = Ok (Some (regs o2)))
       ∧ (¬ bitset_subset (regs o1) (regs o2) →
          ¬ bitset_subset (regs o2) (regs o1) →
          get_decisive_partner_regs ops o1 = Ok None))
  ∧ (∀ st st', handle_operand ops st o1 = Ok st' →
       n_alloc st' = S (n_alloc st) →
       ∃ bs, get_decisive_partner_regs ops o1 = Ok bs
             ∧ alloc_nodes st' = alloc_nodes st ++ [carrier o1]
             ∧ bp st' = bp st ++ constraint_edges (n_alloc st) bs
             ∧ (∀ l c, (l, c) ∈ constraint_edges (n_alloc st) bs ↔
                       l = n_alloc st ∧ c < n_regs
                       ∧ ∃ rs, bs = Some rs ∧ bitset_is_set rs c = true))
  ∧ (∀ pre post st0 st1 st assignment registers,
       foldM (handle_operand ops) pre (ConstrState ∅ [] []) = Ok st0 →
       handle_operand ops st0 o1 = Ok st1 →
       n_alloc st1 = S (n_alloc st0) →
       get_decisive_partner_regs ops o1 = Ok None →
       foldM (handle_operand ops) post st1 = Ok st →
       (∀ c, (n_alloc st0, c) ∉ bp st)
       ∧ (respects_edges st assignment →
          ¬ is_Ok (assign_matching st assignment registers))).
Proof.
  split_and!.
  - intros Hp. unfold get_decisive_partner_regs, partner_op. by rewrite Hp.
  - intros j o2 Hp Hj Hcls.
    assert (Hd : get_decisive_partner_regs ops o1
                 = if bitset_contains (regs o1) (regs o2) then Ok (Some (regs o1))
                   else if bitset_contains (regs o2) (regs o1)
                        then Ok (Some (regs o2)) else Ok None).
    { unfold get_decisive_partner_regs, partner_op. rewrite Hp, Hj. simpl.
      by rewrite bool_decide_eq_true_2. }
    rewrite Hd. split_and!.
    + intros H%bitset_contains_subset. by rewrite H.
    + intros H. destruct (bitset_contains (regs o1) (regs o2)) eqn:H12.
      * apply bitset_contains_subset in H12.
        by rewrite (bitset_subset_antisym _ _ H12 H).
      * apply bitset_contains_subset in H. by rewrite H.
    + intros H1 H2.
      destruct (bitset_contains (regs o1) (regs o2)) eqn:H12.
      { by apply bitset_contains_subset in H12. }
      destruct (bitset_contains (regs o2) (regs o1)) eqn:H21; [|done].
      by apply bitset_contains_subset in H21.
  - intros st st' H Hn.
    destruct (handle_operand_cases _ _ _ _ H) as [[Hn' _]|(bs & Hbs & Hn' & Hbp)].
    { unfold n_alloc in Hn. rewrite Hn' in Hn. lia. }
    exists bs. split_and!; [done|done|done|].
    intros l c. unfold Chordal.constraint_edges. destruct bs as [rs|].
    + rewrite list_elem_of_fmap. split.
      * intros (col & [= -> ->] & Hcol). apply bitset_elems_spec in Hcol.
        split_and!; [done | by destruct Hcol |]. exists rs. by destruct Hcol.
      * intros (-> & Hc & rs' & [= <-] & Hset). exists c. split; [done|].
        by apply bitset_elems_spec.
    + split; [by intros ?%elem_of_nil|]. by intros (_ & _ & rs & ? & _).
  - intros pre post st0 st1 st assignment registers H0 H1 Hn Hnone Hpost.
    assert (Hb0 : edges_bounded st0).
    { apply (foldM_invariant edges_bounded (handle_operand ops) pre)
        with (s := ConstrState ∅ [] []); [| |done].
      - intros s x s' _ Hs Hx. by eapply handle_operand_bounded.
      - intros e He. by apply elem_of_nil in He. }
    assert (Hu1 : unconstrained_left (n_alloc st0) st1).
    { split; [lia|]. intros c Hc.
      destruct (handle_operand_cases _ _ _ _ H1)
        as [[Hn' _]|(bs & Hbs & Hn' & Hbp)].
      { unfold n_alloc in Hn. rewrite Hn' in Hn. lia. }
      rewrite Hnone in Hbs. inv_Ok Hbs. rewrite Hbp in Hc. simpl in Hc.
      rewrite app_nil_r in Hc. apply Hb0 in Hc. simpl in Hc. lia. }
    assert (Hu : unconstrained_left (n_alloc st0) st).
    { apply (foldM_invariant (unconstrained_left (n_alloc st0))
               (handle_operand ops) post) with (s := st1); [|done|done].
      intros s x s' _ Hs Hx. by eapply handle_operand_unconstrained. }
    split; [by destruct Hu|]. intros Hres.
    by eapply unconstrained_left_fails.
Qed.

End Constraints.

(** ** The colouring walk *)

Section Colouring.

Import Chordal.
Import ChordalSpec.

Variable g : ir_graph.
Variable cls : nat.
Variable n_regs : nat.
Variable allocatable_regs : bitset_t.

Local Abbreviation get_next_free_reg := (get_next_free_reg n_regs allocatable_regs).
Local Abbreviation arch_register_for_index := (arch_register_for_index n_regs).
Local Abbreviation assign_border := (assign_border g n_regs allocatable_regs).
Local Abbreviation assign := (assign g cls n_regs allocatable_regs).

Local Abbreviation free_reg := (free_reg allocatable_regs).

Lemma free_mask_is_set colors i :
  i < n_regs →
  bitset_is_set
    (bitset_and (bitset_flip_all n_regs (bitset_copy 0%Z colors)) allocatable_regs) i
  = true ↔ free_reg colors i.
Proof.
  intros Hi. unfold ChordalSpec.free_reg, bitset_is_set, bitset_and, bitset_flip_all,
    bitset_copy.
  rewrite Z.land_spec, Z.lxor_spec, Z.ones_spec_low by lia.
  rewrite andb_true_iff, xorb_true_r, negb_true_iff. tauto.
Qed.

(** [get_next_free_reg] answers the lowest free register below [n_regs], or
    -1 when there is none. *)
Lemma get_next_free_reg_spec colors :
  (get_next_free_reg colors = (-1)%Z ∧ ∀ j, j < n_regs → ¬ free_reg colors j)
  ∨ (∃ col, get_next_free_reg colors = Z.of_nat col ∧ col < n_regs
            ∧ free_reg colors col ∧ ∀ j, j < col → ¬ free_reg colors j).
Proof.
  unfold Chordal.get_next_free_reg, bitset_next_set. rewrite Nat.sub_0_r.
  set (tmp := bitset_and _ _).
  destruct (filter _ (seq 0 n_regs)) as [|col l] eqn:Hf.
  - left. split; [done|]. intros j Hj Hfree.
    eapply (filter_seq_nil _ _ _ Hf j); [lia|]. by apply free_mask_is_set.
  - right. exists col. apply filter_seq_head in Hf as (Hr & Hc & Hlow).
    split_and!; [done | lia | apply free_mask_is_set; [lia | done] |].
    intros j Hj Hfree. apply (Hlow j); [lia|].
    apply free_mask_is_set; [lia | done].
Qed.

Lemma assign_snoc block pre b registers0 :
  assign block (pre ++ [b]) registers0
  = (st ← assign block pre registers0; assign_border block st b).
Proof.
  unfold Chordal.assign. destruct (foldM _ (live_ins g block) _) as [st|e];
    simpl; [|done].
  rewrite foldM_app. destruct (foldM _ pre st) as [st1|e]; simpl; [|done].
  by destruct (assign_border block st1 b).
Qed.

(** C3: the colouring walk.  Let the walk have reached a border-list event
    in state [st].  If the event is the def of a value that is not live-in
    to the block and has no register yet, a successful step gives it the
    register [get_next_free_reg] answers: the lowest index below [n_regs]
    among the allocatable registers whose bit is not set in [colors]; that
    bit is then set.  The step succeeds whenever such a register exists (the
    value being neither ignored nor already live).  If the event is a use of
    a value with register [r], the step clears bit [r] of [colors] and leaves
    the other bits and the registers alone, so that [r], if allocatable, is
    free for the next def: [get_next_free_reg] then answers [r] or a lower
    register. *)
Theorem assign_lowest_free_reg block pre registers0 st irn :
  assign block pre registers0 = Ok st →
  (be_is_live_in g block irn = false → registers st !! irn = None →
   (∀ st', assign block (pre ++ [Border true irn]) registers0 = Ok st' →
      ∃ col, get_next_free_reg (colors st) = Z.of_nat col
             ∧ col < n_regs ∧ free_reg (colors st) col
             ∧ (∀ j, j < col → ¬ free_reg (colors st) j)
             ∧ registers st' = <[irn := col]> (registers st)
             ∧ colors st' = bitset_set (colors st) col
             ∧ live st' = bitset_set (live st) irn)
   ∧ (∀ col, col < n_regs → free_reg (colors st) col →
        flag_ignore g irn = false → bitset_is_set (live st) irn = false →
        is_Ok (assign block (pre ++ [Border true irn]) registers0)))
  ∧ (∀ r, registers st !! irn = Some r →
       ∃ st', assign block (pre ++ [Border false irn]) registers0 = Ok st'
              ∧ colors st' = bitset_clear (colors st) r
              ∧ bitset_is_set (colors st') r = false
              ∧ (∀ j, j ≠ r →
                   bitset_is_set (colors st') j = bitset_is_set (colors st) j)
              ∧ registers st' = registers st
              ∧ (r < n_regs → bitset_is_set allocatable_regs r = true →
                 ∃ col, get_next_free_reg (colors st') = Z.of_nat col
                        ∧ col ≤ r)).
Proof.
  intros Hst. split.
  - intros Hlive Hreg. split.
    + intros st' H. rewrite assign_snoc, Hst in H. simpl in H.
      unfold Chordal.assign_border in H. simpl in H.
      rewrite Hlive, Hreg in H. simpl in H.
      inv_bind H as cr Hcr. inv_bind Hcr as u Hu. inv_bind Hcr as reg Hr.
      inv_Ok Hcr. inv_bind H as u' Hu'. inv_Ok H. simpl.
      unfold Chordal.arch_register_for_index in Hr.
      case_bool_decide as Hrange; [|done]. inv_Ok Hr.
      destruct (get_next_free_reg_spec (colors st))
        as [[Hm _]|(col & Hcol & Hlt & Hfree & Hlow)].
      { rewrite Hm in Hrange. lia. }
      exists col. rewrite Hcol, Nat2Z.id. by split_and!.
    + intros col Hlt Hfree Hign Hnl.
      rewrite assign_snoc, Hst. simpl.
      unfold Chordal.assign_border. simpl. rewrite Hlive, Hreg, Hign. simpl.
      destruct (get_next_free_reg_spec (colors st))
        as [[_ Hnone]|(c & Hc & Hclt & _)].
      { by destruct (Hnone col Hlt). }
      unfold Chordal.arch_register_for_index. rewrite Hc.
      rewrite bool_decide_eq_true_2 by lia. simpl. rewrite Hnl. simpl.
      by eexists.
  - intros r Hr. rewrite assign_snoc, Hst. simpl.
    unfold Chordal.assign_border. simpl. rewrite Hr.
    eexists. split; [done|]. simpl. split_and!; [done| | |done|].
    + rewrite bitset_is_set_clear. by rewrite bool_decide_eq_true_2.
    + intros j Hj. rewrite bitset_is_set_clear.
      by rewrite bool_decide_eq_false_2.
    + intros Hlt Halloc.
      destruct (get_next_free_reg_spec (bitset_clear (colors st) r))
        as [[_ Hnone]|(c & Hc & Hclt & _ & Hlow)].
      * destruct (Hnone r Hlt). split; [done|].
        rewrite bitset_is_set_clear. by rewrite bool_decide_eq_true_2.
      * exists c. split; [done|].
        destruct (decide (c ≤ r)) as [|Hgt]; [done|].
        destruct (Hlow r); [lia|]. split; [done|].
        rewrite bitset_is_set_clear. by rewrite bool_decide_eq_true_2.
Qed.

End Colouring.

(** ** The list scheduler *)

Section SchedulerFacts.

Import ListSched.
Import ListSchedSpec.

Variable S : Type.
Variable g : sched_graph.
Variable selector : list_sched_selector_t S.
Variable order : nodeset_order.
Variable block : ir_node.
(** The scheduling info when the block is entered. *)
Variable info0 : list sched_irn_t.

Local Abbreviation env_t := (block_sched_env_t S).
Local Abbreviation M := (M S).
Local Abbreviation ins_or_deps := (ins_or_deps g).
Local Abbreviation hoare := (hoare S).
Local Abbreviation already := (already S).
Local Abbreviation local_operand := (local_operand g block).
Local Abbreviation operands_done := (operands_done S g block).
Local Abbreviation entered := (entered g info0).
Local Abbreviation respects_dag := (respects_dag g block info0).
Local Abbreviation sched_inv := (sched_inv S g block info0).
Local Abbreviation sched_inv_with := (sched_inv_with S g block info0).
Local Abbreviation addable := (addable S g block).
Local Abbreviation add_spec := (add_spec S g block info0).
Local Abbreviation selects_ready := (selects_ready S selector).
Local Abbreviation start_without_operands := (start_without_operands g block).

Lemma hoare_bind {A B} P (m : M A) (k : A → M B) Q R E :
  hoare P m Q E → (∀ a, hoare (Q a) (k a) R E) → hoare P (m ≫= k) R E.
Proof.
  intros Hm Hk env HP. specialize (Hm env HP).
  unfold mbind, M_bind. destruct (m env) as [[a|e] env']; [|done].
  by apply Hk.
Qed.

Lemma hoare_ret {A} (P : env_t → Prop) (a : A) (Q : A → env_t → Prop) E :
  (∀ env, P env → Q a env) → hoare P (mret a) Q E.
Proof. intros H env HP. by apply H. Qed.

Lemma hoare_skip (P : env_t → Prop) (Q : unit → env_t → Prop) E :
  (∀ env, P env → Q tt env) → hoare P (skip S) Q E.
Proof. apply hoare_ret. Qed.

Lemma hoare_fail {A} (P : env_t → Prop) e (Q : A → env_t → Prop)
    (E : env_t → Prop) :
  (∀ env, P env → E env) → hoare P (fail S e) Q E.
Proof. intros H env HP. by apply H. Qed.

Lemma hoare_get (P : env_t → Prop) E :
  hoare P (get S) (λ a env, a = env ∧ P env) E.
Proof. by intros env HP. Qed.

Lemma hoare_modify (P : env_t → Prop) f (Q : unit → env_t → Prop) E :
  (∀ env, P env → Q tt (f env)) → hoare P (modify S f) Q E.
Proof. intros H env HP. by apply H. Qed.

Lemma hoare_conseq {A} (P P' : env_t → Prop) (m : M A)
    (Q Q' : A → env_t → Prop) E :
  hoare P' m Q' E → (∀ env, P env → P' env) →
  (∀ a env, Q' a env → Q a env) → hoare P m Q E.
Proof.
  intros Hm HP HQ env Hp. specialize (Hm env (HP env Hp)).
  destruct (m env) as [[a|e] env']; [by apply HQ | done].
Qed.

Lemma hoare_mfor {A} (P : env_t → Prop) (f : A → M unit) l E :
  (∀ x, x ∈ l → hoare P (f x) (λ _, P) E) →
  hoare P (mfor S f l) (λ _, P) E.
Proof.
  induction l as [|x l IH]; intros Hf; simpl.
  - by apply hoare_skip.
  - eapply hoare_bind; [apply Hf; by left|]. intros ?.
    apply IH. intros y Hy. apply Hf. by right.
Qed.

(** *** The invariant *)

Lemma entered_app sch l u : entered sch u → entered (sch ++ l) u.
Proof.
  intros [H|[H|H]]; [by left | by right; left|].
  right; right. apply elem_of_app. by left.
Qed.

(** Changes to the counters, the live set and the selector's environment do
    not touch the invariant. *)
Lemma flagged_same_flag info n i0 num u :
  info !! n = Some i0 →
  flagged (<[n := SchedIrn num (already_sched i0)]> info) u ↔ flagged info u.
Proof.
  intros Hn. unfold ListSchedSpec.flagged. destruct (decide (n = u)) as [->|Hne].
  - rewrite list_lookup_insert_eq by (by eapply lookup_lt_Some).
    split; [intros (i & [= <-] & Hi); eauto | intros (i & Hi & Ha)].
    eexists. split; [done|]. simpl. congruence.
  - by rewrite list_lookup_insert_ne.
Qed.

Lemma sched_inv_with_same K env env' :
  (∀ u, already env' u ↔ already env u) →
  cands env' = cands env → schedule env' = schedule env →
  sched_inv_with K env → sched_inv_with K env'.
Proof.
  intros Ha Hc Hs [(H1 & H2 & H3) HK]. unfold ListSchedSpec.sched_inv_with, ListSchedSpec.sched_inv.
  rewrite Hc, Hs. split_and!; [|by intros u ?%Ha%H2|done|by intros u ?%HK%Ha].
  intros n Hn u Hu. apply Ha. by apply (H1 n).
Qed.

Lemma hoare_info_at K n :
  hoare (sched_inv_with K) (info_at S n)
    (λ i env, sched_inv_with K env ∧ sched_info env !! n = Some i)
    (sched_inv_with K).
Proof.
  unfold info_at. eapply hoare_bind; [apply hoare_get|]. intros env0.
  destruct (sched_info env0 !! n) as [i|] eqn:Hi.
  - apply hoare_ret. intros env [-> HJ]. by split.
  - apply hoare_fail. by intros env [_ HJ].
Qed.

Lemma hoare_set_counter K n num :
  hoare (sched_inv_with K) (set_irn_not_sched_user S n num)
    (λ _, sched_inv_with K) (sched_inv_with K).
Proof.
  unfold set_irn_not_sched_user. eapply hoare_bind; [apply hoare_info_at|].
  intros i. apply hoare_modify. intros env [HJ Hi].
  eapply sched_inv_with_same; [| | |exact HJ]; [|done|done].
  intros u. by apply flagged_same_flag.
Qed.

Lemma hoare_add_counter K n num :
  hoare (sched_inv_with K) (add_irn_not_sched_user S n num)
    (λ _, sched_inv_with K) (sched_inv_with K).
Proof.
  unfold add_irn_not_sched_user. eapply hoare_bind; [apply hoare_info_at|].
  intros i. eapply hoare_bind.
  - apply (hoare_modify _ _ (λ _, sched_inv_with K)). intros env [HJ Hi].
    eapply sched_inv_with_same; [| | |exact HJ]; [|done|done].
    intros u. by apply flagged_same_flag.
  - intros ?. by apply hoare_ret.
Qed.

Lemma hoare_set_live K f :
  hoare (sched_inv_with K)
    (modify S (λ env, set_live S (f env) env))
    (λ _, sched_inv_with K) (sched_inv_with K).
Proof.
  apply hoare_modify. intros env HJ.
  by eapply sched_inv_with_same; [| | |exact HJ].
Qed.

Lemma hoare_set_selector_env K f :
  hoare (sched_inv_with K)
    (modify S (λ env, set_selector_env S (f env) env))
    (λ _, sched_inv_with K) (sched_inv_with K).
Proof.
  apply hoare_modify. intros env HJ.
  by eapply sched_inv_with_same; [| | |exact HJ].
Qed.

Lemma hoare_update_sched_liveness K fuel irn :
  hoare (sched_inv_with K) (update_sched_liveness S g fuel irn)
    (λ _, sched_inv_with K) (sched_inv_with K).
Proof.
  unfold update_sched_liveness. destruct (is_Proj g irn); [by apply hoare_skip|].
  eapply hoare_bind.
  - apply hoare_mfor. intros op _.
    eapply hoare_bind; [apply hoare_get|]. intros env0.
    destruct (ir_nodeset_contains _ _).
    + eapply hoare_bind.
      * eapply hoare_conseq; [apply hoare_add_counter | by intros env [_ ?] |].
        intros a env H. exact H.
      * intros n. destruct (n <=? 0)%Z; [apply hoare_set_live|].
        by apply hoare_skip.
    + apply hoare_skip. by intros env [_ ?].
  - intros ?. destruct (get_num_successors g fuel irn) as [i|e].
    + destruct (0 <? i)%Z; [|by apply hoare_skip].
      eapply hoare_bind; [apply hoare_set_counter|]. intros ?.
      apply hoare_set_live.
    + by apply hoare_fail.
Qed.

(** *** [make_ready] *)

(** The operand loop reads only; when it answers true, the operands of this
    block among [ops] are all marked. *)
Lemma operands_scheduled_spec irn ops (env : env_t) :
  ∃ r, operands_scheduled S g block irn ops env = (r, env)
       ∧ (r = Ok true →
          ∀ u, u ∈ ops → is_Block g u = false →
               get_nodes_block g u = block → already env u).
Proof.
  induction ops as [|op rest IH]; simpl.
  { eexists. split; [done|]. intros _ u Hu. by apply elem_of_nil in Hu. }
  destruct IH as (r & Hr & Hall).
  destruct (is_Block g op) eqn:Hblk.
  - unfold mbind, M_bind, massert. destruct (is_End g irn); simpl.
    + exists r. split; [done|]. intros Hok u [->|Hu]%elem_of_cons Hb Hn.
      * congruence.
      * by apply Hall.
    + eexists. split; [done|]. done.
  - unfold is_already_scheduled, info_at, mbind, M_bind, get. simpl.
    destruct (sched_info env !! op) as [i|] eqn:Hi; simpl.
    2:{ eexists. split; [done|]. done. }
    destruct (negb (already_sched i)
              && bool_decide (get_nodes_block g op = block)) eqn:Hc.
    + eexists. split; [done|]. done.
    + exists r. split; [done|]. intros Hok u [->|Hu]%elem_of_cons Hb Hn.
      * apply andb_false_iff in Hc as [Hc|Hc].
        -- exists i. split; [done|]. by destruct (already_sched i).
        -- by apply bool_decide_eq_false in Hc.
      * by apply Hall.
Qed.

Lemma hoare_operands_scheduled K irn :
  hoare (sched_inv_with K) (operands_scheduled S g block irn (ins_or_deps irn))
    (λ ok env, sched_inv_with K env ∧ (ok = true → operands_done env irn))
    (sched_inv_with K).
Proof.
  intros env HJ.
  destruct (operands_scheduled_spec irn (ins_or_deps irn) env) as (r & -> & Hr).
  destruct r as [ok|e]; [|done]. split; [done|]. intros -> u (Hu & Hb & Hn).
  by apply Hr.
Qed.

Lemma sched_inv_with_insert_cand K irn env :
  sched_inv_with K env → operands_done env irn →
  sched_inv_with K (set_cands S (ir_nodeset_insert (cands env) irn) env).
Proof.
  intros [(H1 & H2 & H3) HK] Hd. split; [split_and!|]; simpl; try done.
  intros n Hn. unfold ir_nodeset_insert in Hn. case_bool_decide.
  - by apply H1.
  - apply elem_of_app in Hn as [Hn|Hn]; [by apply H1|].
    apply list_elem_of_singleton in Hn. by subst.
Qed.

Lemma sched_inv_with_remove_cand K irn env :
  sched_inv_with K env →
  sched_inv_with K (set_cands S (ir_nodeset_remove (cands env) irn) env).
Proof.
  intros [(H1 & H2 & H3) HK]. split; [split_and!|]; simpl; try done.
  intros n Hn. unfold ir_nodeset_remove in Hn.
  apply list_elem_of_filter in Hn as [_ Hn]. by apply H1.
Qed.

Lemma hoare_make_ready K add pred irn :
  add_spec add →
  hoare (sched_inv_with K) (make_ready S g selector block add pred irn)
    (λ _, sched_inv_with K) (sched_inv_with K).
Proof.
  intros Hadd. unfold make_ready.
  destruct (is_Block g irn || _); [by apply hoare_ret|].
  destruct (negb _); [by apply hoare_ret|].
  eapply hoare_bind; [apply hoare_operands_scheduled|]. intros ok.
  destruct ok; simpl; [|apply hoare_ret; by intros env [? _]].
  eapply hoare_bind with (Q := λ _, sched_inv_with K); [|by intros; apply hoare_ret].
  destruct (to_appear_in_schedule g irn) eqn:Happ; simpl.
  - eapply hoare_bind with (Q := λ _, sched_inv_with K).
    + apply hoare_modify. intros env [HJ Hd].
      apply sched_inv_with_insert_cand; [done | by apply Hd].
    + intros ?. apply hoare_set_selector_env.
  - eapply hoare_conseq; [apply (Hadd K irn)| |done].
    intros env [HJ _]. split; [done|]. by right; right; left.
Qed.

Lemma hoare_make_users_ready K add irn :
  add_spec add →
  hoare (sched_inv_with K) (make_users_ready S g selector block add irn)
    (λ _, sched_inv_with K) (sched_inv_with K).
Proof.
  intros Hadd. unfold make_users_ready.
  assert (Huser : ∀ user,
            hoare (sched_inv_with K)
              (if negb (is_Phi g user)
               then _ ← make_ready S g selector block add irn user; skip S
               else skip S)
              (λ _, sched_inv_with K) (sched_inv_with K)).
  { intros user. destruct (negb _); [|by apply hoare_skip].
    eapply hoare_bind; [by apply hoare_make_ready|]. intros ?.
    by apply hoare_skip. }
  eapply hoare_bind; [apply hoare_mfor; intros; apply Huser|].
  intros ?. apply hoare_mfor; intros; apply Huser.
Qed.

(** *** [add_to_sched] *)

Lemma app_eq_snoc {A} (l1 l2 sch : list A) n x :
  l1 ++ n :: l2 = sch ++ [x] →
  (l2 = [] ∧ n = x ∧ l1 = sch) ∨ (∃ l2', sch = l1 ++ n :: l2').
Proof.
  intros H. destruct l2 as [|y l2 _] using rev_ind.
  - left. apply app_inj_tail in H as [-> ->]. done.
  - right. exists l2. rewrite app_comm_cons, app_assoc in H.
    by apply app_inj_tail in H as [<- _].
Qed.

Lemma sched_inv_with_append K irn env :
  (is_Phi g irn = true ∨ be_is_Start g irn = true
   ∨ ∀ u, local_operand irn u → K u) →
  sched_inv_with K env →
  sched_inv_with K (set_schedule S (schedule env ++ [irn]) env).
Proof.
  intros Hops [(H1 & H2 & H3) HK]. split; [split_and!|]; simpl; try done.
  - intros u Hu. by apply entered_app, H2.
  - intros l1 n l2 u Heq Hphi Hstart Hu.
    symmetry in Heq.
    apply app_eq_snoc in Heq as [(-> & -> & ->)|[l2' Heq]].
    + destruct Hops as [Hp|[Hs|Hops]]; [congruence | congruence |].
      by apply H2, HK, Hops.
    + by eapply H3.
Qed.

Lemma hoare_set_already_scheduled K irn :
  hoare (λ env, sched_inv_with K env
                ∧ (to_appear_in_schedule g irn = false ∨ irn ∈ schedule env))
    (set_already_scheduled S irn)
    (λ _, sched_inv_with K) (sched_inv_with K).
Proof.
  unfold set_already_scheduled. eapply hoare_bind.
  - unfold info_at. eapply hoare_bind; [apply hoare_get|]. intros env0.
    destruct (sched_info env0 !! irn) as [i|] eqn:Hi.
    + apply (hoare_ret _ _ (λ i env,
               (sched_inv_with K env
                ∧ (to_appear_in_schedule g irn = false ∨ irn ∈ schedule env))
               ∧ sched_info env !! irn = Some i)).
      intros env [-> H]. by split.
    + apply hoare_fail. by intros env [_ [HJ _]].
  - intros i. apply hoare_modify. intros env [[[(H1 & H2 & H3) HK] Hent] Hi].
    assert (Hmono : ∀ u, already env u →
              flagged (<[irn := SchedIrn (num_not_sched_user i) true]>
                         (sched_info env)) u).
    { intros u (j & Hj & Ha). unfold ListSchedSpec.flagged.
      destruct (decide (irn = u)) as [->|Hne].
      - rewrite list_lookup_insert_eq by (by eapply lookup_lt_Some). eauto.
      - rewrite list_lookup_insert_ne by done. eauto. }
    split; [split_and!|]; simpl; try done.
    + intros n Hn u Hu. by apply Hmono, (H1 n).
    + intros u (j & Hj & Ha). destruct (decide (irn = u)) as [->|Hne].
      * destruct Hent as [Hent|Hent]; [by right; left | by right; right].
      * simpl in Hj. rewrite list_lookup_insert_ne in Hj by done.
        apply H2. by exists j.
    + intros u Hu. by apply Hmono, HK.
Qed.

(** One level of [add_to_sched], for a node whose operands are in [K]. *)
Lemma hoare_add_to_sched_step K fuel irn :
  add_spec (add_to_sched S g selector block fuel) →
  (is_Phi g irn = true ∨ be_is_Start g irn = true
   ∨ to_appear_in_schedule g irn = false ∨ ∀ u, local_operand irn u → K u) →
  hoare (sched_inv_with K)
    (add_to_sched S g selector block (Datatypes.S fuel) irn)
    (λ _, sched_inv_with K) (sched_inv_with K).
Proof.
  intros Hrec Hops. simpl.
  eapply hoare_bind with
    (Q := λ _ env, sched_inv_with K env
                   ∧ (to_appear_in_schedule g irn = false ∨ irn ∈ schedule env)).
  { destruct (to_appear_in_schedule g irn) eqn:Happ.
    - eapply hoare_bind; [apply hoare_update_sched_liveness|]. intros ?.
      eapply hoare_bind with
        (Q := λ _ env, sched_inv_with K env ∧ irn ∈ schedule env).
      + apply hoare_modify. intros env HJ. split.
        * apply sched_inv_with_append; [|done].
          destruct Hops as [?|[?|[?|?]]]; auto. congruence.
        * simpl. apply elem_of_app. right. by left.
      + intros ?. apply hoare_modify. intros env [HJ Hin]. split.
        * by apply sched_inv_with_remove_cand.
        * by right.
    - apply hoare_skip. intros env HJ. split; [done | by left]. }
  intros ?. eapply hoare_bind with
    (Q := λ _ env, sched_inv_with K env
                   ∧ (to_appear_in_schedule g irn = false ∨ irn ∈ schedule env)).
  { apply hoare_modify. intros env [HJ Hent]. split; [|done].
    by eapply sched_inv_with_same; [| | |exact HJ]. }
  intros ?. eapply hoare_bind; [apply hoare_set_already_scheduled|].
  intros ?. by apply hoare_make_users_ready.
Qed.

Lemma hoare_add_to_sched fuel :
  add_spec (add_to_sched S g selector block fuel).
Proof.
  induction fuel as [|fuel IH]; intros K irn.
  { apply hoare_fail. by intros env [HJ _]. }
  intros env [[HI HK] Hadd].
  set (K' := λ u, K u ∨ (operands_done env irn ∧ local_operand irn u)).
  assert (HJ' : sched_inv_with K' env).
  { split; [done|]. intros u [Hu|[Hd Hu]]; [by apply HK | by apply Hd]. }
  assert (Hops : is_Phi g irn = true ∨ be_is_Start g irn = true
                 ∨ to_appear_in_schedule g irn = false
                 ∨ ∀ u, local_operand irn u → K' u).
  { destruct Hadd as [?|[?|[?|Hd]]]; auto.
    right; right; right. intros u Hu. right. by split. }
  pose proof (hoare_add_to_sched_step K' fuel irn IH Hops env HJ') as H.
  destruct (add_to_sched S g selector block (Datatypes.S fuel) irn env)
    as [[a|e] env']; destruct H as [HI' HK']; (split; [done|]);
    intros u Hu; apply HK'; by left.
Qed.

(** *** [list_sched_block] *)

Lemma hoare_seed_operands K ops :
  hoare (sched_inv_with K) (seed_operands S g block ops)
    (λ _, sched_inv_with K) (sched_inv_with K).
Proof.
  induction ops as [|op rest IH]; simpl; [by apply hoare_ret|].
  case_bool_decide; [by apply hoare_ret|].
  eapply hoare_bind; [apply hoare_set_live|]. intros ?. apply IH.
Qed.

Lemma hoare_seed K fuel irn :
  hoare (sched_inv_with K) (seed S g selector block fuel irn)
    (λ _, sched_inv_with K) (sched_inv_with K).
Proof.
  unfold seed. destruct (is_End g irn); [by apply hoare_skip|].
  case_bool_decide; [by apply hoare_skip|].
  destruct (bool_decide _ && _); [by apply hoare_skip|].
  destruct (is_Phi g irn) eqn:Hphi.
  { eapply hoare_conseq; [apply (hoare_add_to_sched fuel K irn)| |done].
    intros env HJ. split; [done | by left]. }
  destruct (be_is_Start g irn) eqn:Hstart.
  { eapply hoare_conseq; [apply (hoare_add_to_sched fuel K irn)| |done].
    intros env HJ. split; [done | by right; left]. }
  eapply hoare_bind; [apply hoare_seed_operands|]. intros ready.
  destruct ready; [|by apply hoare_skip].
  eapply hoare_bind; [apply hoare_make_ready, hoare_add_to_sched|].
  intros ?. by apply hoare_skip.
Qed.

Lemma hoare_pick K :
  selects_ready →
  hoare (λ env, sched_inv_with K env ∧ cands env ≠ [])
    (pick S g selector order)
    (λ irn env, sched_inv_with K env ∧ irn ∈ cands env) (sched_inv_with K).
Proof.
  intros Hsel. unfold pick. eapply hoare_bind; [apply hoare_get|]. intros env0.
  destruct (list_find _ _) as [[i irn]|] eqn:Hfind.
  - apply hoare_ret. intros env [-> [HJ Hne]]. split; [done|].
    apply list_find_Some in Hfind as (Hi & _).
    apply (iterate_members order). by eapply list_elem_of_lookup_2.
  - eapply hoare_bind with
      (Q := λ _ env, sched_inv_with K env
                     ∧ (select selector (selector_block_env env0) (cands env0)
                          (live env0)).1 ∈ cands env).
    + apply hoare_modify. intros env [-> [HJ Hne]]. split.
      * by eapply sched_inv_with_same; [| | |exact HJ].
      * simpl. by apply Hsel.
    + intros ?. by apply hoare_ret.
Qed.

Lemma hoare_sched_loop K fuel :
  selects_ready →
  hoare (sched_inv_with K) (sched_loop S g selector order block fuel)
    (λ _, sched_inv_with K) (sched_inv_with K).
Proof.
  intros Hsel. induction fuel as [|fuel IH]; simpl; [by apply hoare_fail|].
  eapply hoare_bind; [apply hoare_get|]. intros env0.
  case_bool_decide as Hc.
  { apply hoare_skip. by intros env [_ ?]. }
  eapply hoare_bind.
  { eapply hoare_conseq; [apply (hoare_pick K Hsel)| |].
    - intros env [-> HJ]. by split.
    - intros a env H. exact H. }
  intros irn. eapply hoare_bind.
  { eapply hoare_conseq; [apply (hoare_add_to_sched fuel K irn)| |].
    - intros env [HJ Hin]. split; [done|]. right; right; right.
      destruct HJ as [(H1 & _) _]. by apply H1.
    - intros a env H. exact H. }
  intros ?. eapply hoare_bind; [|intros ?; apply IH].
  apply hoare_modify. intros env HJ. by apply sched_inv_with_remove_cand.
Qed.

Lemma list_sched_block_inv fuel s0 :
  selects_ready →
  sched_inv (list_sched_block S g selector order block fuel info0 s0).2.
Proof.
  intros Hsel. unfold list_sched_block.
  set (env0 := BlockEnv info0 [] [] [] s0).
  assert (H0 : sched_inv_with (λ _, False) env0).
  { split; [split_and!|]; simpl; try done.
    - intros n Hn. by apply elem_of_nil in Hn.
    - intros u Hu. by left.
    - intros l1 n l2 u Heq. by destruct l1. }
  assert (H : hoare (sched_inv_with (λ _, False))
                (_ ← mfor S (seed S g selector block fuel) (out_edges g block);
                 sched_loop S g selector order block fuel)
                (λ _, sched_inv_with (λ _, False))
                (sched_inv_with (λ _, False))).
  { eapply hoare_bind; [apply hoare_mfor; intros; apply hoare_seed|].
    intros ?. by apply hoare_sched_loop. }
  specialize (H env0 H0).
  destruct ((_ ← mfor S (seed S g selector block fuel) (out_edges g block);
             sched_loop S g selector order block fuel) env0)
    as [[a|e] env']; simpl; by destruct H.
Qed.

(** C8: the schedule respects the dependency DAG.  Let the selector pick
    from the ready set, and let no node of the block be marked as already
    scheduled when the block is entered: [be_list_sched_graph] clears the
    marks before it walks the blocks, and a block marks only nodes of its
    own.  Then, however far the scheduling of the block has got, every node
    in the ready set has all its operands and dependency inputs of this
    block marked as already scheduled; and every instruction [n] of the
    schedule that went through the ready set, that is every one but the Phis
    and the Start node, which are scheduled at once, comes after each of its
    operands and dependency inputs [u] of this block that appears in
    schedules: [u] is in the part of the schedule before [n], at a smaller
    index.  Where the Start node has no operand in its block, the same holds
    for it as well. *)
Theorem list_sched_respects_dag fuel s0 :
  selects_ready →
  (∀ u, get_nodes_block g u = block → ¬ flagged info0 u) →
  let env := (list_sched_block S g selector order block fuel info0 s0).2 in
  (∀ n u, n ∈ cands env → local_operand n u → already env u)
  ∧ (∀ l1 n l2 u,
       schedule env = l1 ++ n :: l2 →
       is_Phi g n = false → be_is_Start g n = false →
       local_operand n u →
       to_appear_in_schedule g u = true →
       u ∈ l1)
  ∧ (∀ i n u,
       schedule env !! i = Some n →
       is_Phi g n = false → be_is_Start g n = false →
       local_operand n u →
       to_appear_in_schedule g u = true →
       ∃ j, j < i ∧ schedule env !! j = Some u)
  ∧ (start_without_operands →
     ∀ i n u,
       schedule env !! i = Some n →
       is_Phi g n = false →
       local_operand n u →
       to_appear_in_schedule g u = true →
       ∃ j, j < i ∧ schedule env !! j = Some u).
Proof.
  intros Hsel Hfresh env.
  destruct (list_sched_block_inv fuel s0 Hsel) as (H1 & H2 & H3).
  fold env in H1, H2, H3.
  assert (Hbefore : ∀ l1 n l2 u,
            schedule env = l1 ++ n :: l2 →
            is_Phi g n = false → be_is_Start g n = false →
            local_operand n u → to_appear_in_schedule g u = true → u ∈ l1).
  { intros l1 n l2 u Heq Hphi Hs Hu Happ.
    destruct (H3 l1 n l2 u Heq Hphi Hs Hu) as [Hf|[?|?]];
      [|congruence|done].
    destruct (Hfresh u); [|exact Hf]. by destruct Hu as (_ & _ & ?). }
  assert (Hindex : ∀ i n u,
            schedule env !! i = Some n →
            is_Phi g n = false → be_is_Start g n = false →
            local_operand n u → to_appear_in_schedule g u = true →
            ∃ j, j < i ∧ schedule env !! j = Some u).
  { intros i n u Hi Hphi Hs Hu Happ.
    assert (Hin : u ∈ take i (schedule env)).
    { apply (Hbefore _ n (drop (Datatypes.S i) (schedule env))); try done.
      symmetry. by apply take_drop_middle. }
    apply elem_of_take in Hin as (j & Hj & Hlt). eauto. }
  split_and!.
  - intros n u Hn Hu. by apply (H1 n).
  - exact Hbefore.
  - exact Hindex.
  - intros Hstart i n u Hi Hphi Hu Happ.
    destruct (be_is_Start g n) eqn:Hs; [by destruct (Hstart n u)|].
    by apply (Hindex i n u).
Qed.

End SchedulerFacts.

(** ** The examples of the allocator and the scheduler *)

Lemma first_selector_selects_ready : ListSchedSpec.selects_ready unit first_selector.
Proof.
  intros s c l Hc. destruct c as [|n c]; [done|]. simpl. by left.
Qed.

Lemma list_sched_respects_dag_witness :
  ListSchedSpec.selects_ready unit first_selector
  ∧ (∀ u, get_nodes_block (ListSched.irg sched_loop_graph) u = 2 →
          ¬ ListSchedSpec.flagged fresh_sched_info u)
  ∧ ListSched.schedule
      (ListSched.list_sched_block unit sched_loop_graph first_selector
         ListSched.insertion_order 2 10 fresh_sched_info tt).2
    = [20; 21; 22]
  ∧ ∀ u, ListSchedSpec.local_operand sched_loop_graph 2 22 u →
         ∃ j, j < 2 ∧ [20; 21; 22] !! j = Some u.
Proof.
  assert (Hfresh : ∀ u, get_nodes_block (ListSched.irg sched_loop_graph) u = 2 →
                        ¬ ListSchedSpec.flagged fresh_sched_info u).
  { intros u _ (i & Hi & Ha). unfold fresh_sched_info in Hi.
    apply lookup_replicate in Hi as [-> _]. discriminate. }
  split; [exact first_selector_selects_ready|]. split; [exact Hfresh|].
  split; [reflexivity|].
  intros u Hu.
  apply (proj1 (proj2 (proj2 (list_sched_respects_dag unit sched_loop_graph
                                first_selector ListSched.insertion_order 2
                                fresh_sched_info 10 tt
                                first_selector_selects_ready Hfresh)))
           2 22 u);
    [reflexivity | reflexivity | reflexivity | exact Hu | reflexivity].
Defined.

(** Scenario S1 of the design: two values defined one after the other get
    the registers 0 and 1; after the use of the first, register 0 is handed
    out again. *)
Lemma assign_lowest_free_reg_witness :
  ∃ st', Chordal.assign plain_graph 0 3 7%Z 1
           [Chordal.Border true 10; Chordal.Border true 11] ∅ = Ok st'
         ∧ Chordal.registers st' !! 11 = Some 1
         ∧ Chordal.colors st' = 3%Z.
Proof.
  assert (Hst : Chordal.assign plain_graph 0 3 7%Z 1 [Chordal.Border true 10] ∅
                = Ok (Chordal.AllocState 1%Z (Z.setbit 0 10) {[10 := 0]}))
    by reflexivity.
  destruct (assign_lowest_free_reg plain_graph 0 3 7%Z 1
              [Chordal.Border true 10] ∅ _ 11 Hst) as [Hdef _].
  destruct Hdef as [Hlow Hok]; [reflexivity | reflexivity |].
  destruct (Hok 1) as [st' Hst']; [lia | by split | reflexivity | reflexivity |].
  exists st'. split; [exact Hst'|].
  destruct (Hlow st' Hst') as (col & Hcol & _ & _ & _ & Hregs & Hcolors & _).
  assert (H1 : Chordal.get_next_free_reg 3 7%Z 1%Z = 1%Z) by reflexivity.
  cbn [Chordal.colors] in Hcol. rewrite H1 in Hcol.
  assert (col = 1) as -> by lia.
  rewrite Hregs, Hcolors. split; [apply lookup_insert_eq | reflexivity].
Defined.

(** Scenario S6 of the design in the small: the two partners ask for
    [{r0, r1}] and [{r1, r2}]; neither is a subset of the other, the left
    node gets no edge, and no assignment that uses edges colours it. *)
Lemma decisive_partner_regs_witness :
  let ops := [Chordal.Operand 10 3%Z 0 (Some 1);
              Chordal.Operand 11 6%Z 0 (Some 0)] in
  Chordal.get_decisive_partner_regs ops (Chordal.Operand 10 3%Z 0 (Some 1))
  = Ok None
  ∧ ∀ st registers,
      Chordal.handle_operands 3 ops = Ok st →
      ¬ is_Ok (Chordal.assign_matching 3 st [(-1)%Z] registers).
Proof.
  intros ops.
  pose proof (decisive_partner_regs 3 ops (Chordal.Operand 10 3%Z 0 (Some 1)))
    as (_ & Hsub & _ & Hfail).
  assert (Hnone : Chordal.get_decisive_partner_regs ops
                    (Chordal.Operand 10 3%Z 0 (Some 1)) = Ok None).
  { apply (Hsub 1 (Chordal.Operand 11 6%Z 0 (Some 0)));
      [reflexivity | reflexivity | reflexivity | |].
    - intros H. specialize (H 0 eq_refl). discriminate.
    - intros H. specialize (H 2 eq_refl). discriminate. }
  split; [exact Hnone|]. intros st registers Hst.
  apply (Hfail [] [Chordal.Operand 11 6%Z 0 (Some 0)]
           (Chordal.ConstrState ∅ [] [])
           (Chordal.ConstrState {[10 := Some 11; 11 := Some 10]} [10] [])
           st [(-1)%Z] registers);
    [reflexivity | by vm_compute | reflexivity | exact Hnone | exact Hst |].
  intros i a Hi Ha. destruct i as [|i]; simpl in Hi; [|done].
  injection Hi as <-. lia.
Defined.

(** * Further properties *)

(** ** Working sets: a full set, removal *)

Section WorksetMore.

Import Belady.

Variable g : ir_graph.
Variable cls : nat.
Variable n_regs : nat.

Local Abbreviation workset_wf := (workset_wf n_regs).
Local Abbreviation workset_insert := (workset_insert g cls n_regs).
Local Abbreviation consider := (arch_irn_consider_in_reg_alloc g cls).

(** X1: For a working set with len <= n_regs, workset_insert fails, by its
    assertion and in no other way, exactly when the value is considered for
    the class, is not yet a member and the set is full (len = n_regs); while
    len < n_regs it succeeds, keeps every member and makes a considered value
    a member. *)
Theorem workset_insert_full_fails w val :
  workset_wf w →
  (workset_insert w val = Err assert_failed
   ↔ consider val = true ∧ (val ∉ ws_irns w) ∧ len w = n_regs)
  ∧ (∀ e, workset_insert w val = Err e → e = assert_failed)
  ∧ (len w < n_regs → ∃ w', workset_insert w val = Ok w'
       ∧ (consider val = true → val ∈ ws_irns w')
       ∧ ∀ x, x ∈ ws_irns w → x ∈ ws_irns w').
Proof.
  intros [Hl Hn]. unfold Belady.workset_insert.
  destruct (consider val) eqn:Hc; simpl.
  2:{ split_and!; [split; [done|by intros [? _]] | done |].
      intros _. exists w. by split_and!. }
  destruct (workset_contains w val) eqn:Hin.
  { apply workset_contains_true in Hin.
    split_and!; [split; [done|by intros (_ & ? & _)] | done |].
    intros _. exists w. by split_and!. }
  apply workset_contains_false in Hin.
  destruct (decide (len w < n_regs)) as [Hlt|Hge].
  - rewrite bool_decide_eq_true_2 by done. simpl.
    split_and!; [split; [done|intros (_ & _ & ?); lia] | done |].
    intros _. eexists. split; [done|].
    rewrite ws_irns_take_slot by lia. split.
    + intros _. apply elem_of_app. right. by left.
    + intros x Hx. apply elem_of_app. by left.
  - rewrite bool_decide_eq_false_2 by done. simpl.
    split_and!; [split; [intros _; split_and!; [done|done|lia] | done] | |lia].
    intros e He. by inv_Ok He.
Qed.


Lemma filter_all {A} (P : A → Prop) `{∀ x, Decision (P x)} (l : list A) :
  (∀ x, x ∈ l → P x) → filter P l = l.
Proof.
  induction l as [|a l IH]; intros Hl; [done|].
  rewrite filter_cons_True by (apply Hl; by left).
  f_equal. apply IH. intros x Hx. apply Hl. by right.
Qed.

(** Dropping the one entry that holds [val]. *)
Lemma filter_out_unique (L : list loc_t) i x val :
  L !! i = Some x → irn x = val → NoDup (irn <$> L) →
  filter (λ l, irn l ≠ val) L = take i L ++ drop (S i) L.
Proof.
  intros Hi Hx Hnd.
  rewrite <- (take_drop_middle L i x Hi) in Hnd at 1.
  rewrite <- (take_drop_middle L i x Hi) at 1.
  rewrite fmap_app, fmap_cons in Hnd.
  apply NoDup_app in Hnd as (_ & Hl & Hr).
  apply NoDup_cons in Hr as [Hr _].
  rewrite filter_app, filter_cons_False by (intros Hne; by apply Hne).
  rewrite !filter_all; [done| |].
  - intros y Hy Heq. apply Hr. rewrite Hx, <- Heq. by apply list_elem_of_fmap_2.
  - intros y Hy Heq. apply (Hl (irn y)); [by apply list_elem_of_fmap_2|].
    rewrite Heq, <- Hx. by left.
Qed.

(** X2: On a working set without duplicates, workset_remove leaves the set
    unchanged when the value is absent; otherwise it shortens the set by one,
    and the members afterwards are exactly the old members other than the
    value (as a permutation: the last entry moves into the freed slot), still
    without duplicates and within n_regs. *)
Theorem workset_remove_member w val :
  workset_wf w → NoDup (ws_irns w) →
  let w' := workset_remove w val in
  (val ∉ ws_irns w → w' = w)
  ∧ (val ∈ ws_irns w → len w' = len w - 1 ∧ 0 < len w)
  ∧ take (len w') (vals w') ≡ₚ filter (λ l, irn l ≠ val) (take (len w) (vals w))
  ∧ (∀ x, x ∈ ws_irns w' ↔ x ∈ ws_irns w ∧ x ≠ val)
  ∧ NoDup (ws_irns w') ∧ workset_wf w'.
Proof.
  intros [Hl Hn] Hnd w'.
  assert (Hperm : take (len w') (vals w')
                  ≡ₚ filter (λ l, irn l ≠ val) (take (len w) (vals w))
                  ∧ (val ∉ ws_irns w → w' = w)
                  ∧ (val ∈ ws_irns w → len w' = len w - 1 ∧ 0 < len w)
                  ∧ workset_wf w').
  { unfold w', workset_remove.
    destruct (list_find _ _) as [[i x]|] eqn:Hf.
    - apply list_find_Some in Hf as (Hi & Hx & _).
      assert (Hlt : i < len w).
      { apply lookup_lt_Some in Hi. rewrite length_take in Hi. lia. }
      simpl. split_and!.
      + rewrite (filter_out_unique _ i x val Hi Hx Hnd).
        destruct (lookup_lt_is_Some_2 (vals w) (len w - 1)) as [y Hy]; [lia|].
        rewrite (nth_lookup_Some _ _ _ _ Hy).
        assert (Hsplit : take (len w) (vals w) = take (len w - 1) (vals w) ++ [y]).
        { rewrite <- (take_S_r _ _ y Hy). f_equal. lia. }
        rewrite take_take. replace (i `min` len w) with i by lia.
        destruct (decide (i = len w - 1)) as [->|Hne].
        * rewrite take_insert_ge by lia.
          rewrite (drop_ge (take _ _)) by (rewrite length_take; lia).
          by rewrite app_nil_r.
        * rewrite take_insert_lt by lia.
          rewrite insert_take_drop by (rewrite length_take; lia).
          rewrite take_take. replace (i `min` (len w - 1)) with i by lia.
          apply Permutation_app_head.
          rewrite Hsplit, drop_app_le by (rewrite length_take; lia).
          by rewrite Permutation_cons_append.
      + intros Hnin. exfalso. apply Hnin. rewrite <- Hx.
        unfold ws_irns. apply list_elem_of_fmap_2. by eapply list_elem_of_lookup_2.
      + intros _. lia.
      + split; simpl; [by rewrite length_insert | lia].
    - split_and!; [|done| |done].
      + rewrite filter_all; [done|]. intros y Hy Heq.
        apply list_find_None in Hf. rewrite Forall_forall in Hf.
        by apply (Hf y).
      + intros Hin. exfalso. apply list_elem_of_fmap in Hin as (y & Hy & Hin).
        apply list_find_None in Hf. rewrite Forall_forall in Hf.
        by apply (Hf y). }
  destruct Hperm as (Hperm & H1 & H2 & Hwf).
  split_and!; try done.
  - intros x. unfold ws_irns. rewrite Hperm.
    rewrite !list_elem_of_fmap. split.
    + intros (y & -> & Hy). apply list_elem_of_filter in Hy as [Hne Hy].
      split; [by exists y | done].
    + intros [(y & -> & Hy) Hne]. exists y. split; [done|].
      by apply list_elem_of_filter.
  - unfold ws_irns. rewrite Hperm.
    unfold ws_irns in Hnd. revert Hnd. generalize (take (len w) (vals w)).
    intros L. induction L as [|a L IH]; [done|].
    rewrite fmap_cons, NoDup_cons. intros [Ha HL].
    rewrite filter_cons. destruct (decide _); [|by apply IH].
    rewrite fmap_cons, NoDup_cons. split; [|by apply IH].
    intros Hin. apply Ha. apply list_elem_of_fmap in Hin as (y & -> & Hy).
    apply list_elem_of_filter in Hy as [_ Hy]. by apply list_elem_of_fmap_2.
Qed.

End WorksetMore.

(** ** One round of the walk *)

Section BeladyRound.

Import Belady.
Import BeladySpec.

Variable g : ir_graph.
Variable cls : nat.
Variable n_regs : nat.
Variable sorter : loc_sorter.

Local Abbreviation workset_wf := (workset_wf n_regs).
Local Abbreviation workset_insert := (workset_insert g cls n_regs).
Local Abbreviation new_workset := (new_workset n_regs).
Local Abbreviation consider := (arch_irn_consider_in_reg_alloc g cls).
Local Abbreviation dispose := (dispose g).
Local Abbreviation make_room := (make_room g sorter).
Local Abbreviation displace := (displace g cls n_regs sorter).
Local Abbreviation belady_instr := (belady_instr g cls n_regs sorter).
Local Abbreviation belady_inv := (belady_inv n_regs).
Local Abbreviation walk_inv := (walk_inv n_regs).

Lemma make_room_keeps env is_usage max_allowed env' :
  make_room env is_usage max_allowed = Ok env' →
  instr env' = instr env ∧ instr_nr env' = instr_nr env
  ∧ used env' = used env ∧ reloads (senv env') = reloads (senv env)
  ∧ edge_reloads (senv env') = edge_reloads (senv env)
  ∧ (len (ws env) ≤ max_allowed → env' = env).
Proof.
  intros H. unfold Belady.make_room in H. unfold workset_get_length in H.
  case_bool_decide.
  - inv_bind H as w Hw. inv_bind H as env2 H2. inv_Ok H.
    apply disposes_keep in H2 as (_ & ? & ? & ? & ? & ?).
    split_and!; try done. lia.
  - inv_Ok H. by split_and!.
Qed.

Lemma inserts_members l : ∀ w w',
  workset_wf w → foldM workset_insert l w = Ok w' →
  (∀ v, v ∈ ws_irns w → v ∈ ws_irns w')
  ∧ (∀ v, v ∈ l → consider v = true → v ∈ ws_irns w')
  ∧ (∀ v, v ∈ ws_irns w' → v ∈ ws_irns w ∨ v ∈ l ∧ consider v = true).
Proof.
  induction l as [|a l IH]; intros w w' Hwf H; simpl in H.
  - inv_Ok H. split_and!; [done| |auto]. intros v Hv. by apply elem_of_nil in Hv.
  - inv_bind H as w1 H1.
    assert (Hwf1 : workset_wf w1) by (by eapply (workset_insert_wf g cls n_regs)).
    destruct (IH _ _ Hwf1 H) as (IH1 & IH2 & IH3).
    destruct (workset_insert_cases g cls n_regs _ _ _ Hwf H1)
      as [[-> Hcase]|(Hc & Hnin & _ & _ & _ & Hirns)].
    + split_and!; [done| |].
      * intros v Hv Hc. apply elem_of_cons in Hv as [->|Hv]; [|by apply IH2].
        destruct Hcase as [Hcase|Hcase]; [congruence | by apply IH1].
      * intros v Hv. destruct (IH3 v Hv) as [?|[? ?]]; [by left|].
        right. split; [by right | done].
    + split_and!.
      * intros v Hv. apply IH1. rewrite Hirns. apply elem_of_app. by left.
      * intros v Hv Hcv. apply elem_of_cons in Hv as [->|Hv]; [|by apply IH2].
        apply IH1. rewrite Hirns. apply elem_of_app. right. by left.
      * intros v Hv. destruct (IH3 v Hv) as [Hv1|[? ?]].
        -- rewrite Hirns in Hv1. apply elem_of_app in Hv1 as [?|Hv1]; [by left|].
           apply list_elem_of_singleton in Hv1 as ->. right. split; [by left|done].
        -- right. split; [by right | done].
Qed.

Lemma displace_effect env new_vals is_usage env' :
  let to_insert := not_resident (ws env) (ws_irns new_vals) in
  belady_inv env →
  displace env new_vals is_usage = Ok env' →
  reloads (senv env')
  = reloads (senv env)
    ++ (if is_usage then (λ v, (v, instr env)) <$> to_insert else [])
  ∧ edge_reloads (senv env') = edge_reloads (senv env)
  ∧ used env'
    = (if is_usage then list_to_set (ws_irns new_vals) ∪ used env else used env)
  ∧ instr env' = instr env ∧ instr_nr env' = instr_nr env
  ∧ (∀ v, v ∈ to_insert → consider v = true → v ∈ ws_irns (ws env'))
  ∧ (to_insert = [] → ws env' = ws env ∧ links env' = links env).
Proof.
  intros to_insert Hinv H. unfold Belady.displace in H.
  rewrite displace_scan_loop in H. case_bool_decide as Hb; [|done].
  simpl in H. fold to_insert in H.
  inv_bind H as env2 H2. inv_bind H as w3 H3. inv_Ok H.
  set (env1 := scanned is_usage (ws_irns new_vals) env) in *.
  assert (Hinv1 : belady_inv env1).
  { destruct Hinv. unfold env1. split; by rewrite ?scanned_ws, ?scanned_links. }
  assert (Hinv2 : belady_inv env2).
  { eapply make_room_inv; [exact Hinv1| |exact H2]. lia. }
  destruct (make_room_keeps _ _ _ _ H2) as (Hi & Hnr & Hu & Hr & He & Hsame).
  destruct (inserts_members _ _ _ (proj1 Hinv2) H3) as (Hm1 & Hm2 & _).
  simpl. rewrite Hr, He, Hu, Hi, Hnr.
  split_and!.
  - unfold env1, BeladySpec.scanned. destruct is_usage; simpl; [done|].
    by rewrite app_nil_r.
  - unfold env1, BeladySpec.scanned. by destruct is_usage.
  - unfold env1, BeladySpec.scanned. by destruct is_usage.
  - apply scanned_instr.
  - apply scanned_instr_nr.
  - intros v Hv Hc. by apply Hm2.
  - intros Hnil. rewrite Hnil in H2, H3. simpl in H2, H3. inv_Ok H3.
    rewrite Hsame.
    + unfold env1. by rewrite scanned_ws, scanned_links.
    + unfold env1. rewrite scanned_ws. simpl. destruct Hinv as [[_ ?] _]. rewrite Hnil. simpl. lia.
Qed.

(** X3: A successful displace(env, new_vals, is_usage) appends to the reload
    list exactly one reload (value, current instruction) per value of new_vals
    that was not resident, in order, when is_usage is set, and none otherwise;
    it never touches the edge reloads, marks the values of new_vals as used
    only on the usage path, keeps instr and instr_nr, leaves every considered
    non-resident value resident, and when every value was already resident it
    changes neither the working set nor the block infos. *)
Theorem displace_records_reloads env new_vals is_usage env' :
  let to_insert := not_resident (ws env) (ws_irns new_vals) in
  belady_inv env →
  displace env new_vals is_usage = Ok env' →
  reloads (senv env')
  = reloads (senv env)
    ++ (if is_usage then (λ v, (v, instr env)) <$> to_insert else [])
  ∧ edge_reloads (senv env') = edge_reloads (senv env)
  ∧ used env'
    = (if is_usage then list_to_set (ws_irns new_vals) ∪ used env else used env)
  ∧ instr env' = instr env ∧ instr_nr env' = instr_nr env
  ∧ (∀ v, v ∈ to_insert → consider v = true → v ∈ ws_irns (ws env'))
  ∧ (to_insert = [] → ws env' = ws env ∧ links env' = links env).
Proof. apply displace_effect. Qed.



Lemma update_time_irns env is_usage w i w' :
  update_time g env is_usage w i = Ok w' →
  len w' = len w ∧ irn <$> vals w' = irn <$> vals w.
Proof.
  intros H. unfold Belady.update_time in H. inv_bind H as t Ht. inv_Ok H.
  simpl. split; [done|].
  apply list_eq. intros j. rewrite !list_lookup_fmap.
  destruct (decide (j = i)) as [->|Hne].
  - rewrite list_lookup_alter_eq. by destruct (vals w !! i).
  - by rewrite list_lookup_alter_ne.
Qed.

Lemma update_times_irns env is_usage l : ∀ w w',
  foldM (update_time g env is_usage) l w = Ok w' →
  len w' = len w ∧ irn <$> vals w' = irn <$> vals w.
Proof.
  induction l as [|i l IH]; intros w w' H; simpl in H.
  - by inv_Ok H.
  - inv_bind H as w1 H1. apply update_time_irns in H1 as [? ?].
    apply IH in H as [? ?]. split; congruence.
Qed.

(** Making room only drops values. *)
Lemma make_room_subset env is_usage max_allowed env' :
  len (ws env) ≤ length (vals (ws env)) →
  make_room env is_usage max_allowed = Ok env' →
  ∀ v, v ∈ ws_irns (ws env') → v ∈ ws_irns (ws env).
Proof.
  intros Hwf H v. unfold Belady.make_room in H. unfold workset_get_length in H.
  case_bool_decide as Hlt; [|by inv_Ok H].
  inv_bind H as w Hw. inv_bind H as env2 H2. inv_Ok H.
  apply disposes_keep in H2 as (Hws & _). simpl in Hws.
  apply update_times_irns in Hw as [Hlen Hirns].
  assert (Hlv : length (vals w) = length (vals (ws env))).
  { by rewrite <- (length_fmap irn), Hirns, length_fmap. }
  unfold ws_irns. simpl. rewrite Hws. simpl. rewrite Hlen.
  rewrite take_app_le.
  2:{ rewrite (qsort_perm sorter), length_take. lia. }
  intros Hv. apply list_elem_of_fmap in Hv as (x & -> & Hx).
  apply subseteq_take in Hx. rewrite (qsort_perm sorter) in Hx.
  rewrite fmap_take, <- Hirns, <- fmap_take. by apply list_elem_of_fmap_2.
Qed.

Lemma displace_subset env new_vals is_usage env' :
  belady_inv env →
  displace env new_vals is_usage = Ok env' →
  ∀ v, v ∈ ws_irns (ws env') →
       v ∈ ws_irns (ws env) ∨ v ∈ ws_irns new_vals ∧ consider v = true.
Proof.
  intros Hinv H v Hv. unfold Belady.displace in H.
  rewrite displace_scan_loop in H. case_bool_decide as Hb; [|done].
  simpl in H. inv_bind H as env2 H2. inv_bind H as w3 H3. inv_Ok H.
  simpl in Hv.
  assert (Hinv1 : belady_inv (scanned is_usage (ws_irns new_vals) env)).
  { destruct Hinv. split; by rewrite ?scanned_ws, ?scanned_links. }
  assert (Hinv2 : belady_inv env2).
  { eapply make_room_inv; [exact Hinv1| |exact H2]. lia. }
  destruct (inserts_members _ _ _ (proj1 Hinv2) H3) as (_ & _ & Hm).
  destruct (Hm v Hv) as [Hv2|[Hv2 Hc]].
  - left. eapply make_room_subset in Hv2; [| |exact H2].
    + by rewrite scanned_ws in Hv2.
    + rewrite scanned_ws. destruct Hinv as [[? ?] _]. lia.
  - right. split; [|done]. by apply list_elem_of_filter in Hv2 as [_ ?].
Qed.

(** The scratch set filled from a list of values holds the considered ones
    among them, each once. *)
Lemma new_vals_filled l nv nv' :
  workset_wf nv →
  foldM workset_insert l (workset_clear nv) = Ok nv' →
  workset_wf nv' ∧ NoDup (ws_irns nv')
  ∧ ∀ v, v ∈ ws_irns nv' ↔ v ∈ l ∧ consider v = true.
Proof.
  intros Hwf H.
  assert (Hwf0 : workset_wf (workset_clear nv)).
  { destruct Hwf. split; simpl; [done | lia]. }
  destruct (inserts_NoDup g cls n_regs _ _ _ Hwf0 (NoDup_nil_2) H) as [Hwf' Hnd].
  destruct (inserts_members _ _ _ Hwf0 H) as (_ & Hm2 & Hm3).
  split_and!; [done|done|]. intros v. split.
  - intros Hv. destruct (Hm3 v Hv) as [Hv0|?]; [|done].
    by apply elem_of_nil in Hv0.
  - intros [? ?]. by apply Hm2.
Qed.

(** X4: One round of the walk over an instruction that is neither a Proj nor a
    Phi: the reloads added are exactly those of its considered operands (each
    once) that were not resident, placed before the instruction; a considered
    value it defines that was not resident and is not one of its operands is
    resident afterwards; the working set holds nothing but old members,
    operands and defined values; instr is the instruction, instr_nr grew by
    one and the set still has at most n_regs entries. *)
Theorem belady_instr_round irn rest st st' :
  let defs := if is_mode_T g irn then take_while (is_Proj g) rest else [irn] in
  walk_inv st →
  is_Proj g irn = false → is_Phi g irn = false →
  belady_instr irn rest st = Ok st' →
  (∃ ops, NoDup ops
     ∧ (∀ v, v ∈ ops ↔ v ∈ get_irn_in g irn ∧ consider v = true)
     ∧ reloads (senv st'.1)
       = reloads (senv st.1)
         ++ ((λ v, (v, irn)) <$> filter (λ v, v ∉ ws_irns (ws st.1)) ops))
  ∧ (∀ v, v ∈ defs → consider v = true →
       v ∉ ws_irns (ws st.1) → v ∉ get_irn_in g irn →
       v ∈ ws_irns (ws st'.1))
  ∧ (∀ v, v ∈ ws_irns (ws st'.1) →
       v ∈ ws_irns (ws st.1) ∨ v ∈ get_irn_in g irn ∨ v ∈ defs)
  ∧ instr st'.1 = irn ∧ instr_nr st'.1 = S (instr_nr st.1)
  ∧ len (ws st'.1) ≤ n_regs.
Proof.
  intros defs [Hinv Hnv] Hproj Hphi H. unfold Belady.belady_instr in H.
  inv_bind H as u Hu. clear u Hu. rewrite Hproj, Hphi in H. simpl in H.
  inv_bind H as nv1 H1. inv_bind H as env1 H2.
  inv_bind H as nv2 H3. inv_bind H as env2 H4. inv_Ok H. simpl.
  destruct st as [env nv]. simpl in *.
  assert (Hinv0 : belady_inv (set_instr irn env)) by (by destruct Hinv).
  destruct (new_vals_filled _ _ _ Hnv H1) as (Hwf1 & Hnd1 & Hin1).
  destruct (displace_effect _ _ _ _ Hinv0 H2)
    as (Hr1 & _ & _ & Hi1 & Hnr1 & _ & _).
  assert (Hinv1 : belady_inv env1) by (by eapply displace_inv).
  assert (Hin2 : workset_wf nv2 ∧ ∀ v, v ∈ ws_irns nv2 ↔ v ∈ defs ∧ consider v = true).
  { unfold defs. destruct (is_mode_T g irn).
    - destruct (new_vals_filled _ _ _ Hwf1 H3) as (? & _ & ?). by split.
    - assert (H3' : foldM workset_insert [irn] (workset_clear nv1) = Ok nv2)
        by (simpl; by rewrite H3).
      destruct (new_vals_filled _ _ _ Hwf1 H3') as (? & _ & ?). by split. }
  destruct Hin2 as [Hwf2 Hin2].
  destruct (displace_effect _ _ _ _ Hinv1 H4)
    as (Hr2 & _ & _ & Hi2 & Hnr2 & Hres2 & _).
  assert (Hinv2 : belady_inv env2) by (by eapply displace_inv).
  pose proof (displace_subset _ _ _ _ Hinv0 H2) as Hsub1.
  pose proof (displace_subset _ _ _ _ Hinv1 H4) as Hsub2.
  simpl in Hr1, Hi1, Hnr1, Hsub1.
  split_and!.
  - exists (ws_irns nv1). split_and!; [done|done|].
    by rewrite Hr2, app_nil_r, Hr1.
  - intros v Hv Hc Hnin Hnop. apply Hres2; [|done].
    apply list_elem_of_filter. split; [|by apply Hin2].
    intros Hv1. destruct (Hsub1 v Hv1) as [?|[Hv1' _]]; [done|].
    apply Hin1 in Hv1' as [? _]. done.
  - intros v Hv. destruct (Hsub2 v Hv) as [Hv1|[Hv2 _]].
    + destruct (Hsub1 v Hv1) as [?|[Hv1' _]]; [by left|].
      right. left. by apply Hin1 in Hv1' as [? _].
    + right. right. by apply Hin2 in Hv2 as [? _].
  - by rewrite Hi2, Hi1.
  - by rewrite Hnr2, Hnr1.
  - by destruct Hinv2 as [[_ ?] _].
Qed.

End BeladyRound.

(** ** The pass: blocks are processed once *)

Section BeladyPass.

Import Belady.
Import BeladySpec.
Import BeladyPassSpec.

Variable g : ir_graph.
Variable cls : nat.
Variable n_regs : nat.
Variable sorter : loc_sorter.

Local Abbreviation dispose := (dispose g).
Local Abbreviation make_room := (make_room g sorter).
Local Abbreviation displace := (displace g cls n_regs sorter).
Local Abbreviation belady_instr := (belady_instr g cls n_regs sorter).
Local Abbreviation belady_walk := (belady_walk g cls n_regs sorter).
Local Abbreviation compute_block_start_info :=
  (compute_block_start_info g cls n_regs sorter).
Local Abbreviation belady := (belady g cls n_regs sorter).
Local Abbreviation fix_block_borders := (fix_block_borders g).
Local Abbreviation be_spill_belady := (be_spill_belady g cls n_regs sorter).
Local Abbreviation border_reloads := (border_reloads g n_regs).
Local Abbreviation start_set := (start_set n_regs).
Local Abbreviation phi_args_cover := (phi_args_cover g).

Lemma info_le_refl i : info_le i i.
Proof. by split. Qed.

Lemma links_kept_refl lk : links_kept lk lk.
Proof.
  intros b. destruct (lk !! b); constructor. apply info_le_refl.
Qed.

Lemma links_kept_trans lk1 lk2 lk3 :
  links_kept lk1 lk2 → links_kept lk2 lk3 → links_kept lk1 lk3.
Proof.
  intros H1 H2 b. specialize (H1 b). specialize (H2 b).
  destruct H1 as [i1 i2 [Ha Hb]|]; inversion H2 as [? i3 [Hc Hd]|]; subst;
    constructor. split; auto.
Qed.

Lemma links_kept_insert lk b i i' :
  lk !! b = Some i → info_le i i' → links_kept lk (<[b := i']> lk).
Proof.
  intros Hb Hle b'. destruct (decide (b = b')) as [<-|Hne].
  - rewrite lookup_insert_eq, Hb. by constructor.
  - rewrite lookup_insert_ne by done. apply links_kept_refl.
Qed.

Lemma links_kept_alter lk b f :
  (∀ i, info_le i (f i)) → links_kept lk (alter f b lk).
Proof.
  intros Hf b'. destruct (decide (b = b')) as [<-|Hne].
  - rewrite lookup_alter_eq. destruct (lk !! b); constructor. apply Hf.
  - rewrite lookup_alter_ne by done. apply links_kept_refl.
Qed.

Lemma dispose_kept env irn env' :
  dispose env irn = Ok env' → links_kept (links env) (links env').
Proof.
  unfold Belady.dispose. intros H.
  case_bool_decide; [inv_Ok H; apply links_kept_refl|].
  destruct (links env !! get_nodes_block g (instr env)) as [info|] eqn:Hi;
    [|done].
  destruct (ws_start info) as [wss|] eqn:Hw; [|done]. inv_Ok H.
  assert (links_kept (links env)
            (<[get_nodes_block g (instr env) :=
                 BlockInfo (Some (workset_remove wss irn)) (ws_end info)]>
               (links env))).
  { eapply links_kept_insert; [exact Hi|]. split; simpl; [by eexists|done]. }
  by destruct (is_Phi g irn).
Qed.

Lemma disposes_kept l : ∀ env env',
  foldM dispose l env = Ok env' → links_kept (links env) (links env').
Proof.
  intros env env' H.
  apply (foldM_invariant (λ e, links_kept (links env) (links e)) dispose l)
    with (s := env); [|apply links_kept_refl|done].
  intros s x s' _ Hs Hx. eapply links_kept_trans; [exact Hs|].
  by eapply dispose_kept.
Qed.

Lemma displace_kept env new_vals is_usage env' :
  displace env new_vals is_usage = Ok env' → links_kept (links env) (links env').
Proof.
  intros H. unfold Belady.displace in H.
  rewrite displace_scan_loop in H. case_bool_decide; [|done]. simpl in H.
  inv_bind H as env2 H2. inv_bind H as w3 H3. inv_Ok H. simpl.
  unfold Belady.make_room in H2. case_bool_decide.
  - inv_bind H2 as w Hw. inv_bind H2 as env3 H3'. inv_Ok H2. simpl.
    apply disposes_kept in H3'. simpl in H3'. by rewrite scanned_links in H3'.
  - inv_Ok H2. rewrite scanned_links. apply links_kept_refl.
Qed.

Lemma belady_instr_kept irn rest st st' :
  belady_instr irn rest st = Ok st' → links_kept (links st.1) (links st'.1).
Proof.
  intros H. unfold Belady.belady_instr in H.
  inv_bind H as u Hu. clear u Hu.
  destruct (is_Proj g irn || is_Phi g irn); [inv_Ok H; apply links_kept_refl|].
  inv_bind H as nv1 H1. inv_bind H as env1 H2.
  inv_bind H as nv2 H3. inv_bind H as env2 H4. inv_Ok H. simpl.
  apply displace_kept in H2, H4. simpl in H2.
  by eapply links_kept_trans.
Qed.

Lemma belady_walk_kept l : ∀ st st',
  belady_walk l st = Ok st' → links_kept (links st.1) (links st'.1).
Proof.
  induction l as [|irn rest IH]; intros st st' H; simpl in H.
  - inv_Ok H. apply links_kept_refl.
  - inv_bind H as st1 H1. eapply links_kept_trans.
    + by eapply belady_instr_kept.
    + by apply IH.
Qed.

Lemma complete_except_kept P lk lk' :
  links_kept lk lk' → complete_except P lk → complete_except P lk'.
Proof.
  intros Hk Hc b i' Hb HP. specialize (Hk b). rewrite Hb in Hk.
  inversion Hk as [i ? [Hs He] Hi|]; subst. symmetry in Hi.
  destruct (Hc b i Hi HP). split; auto.
Qed.

Lemma complete_except_weaken (P Q : ir_node → Prop) lk :
  (∀ b, P b → Q b) → complete_except P lk → complete_except Q lk.
Proof. intros HPQ Hc b i Hb HQ. apply (Hc b i Hb). intros HP. by apply HQ, HPQ. Qed.

Lemma compute_block_start_info_complete P rec blk env env' :
  (∀ Q b e e', complete_except Q (links e) → rec b e = Ok e' →
               complete_except Q (links e')) →
  links env !! blk = None →
  complete_except P (links env) →
  compute_block_start_info rec blk env = Ok env' →
  complete_except (λ b, P b ∨ b = blk) (links env').
Proof.
  intros Hrec Hblk Hc H. unfold Belady.compute_block_start_info in H.
  rewrite Hblk in H. inv_bind H as starters Hst.
  set (env0 := set_links (<[blk := BlockInfo None None]> (links env)) env) in *.
  assert (H0 : complete_except (λ b, P b ∨ b = blk) (links env0)).
  { intros b i Hb HP. simpl in Hb.
    destruct (decide (blk = b)) as [->|Hne]; [exfalso; auto|].
    rewrite lookup_insert_ne in Hb by done. apply (Hc b i Hb). auto. }
  destruct (bool_decide _ && bool_decide _).
  - inv_bind H as env1 H1.
    assert (H01 : complete_except (λ b, P b ∨ b = blk) (links env1)).
    { destruct (links env0 !! _); [by inv_Ok H1|]. by eapply Hrec. }
    destruct (links env1 !! _) as [pred_info|] eqn:Hpi; [|done].
    destruct (ws_end pred_info) as [we|] eqn:Hwe; [|done]. inv_Ok H. simpl.
    eapply complete_except_kept; [|exact H01].
    apply links_kept_alter. intros i. split; simpl; [by eexists | done].
  - inv_Ok H. simpl.
    eapply complete_except_kept; [|exact H0].
    apply links_kept_alter. intros i. split; simpl; [by eexists | done].
Qed.

Lemma belady_complete fuel : ∀ Q blk env env',
  complete_except Q (links env) → belady fuel blk env = Ok env' →
  complete_except Q (links env')
  ∧ ∃ info, links env' !! blk = Some info
            ∧ (links env !! blk = None →
               is_Some (ws_start info) ∧ is_Some (ws_end info)).
Proof.
  induction fuel as [|fuel IH]; intros Q blk env env' Hc H; simpl in H; [done|].
  destruct (links env !! blk) as [i0|] eqn:Hblk.
  { inv_Ok H. split; [done|]. exists i0. by split. }
  inv_bind H as env1 H1.
  apply (compute_block_start_info_complete Q) in H1; [| |done|done].
  2:{ intros Q' b e e' HQ' Hb. by destruct (IH Q' b e e' HQ' Hb). }
  destruct (links env1 !! blk) as [info|] eqn:Hinfo; [|done].
  destruct (ws_start info) as [wss|] eqn:Hwss; [|done].
  inv_bind H as st Hst. inv_Ok H.
  apply belady_walk_kept in Hst as Hk. simpl in Hk.
  pose proof (Hk blk) as Hkb. rewrite Hinfo in Hkb.
  inversion Hkb as [? i' [Hs He] Hi Hi'|]; subst. symmetry in Hi'.
  assert (Hs' : is_Some (ws_start i')) by (apply Hs; rewrite Hwss; by eexists).
  simpl. unfold set_ws_end. split.
  - intros b i Hb HQ. destruct (decide (blk = b)) as [<-|Hne].
    + rewrite lookup_alter_eq, Hi' in Hb. simpl in Hb. inv_Ok Hb. simpl.
      split; [done | by eexists].
    + rewrite lookup_alter_ne in Hb by done.
      eapply (complete_except_kept _ _ _ Hk H1); [exact Hb|].
      intros [?|?]; [done | congruence].
  - rewrite lookup_alter_eq, Hi'. simpl. eexists. split; [done|].
    intros _. simpl. split; [done | by eexists].
Qed.

(** X5: If every block info recorded so far has both its start and its end
    set, a successful belady(blk) leaves this true, blk has an info with both
    sets, no info is dropped, and calling belady on blk again (with any
    positive recursion budget) returns at once and changes nothing: a block is
    processed once. *)
Theorem belady_block_once fuel blk env env' :
  links_complete (links env) →
  belady fuel blk env = Ok env' →
  links_complete (links env')
  ∧ (∃ info wss wse, links env' !! blk = Some info
       ∧ ws_start info = Some wss ∧ ws_end info = Some wse)
  ∧ (∀ fuel', belady (S fuel') blk env' = Ok env')
  ∧ (∀ b, is_Some (links env !! b) → is_Some (links env' !! b)).
Proof.
  intros Hc H.
  destruct (belady_complete fuel _ blk env env' Hc H) as [Hc' (info & Hi & Hcomp)].
  split_and!.
  - exact Hc'.
  - destruct (Hc' blk info Hi) as [[wss Hs] [wse He]]; [tauto|].
    exists info, wss, wse. by split_and!.
  - intros fuel'. simpl. by rewrite Hi.
  - by apply (belady_grow g cls n_regs sorter fuel blk).
Qed.


Lemma beladys_complete fuel l : ∀ env env',
  links_complete (links env) →
  foldM (λ env blk, belady fuel blk env) l env = Ok env' →
  links_complete (links env')
  ∧ ∀ b, b ∈ l ∨ is_Some (links env !! b) → is_Some (links env' !! b).
Proof.
  induction l as [|blk l IH]; intros env env' Hc H; simpl in H.
  - inv_Ok H. split; [done|]. intros b [Hb|Hb]; [by apply elem_of_nil in Hb|done].
  - inv_bind H as env1 H1.
    destruct (belady_complete fuel _ blk env env1 Hc H1) as [Hc1 (info & Hi & _)].
    destruct (IH env1 env' Hc1 H) as [Hc' Hdom]. split; [done|].
    intros b [Hb|Hb]; apply Hdom.
    + apply elem_of_cons in Hb as [->|Hb]; [|by left].
      right. rewrite Hi. by eexists.
    + right. by apply (belady_grow g cls n_regs sorter fuel blk env).
Qed.

Lemma fix_block_borders_complete blk env :
  links_complete (links env) → is_Some (links env !! blk) →
  (∀ p, p ∈ get_Block_cfgpred_blocks g blk → is_Some (links env !! p)) →
  phi_args_cover blk →
  fix_block_borders blk env
  = Ok (set_senv (add_edge_reloads
                    (border_reloads blk (start_set (links env) blk) (links env))
                    (senv env)) env).
Proof.
  intros Hc [info Hi] Hp Hphi. unfold Belady.fix_block_borders.
  rewrite Hi. destruct (Hc blk info Hi) as [[wsb Hs] _]; [tauto|].
  rewrite Hs.
  assert (Hss : start_set (links env) blk = wsb).
  { unfold BeladyPassSpec.start_set. rewrite Hi. simpl. by rewrite Hs. }
  rewrite Hss. rewrite (fix_preds_reloads g n_regs); [done| |].
  - intros [i p] [i' [p' [[= -> ->] Hip]]]%elem_of_lookup_imap. simpl.
    destruct (Hp p') as [pi Hpi]; [by eapply list_elem_of_lookup_2|].
    destruct (Hc p' pi Hpi) as [_ [wsp Hwsp]]; [tauto|]. eauto.
  - intros [i p] v [i' [p' [[= -> ->] Hip]]]%elem_of_lookup_imap Hv. simpl.
    intros Hv1 Hv2. apply lookup_lt_Some in Hip.
    specialize (Hphi v Hv1 (eq_sym Hv2)). lia.
Qed.

Lemma fix_blocks_complete l : ∀ s env,
  links_complete (links env) →
  (∀ b, b ∈ l → is_Some (links env !! b) ∧ phi_args_cover b
                ∧ ∀ p, p ∈ get_Block_cfgpred_blocks g b → is_Some (links env !! p)) →
  foldM (λ env blk, fix_block_borders blk env) l (set_senv s env)
  = Ok (set_senv (add_edge_reloads
                    (l ≫= λ b, border_reloads b (start_set (links env) b) (links env))
                    s) env).
Proof.
  induction l as [|b l IH]; intros s env Hc Hl.
  - simpl. by rewrite add_edge_reloads_nil.
  - cbn [foldM]. destruct (Hl b) as (Hb & Hphi & Hp); [by left|].
    rewrite fix_block_borders_complete by done. simpl.
    change (set_senv ?s' (set_senv s env)) with (set_senv s' env).
    rewrite IH; [|done|intros; apply Hl; by right].
    by rewrite add_edge_reloads_app.
Qed.

(** X6: When the walk over all blocks succeeds and the blocks of the second
    walk are blocks of the first whose predecessors were walked and whose Phis
    have an argument per predecessor, the border fixup cannot fail:
    be_spill_belady returns the state of the first walk with only the edge
    reloads changed, namely extended, block by block in the order of the
    second walk, by the border reloads computed from the start and end sets
    the first walk recorded. *)
Theorem be_spill_belady_borders fuel blocks_post blocks_pre env1 :
  foldM (λ env blk, belady fuel blk env) blocks_post (initial_env n_regs)
  = Ok env1 →
  (∀ b, b ∈ blocks_pre →
        b ∈ blocks_post ∧ phi_args_cover b
        ∧ ∀ p, p ∈ get_Block_cfgpred_blocks g b → p ∈ blocks_post) →
  links_complete (links env1)
  ∧ be_spill_belady fuel blocks_post blocks_pre
    = Ok (set_senv
            (add_edge_reloads
               (blocks_pre ≫= λ b,
                  border_reloads b (start_set (links env1) b) (links env1))
               (senv env1)) env1).
Proof.
  intros H1 Hpre.
  assert (H0 : links_complete (links (initial_env n_regs))).
  { intros b i Hb. simpl in Hb. by rewrite lookup_empty in Hb. }
  destruct (beladys_complete fuel blocks_post _ _ H0 H1) as [Hc Hdom].
  split; [done|].
  unfold Belady.be_spill_belady. rewrite H1. simpl.
  rewrite <- (fix_blocks_complete blocks_pre (senv env1) env1); [|done|].
  - by destruct env1.
  - intros b Hb. destruct (Hpre b Hb) as (Hb1 & Hphi & Hp).
    split_and!; [apply Hdom; by left | done |].
    intros p Hpp. apply Hdom. left. by apply Hp.
Qed.

End BeladyPass.

(** ** The start set of a block with several predecessors *)

Section StartSpills.

Import Belady.
Import BeladySpec.

Variable g : ir_graph.
Variable cls : nat.
Variable n_regs : nat.
Variable sorter : loc_sorter.

Local Abbreviation starter_values := (starter_values g cls).
Local Abbreviation compute_block_start_info :=
  (compute_block_start_info g cls n_regs sorter).
Local Abbreviation start_loc := (start_loc g).

Lemma spill_left_phis_spec blk rest : ∀ s,
  spill_left_phis g blk rest s
  = SpillEnv (reloads s)
      (spilled_phis s
       ++ filter (λ v, is_Phi g v = true ∧ get_nodes_block g v = blk)
            (irn <$> rest))
      (edge_reloads s).
Proof.
  unfold spill_left_phis.
  induction rest as [|l rest IH]; intros s.
  - simpl. rewrite app_nil_r. by destruct s.
  - cbn [foldl]. rewrite IH, fmap_cons.
    destruct (is_Phi g (irn l)) eqn:Hphi; simpl.
    + case_bool_decide as Hb; simpl.
      * rewrite filter_cons_True by done. simpl. by rewrite <- app_assoc.
      * rewrite filter_cons_False by (by intros [_ ?]). done.
    + rewrite filter_cons_False by (intros [? _]; congruence). done.
Qed.

(** X7: For a block without info that is the start block or does not have
    exactly one predecessor, compute_block_start_info succeeds; the Phis it
    marks for spilling are exactly the Phis of this block among the starters
    that did not fit into the first n_regs places of the sorted starter list,
    in that order; it adds no reload and no edge reload, and marks nothing
    when there are at most n_regs starters. *)
Theorem start_set_spills_left_phis rec blk env :
  let starters := sorter (start_loc blk <$> starter_values blk) in
  let left := irn <$> drop (min (length starters) n_regs) starters in
  links env !! blk = None →
  ¬ (length (get_Block_cfgpred_blocks g blk) = 1
     ∧ blk ≠ get_irg_start_block g) →
  ∃ env', compute_block_start_info rec blk env = Ok env'
    ∧ spilled_phis (senv env')
      = spilled_phis (senv env)
        ++ filter (λ v, is_Phi g v = true ∧ get_nodes_block g v = blk) left
    ∧ reloads (senv env') = reloads (senv env)
    ∧ edge_reloads (senv env') = edge_reloads (senv env)
    ∧ (length (starter_values blk) ≤ n_regs → senv env' = senv env).
Proof.
  intros starters left Hblk Hother.
  eexists. split.
  { unfold Belady.compute_block_start_info. rewrite Hblk.
    rewrite collect_starters_total. simpl.
    destruct (bool_decide (length _ = 1)) eqn:Hlen; simpl.
    - destruct (bool_decide (blk ≠ _)) eqn:Hns; simpl.
      { apply bool_decide_eq_true in Hlen, Hns. by destruct Hother. }
      reflexivity.
    - reflexivity. }
  unfold start_from_starters. simpl. rewrite spill_left_phis_spec. simpl.
  assert (Hlen : length starters = length (starter_values blk)).
  { unfold starters. by rewrite (qsort_perm sorter), length_fmap. }
  rewrite length_fmap. fold starters. rewrite <- Hlen. fold left.
  split_and!; try done.
  intros Hfit. unfold left. rewrite drop_ge by lia. simpl.
  rewrite app_nil_r. by destruct (senv env).
Qed.

End StartSpills.

(** ** The colouring walk *)

Section ColouringInv.

Import Chordal.
Import ChordalSpec.
Import ColouringSpec.

Variable g : ir_graph.
Variable cls : nat.
Variable n_regs : nat.
Variable allocatable_regs : bitset_t.

Local Abbreviation get_next_free_reg := (get_next_free_reg n_regs allocatable_regs).
Local Abbreviation arch_register_for_index := (arch_register_for_index n_regs).
Local Abbreviation assign_live_in := (assign_live_in g cls).
Local Abbreviation assign_border := (assign_border g n_regs allocatable_regs).
Local Abbreviation assign := (assign g cls n_regs allocatable_regs).
Local Abbreviation free_reg := (free_reg allocatable_regs).
Local Abbreviation considered_live_ins := (considered_live_ins g cls).
Local Abbreviation live_after := (live_after g).
Local Abbreviation uses_are_live := (uses_are_live g).

(** The invariant with the set of live values made explicit. *)
Local Abbreviation inv_with lv st :=
  (colouring_inv st ∧ ∀ v, live_at st v ↔ v ∈ (lv : gset ir_node)).

Lemma assign_border_inv block lv st b st' :
  inv_with lv st →
  (is_def b = false → b_irn b ∈ lv) →
  assign_border block st b = Ok st' →
  inv_with (live_after block lv b) st'.
Proof.
  intros [(H1 & H2 & H3) Hlv] Huse H.
  unfold Chordal.assign_border in H. unfold ColouringSpec.live_after.
  destruct (is_def b) eqn:Hdef; simpl in H.
  - destruct (be_is_live_in g block (b_irn b)) eqn:Hli; simpl in H.
    { inv_Ok H. done. }
    inv_bind H as cr Hcr. inv_bind H as u Hu. inv_Ok H.
    apply assert_Ok, negb_true_iff in Hu.
    set (irn := b_irn b) in *.
    assert (Hnl : irn ∉ lv).
    { intros Hin. apply Hlv in Hin. unfold ColouringSpec.live_at in Hin. congruence. }
    assert (Hcr' : bitset_is_set (colors st) cr.1 = false
                   ∧ cr.2 !! irn = Some cr.1
                   ∧ ∀ v, v ≠ irn → cr.2 !! v = registers st !! v).
    { destruct (registers st !! irn) as [reg|] eqn:Hreg.
      - inv_bind Hcr as u' Hu'. inv_Ok Hcr. simpl.
        apply assert_Ok, negb_true_iff in Hu'. done.
      - inv_bind Hcr as u' Hu'. inv_bind Hcr as reg Hr. inv_Ok Hcr. simpl.
        unfold Chordal.arch_register_for_index in Hr.
        case_bool_decide as Hb; [|done]. inv_Ok Hr.
        destruct (get_next_free_reg_spec n_regs allocatable_regs (colors st))
          as [[Hm _]|(col & Hcol & _ & [_ Hfree] & _)].
        + rewrite Hm in Hb. lia.
        + rewrite Hcol, Nat2Z.id. split_and!; [done | apply lookup_insert_eq |].
          intros v Hv. by rewrite lookup_insert_ne. }
    destruct Hcr' as (Hfree & Hirn & Hother).
    assert (Hlive' : ∀ v, live_at (AllocState (bitset_set (colors st) cr.1)
                                     (bitset_set (live st) irn) cr.2) v
                          ↔ v = irn ∨ live_at st v).
    { intros v. unfold ColouringSpec.live_at. simpl.
      rewrite bitset_is_set_set, orb_true_iff, bool_decide_eq_true.
      split; intros [?|?]; auto. }
    split; [split_and!|].
    + intros v [->|Hv]%Hlive'; simpl.
      * exists cr.1. split; [done|]. rewrite bitset_is_set_set.
        by rewrite bool_decide_eq_true_2.
      * destruct (H1 v Hv) as (r & Hr & Hc). exists r.
        rewrite Hother by (intros ->; by apply Hnl, Hlv).
        split; [done|]. rewrite bitset_is_set_set, Hc. apply orb_true_r.
    + intros v w r [->|Hv]%Hlive' [->|Hw]%Hlive'; simpl; [done| | |].
      * rewrite Hirn. intros [= <-].
        rewrite Hother by (intros ->; by apply Hnl, Hlv). intros Hw'.
        destruct (H1 w Hw) as (r & Hr & Hc). congruence.
      * rewrite Hirn. rewrite Hother by (intros ->; by apply Hnl, Hlv).
        intros Hv' [= <-].
        destruct (H1 v Hv) as (r & Hr & Hc). congruence.
      * rewrite !Hother by (intros ->; by apply Hnl, Hlv). by apply H2.
    + intros r. simpl. rewrite bitset_is_set_set, orb_true_iff, bool_decide_eq_true.
      intros [<-|Hr].
      * exists irn. split; [apply Hlive'; by left | done].
      * destruct (H3 r Hr) as (v & Hv & Hvr). exists v.
        split; [apply Hlive'; by right|]. simpl.
        by rewrite Hother by (intros ->; by apply Hnl, Hlv).
    + intros v. rewrite Hlive', elem_of_union, elem_of_singleton, Hlv. done.
  - destruct (registers st !! b_irn b) as [reg|] eqn:Hreg; [|done]. inv_Ok H.
    set (irn := b_irn b) in *.
    assert (Hin : live_at st irn) by (apply Hlv, Huse; done).
    assert (Hlive' : ∀ v, live_at (AllocState (bitset_clear (colors st) reg)
                                     (bitset_clear (live st) irn) (registers st)) v
                          ↔ v ≠ irn ∧ live_at st v).
    { intros v. unfold ColouringSpec.live_at. simpl.
      rewrite bitset_is_set_clear, andb_true_iff, negb_true_iff,
        bool_decide_eq_false. split; intros [? ?]; split; auto. }
    split; [split_and!|].
    + intros v [Hne Hv]%Hlive'. simpl.
      destruct (H1 v Hv) as (r & Hr & Hc). exists r. split; [done|].
      rewrite bitset_is_set_clear, Hc, andb_true_r, negb_true_iff,
        bool_decide_eq_false.
      intros <-. apply Hne. by apply (H2 v irn reg).
    + intros v w r [_ Hv]%Hlive' [_ Hw]%Hlive'. simpl. by apply H2.
    + intros r. simpl.
      rewrite bitset_is_set_clear, andb_true_iff, negb_true_iff,
        bool_decide_eq_false.
      intros [Hne Hr]. destruct (H3 r Hr) as (v & Hv & Hvr).
      exists v. split; [|done]. apply Hlive'. split; [|done].
      intros ->. congruence.
    + intros v. rewrite Hlive', elem_of_difference, elem_of_singleton, Hlv.
      tauto.
Qed.


Lemma assign_live_ins_inv registers0 (cli : gset ir_node) l : ∀ lv st st',
  (∀ v w r, v ∈ cli → w ∈ cli →
            registers0 !! v = Some r → registers0 !! w = Some r → v = w) →
  (∀ v, v ∈ l → arch_irn_consider_in_reg_alloc g cls v = true → v ∈ cli) →
  lv ⊆ cli → registers st = registers0 →
  inv_with lv st →
  foldM assign_live_in l st = Ok st' →
  registers st' = registers0
  ∧ inv_with (lv ∪ list_to_set
                     (filter (λ v, arch_irn_consider_in_reg_alloc g cls v = true) l))
       st'.
Proof.
  induction l as [|irn l IH]; intros lv st st' Hinj Hl Hsub Hregs Hinv H.
  - simpl in H. inv_Ok H. split; [done|].
    rewrite filter_nil. simpl. by rewrite (right_id_L ∅ (∪)).
  - cbn [foldM] in H. inv_bind H as st1 H1.
    unfold Chordal.assign_live_in in H1.
    destruct (arch_irn_consider_in_reg_alloc g cls irn) eqn:Hc.
    2:{ inv_Ok H1. rewrite filter_cons_False by congruence.
        eapply IH; eauto. intros; apply Hl; [by right | done]. }
    destruct (registers st !! irn) as [reg|] eqn:Hreg; [|done]. inv_Ok H1.
    rewrite filter_cons_True by done. simpl.
    rewrite (assoc_L (∪)), (comm_L (∪) lv).
    assert (Hirn : irn ∈ cli) by (apply Hl; [by left | done]).
    destruct Hinv as [(H1 & H2 & H3) Hlv].
    assert (Hlive' : ∀ v, live_at (AllocState (bitset_set (colors st) reg)
                                     (bitset_set (live st) irn) (registers st)) v
                          ↔ v = irn ∨ live_at st v).
    { intros v. unfold ColouringSpec.live_at. simpl.
      rewrite bitset_is_set_set, orb_true_iff, bool_decide_eq_true.
      split; intros [?|?]; auto. }
    assert (Hcli : ∀ v, v = irn ∨ live_at st v → v ∈ cli).
    { intros v [->|Hv]; [done|]. by apply Hsub, Hlv. }
    eapply IH; [exact Hinj | | | | |exact H].
    + intros; apply Hl; [by right | done].
    + apply union_subseteq. split; [|done]. by apply singleton_subseteq_l.
    + done.
    + split; [split_and!|].
      * intros v Hv%Hlive'. simpl. destruct Hv as [->|Hv].
        -- exists reg. split; [done|]. rewrite bitset_is_set_set.
           by rewrite bool_decide_eq_true_2.
        -- destruct (H1 v Hv) as (r & Hr & Hcr). exists r. split; [done|].
           rewrite bitset_is_set_set, Hcr. apply orb_true_r.
      * intros v w r Hv%Hlive' Hw%Hlive'. simpl.
        apply Hinj; by apply Hcli.
      * intros r. simpl.
        rewrite bitset_is_set_set, orb_true_iff, bool_decide_eq_true.
        intros [<-|Hr].
        -- exists irn. split; [apply Hlive'; by left | done].
        -- destruct (H3 r Hr) as (v & Hv & Hvr). exists v.
           split; [apply Hlive'; by right | done].
      * intros v. rewrite Hlive', elem_of_union, elem_of_singleton, Hlv. done.
Qed.

Lemma assign_borders_inv block l : ∀ lv st st',
  inv_with lv st → uses_are_live block lv l →
  foldM (assign_border block) l st = Ok st' →
  colouring_inv st'.
Proof.
  induction l as [|b l IH]; intros lv st st' Hinv Hu H.
  - simpl in H. inv_Ok H. by destruct Hinv.
  - cbn [foldM] in H. inv_bind H as st1 H1. destruct Hu as [Hb Hu].
    eapply IH; [|exact Hu|exact H]. by eapply assign_border_inv.
Qed.

Lemma uses_are_live_app block l1 : ∀ lv l2,
  uses_are_live block lv (l1 ++ l2) → uses_are_live block lv l1.
Proof.
  induction l1 as [|b l1 IH]; intros lv l2 H; [done|].
  destruct H as [Hb H]. split; [done|]. by eapply IH.
Qed.

(** X8: If the considered live-ins of a block have pairwise different
    registers and every use event of the border list meets a value that is
    live at that point, then after any successfully processed prefix of the
    border list the live values have pairwise different registers, every live
    value has a register whose bit is set in the colour mask, and every set
    bit of the colour mask is the register of a live value. *)
Theorem assign_distinct_registers block border registers0 :
  (∀ v w r, v ∈ considered_live_ins block → w ∈ considered_live_ins block →
            registers0 !! v = Some r → registers0 !! w = Some r → v = w) →
  uses_are_live block (list_to_set (considered_live_ins block)) border →
  ∀ pre post st,
    border = pre ++ post →
    assign block pre registers0 = Ok st →
    (∀ v w r, live_at st v → live_at st w →
              registers st !! v = Some r → registers st !! w = Some r → v = w)
    ∧ (∀ v, live_at st v →
            ∃ r, registers st !! v = Some r ∧ bitset_is_set (colors st) r = true)
    ∧ (∀ r, bitset_is_set (colors st) r = true →
            ∃ v, live_at st v ∧ registers st !! v = Some r).
Proof.
  intros Hinj Huses pre post st -> H. unfold Chordal.assign in H.
  inv_bind H as st1 H1.
  assert (Hinv0 : inv_with (∅ : gset ir_node)
                    (AllocState (bitset_clear_all 0%Z) (bitset_clear_all 0%Z)
                       registers0)).
  { assert (Hz : ∀ i, bitset_is_set 0%Z i = false).
    { intros i. unfold bitset_is_set. apply Z.bits_0. }
    unfold ColouringSpec.colouring_inv, ColouringSpec.live_at, bitset_clear_all.
    simpl. split; [split_and!|].
    - intros v Hv. by rewrite Hz in Hv.
    - intros v w r Hv. by rewrite Hz in Hv.
    - intros r Hr. by rewrite Hz in Hr.
    - intros v. rewrite Hz. split; [done|]. intros Hv. by apply elem_of_empty in Hv. }
  apply (assign_live_ins_inv registers0
           (list_to_set (considered_live_ins block)) _ ∅) in H1 as [_ Hinv1];
    try done.
  2:{ intros v w r Hv%elem_of_list_to_set Hw%elem_of_list_to_set. by apply Hinj. }
  2:{ intros v Hv Hc. apply elem_of_list_to_set.
      unfold ColouringSpec.considered_live_ins. by apply list_elem_of_filter. }
  rewrite (left_id_L ∅ (∪)) in Hinv1.
  apply uses_are_live_app in Huses.
  pose proof (assign_borders_inv block pre _ st1 st Hinv1 Huses H) as (H1' & H2' & H3').
  by split_and!.
Qed.

Lemma assign_border_registers block st b st' :
  assign_border block st b = Ok st' →
  (∀ v r, registers st !! v = Some r → registers st' !! v = Some r)
  ∧ (∀ v, is_Some (registers st' !! v) →
          is_Some (registers st !! v)
          ∨ (b = Border true v ∧ be_is_live_in g block v = false
             ∧ flag_ignore g v = false)).
Proof.
  intros H. unfold Chordal.assign_border in H.
  destruct (is_def b) eqn:Hdef; simpl in H.
  - destruct (be_is_live_in g block (b_irn b)) eqn:Hli; simpl in H.
    { inv_Ok H. auto. }
    inv_bind H as cr Hcr. inv_bind H as u Hu. inv_Ok H. simpl.
    destruct (registers st !! b_irn b) as [reg|] eqn:Hreg.
    + inv_bind Hcr as u' Hu'. inv_Ok Hcr. simpl. auto.
    + inv_bind Hcr as u' Hu'. inv_bind Hcr as reg Hr. inv_Ok Hcr. simpl.
      apply assert_Ok, negb_true_iff in Hu'. split.
      * intros v r Hv. rewrite lookup_insert_ne; [done|]. intros <-. congruence.
      * intros v Hv. destruct (decide (b_irn b = v)) as [<-|Hne].
        -- right. split_and!; [|done|done]. destruct b. simpl in *. by subst.
        -- left. by rewrite lookup_insert_ne in Hv.
  - destruct (registers st !! b_irn b); [|done]. inv_Ok H. auto.
Qed.

(** X9: A successful assign never changes a register that was set before it
    ran, and it gives a register only to a value that has a definition event
    in the border list, is not live-in at the block and does not carry the
    ignore flag. *)
Theorem assign_keeps_registers block border registers0 st :
  assign block border registers0 = Ok st →
  (∀ v r, registers0 !! v = Some r → registers st !! v = Some r)
  ∧ (∀ v, is_Some (registers st !! v) →
          is_Some (registers0 !! v)
          ∨ (Border true v ∈ border ∧ be_is_live_in g block v = false
             ∧ flag_ignore g v = false)).
Proof.
  intros H. unfold Chordal.assign in H. inv_bind H as st1 H1.
  assert (Hr1 : registers st1 = registers0).
  { apply (foldM_invariant (λ s, registers s = registers0) assign_live_in
             (live_ins g block)) in H1; [done| |done].
    intros s x s' _ Hs Hx. unfold Chordal.assign_live_in in Hx.
    destruct (arch_irn_consider_in_reg_alloc g cls x); [|by inv_Ok Hx].
    destruct (registers s !! x); [|done]. by inv_Ok Hx. }
  rewrite <- Hr1. clear H1 Hr1. revert st1 H.
  induction border as [|b border IH]; intros st1 H.
  - simpl in H. inv_Ok H. auto.
  - cbn [foldM] in H. inv_bind H as st2 H2.
    apply assign_border_registers in H2 as [Hk Hn].
    destruct (IH st2 H) as [IHk IHn]. split.
    + intros v r Hv. by apply IHk, Hk.
    + intros v Hv. destruct (IHn v Hv) as [Hv2|(Hin & ? & ?)].
      * destruct (Hn v Hv2) as [?|(-> & ? & ?)]; [by left|].
        right. split_and!; [by left | done | done].
      * right. split_and!; [by right | done | done].
Qed.

End ColouringInv.

(** ** The Projs of a Perm *)

Section PermProjsFacts.

Import Chordal.
Import ChordalSpec.
Import ChordalConstr.
Import PermProjsSpec.

Variable n_regs : nat.
Variable allocatable_regs : bitset_t.

Local Abbreviation get_next_free_reg := (get_next_free_reg n_regs allocatable_regs).
Local Abbreviation assign_proj := (assign_proj n_regs allocatable_regs).
Local Abbreviation assign_perm_projs := (assign_perm_projs n_regs allocatable_regs).
Local Abbreviation free_reg := (free_reg allocatable_regs).

Lemma proj_colors_spec projs registers r :
  bitset_is_set (proj_colors projs registers) r = true
  ↔ ∃ p, p ∈ projs ∧ registers !! p = Some r.
Proof.
  unfold proj_colors.
  assert (H : ∀ l bs, bitset_is_set
                (foldl (λ bs proj, match registers !! proj with
                                   | Some reg => bitset_set bs reg
                                   | None => bs
                                   end) bs l) r = true
              ↔ bitset_is_set bs r = true ∨ ∃ p, p ∈ l ∧ registers !! p = Some r).
  { induction l as [|p l IH]; intros bs; simpl.
    - split; [auto|]. intros [?|(p & Hp & _)]; [done|]. by apply elem_of_nil in Hp.
    - rewrite IH. destruct (registers !! p) as [reg|] eqn:Hp.
      + rewrite bitset_is_set_set, orb_true_iff, bool_decide_eq_true. split.
        * intros [[<-|?]|(q & Hq & Hr)]; [right|by left|right].
          -- exists p. split; [by left | done].
          -- exists q. split; [by right | done].
        * intros [?|(q & Hq & Hr)]; [auto|].
          apply elem_of_cons in Hq as [->|Hq].
          -- left. left. congruence.
          -- right. by exists q.
      + split.
        * intros [?|(q & Hq & Hr)]; [by left|]. right. exists q.
          split; [by right | done].
        * intros [?|(q & Hq & Hr)]; [by left|].
          apply elem_of_cons in Hq as [->|Hq]; [congruence|].
          right. by exists q. }
  rewrite H. split; [|auto]. intros [Hz|?]; [|done].
  unfold bitset_is_set in Hz. by rewrite Z.bits_0 in Hz.
Qed.

Local Abbreviation projs_inv := (projs_inv n_regs allocatable_regs).

Lemma assign_proj_inv projs registers0 st p st' :
  p ∈ projs → projs_inv projs registers0 st →
  assign_proj st p = Ok st' →
  projs_inv projs registers0 st' ∧ is_Some (st'.2 !! p)
  ∧ ∀ q, is_Some (st.2 !! q) → is_Some (st'.2 !! q).
Proof.
  intros Hp (H1 & H2 & H3 & H4) H. unfold ChordalConstr.assign_proj in H.
  destruct (st.2 !! p) as [r0|] eqn:Hr0.
  { inv_Ok H. by split_and!. }
  inv_bind H as new_reg Hn. inv_Ok H. simpl.
  unfold Chordal.arch_register_for_index in Hn.
  case_bool_decide as Hb; [|done]. inv_Ok Hn.
  destruct (get_next_free_reg_spec n_regs allocatable_regs st.1)
    as [[Hm _]|(col & Hcol & Hlt & [Hal Hfree] & _)].
  { rewrite Hm in Hb. lia. }
  rewrite Hcol, Nat2Z.id.
  assert (Hnone0 : registers0 !! p = None).
  { destruct (registers0 !! p) as [r|] eqn:Hr; [|done].
    apply H2 in Hr. congruence. }
  split_and!.
  - unfold projs_inv. simpl. split_and!.
    + intros q r Hq. rewrite bitset_is_set_set, orb_true_iff, bool_decide_eq_true.
      destruct (decide (p = q)) as [<-|Hne].
      * rewrite lookup_insert_eq. intros [= <-]. by left.
      * rewrite lookup_insert_ne by done. intros Hr. right. by eapply H1.
    + intros q r Hq. rewrite lookup_insert_ne; [by apply H2|]. congruence.
    + intros q Hq. rewrite lookup_insert_ne; [by apply H3|]. congruence.
    + intros q r Hq0. destruct (decide (p = q)) as [<-|Hne].
      * rewrite lookup_insert_eq. intros [= <-]. split_and!; [done|done|].
        intros q Hq Hqp. rewrite lookup_insert_ne by done. intros Hr.
        apply (H1 q col Hq) in Hr. congruence.
      * rewrite lookup_insert_ne by done. intros Hr.
        destruct (H4 q r Hq0 Hr) as (? & ? & Hd). split_and!; [done|done|].
        intros q' Hq' Hne'. destruct (decide (p = q')) as [<-|Hne2].
        -- rewrite lookup_insert_eq. intros [= <-].
           assert (q ∈ projs).
           { destruct (decide (q ∈ projs)) as [?|Hnin]; [done|].
             rewrite (H3 q Hnin) in Hr. congruence. }
           apply (H1 q col) in Hr; [congruence | done].
        -- rewrite lookup_insert_ne by done. by apply Hd.
  - rewrite lookup_insert_eq. by eexists.
  - intros q Hq. destruct (decide (p = q)) as [<-|Hne].
    + rewrite lookup_insert_eq. by eexists.
    + by rewrite lookup_insert_ne.
Qed.

(** X10: When the final loop of handle_constraints over the Projs of the Perm
    succeeds, every Proj has a register; registers set before are kept and
    nodes that are no Projs of the Perm are untouched; a register given in the
    loop is below n_regs, allocatable and different from the register of every
    other Proj of the Perm. *)
Theorem perm_projs_coloured projs registers registers' :
  assign_perm_projs projs registers = Ok registers' →
  (∀ p, p ∈ projs → is_Some (registers' !! p))
  ∧ (∀ p r, registers !! p = Some r → registers' !! p = Some r)
  ∧ (∀ p, p ∉ projs → registers' !! p = registers !! p)
  ∧ (∀ p r, registers !! p = None → registers' !! p = Some r →
            r < n_regs ∧ bitset_is_set allocatable_regs r = true
            ∧ ∀ q, q ∈ projs → q ≠ p → registers' !! q ≠ Some r).
Proof.
  intros H. unfold ChordalConstr.assign_perm_projs in H. inv_bind H as st Hst.
  inv_Ok H.
  assert (Hgen : ∀ l st0 st1,
            (∀ p, p ∈ l → p ∈ projs) → projs_inv projs registers st0 →
            foldM assign_proj l st0 = Ok st1 →
            projs_inv projs registers st1
            ∧ (∀ p, p ∈ l ∨ is_Some (st0.2 !! p) → is_Some (st1.2 !! p))).
  { induction l as [|p l IH]; intros st0 st1 Hl Hinv Hf.
    - simpl in Hf. inv_Ok Hf. split; [done|].
      intros p [Hp|?]; [by apply elem_of_nil in Hp | done].
    - cbn [foldM] in Hf. inv_bind Hf as st2 H2.
      destruct (assign_proj_inv projs registers st0 p st2) as (Hinv2 & Hp & Hmono);
        [apply Hl; by left | done | done |].
      destruct (IH st2 st1) as (Hinv1 & Hdom); [intros; apply Hl; by right|done|done|].
      split; [done|]. intros q [Hq|Hq].
      + apply elem_of_cons in Hq as [->|Hq]; apply Hdom; auto.
      + apply Hdom. right. by apply Hmono. }
  destruct (Hgen projs (proj_colors projs registers, registers) st)
    as ((_ & H2 & H3 & H4) & Hdom); [done| |done|].
  { split_and!; simpl; try done.
    - intros p r Hp Hr. apply proj_colors_spec. eauto.
    - intros p r Hn Hs. congruence. }
  split_and!; [|done|done|done]. intros p Hp. apply Hdom. by left.
Qed.

End PermProjsFacts.

(** ** Pairing of operands *)

Section PairingFacts.

Import Chordal.
Import ChordalSpec.
Import ChordalConstr.
Import PairingSpec.

Variable n_regs : nat.
Variable be_values_interfere : ir_node → bool.
Variable use_start : nat.

Local Abbreviation pair_candidate := (pair_candidate n_regs be_values_interfere).
Local Abbreviation pair_out := (pair_out n_regs be_values_interfere use_start).
Local Abbreviation pair_up_operands :=
  (pair_up_operands n_regs be_values_interfere use_start).
Local Abbreviation common_reg := (common_reg n_regs).
Local Abbreviation pair_cand := (pair_cand n_regs be_values_interfere use_start).
Local Abbreviation n_allowed := (n_allowed n_regs).

Lemma bitset_popcount_le b : bitset_popcount n_regs b ≤ n_regs.
Proof.
  unfold bitset_popcount, bitset_elems. etrans; [apply length_filter|].
  by rewrite length_seq.
Qed.

Lemma bitset_and_nonempty a b :
  bitset_is_empty n_regs (bitset_and (bitset_copy 0%Z a) b) = false
  ↔ ∃ c, common_reg a b c.
Proof.
  unfold bitset_is_empty. rewrite bool_decide_eq_false.
  assert (Hset : ∀ c, bitset_is_set (bitset_and (bitset_copy 0%Z a) b) c = true
                      ↔ bitset_is_set a c = true ∧ bitset_is_set b c = true).
  { intros c. unfold bitset_is_set, bitset_and, bitset_copy.
    by rewrite Z.land_spec, andb_true_iff. }
  split.
  - intros Hne. destruct (bitset_elems n_regs _) as [|c l] eqn:He; [done|].
    exists c. assert (Hc : c ∈ bitset_elems n_regs
                             (bitset_and (bitset_copy 0%Z a) b))
      by (rewrite He; by left).
    apply bitset_elems_spec in Hc as [Hlt Hc]. apply Hset in Hc as [? ?].
    by split_and!.
  - intros (c & Hlt & Ha & Hb) He.
    assert (Hc : c ∈ bitset_elems n_regs (bitset_and (bitset_copy 0%Z a) b)).
    { apply bitset_elems_spec. split; [done|]. by apply Hset. }
    rewrite He in Hc. by apply elem_of_nil in Hc.
Qed.

(** The inner loop finds the first in operand with the fewest allowed
    registers among the candidates, if there is a candidate. *)
Lemma pair_candidates_spec ops out_op n :
  let found := foldl (pair_candidate ops out_op) (None, n_regs + 1)
                 (seq use_start n) in
  (found.1 = None →
   found.2 = n_regs + 1 ∧ ∀ i, i < use_start + n → ¬ pair_cand ops out_op i)
  ∧ (∀ s, found.1 = Some s →
       s < use_start + n ∧ pair_cand ops out_op s ∧ found.2 = n_allowed ops s
       ∧ ∀ i, i < use_start + n → pair_cand ops out_op i →
              n_allowed ops s ≤ n_allowed ops i
              ∧ (i < s → n_allowed ops s < n_allowed ops i)).
Proof.
  induction n as [|n IH]; cbv zeta in *.
  { simpl. split; [|done]. intros _. split; [done|].
    intros i Hi [Hu _]. lia. }
  rewrite seq_S, foldl_app. cbn [foldl].
  set (st := foldl _ _ (seq use_start n)) in *. destruct IH as [IHn IHs].
  set (x := use_start + n).
  assert (Hold : (∀ i, i < use_start + n → ¬ pair_cand ops out_op i) →
                 ¬ pair_cand ops out_op x →
                 ∀ i, i < use_start + S n → ¬ pair_cand ops out_op i).
  { intros H1 H2 i Hi. destruct (decide (i = x)) as [->|Hne]; [done|].
    apply H1. unfold x in Hne. lia. }
  assert (Hkeep : ¬ pair_cand ops out_op x ∨
                  (∃ s, st.1 = Some s ∧ n_allowed ops s ≤ n_allowed ops x) →
                  (st.1 = None →
                   st.2 = n_regs + 1
                   ∧ ∀ i, i < use_start + S n → ¬ pair_cand ops out_op i)
                  ∧ (∀ s, st.1 = Some s →
                       s < use_start + S n ∧ pair_cand ops out_op s
                       ∧ st.2 = n_allowed ops s
                       ∧ ∀ i, i < use_start + S n → pair_cand ops out_op i →
                              n_allowed ops s ≤ n_allowed ops i
                              ∧ (i < s → n_allowed ops s < n_allowed ops i))).
  { intros Hx. split.
    - intros Hn. destruct (IHn Hn) as [? Hno]. split; [done|].
      destruct Hx as [Hx|(s & Hs & _)]; [by apply Hold | congruence].
    - intros s Hs. destruct (IHs s Hs) as (Hlt & Hc & H2 & Hmin).
      split_and!; [lia | done | done |].
      intros i Hi Hci. destruct (decide (i = x)) as [->|Hne].
      + destruct Hx as [Hx|(s' & Hs' & Hle)]; [done|].
        assert (s' = s) as -> by congruence. split; [done|]. unfold x. lia.
      + apply Hmin; [|done]. unfold x in Hne. lia. }
  unfold ChordalConstr.pair_candidate. fold x.
  destruct (ops !! x) as [op|] eqn:Hop.
  2:{ apply Hkeep. left. intros (_ & op & Hop' & _). congruence. }
  destruct (bool_decide (is_Some (partner op))) eqn:Hp; simpl.
  { apply Hkeep. left. intros (_ & op' & Hop' & Hn & _).
    apply bool_decide_eq_true in Hp as [? Hp]. congruence. }
  destruct (be_values_interfere (carrier op)) eqn:Hi; simpl.
  { apply Hkeep. left. intros (_ & op' & Hop' & _ & Hi' & _). congruence. }
  destruct (bitset_is_empty n_regs _) eqn:He; simpl.
  { apply Hkeep. left. intros (_ & op' & Hop' & _ & _ & Hc).
    assert (op' = op) as -> by congruence.
    apply bitset_and_nonempty in Hc. congruence. }
  assert (Hcx : pair_cand ops out_op x).
  { split; [unfold x; lia|]. exists op. split_and!; [done| |done|].
    - apply bool_decide_eq_false in Hp. destruct (partner op); [|done].
      exfalso. apply Hp. by eexists.
    - by apply bitset_and_nonempty. }
  assert (Hax : n_allowed ops x = bitset_popcount n_regs (regs op)).
  { unfold PairingSpec.n_allowed. by rewrite Hop. }
  destruct (bool_decide (_ < st.2)) eqn:Hlt; simpl.
  - apply bool_decide_eq_true in Hlt.
    split; [done|]. intros s [= <-]. split_and!; [unfold x; lia|done|done|].
    intros i Hi' Hci. destruct (decide (i = x)) as [->|Hne]; [split; [done|lia]|].
    assert (Hi2 : i < use_start + n) by (unfold x in Hne; lia).
    destruct (st.1) as [s|] eqn:Hs.
    + destruct (IHs s eq_refl) as (_ & _ & H2 & Hmin).
      destruct (Hmin i Hi2 Hci) as [Hle _]. rewrite Hax. lia.
    + destruct (IHn eq_refl) as [_ Hno]. by destruct (Hno i Hi2).
  - apply bool_decide_eq_false in Hlt.
    apply Hkeep. right. destruct (st.1) as [s|] eqn:Hs.
    + destruct (IHs s eq_refl) as (_ & _ & H2 & _). exists s. split; [done|].
      rewrite Hax. lia.
    + destruct (IHn eq_refl) as [H2 _]. pose proof (bitset_popcount_le (regs op)).
      lia.
Qed.


Lemma pair_cand_range ops out_op i :
  pair_cand ops out_op i → i < use_start + (length ops - use_start).
Proof.
  intros (Hu & op & Hop & _). apply lookup_lt_Some in Hop. lia.
Qed.

Lemma pair_out_spec ops j out_op :
  j < use_start → ops !! j = Some out_op →
  ∃ ops', pair_out ops j = Ok ops'
    ∧ (((∀ i, ¬ pair_cand ops out_op i) ∧ ops' = ops)
       ∨ ∃ s sm,
           pair_cand ops out_op s ∧ ops !! s = Some sm
           ∧ (∀ i, pair_cand ops out_op i →
                   n_allowed ops s ≤ n_allowed ops i
                   ∧ (i < s → n_allowed ops s < n_allowed ops i))
           ∧ ∀ i, ops' !! i
                  = (λ op, if decide (i = j) then set_partner (Some s) op
                           else if decide (use_start ≤ i
                                           ∧ carrier op = carrier sm)
                                then set_partner (Some j) op
                                else op) <$> ops !! i).
Proof.
  intros Hj Hout. unfold ChordalConstr.pair_out. rewrite Hout.
  destruct (pair_candidates_spec ops out_op (length ops - use_start))
    as [Hnone Hsome].
  destruct (foldl _ _ _).1 as [s|] eqn:Hf.
  - destruct (Hsome s eq_refl) as (Hlt & Hc & _ & Hmin).
    pose proof Hc as (Hus & sm & Hs & _). rewrite Hs.
    eexists. split; [done|]. right. exists s, sm. split_and!; [done|done| |].
    + intros i Hi. apply Hmin; [|done]. by eapply pair_cand_range.
    + intros i. destruct (decide (i = s)) as [->|Hne].
      * rewrite list_lookup_alter_eq.
        rewrite list_lookup_alter_ne by lia.
        rewrite list_lookup_imap, Hs. simpl.
        rewrite decide_False by lia.
        rewrite bool_decide_eq_true_2, bool_decide_eq_true_2 by done. simpl.
        rewrite decide_True by done. done.
      * rewrite list_lookup_alter_ne by done.
        destruct (decide (i = j)) as [->|Hne2].
        -- rewrite list_lookup_alter_eq, list_lookup_imap, Hout. simpl.
           rewrite bool_decide_eq_false_2 by lia. done.
        -- rewrite list_lookup_alter_ne by done.
           rewrite list_lookup_imap. destruct (ops !! i) as [op|]; [|done].
           simpl. f_equal.
           destruct (decide (use_start ≤ i ∧ carrier op = carrier sm))
             as [[? ?]|Hn].
           ++ by rewrite !bool_decide_eq_true_2.
           ++ destruct (bool_decide (use_start ≤ i)) eqn:H1; [|done].
              destruct (bool_decide (carrier op = carrier sm)) eqn:H2; [|done].
              apply bool_decide_eq_true in H1, H2. tauto.
  - eexists. split; [done|]. left. split; [|done].
    destruct (Hnone eq_refl) as [_ Hno]. intros i Hi.
    apply (Hno i); [|done]. by eapply pair_cand_range.
Qed.

(** X11: One round of pair_up_operands for an out operand always succeeds.
    Either no in operand is a candidate (unpaired, not interfering, with a
    register in common with the out operand) and nothing changes; or the in
    operand chosen is a candidate that allows the fewest registers, the first
    one among equals, the out operand and it become partners of each other,
    and every in operand with the same value gets the out operand as partner. *)
Theorem pair_out_choice ops j out_op :
  j < use_start → ops !! j = Some out_op →
  ∃ ops', pair_out ops j = Ok ops'
    ∧ (((∀ i, ¬ pair_cand ops out_op i) ∧ ops' = ops)
       ∨ ∃ s sm,
           pair_cand ops out_op s ∧ ops !! s = Some sm
           ∧ (∀ i, pair_cand ops out_op i →
                   n_allowed ops s ≤ n_allowed ops i
                   ∧ (i < s → n_allowed ops s < n_allowed ops i))
           ∧ ∀ i, ops' !! i
                  = (λ op, if decide (i = j) then set_partner (Some s) op
                           else if decide (use_start ≤ i
                                           ∧ carrier op = carrier sm)
                                then set_partner (Some j) op
                                else op) <$> ops !! i).
Proof. apply pair_out_spec. Qed.



Local Abbreviation pairing_inv := (pairing_inv n_regs be_values_interfere use_start).

Lemma same_operands_refl ops : same_operands ops ops.
Proof. done. Qed.

Lemma same_operands_trans ops1 ops2 ops3 :
  same_operands ops1 ops2 → same_operands ops2 ops3 → same_operands ops1 ops3.
Proof. intros (? & ? & ?) (? & ? & ?). split_and!; congruence. Qed.

Lemma same_operands_lookup ops ops' (f : nat → be_operand_t → be_operand_t) :
  (∀ i o, carrier (f i o) = carrier o ∧ regs (f i o) = regs o
          ∧ req_cls (f i o) = req_cls o) →
  (∀ i, ops' !! i = f i <$> ops !! i) →
  same_operands ops ops'.
Proof.
  intros Hf Hl. split_and!; apply list_eq; intros i;
    rewrite !list_lookup_fmap, Hl; destruct (ops !! i) as [o|]; simpl; try done;
    f_equal; apply Hf.
Qed.

Lemma pair_out_inv ops k :
  k < use_start → use_start ≤ length ops → pairing_inv k ops →
  ∃ ops', pair_out ops k = Ok ops' ∧ same_operands ops ops'
          ∧ pairing_inv (S k) ops'.
Proof.
  intros Hk Hlen (HO & HI & HD).
  destruct (lookup_lt_is_Some_2 ops k) as [out_op Hout]; [lia|].
  destruct (pair_out_spec ops k out_op Hk Hout)
    as (ops' & Hok & [[_ ->]|(s & sm & Hc & Hs & _ & Hl)]).
  { exists ops. split; [done|]. split; [done|]. split_and!.
    - intros j o s Hj Hlt Hp. destruct (HO j o s Hj Hlt Hp) as (? & ? & ?).
      split_and!; [lia|done|done].
    - intros i o j Hi Hu Hp. destruct (HI i o j Hi Hu Hp) as (? & ? & ?).
      split_and!; [lia|done|done].
    - done. }
  destruct Hc as (Hus & sm' & Hs' & Hpn & Hni & Hcom).
  assert (sm' = sm) as -> by congruence.
  exists ops'. split; [done|]. split.
  { apply (same_operands_lookup ops ops'
             (λ i op, if decide (i = k) then set_partner (Some s) op
                      else if decide (use_start ≤ i ∧ carrier op = carrier sm)
                           then set_partner (Some k) op else op));
      [|exact Hl].
    intros i o. destruct (decide (i = k)); [done|].
    by destruct (decide (_ ∧ _)). }
  assert (Hlow : ∀ j, j < use_start → j ≠ k → ops' !! j = ops !! j).
  { intros j Hj Hne. rewrite Hl. destruct (ops !! j) as [o|]; [|done]. simpl.
    rewrite decide_False by done. rewrite decide_False by lia. done. }
  assert (Hk' : ops' !! k = Some (set_partner (Some s) out_op)).
  { rewrite Hl, Hout. simpl. by rewrite decide_True. }
  assert (Hhigh : ∀ i o, use_start ≤ i → ops !! i = Some o →
            ops' !! i = Some (if decide (carrier o = carrier sm)
                              then set_partner (Some k) o else o)).
  { intros i o Hi Ho. rewrite Hl, Ho. simpl. rewrite decide_False by lia.
    f_equal. destruct (decide (carrier o = carrier sm)).
    - by rewrite decide_True.
    - rewrite decide_False; [done|]. tauto. }
  assert (Hhigh' : ∀ i o', use_start ≤ i → ops' !! i = Some o' →
            ∃ o, ops !! i = Some o
                 ∧ o' = (if decide (carrier o = carrier sm)
                         then set_partner (Some k) o else o)).
  { intros i o' Hi Ho'. destruct (ops !! i) as [o|] eqn:Ho.
    - rewrite (Hhigh i o Hi Ho) in Ho'. inv_Ok Ho'. eauto.
    - rewrite Hl, Ho in Ho'. done. }
  split_and!.
  - intros j o s0 Hj Hlt Hp. destruct (decide (j = k)) as [->|Hne].
    + rewrite Hk' in Hj. injection Hj as <-. simpl in Hp. injection Hp as <-.
      split_and!; [lia|done|]. exists (set_partner (Some k) sm).
      split_and!; [|done|done|done].
      rewrite (Hhigh s sm Hus Hs). by rewrite decide_True.
    + rewrite Hlow in Hj by done.
      destruct (HO j o s0 Hj Hlt Hp) as (? & Hu0 & os & Hos & Hpo & Hio & Hco).
      split_and!; [lia|done|]. exists os. split_and!; try done.
      rewrite (Hhigh s0 os Hu0 Hos). rewrite decide_False; [done|].
      intros Heq. pose proof (HD s0 s os sm Hos Hs Hu0 Hus Heq). congruence.
  - intros i o' j Hi Hu Hp.
    destruct (Hhigh' i o' Hu Hi) as (o & Ho & ->).
    destruct (decide (carrier o = carrier sm)) as [Heq|Hneq].
    + simpl in Hp. injection Hp as <-. split_and!; [lia|done|].
      exists (set_partner (Some s) out_op), s, (set_partner (Some k) sm).
      split_and!; [done|done| |done].
      rewrite (Hhigh s sm Hus Hs). by rewrite decide_True.
    + destruct (HI i o j Ho Hu Hp) as (Hjk & Hju & oj & s0 & os & Hoj & Hpj & Hos & Hcs).
      split_and!; [lia|done|].
      destruct (HO j oj s0 Hoj Hju Hpj) as (_ & Hu0 & _).
      exists oj, s0, (if decide (carrier os = carrier sm)
                      then set_partner (Some k) os else os).
      split_and!; [rewrite Hlow; [done|done|lia] | done | by apply Hhigh |].
      by destruct (decide (carrier os = carrier sm)).
  - intros i i' o1 o2 H1 H2 Hu1 Hu2 Heq.
    destruct (Hhigh' i o1 Hu1 H1) as (a & Ha & ->).
    destruct (Hhigh' i' o2 Hu2 H2) as (b & Hb & ->).
    assert (Hab : carrier a = carrier b).
    { revert Heq. by destruct (decide (carrier a = _)), (decide (carrier b = _)). }
    destruct (decide (carrier a = carrier sm)) as [Ha'|Ha'];
      destruct (decide (carrier b = carrier sm)) as [Hb'|Hb']; try congruence.
    + done.
    + by apply (HD i i' a b).
Qed.

(** X12: Started on operands without partners, pair_up_operands succeeds and
    changes only partners. Afterwards the partner of an out operand is an in
    operand that points back to it, does not interfere and has a register in
    common with it; the partner of an in operand is an out operand whose own
    partner carries the same value; and in operands with the same value have
    the same partner. *)
Theorem pair_up_operands_partners ops :
  use_start ≤ length ops → (∀ o, o ∈ ops → partner o = None) →
  ∃ ops', pair_up_operands ops = Ok ops'
    ∧ same_operands ops ops'
    ∧ (∀ j o s, ops' !! j = Some o → j < use_start → partner o = Some s →
         use_start ≤ s
         ∧ ∃ os, ops' !! s = Some os ∧ partner os = Some j
                 ∧ be_values_interfere (carrier os) = false
                 ∧ ∃ c, common_reg (regs os) (regs o) c)
    ∧ (∀ i o j, ops' !! i = Some o → use_start ≤ i → partner o = Some j →
         j < use_start
         ∧ ∃ oj s os, ops' !! j = Some oj ∧ partner oj = Some s
                      ∧ ops' !! s = Some os ∧ carrier os = carrier o)
    ∧ (∀ i i' o o', ops' !! i = Some o → ops' !! i' = Some o' →
         use_start ≤ i → use_start ≤ i' → carrier o = carrier o' →
         partner o = partner o').
Proof.
  intros Hlen Hnone.
  assert (Hgen : ∀ n k ops1, k + n = use_start → same_operands ops ops1 →
            pairing_inv k ops1 →
            ∃ ops', foldM pair_out (seq k n) ops1 = Ok ops'
                    ∧ same_operands ops ops' ∧ pairing_inv use_start ops').
  { induction n as [|n IH]; intros k ops1 Hkn Hsame Hinv.
    - simpl. exists ops1. split; [done|]. split; [done|].
      assert (Hk : k = use_start) by lia. by subst k.
    - assert (Hlen1 : use_start ≤ length ops1).
      { destruct Hsame as [Hc _]. apply (f_equal length) in Hc.
        rewrite !length_fmap in Hc. lia. }
      destruct (pair_out_inv ops1 k) as (ops2 & H2 & Hs2 & Hinv2);
        [lia|done|done|].
      destruct (IH (S k) ops2) as (ops' & H' & Hs' & Hinv');
        [lia | by eapply same_operands_trans | done |].
      exists ops'. split; [|by split].
      cbn [seq foldM]. by rewrite H2. }
  destruct (Hgen use_start 0 ops) as (ops' & H & Hs & (HO & HI & HD));
    [lia | done | |].
  { split_and!.
    - intros j o s Hj _ Hp. rewrite (Hnone o) in Hp; [done|].
      by eapply list_elem_of_lookup_2.
    - intros i o j Hi _ Hp. rewrite (Hnone o) in Hp; [done|].
      by eapply list_elem_of_lookup_2.
    - intros i i' o o' Hi Hi' _ _ _.
      rewrite (Hnone o), (Hnone o'); [done| |]; by eapply list_elem_of_lookup_2. }
  exists ops'. split_and!; [done|done| | |done].
  - intros j o s Hj Hlt Hp. by destruct (HO j o s Hj Hlt Hp) as (_ & ? & ?).
  - intros i o j Hi Hu Hp. by destruct (HI i o j Hi Hu Hp) as (_ & ? & ?).
Qed.

End PairingFacts.

(** ** The matching and the partners *)

Section MatchingFacts.

Import Chordal.
Import ChordalSpec.
Import MatchingSpec.

Variable n_regs : nat.

Local Abbreviation assign_matched := (assign_matched n_regs).
Local Abbreviation assign_matching := (assign_matching n_regs).

Lemma assign_matching_steps st assignment registers n : ∀ registers',
  clean_pairs st → n ≤ n_alloc st →
  foldM (assign_matched st assignment) (seq 0 n) registers = Ok registers' →
  (∀ k a, k < n → alloc_nodes st !! k = Some a →
     ∃ c, assignment !! k = Some (Z.of_nat c) ∧ c < n_regs
          ∧ registers' !! a = Some c
          ∧ ∀ p, partners st !! a = Some (Some p) → p ≠ NULL →
                 registers' !! p = Some c)
  ∧ (∀ v, (∀ k a, k < n → alloc_nodes st !! k = Some a →
                  v ≠ a ∧ partners st !! a ≠ Some (Some v)) →
          registers' !! v = registers !! v).
Proof.
  intros registers' (Hnd & Hnn & Hpart).
  revert registers'. induction n as [|n IH]; intros registers' Hn H.
  { simpl in H. inv_Ok H. split; [intros; lia | done]. }
  rewrite seq_S, foldM_app in H. simpl in H.
  inv_bind H as regs1 H1. inv_bind H as regs2 H2. inv_Ok H.
  destruct (IH regs1) as [IHa IHo]; [lia | done |].
  unfold Chordal.assign_matched in H2.
  destruct (assignment !! n) as [z|] eqn:Hz; [|done].
  destruct (alloc_nodes st !! n) as [a|] eqn:Ha; [|done].
  inv_bind H2 as u Hu. apply assert_Ok, bool_decide_eq_true in Hu.
  case_bool_decide as Hlt; [|done].
  assert (Hain : a ∈ alloc_nodes st) by (by eapply list_elem_of_lookup_2).
  rewrite (bool_decide_eq_true_2 (a ≠ NULL)) in H2 by (by apply Hnn).
  set (c := Z.to_nat z) in *.
  assert (Hreg : ∀ v, registers' !! v
                      = if decide (partners st !! a = Some (Some v) ∧ v ≠ NULL)
                        then Some c
                        else if decide (v = a) then Some c else regs1 !! v).
  { intros v. destruct (partners st !! a) as [[p|]|] eqn:Hp.
    - inv_Ok H2. case_bool_decide as Hpn.
      + destruct (decide (p = v)) as [->|Hne].
        * rewrite lookup_insert_eq. by rewrite decide_True.
        * rewrite lookup_insert_ne by done.
          rewrite decide_False by (intros [[= ?] _]; done).
          destruct (decide (v = a)) as [->|Hne2].
          -- by rewrite lookup_insert_eq.
          -- by rewrite lookup_insert_ne.
      + rewrite decide_False.
        2:{ intros [[= ->] Hv]. done. }
        destruct (decide (v = a)) as [->|Hne2].
        * by rewrite lookup_insert_eq.
        * by rewrite lookup_insert_ne.
    - inv_Ok H2. rewrite decide_False by (by intros [? _]).
      destruct (decide (v = a)) as [->|Hne2].
      + by rewrite lookup_insert_eq.
      + by rewrite lookup_insert_ne.
    - inv_Ok H2. rewrite decide_False by (by intros [? _]).
      destruct (decide (v = a)) as [->|Hne2].
      + by rewrite lookup_insert_eq.
      + by rewrite lookup_insert_ne. }
  split.
  - intros k a' Hk Ha'. destruct (decide (k = n)) as [->|Hne].
    + assert (a' = a) as -> by congruence.
      exists c. split_and!; [unfold c; by rewrite Z2Nat.id | done | |].
      * rewrite Hreg. destruct (decide _); [done|]. by rewrite decide_True.
      * intros p Hp Hpn. rewrite Hreg. by rewrite decide_True.
    + destruct (IHa k a') as (c' & Hc' & Hlt' & Hra & Hrp); [lia|done|].
      assert (Hin' : a' ∈ alloc_nodes st) by (by eapply list_elem_of_lookup_2).
      assert (Hne' : a' ≠ a).
      { intros ->. apply Hne. by eapply NoDup_lookup. }
      exists c'. split_and!; [done|done| |].
      * rewrite Hreg. rewrite decide_False.
        2:{ intros [Hp _]. by destruct (Hpart a a' Hain Hp). }
        by rewrite decide_False.
      * intros p Hp Hpn. rewrite Hreg. rewrite decide_False.
        2:{ intros [Hp' _]. destruct (Hpart a p Hain Hp') as [_ Hinj].
            apply Hne'. by apply Hinj. }
        rewrite decide_False; [by apply Hrp|].
        intros ->. by destruct (Hpart a' a Hin' Hp).
  - intros v Hv. rewrite Hreg.
    destruct (Hv n a) as [Hva Hvp]; [lia|done|].
    rewrite decide_False by (by intros [? _]).
    rewrite decide_False by done. apply IHo.
    intros k a' Hk Ha'. apply (Hv k a'); [lia|done].
Qed.

(** X13: If the left nodes are distinct and not NULL, no partner of a left
    node is a left node and no two left nodes share a partner, then a
    successful colouring from the matching gives left node k the register
    assignment[k] (which is below n_regs) and gives its partner, if it has
    one, the same register, and leaves the register of every node that is
    neither a left node nor such a partner as it was. *)
Theorem assign_matching_partners st assignment registers registers' :
  clean_pairs st →
  assign_matching st assignment registers = Ok registers' →
  (∀ k a, alloc_nodes st !! k = Some a →
     ∃ c, assignment !! k = Some (Z.of_nat c) ∧ c < n_regs
          ∧ registers' !! a = Some c
          ∧ ∀ p, partners st !! a = Some (Some p) → p ≠ NULL →
                 registers' !! p = Some c)
  ∧ (∀ v, v ∉ alloc_nodes st →
          (∀ a, a ∈ alloc_nodes st → partners st !! a ≠ Some (Some v)) →
          registers' !! v = registers !! v).
Proof.
  intros Hc H. unfold Chordal.assign_matching in H.
  destruct (assign_matching_steps st assignment registers (n_alloc st)
              registers' Hc (le_n _) H) as [Ha Ho].
  split.
  - intros k a Hk. apply Ha; [|done]. by apply lookup_lt_Some in Hk.
  - intros v Hv Hp. apply Ho. intros k a _ Hk.
    assert (a ∈ alloc_nodes st) by (by eapply list_elem_of_lookup_2).
    split; [by intros -> | by apply Hp].
Qed.

End MatchingFacts.

Section HandleFacts.

Import Chordal.
Import ChordalSpec.
Import MatchingSpec.

Variable n_regs : nat.
Variable use_start : nat.

Local Abbreviation handle_operand := (handle_operand n_regs).
Local Abbreviation handle_operands := (handle_operands n_regs).
Local Abbreviation assign_matching := (assign_matching n_regs).
Local Abbreviation left_op := (left_op use_start).
Local Abbreviation paired_operands := (paired_operands use_start).
Local Abbreviation handle_inv := (handle_inv use_start).

(** What one round of the operand loop does to the partner map and the left
    nodes. *)
Lemma handle_operand_effect ops st op st' :
  handle_operand ops st op = Ok st' →
  ∃ o2, partner_op ops op = Ok o2
    ∧ (((∃ o, o2 = Some o ∧ is_Some (partners st !! carrier o)) ∧ st' = st)
       ∨ ((∀ o, o2 = Some o → partners st !! carrier o = None)
          ∧ partners st'
            = (let pm := <[carrier op := carrier <$> o2]> (partners st) in
               match carrier <$> o2 with
               | Some p => <[p := Some (carrier op)]> pm
               | None => pm
               end)
          ∧ alloc_nodes st'
            = (if decide (carrier op ∈ alloc_nodes st) then alloc_nodes st
               else alloc_nodes st ++ [carrier op]))).
Proof.
  intros H. unfold Chordal.handle_operand in H.
  inv_bind H as o2 Ho2. exists o2. split; [done|].
  destruct (match o2 with Some o => pmap_contains (partners st) (carrier o)
                        | None => false end) eqn:Hskip.
  { inv_Ok H. left. split; [|done]. destruct o2 as [o|]; [|done].
    exists o. split; [done|]. by apply bool_decide_eq_true in Hskip. }
  right. split.
  { intros o ->. apply bool_decide_eq_false in Hskip.
    by apply eq_None_not_Some. }
  unfold list_contains_irn in H. case_bool_decide as Hin.
  - inv_Ok H. simpl. by rewrite decide_True.
  - case_bool_decide; [|done]. inv_bind H as bs Hbs. inv_Ok H. simpl.
    by rewrite decide_False.
Qed.


Lemma partner_op_lookup ops op o2 :
  partner_op ops op = Ok o2 → o2 = partner op ≫= λ s, ops !! s.
Proof.
  unfold partner_op. destruct (partner op) as [j|]; simpl; [|by intros [= <-]].
  destruct (ops !! j); [by intros [= <-] | done].
Qed.

Lemma handle_step ops k st op st' :
  paired_operands ops → handle_inv ops k st → ops !! k = Some op →
  handle_operand ops st op = Ok st' →
  handle_inv ops (S k) st'.
Proof.
  intros (PO & PI & PD & PS & PN) (R1 & R2 & R3 & R4) Hk H.
  destruct (handle_operand_effect ops st op st' H) as (o2 & Ho2 & Heff).
  apply partner_op_lookup in Ho2.
  assert (Hmono : ∀ i, i < k → i < S k) by lia.
  destruct (decide (k < use_start)) as [Hout|Hin].
  - (* an out operand *)
    assert (Hnew : carrier op ∉ alloc_nodes st).
    { intros (i & o & Hi & Ho & Hc & _)%R2.
      assert (k = i) by (by eapply (PS k i op o)). lia. }
    assert (Hfresh : ∀ i o, i < k → ops !! i = Some o → carrier o ≠ carrier op).
    { intros i o Hi Ho Hc. assert (k = i) by (by eapply (PS k i op o)). lia. }
    destruct Heff as [[(o & -> & Hdom) _]|(Hnd & Hpm & Hal)].
    { (* the partner's value cannot be in the map yet *)
      exfalso. destruct (partner op) as [s|] eqn:Hp; [|done]. simpl in Ho2.
      symmetry in Ho2.
      destruct (PO k op s Hk Hout Hp) as (Hs & os & Hos & Hpos).
      assert (o = os) as -> by congruence.
      destruct (R4 _ Hdom) as (i & oi & Hi & Hoi & _ & [Hc|Hc]).
      - assert (i = s) by (eapply (PS i s oi os); [done|done|lia|done]). lia.
      - unfold MatchingSpec.partner_carrier in Hc.
        destruct (partner oi) as [s'|] eqn:Hp'; [|done]. simpl in Hc.
        destruct (ops !! s') as [os'|] eqn:Hos'; [|done]. inv_Ok Hc.
        destruct (PO i oi s' Hoi) as (Hs' & os'' & Hos'' & Hpos'); [lia|done|].
        assert (os'' = os') as -> by congruence.
        pose proof (PD s' s os' os Hos' Hos Hs' Hs Hc) as Heq.
        rewrite Hpos, Hpos' in Heq. inv_Ok Heq. lia. }
    rewrite decide_False in Hal by done.
    assert (Hpc : carrier <$> o2 = partner_carrier ops op).
    { rewrite Ho2. unfold MatchingSpec.partner_carrier.
      by destruct (partner op). }
    assert (Hpne : ∀ p, partner_carrier ops op = Some p →
                        p ≠ carrier op
                        ∧ ∀ i o, i < k → ops !! i = Some o → carrier o ≠ p).
    { intros p Hp. unfold MatchingSpec.partner_carrier in Hp.
      destruct (partner op) as [s|] eqn:Hps; [|done]. simpl in Hp.
      destruct (ops !! s) as [os|] eqn:Hos; [|done]. inv_Ok Hp.
      destruct (PO k op s Hk Hout Hps) as (Hs & _). split.
      - intros Hc. assert (k = s) by (by eapply (PS k s op os)). lia.
      - intros i o Hi Ho Hc.
        assert (i = s) by (eapply (PS i s o os); [done|done|lia|done]). lia. }
    assert (Hlook : ∀ m, partners st' !! m
              = if decide (partner_carrier ops op = Some m)
                then Some (Some (carrier op))
                else if decide (m = carrier op)
                     then Some (partner_carrier ops op)
                     else partners st !! m).
    { intros m. rewrite Hpm, Hpc. simpl.
      destruct (partner_carrier ops op) as [p|] eqn:Hp.
      - destruct (decide (p = m)) as [->|Hne].
        + rewrite lookup_insert_eq. by rewrite decide_True.
        + rewrite lookup_insert_ne by done.
          rewrite decide_False by congruence.
          destruct (decide (m = carrier op)) as [->|Hne2].
          * by rewrite lookup_insert_eq.
          * by rewrite lookup_insert_ne.
      - rewrite decide_False by done.
        destruct (decide (m = carrier op)) as [->|Hne2].
        + by rewrite lookup_insert_eq.
        + by rewrite lookup_insert_ne. }
    split_and!.
    + rewrite Hal. apply NoDup_app. split_and!; [done| |apply NoDup_singleton].
      intros x Hx Hx'. apply list_elem_of_singleton in Hx'. by subst.
    + intros a. rewrite Hal, elem_of_app, list_elem_of_singleton, R2. split.
      * intros [(i & o & Hi & ?)| ->]; [exists i, o; split; [lia|done]|].
        exists k, op. split_and!; [lia|done|done|by left].
      * intros (i & o & Hi & Ho & Hc & Hl).
        destruct (decide (i = k)) as [->|Hne].
        -- right. congruence.
        -- left. exists i, o. split_and!; [lia|done|done|done].
    + intros i o Hi Ho Hl. rewrite Hlook.
      destruct (decide (i = k)) as [->|Hne].
      * assert (o = op) as -> by congruence.
        rewrite decide_False.
        2:{ intros Hp. by destruct (Hpne _ Hp). }
        by rewrite decide_True.
      * assert (Hik : i < k) by lia.
        rewrite decide_False.
        2:{ intros Hp. destruct (Hpne _ Hp) as [_ Hf]. by apply (Hf i o). }
        rewrite decide_False by (by apply (Hfresh i o)). by apply (R3 i).
    + intros m Hm. rewrite Hlook in Hm.
      destruct (decide (partner_carrier ops op = Some m)) as [Hp|Hnp].
      { exists k, op. split_and!; [lia|done|by left|by right]. }
      destruct (decide (m = carrier op)) as [->|Hne].
      { exists k, op. split_and!; [lia|done|by left|by left]. }
      destruct (R4 m Hm) as (i & o & Hi & ?). exists i, o. split; [lia|done].
  - (* an in operand *)
    destruct (partner op) as [j|] eqn:Hp.
    + (* with a partner: its value is in the map, the round does nothing *)
      destruct (PI k op j Hk) as (Hj & oj & s & os & Hoj & Hpj & Hos & Hcs);
        [lia|done|].
      simpl in Ho2. rewrite Hoj in Ho2. subst o2.
      assert (Hdom : is_Some (partners st !! carrier oj)).
      { rewrite (R3 j oj); [by eexists|lia|done|by left]. }
      destruct Heff as [[_ ->]|(Hnd & _)].
      2:{ rewrite (Hnd oj eq_refl) in Hdom. by destruct Hdom. }
      split_and!; [done| | |].
      * intros a. rewrite R2. split.
        -- intros (i & o & Hi & ?). exists i, o. split; [lia|done].
        -- intros (i & o & Hi & Ho & Hc & Hl).
           destruct (decide (i = k)) as [->|Hne].
           ++ assert (o = op) as -> by congruence.
              destruct Hl as [?|Hl]; [lia | congruence].
           ++ exists i, o. split_and!; [lia|done|done|done].
      * intros i o Hi Ho Hl. destruct (decide (i = k)) as [->|Hne].
        -- assert (o = op) as -> by congruence.
           destruct Hl as [?|Hl]; [lia | congruence].
        -- apply (R3 i); [lia|done|done].
      * intros m Hm. destruct (R4 m Hm) as (i & o & Hi & ?).
        exists i, o. split; [lia|done].
    + (* without partner *)
      simpl in Ho2. subst o2.
      destruct Heff as [[(o & ? & _) _]|(_ & Hpm & Hal)]; [done|].
      simpl in Hpm.
      assert (Hpc : partner_carrier ops op = None).
      { unfold MatchingSpec.partner_carrier. by rewrite Hp. }
      split_and!.
      * rewrite Hal. destruct (decide _) as [|Hnin]; [done|].
        apply NoDup_app. split_and!; [done| |apply NoDup_singleton].
        intros x Hx Hx'. apply list_elem_of_singleton in Hx'. by subst.
      * intros a. split.
        -- intros Ha.
           assert (Ha' : a ∈ alloc_nodes st ∨ a = carrier op).
           { rewrite Hal in Ha. destruct (decide _); [by left|].
             apply elem_of_app in Ha as [?|Ha]; [by left|].
             apply list_elem_of_singleton in Ha. by right. }
           destruct Ha' as [Ha'| ->].
           ++ apply R2 in Ha' as (i & o & Hi & ?). exists i, o. split; [lia|done].
           ++ exists k, op. split_and!; [lia|done|done|by right].
        -- intros (i & o & Hi & Ho & Hc & Hl). rewrite Hal.
           destruct (decide (i = k)) as [->|Hne].
           ++ assert (o = op) as -> by congruence. subst a.
              destruct (decide _); [done|]. apply elem_of_app. right. by left.
           ++ assert (a ∈ alloc_nodes st).
              { apply R2. exists i, o. split_and!; [lia|done|done|done]. }
              destruct (decide _); [done|]. apply elem_of_app. by left.
      * intros i o Hi Ho Hl. rewrite Hpm.
        destruct (decide (carrier o = carrier op)) as [Hc|Hc].
        -- rewrite Hc, lookup_insert_eq. f_equal.
           destruct (decide (i = k)) as [->|Hne]; [congruence|].
           destruct Hl as [Hlt|Hl].
           ++ assert (i = k) by (by eapply (PS i k o op)). lia.
           ++ unfold MatchingSpec.partner_carrier. by rewrite Hl.
        -- rewrite lookup_insert_ne by done.
           destruct (decide (i = k)) as [->|Hne]; [congruence|].
           apply (R3 i); [lia|done|done].
      * intros m Hm. rewrite Hpm in Hm.
        destruct (decide (m = carrier op)) as [->|Hne].
        { exists k, op. split_and!; [lia|done|by right|by left]. }
        rewrite lookup_insert_ne in Hm by done.
        destruct (R4 m Hm) as (i & o & Hi & ?). exists i, o. split; [lia|done].
Qed.


Lemma handle_loop ops n : ∀ k st st',
  paired_operands ops → k + n = length ops → handle_inv ops k st →
  foldM (handle_operand ops) (drop k ops) st = Ok st' →
  handle_inv ops (length ops) st'.
Proof.
  induction n as [|n IH]; intros k st st' Hp Hkn Hinv H.
  - rewrite drop_ge in H by lia. simpl in H. inv_Ok H.
    by replace (length ops) with k by lia.
  - destruct (lookup_lt_is_Some_2 ops k) as [op Hop]; [lia|].
    rewrite (drop_S _ _ _ Hop) in H. cbn [foldM] in H. inv_bind H as st1 H1.
    apply (IH (S k) st1); [done|lia| |done]. by eapply handle_step.
Qed.

Lemma handle_inv_init ops : handle_inv ops 0 (ConstrState ∅ [] []).
Proof.
  split_and!; simpl.
  - apply NoDup_nil_2.
  - intros a. split; [by intros ?%elem_of_nil | intros (i & _ & ? & _); lia].
  - intros; lia.
  - intros m [x Hx]. by rewrite lookup_empty in Hx.
Qed.

Lemma handle_inv_clean ops st :
  paired_operands ops → handle_inv ops (length ops) st → clean_pairs st.
Proof.
  intros (PO & PI & PD & PS & PN) (R1 & R2 & R3 & R4). split_and!; [done| |].
  - intros a (i & o & _ & Ho & <- & _)%R2. apply PN.
    by eapply list_elem_of_lookup_2.
  - intros a p (i & o & Hi & Ho & <- & Hl)%R2 Hp.
    rewrite (R3 i o Hi Ho Hl) in Hp. injection Hp as Hp.
    unfold MatchingSpec.partner_carrier in Hp.
    destruct (partner o) as [s|] eqn:Hps; [|done]. simpl in Hp.
    destruct (ops !! s) as [os|] eqn:Hos; [|done]. inv_Ok Hp.
    destruct Hl as [Hout|?]; [|congruence].
    destruct (PO i o s Ho Hout Hps) as (Hs & os' & Hos' & Hpos).
    assert (os' = os) as -> by congruence.
    split.
    + intros (i' & o' & Hi' & Ho' & Hc & Hl')%R2.
      destruct Hl' as [Hout'|Hn].
      * assert (i' = s) by (by eapply (PS i' s o' os)). lia.
      * destruct (decide (i' < use_start)) as [Hlt|Hge].
        { assert (i' = s) by (by eapply (PS i' s o' os)). lia. }
        pose proof (PD i' s o' os Ho' Hos ltac:(lia) Hs Hc). congruence.
    + intros a' (i' & o' & Hi' & Ho' & <- & Hl')%R2 Hp'.
      rewrite (R3 i' o' Hi' Ho' Hl') in Hp'. injection Hp' as Hp'.
      unfold MatchingSpec.partner_carrier in Hp'.
      destruct (partner o') as [s'|] eqn:Hps'; [|done]. simpl in Hp'.
      destruct (ops !! s') as [os'|] eqn:Hos''; [|done]. inv_Ok Hp'.
      destruct Hl' as [Hout'|?]; [|congruence].
      destruct (PO i' o' s' Ho' Hout' Hps') as (Hs' & os'' & Hos3 & Hpos').
      assert (os'' = os') as -> by congruence.
      pose proof (PD s' s os' os Hos'' Hos Hs' Hs Hp') as Heq.
      rewrite Hpos, Hpos' in Heq. inv_Ok Heq. congruence.
Qed.

(** X14: For operands paired as pair_up_operands leaves them (out values
    distinct from all other operand values, no NULL value), the operand loop
    of handle_constraints makes the left nodes of the matching, without
    duplicates, exactly the values of the out operands and of the in operands
    without partner; the partner recorded for such an operand's value is the
    value of its partner operand; a left node's partner is never itself a left
    node and is the partner of no other left node. *)
Theorem handle_operands_left_nodes ops st :
  paired_operands ops → handle_operands ops = Ok st →
  NoDup (alloc_nodes st)
  ∧ (∀ a, a ∈ alloc_nodes st ↔
          ∃ i o, ops !! i = Some o ∧ carrier o = a ∧ left_op i o)
  ∧ (∀ i o, ops !! i = Some o → left_op i o →
            partners st !! carrier o = Some (partner_carrier ops o))
  ∧ (∀ a p, a ∈ alloc_nodes st → partners st !! a = Some (Some p) →
            (p ∉ alloc_nodes st)
            ∧ ∀ a', a' ∈ alloc_nodes st → partners st !! a' = Some (Some p) →
                    a' = a).
Proof.
  intros Hp H. unfold Chordal.handle_operands in H.
  pose proof (handle_loop ops (length ops) 0 _ st Hp (eq_refl _)
                (handle_inv_init ops) H) as Hinv.
  destruct (handle_inv_clean ops st Hp Hinv) as (_ & _ & Hc).
  destruct Hinv as (R1 & R2 & R3 & _). split_and!; [done| | |done].
  - intros a. rewrite R2. split.
    + intros (i & o & _ & ?). by exists i, o.
    + intros (i & o & Ho & ?). exists i, o. split; [|done].
      by apply lookup_lt_Some in Ho.
  - intros i o Ho Hl. apply (R3 i); [|done|done]. by apply lookup_lt_Some in Ho.
Qed.

(** The registers of the operands, for any state of the left nodes that has
    a left node and the partner entry for every left operand. *)
Lemma partner_registers ops st assignment registers registers' :
  paired_operands ops → clean_pairs st →
  (∀ i o, ops !! i = Some o → left_op i o →
          carrier o ∈ alloc_nodes st
          ∧ partners st !! carrier o = Some (partner_carrier ops o)) →
  assign_matching st assignment registers = Ok registers' →
  (∀ o, o ∈ ops → ∃ c, registers' !! carrier o = Some c ∧ c < n_regs)
  ∧ (∀ i o q oq, ops !! i = Some o → partner o = Some q → ops !! q = Some oq →
       registers' !! carrier o = registers' !! carrier oq)
  ∧ (∀ k a, alloc_nodes st !! k = Some a →
       ∃ c, assignment !! k = Some (Z.of_nat c) ∧ c < n_regs
            ∧ registers' !! a = Some c).
Proof.
  intros Hp Hclean Hleft Hm.
  unfold Chordal.assign_matching in Hm.
  destruct (assign_matching_steps n_regs st assignment registers (n_alloc st)
              registers' Hclean (le_n _) Hm) as [Ha _].
  destruct Hp as (PO & PI & PD & PS & PN).
  (* the register of an out operand and of its partner *)
  assert (Hout : ∀ j o, ops !! j = Some o → j < use_start →
            ∃ c, registers' !! carrier o = Some c ∧ c < n_regs
                 ∧ ∀ s os, partner o = Some s → ops !! s = Some os →
                           registers' !! carrier os = Some c).
  { intros j o Ho Hj.
    destruct (Hleft j o Ho) as [Hin Hpart]; [by left|].
    apply list_elem_of_lookup_1 in Hin as [k Hk].
    destruct (Ha k (carrier o)) as (c & _ & Hc & Hr & Hrp); [|done|].
    { by apply lookup_lt_Some in Hk. }
    exists c. split_and!; [done|done|]. intros s os Hs Hos. apply Hrp.
    - rewrite Hpart.
      unfold MatchingSpec.partner_carrier. rewrite Hs. simpl. by rewrite Hos.
    - apply PN. by eapply list_elem_of_lookup_2. }
  split_and!.
  - intros o [i Ho]%list_elem_of_lookup_1.
    destruct (decide (i < use_start)) as [Hlt|Hge].
    { destruct (Hout i o Ho Hlt) as (c & ? & ? & _). eauto. }
    destruct (partner o) as [j|] eqn:Hpo.
    + destruct (PI i o j Ho) as (Hj & oj & s & os & Hoj & Hpj & Hos & Hcs);
        [lia|done|].
      destruct (Hout j oj Hoj Hj) as (c & _ & ? & Hs).
      exists c. split; [|done]. rewrite <- Hcs. by apply (Hs s os).
    + destruct (Hleft i o Ho) as [Hin _]; [by right|].
      apply list_elem_of_lookup_1 in Hin as [k Hk].
      destruct (Ha k (carrier o)) as (c & _ & Hc & Hr & _); [|done|].
      { by apply lookup_lt_Some in Hk. }
      eauto.
  - intros i o q oq Ho Hpo Hoq.
    destruct (decide (i < use_start)) as [Hlt|Hge].
    + destruct (Hout i o Ho Hlt) as (c & Hc & _ & Hs).
      by rewrite Hc, (Hs q oq).
    + destruct (PI i o q Ho) as (Hj & oj & s & os & Hoj & Hpj & Hos & Hcs);
        [lia|done|].
      assert (oj = oq) as -> by congruence.
      destruct (Hout q oq Hoq Hj) as (c & Hc & _ & Hs).
      by rewrite Hc, <- Hcs, (Hs s os).
  - intros k a Hk. destruct (Ha k a) as (c & ? & ? & ? & _); [|done|eauto].
    by apply lookup_lt_Some in Hk.
Qed.

(** The operand loop keeps the partner map closed. *)
Lemma handle_operand_closed ops st op st' :
  partners_closed st → handle_operand ops st op = Ok st' →
  partners_closed st'.
Proof.
  intros Hc H.
  destruct (handle_operand_effect ops st op st' H)
    as (o2 & _ & [[_ ->]|(_ & Hp & _)]); [done|].
  intros a p Ha. rewrite Hp in *. clear Hp.
  destruct o2 as [o|]; simpl in *.
  - destruct (decide (p = carrier o)) as [->|Hne1];
      [rewrite lookup_insert_eq; by eexists|].
    rewrite lookup_insert_ne by done.
    destruct (decide (p = carrier op)) as [->|Hne2];
      [rewrite lookup_insert_eq; by eexists|].
    rewrite lookup_insert_ne by done.
    destruct (decide (a = carrier o)) as [->|Hne3].
    { rewrite lookup_insert_eq in Ha. congruence. }
    rewrite lookup_insert_ne in Ha by done.
    destruct (decide (a = carrier op)) as [->|Hne4].
    { rewrite lookup_insert_eq in Ha. congruence. }
    rewrite lookup_insert_ne in Ha by done. by apply (Hc a).
  - destruct (decide (p = carrier op)) as [->|Hne2];
      [rewrite lookup_insert_eq; by eexists|].
    rewrite lookup_insert_ne by done.
    destruct (decide (a = carrier op)) as [->|Hne4].
    { rewrite lookup_insert_eq in Ha. congruence. }
    rewrite lookup_insert_ne in Ha by done. by apply (Hc a).
Qed.

Lemma handle_operands_closed ops st :
  handle_operands ops = Ok st → partners_closed st.
Proof.
  intros H. unfold Chordal.handle_operands in H.
  apply (foldM_invariant partners_closed (handle_operand ops) ops)
    with (s := ConstrState ∅ [] []); [| |done].
  - intros s x s' _. apply handle_operand_closed.
  - intros a p Ha. simpl in Ha. by rewrite lookup_empty in Ha.
Qed.

End HandleFacts.

(** ** The Projs of the Perm in the matching *)

Section PermUsersFacts.

Import Chordal.
Import ChordalSpec.
Import ChordalConstr.
Import MatchingSpec.

Variable g : ir_graph.
Variable n_regs : nat.
Variable allocatable_regs : bitset_t.
Variable proj_interferes : ir_node → bool.
Variable use_start : nat.

Local Abbreviation handle_operands := (handle_operands n_regs).
Local Abbreviation assign_matching := (assign_matching n_regs).
Local Abbreviation handle_perm_proj :=
  (handle_perm_proj g n_regs allocatable_regs proj_interferes).
Local Abbreviation handle_perm_projs :=
  (handle_perm_projs g n_regs allocatable_regs proj_interferes).
Local Abbreviation left_op := (left_op use_start).
Local Abbreviation paired_operands := (paired_operands use_start).

Lemma perm_users_inv_refl st :
  clean_pairs st → partners_closed st → perm_users_inv st st.
Proof.
  intros Hc Hp. split_and!; try done; [|by left]. exists [].
  by rewrite app_nil_r.
Qed.

Lemma handle_perm_proj_inv st0 st proj st' :
  proj ≠ NULL → perm_users_inv st0 st →
  handle_perm_proj st proj = Ok st' →
  perm_users_inv st0 st'
  ∧ (proj_interferes proj = true → partners st0 !! proj = None →
     proj ∈ alloc_nodes st')
  ∧ (proj ∈ alloc_nodes st → proj ∈ alloc_nodes st')
  ∧ ∀ x, x ∈ alloc_nodes st → x ∈ alloc_nodes st'.
Proof.
  intros Hnull Hinv H. unfold ChordalConstr.handle_perm_proj in H.
  inv_bind H as u Hu. clear u Hu.
  pose proof Hinv as (Hclean & Hclosed & [added Hadd] & Hsame & Hnew).
  destruct (proj_interferes proj) eqn:Hi; simpl in H.
  2:{ inv_Ok H. split; [exact Hinv|]. split; [done|]. by split. }
  unfold pmap_contains in H. case_bool_decide as Hc; simpl in H.
  { inv_Ok H. split; [exact Hinv|]. split; [|by split].
    intros _ Hn. destruct (Hnew proj Hc) as [[v Hv]|?]; [congruence|done]. }
  unfold list_contains_irn in H. case_bool_decide as Hin; simpl in H.
  { inv_Ok H. split; [exact Hinv|]. split; [done|]. by split. }
  inv_bind H as u Hu. clear u Hu. inv_Ok H. simpl.
  assert (Hnone : partners st !! proj = None).
  { destruct (partners st !! proj) eqn:E; [|done]. destruct Hc. by eexists. }
  destruct Hclean as (Hnd & Hnn & Hpairs).
  split; [|split; [|split]].
  - split; [|split; [|split; [|split]]]; simpl.
    + split; [|split]; simpl.
      * apply NoDup_app. split_and!; [done| |apply NoDup_singleton].
        intros x Hx Hx'. apply list_elem_of_singleton in Hx' as ->. done.
      * intros a Ha. apply elem_of_app in Ha as [Ha|Ha]; [by apply Hnn|].
        by apply list_elem_of_singleton in Ha as ->.
      * intros a p Ha Hp. simpl in Ha, Hp.
        assert (Hap : a ≠ proj).
        { intros ->. rewrite lookup_insert_eq in Hp. congruence. }
        rewrite lookup_insert_ne in Hp by done.
        apply elem_of_app in Ha as [Ha|Ha];
          [|by apply list_elem_of_singleton in Ha].
        destruct (Hpairs a p Ha Hp) as [Hp1 Hp2]. split.
        -- intros Hp'. apply elem_of_app in Hp' as [Hp'|Hp']; [done|].
           apply list_elem_of_singleton in Hp' as ->.
           destruct (Hclosed a proj Hp) as [v Hv]. congruence.
        -- intros a' Ha' Hp'.
           assert (Hap' : a' ≠ proj).
           { intros ->. rewrite lookup_insert_eq in Hp'. congruence. }
           rewrite lookup_insert_ne in Hp' by done.
           apply elem_of_app in Ha' as [Ha'|Ha'];
             [|by apply list_elem_of_singleton in Ha'].
           by apply Hp2.
    + intros a p Ha. simpl in Ha |- *.
      assert (Hap : a ≠ proj).
      { intros ->. rewrite lookup_insert_eq in Ha. congruence. }
      rewrite lookup_insert_ne in Ha by done.
      destruct (decide (p = proj)) as [->|Hne];
        [rewrite lookup_insert_eq; by eexists|].
      rewrite lookup_insert_ne by done. by apply (Hclosed a).
    + exists (added ++ [proj]). by rewrite Hadd, app_assoc.
    + intros k Hk. rewrite lookup_insert_ne; [by apply Hsame|].
      intros <-. rewrite <- (Hsame _ Hk) in Hk. destruct Hk as [v Hv].
      congruence.
    + intros k Hk. destruct (decide (k = proj)) as [->|Hne].
      * right. apply elem_of_app. right. by left.
      * rewrite lookup_insert_ne in Hk by done.
        destruct (Hnew k Hk) as [?|?]; [by left|].
        right. apply elem_of_app. by left.
  - intros _ _. apply elem_of_app. right. by left.
  - intros Hp. apply elem_of_app. by left.
  - intros x Hx. apply elem_of_app. by left.
Qed.

(** The loop over the users of the Perm. *)
Lemma handle_perm_projs_loop st0 projs : ∀ st st',
  NULL ∉ projs → perm_users_inv st0 st →
  foldM handle_perm_proj projs st = Ok st' →
  perm_users_inv st0 st'
  ∧ (∀ x, x ∈ alloc_nodes st → x ∈ alloc_nodes st')
  ∧ ∀ proj, proj ∈ projs → proj_interferes proj = true →
            partners st0 !! proj = None → proj ∈ alloc_nodes st'.
Proof.
  induction projs as [|p projs IH]; intros st st' Hnull Hinv H; simpl in H.
  - inv_Ok H. split_and!; [done|done|]. intros proj Hp.
    by apply elem_of_nil in Hp.
  - inv_bind H as st1 H1.
    destruct (handle_perm_proj_inv st0 st p st1) as (Hinv1 & Hp1 & _ & Hmono);
      [|done|done|].
    { intros ->. apply Hnull. by left. }
    destruct (IH st1 st') as (Hinv' & Hmono' & Hrest); [|done|done|].
    { intros Hin. apply Hnull. by right. }
    split_and!; [done| |].
    + intros x Hx. by apply Hmono', Hmono.
    + intros proj Hproj Hi Hn. apply elem_of_cons in Hproj as [->|Hproj].
      * apply Hmono'. by apply Hp1.
      * by apply Hrest.
Qed.

(** X15: For operands paired as pair_up_operands leaves them, when the operand
    loop, the loop over the Projs of the Perm (if there is a Perm; no user of
    it is NULL) and the colouring from the matching all succeed, the value of
    every operand has a register below n_regs, an operand and its partner
    operand have the same register, left node k has the register
    assignment[k], and every Proj of the Perm that lives through the
    instruction and was given no partner entry by the operand loop is a left
    node and has the register the matching assigned to it. *)
Theorem handle_constraints_registers ops perm_users st st2 assignment
    registers registers' :
  paired_operands ops →
  (∀ projs, perm_users = Some projs → NULL ∉ projs) →
  handle_operands ops = Ok st →
  handle_perm_projs perm_users st = Ok st2 →
  assign_matching st2 assignment registers = Ok registers' →
  (∀ o, o ∈ ops → ∃ c, registers' !! carrier o = Some c ∧ c < n_regs)
  ∧ (∀ i o q oq, ops !! i = Some o → partner o = Some q → ops !! q = Some oq →
       registers' !! carrier o = registers' !! carrier oq)
  ∧ (∀ k a, alloc_nodes st2 !! k = Some a →
       ∃ c, assignment !! k = Some (Z.of_nat c) ∧ c < n_regs
            ∧ registers' !! a = Some c)
  ∧ (∀ projs proj, perm_users = Some projs → proj ∈ projs →
       proj_interferes proj = true → partners st !! proj = None →
       ∃ k c, alloc_nodes st2 !! k = Some proj
              ∧ assignment !! k = Some (Z.of_nat c)
              ∧ registers' !! proj = Some c).
Proof.
  intros Hp Hnull H H2 Hm.
  pose proof (handle_operands_closed n_regs ops st H) as Hclosed.
  unfold Chordal.handle_operands in H.
  pose proof (handle_loop n_regs use_start ops (length ops) 0 _ st Hp
                (eq_refl _) (handle_inv_init use_start ops) H) as Hinv.
  pose proof (handle_inv_clean use_start ops st Hp Hinv) as Hclean.
  destruct Hinv as (R1 & R2 & R3 & _).
  assert (Hloop : perm_users_inv st st2
            ∧ (∀ x, x ∈ alloc_nodes st → x ∈ alloc_nodes st2)
            ∧ ∀ projs proj, perm_users = Some projs → proj ∈ projs →
                proj_interferes proj = true → partners st !! proj = None →
                proj ∈ alloc_nodes st2).
  { destruct perm_users as [projs|]; simpl in H2.
    - destruct (handle_perm_projs_loop st projs st st2) as (? & ? & Hr);
        [by apply Hnull | by apply perm_users_inv_refl | done |].
      split_and!; [done|done|]. intros projs' proj [= <-]. by apply Hr.
    - inv_Ok H2. split_and!; [by apply perm_users_inv_refl|done|done]. }
  destruct Hloop as ((Hclean2 & _ & _ & Hsame & _) & Hmono & Hprojs).
  destruct (partner_registers n_regs use_start ops st2 assignment registers
              registers' Hp Hclean2) as (C1 & C2 & C3); [|done|].
  { intros i o Ho Hl.
    assert (Hi : i < length ops) by (by apply lookup_lt_Some in Ho).
    split.
    - apply Hmono, R2. by exists i, o.
    - rewrite Hsame; [by apply (R3 i)|]. rewrite (R3 i o Hi Ho Hl). by eexists. }
  split_and!; [done|done|done|].
  intros projs proj Hu Hin Hi Hn.
  destruct (list_elem_of_lookup_1 _ _ (Hprojs projs proj Hu Hin Hi Hn))
    as [k Hk].
  destruct (C3 k proj Hk) as (c & ? & _ & ?). by exists k, c.
Qed.

End PermUsersFacts.


(** ** The scheduler stays inside its block *)

Section SchedulerLocal.

Import ListSched.
Import ListSchedSpec.
Import LocalSchedSpec.

Variable S : Type.
Variable g : sched_graph.
Variable selector : list_sched_selector_t S.
Variable order : nodeset_order.
Variable block : ir_node.
Variable info0 : list sched_irn_t.

Local Abbreviation env_t := (block_sched_env_t S).
Local Abbreviation M := (M S).
Local Abbreviation ins_or_deps := (ins_or_deps g).
Local Abbreviation hoare := (hoare S).
Local Abbreviation already := (already S).
Local Abbreviation selects_ready := (selects_ready S selector).
Local Abbreviation block_users_local := (block_users_local g block).
Local Abbreviation local_node := (local_node g block).
Local Abbreviation local_inv := (local_inv S g block info0).
Local Abbreviation same_core := (same_core S).
Local Abbreviation core_stable := (core_stable S).

(** *** Steps that leave the core of the environment alone *)

Section Frame.

Variable I : env_t → Prop.
Hypothesis I_stable : core_stable I.

Lemma frame_info_at n :
  hoare I (info_at S n) (λ i env, I env ∧ sched_info env !! n = Some i) I.
Proof.
  unfold info_at. eapply hoare_bind; [apply hoare_get|]. intros env0.
  destruct (sched_info env0 !! n) as [i|] eqn:Hi.
  - apply hoare_ret. intros env [-> HJ]. by split.
  - apply hoare_fail. by intros env [_ HJ].
Qed.

Lemma frame_counter n num env i :
  I env → sched_info env !! n = Some i →
  I (set_sched_info S (<[n := SchedIrn num (already_sched i)]> (sched_info env))
       env).
Proof.
  intros HI Hi. eapply I_stable; [|exact HI]. split_and!; [|done|done].
  intros u. by apply flagged_same_flag.
Qed.

Lemma frame_set_counter n num :
  hoare I (set_irn_not_sched_user S n num) (λ _, I) I.
Proof.
  unfold set_irn_not_sched_user. eapply hoare_bind; [apply frame_info_at|].
  intros i. apply hoare_modify. intros env [HJ Hi]. by apply frame_counter.
Qed.

Lemma frame_add_counter n num :
  hoare I (add_irn_not_sched_user S n num) (λ _, I) I.
Proof.
  unfold add_irn_not_sched_user. eapply hoare_bind; [apply frame_info_at|].
  intros i. eapply hoare_bind.
  - apply (hoare_modify _ _ _ (λ _, I)). intros env [HJ Hi].
    by apply frame_counter.
  - intros ?. by apply hoare_ret.
Qed.

Lemma frame_set_live f :
  hoare I (modify S (λ env, set_live S (f env) env)) (λ _, I) I.
Proof.
  apply hoare_modify. intros env HJ. eapply I_stable; [|exact HJ]. by split_and!.
Qed.

Lemma frame_set_selector_env f :
  hoare I (modify S (λ env, set_selector_env S (f env) env)) (λ _, I) I.
Proof.
  apply hoare_modify. intros env HJ. eapply I_stable; [|exact HJ]. by split_and!.
Qed.

Lemma frame_update_sched_liveness fuel irn :
  hoare I (update_sched_liveness S g fuel irn) (λ _, I) I.
Proof.
  unfold update_sched_liveness. destruct (is_Proj g irn); [by apply hoare_skip|].
  eapply hoare_bind.
  - apply hoare_mfor. intros op _.
    eapply hoare_bind; [apply hoare_get|]. intros env0.
    destruct (ir_nodeset_contains _ _).
    + eapply hoare_bind.
      * eapply hoare_conseq; [apply frame_add_counter | by intros env [_ ?] |].
        intros a env H. exact H.
      * intros n. destruct (n <=? 0)%Z; [apply frame_set_live|].
        by apply hoare_skip.
    + apply hoare_skip. by intros env [_ ?].
  - intros ?. destruct (get_num_successors g fuel irn) as [i|e].
    + destruct (0 <? i)%Z; [|by apply hoare_skip].
      eapply hoare_bind; [apply frame_set_counter|]. intros ?.
      apply frame_set_live.
    + by apply hoare_fail.
Qed.

Lemma frame_operands_scheduled irn ops :
  hoare I (operands_scheduled S g block irn ops) (λ _, I) I.
Proof.
  intros env HJ.
  destruct (operands_scheduled_spec S g block irn ops env) as (r & -> & _).
  by destruct r.
Qed.

Lemma frame_seed_operands ops :
  hoare I (seed_operands S g block ops) (λ _, I) I.
Proof.
  induction ops as [|op rest IH]; simpl; [by apply hoare_ret|].
  case_bool_decide; [by apply hoare_ret|].
  eapply hoare_bind; [apply frame_set_live|]. intros ?. apply IH.
Qed.

End Frame.


(** *** The nodes the scheduler touches are the nodes of the block *)

Lemma local_inv_stable : core_stable local_inv.
Proof.
  intros env env' (Ha & Hc & Hs) (H1 & H2 & H3 & H4).
  unfold LocalSchedSpec.local_inv. rewrite Hc, Hs.
  split_and!; [done|done| |].
  - intros u Hu. by apply H3, Ha.
  - intros u Hu. by apply Ha, H4.
Qed.

Lemma local_set_already_scheduled irn :
  hoare (λ env, local_inv env ∧ local_node irn)
    (set_already_scheduled S irn) (λ _, local_inv) local_inv.
Proof.
  unfold set_already_scheduled. eapply hoare_bind.
  - unfold info_at. eapply hoare_bind; [apply hoare_get|]. intros env0.
    destruct (sched_info env0 !! irn) as [i|] eqn:Hi.
    + apply (hoare_ret _ _ _ (λ i env,
               (local_inv env ∧ local_node irn)
               ∧ sched_info env !! irn = Some i)).
      intros env [-> H]. by split.
    + apply hoare_fail. by intros env [_ [HJ _]].
  - intros i. apply hoare_modify. intros env [[(H1 & H2 & H3 & H4) Hl] Hi].
    split_and!; simpl; [done|done| |].
    + intros u (j & Hj & Ha). destruct (decide (irn = u)) as [->|Hne].
      * by right.
      * simpl in Hj. rewrite list_lookup_insert_ne in Hj by done.
        apply H3. by exists j.
    + intros u Hu. destruct (H4 u Hu) as (j & Hj & Ha).
      unfold ListSchedSpec.already, ListSchedSpec.flagged. simpl.
      destruct (decide (irn = u)) as [->|Hne].
      * rewrite list_lookup_insert_eq by (by eapply lookup_lt_Some). eauto.
      * rewrite list_lookup_insert_ne by done. eauto.
Qed.

(** What [add_to_sched] is asked to add is a node of the block. *)
Local Abbreviation adds_local add :=
  (∀ n, hoare (λ env, local_inv env ∧ local_node n) (add n)
          (λ _, local_inv) local_inv).

Lemma local_make_ready add pred irn :
  adds_local add →
  hoare local_inv (make_ready S g selector block add pred irn)
    (λ _, local_inv) local_inv.
Proof.
  intros Hadd. unfold make_ready.
  destruct (is_Block g irn || _); [by apply hoare_ret|].
  case_bool_decide as Hb; simpl; [|by apply hoare_ret].
  eapply hoare_bind; [apply frame_operands_scheduled|]. intros ok.
  destruct ok; simpl; [|by apply hoare_ret].
  eapply hoare_bind with (Q := λ _, local_inv); [|by intros; apply hoare_ret].
  destruct (to_appear_in_schedule g irn) eqn:Happ; simpl.
  - eapply hoare_bind with (Q := λ _, local_inv).
    + apply hoare_modify. intros env (H1 & H2 & H3 & H4).
      split_and!; simpl; [|done|done|done].
      intros n Hn. unfold ir_nodeset_insert in Hn. case_bool_decide.
      * by apply H1.
      * apply elem_of_app in Hn as [Hn|Hn]; [by apply H1|].
        apply list_elem_of_singleton in Hn. by subst.
    + intros ?. apply (frame_set_selector_env _ local_inv_stable).
  - eapply hoare_conseq; [apply (Hadd irn)| |done].
    intros env HJ. by split.
Qed.

Lemma local_make_users_ready add irn :
  adds_local add →
  hoare local_inv (make_users_ready S g selector block add irn)
    (λ _, local_inv) local_inv.
Proof.
  intros Hadd. unfold make_users_ready.
  assert (Huser : ∀ user,
            hoare local_inv
              (if negb (is_Phi g user)
               then _ ← make_ready S g selector block add irn user; skip S
               else skip S)
              (λ _, local_inv) local_inv).
  { intros user. destruct (negb _); [|by apply hoare_skip].
    eapply hoare_bind; [by apply local_make_ready|]. intros ?.
    by apply hoare_skip. }
  eapply hoare_bind; [apply hoare_mfor; intros; apply Huser|].
  intros ?. apply hoare_mfor; intros; apply Huser.
Qed.

Lemma local_add_to_sched fuel :
  adds_local (add_to_sched S g selector block fuel).
Proof.
  induction fuel as [|fuel IH]; intros irn.
  { apply hoare_fail. by intros env [HJ _]. }
  simpl.
  eapply hoare_bind with (Q := λ _ env, local_inv env ∧ local_node irn).
  { destruct (to_appear_in_schedule g irn) eqn:Happ.
    - eapply hoare_bind with (Q := λ _ env, local_inv env ∧ local_node irn).
      { intros env [HJ Hl].
        pose proof (frame_update_sched_liveness local_inv local_inv_stable
                      fuel irn env HJ) as H.
        destruct (update_sched_liveness S g fuel irn env) as [[a|e] env'];
          [by split | done]. }
      intros ?. eapply hoare_bind with
        (Q := λ _ env, local_inv env ∧ local_node irn).
      + apply hoare_modify. intros env [(H1 & H2 & H3 & H4) Hl].
        split; [|done]. split_and!; simpl; [done| |done|done].
        intros n [Hn|Hn]%elem_of_app; [by apply H2|].
        apply list_elem_of_singleton in Hn. by subst.
      + intros ?. apply hoare_modify. intros env [(H1 & H2 & H3 & H4) Hl].
        split; [|done]. split_and!; simpl; [|done|done|done].
        intros n Hn. unfold ir_nodeset_remove in Hn.
        apply list_elem_of_filter in Hn as [_ Hn]. by apply H1.
    - by apply hoare_skip. }
  intros ?. eapply hoare_bind with
    (Q := λ _ env, local_inv env ∧ local_node irn).
  { apply hoare_modify. intros env [HJ Hl]. split; [|done].
    eapply local_inv_stable; [|exact HJ]. by split_and!. }
  intros ?. eapply hoare_bind; [apply local_set_already_scheduled|].
  intros ?. by apply local_make_users_ready.
Qed.

Lemma local_seed fuel irn :
  (is_Phi g irn = true ∨ be_is_Start g irn = true → local_node irn) →
  hoare local_inv (seed S g selector block fuel irn) (λ _, local_inv) local_inv.
Proof.
  intros Hl. unfold seed. destruct (is_End g irn); [by apply hoare_skip|].
  case_bool_decide; [by apply hoare_skip|].
  destruct (bool_decide _ && _); [by apply hoare_skip|].
  destruct (is_Phi g irn) eqn:Hphi.
  { eapply hoare_conseq; [apply (local_add_to_sched fuel irn)| |done].
    intros env HJ. split; [done|]. apply Hl. by left. }
  destruct (be_is_Start g irn) eqn:Hstart.
  { eapply hoare_conseq; [apply (local_add_to_sched fuel irn)| |done].
    intros env HJ. split; [done|]. apply Hl. by right. }
  eapply hoare_bind; [apply (frame_seed_operands _ local_inv_stable)|]. intros ready.
  destruct ready; [|by apply hoare_skip].
  eapply hoare_bind; [apply local_make_ready, local_add_to_sched|].
  intros ?. by apply hoare_skip.
Qed.

Lemma local_pick :
  selects_ready →
  hoare (λ env, local_inv env ∧ cands env ≠ [])
    (pick S g selector order)
    (λ irn env, local_inv env ∧ irn ∈ cands env) local_inv.
Proof.
  intros Hsel. unfold pick. eapply hoare_bind; [apply hoare_get|]. intros env0.
  destruct (list_find _ _) as [[i irn]|] eqn:Hfind.
  - apply hoare_ret. intros env [-> [HJ Hne]]. split; [done|].
    apply list_find_Some in Hfind as (Hi & _).
    apply (iterate_members order). by eapply list_elem_of_lookup_2.
  - eapply hoare_bind with
      (Q := λ _ env, local_inv env
                     ∧ (select selector (selector_block_env env0) (cands env0)
                          (live env0)).1 ∈ cands env).
    + apply hoare_modify. intros env [-> [HJ Hne]]. split.
      * eapply local_inv_stable; [|exact HJ]. by split_and!.
      * simpl. by apply Hsel.
    + intros ?. by apply hoare_ret.
Qed.

Lemma local_sched_loop fuel :
  selects_ready →
  hoare local_inv (sched_loop S g selector order block fuel)
    (λ _, local_inv) local_inv.
Proof.
  intros Hsel. induction fuel as [|fuel IH]; simpl; [by apply hoare_fail|].
  eapply hoare_bind; [apply hoare_get|]. intros env0.
  case_bool_decide as Hc.
  { apply hoare_skip. by intros env [_ ?]. }
  eapply hoare_bind.
  { eapply hoare_conseq; [apply (local_pick Hsel)| |].
    - intros env [-> HJ]. by split.
    - intros a env H. exact H. }
  intros irn. eapply hoare_bind.
  { eapply hoare_conseq; [apply (local_add_to_sched fuel irn)| |].
    - intros env [HJ Hin]. split; [done|].
      destruct HJ as (H1 & _). by apply H1.
    - intros a env H. exact H. }
  intros ?. eapply hoare_bind; [|intros ?; apply IH].
  apply hoare_modify. intros env (H1 & H2 & H3 & H4).
  split_and!; simpl; [|done|done|done].
  intros n Hn. unfold ir_nodeset_remove in Hn.
  apply list_elem_of_filter in Hn as [_ Hn]. by apply H1.
Qed.

Lemma list_sched_block_local_inv fuel s0 :
  selects_ready → block_users_local →
  local_inv (list_sched_block S g selector order block fuel info0 s0).2.
Proof.
  intros Hsel Hloc. unfold list_sched_block.
  set (env0 := BlockEnv info0 [] [] [] s0).
  assert (H0 : local_inv env0).
  { split_and!; simpl.
    - intros n Hn. by apply elem_of_nil in Hn.
    - intros n Hn. by apply elem_of_nil in Hn.
    - intros u Hu. by left.
    - done. }
  assert (H : hoare local_inv
                (_ ← mfor S (seed S g selector block fuel) (out_edges g block);
                 sched_loop S g selector order block fuel)
                (λ _, local_inv) local_inv).
  { eapply hoare_bind.
    - apply hoare_mfor. intros irn Hirn. apply local_seed. by apply Hloc.
    - intros ?. by apply local_sched_loop. }
  specialize (H env0 H0).
  by destruct ((_ ← mfor S (seed S g selector block fuel) (out_edges g block);
             sched_loop S g selector order block fuel) env0)
    as [[a|e] env'].
Qed.

(** X16: If select always returns a member of the ready set and the Phis and
    the Start node among the users of the block node belong to the block, then
    whatever list_sched_block puts into the schedule or the ready set is a
    node of this block that appears in schedules, it marks only nodes of this
    block as scheduled, and it never clears a mark that was set before the
    block (also when it fails). *)
Theorem list_sched_block_local fuel s0 :
  selects_ready → block_users_local →
  let env := (list_sched_block S g selector order block fuel info0 s0).2 in
  (∀ n, n ∈ schedule env →
        get_nodes_block g n = block ∧ to_appear_in_schedule g n = true)
  ∧ (∀ n, n ∈ cands env →
          get_nodes_block g n = block ∧ to_appear_in_schedule g n = true)
  ∧ (∀ u, already env u → flagged info0 u ∨ get_nodes_block g u = block)
  ∧ (∀ u, flagged info0 u → already env u).
Proof.
  intros Hsel Hloc env.
  destruct (list_sched_block_local_inv fuel s0 Hsel Hloc) as (H1 & H2 & H3 & H4).
  by split_and!.
Qed.

End SchedulerLocal.

Section SchedulerGraph.

Import ListSched.
Import ListSchedSpec.
Import ListSchedGraph.
Import LocalSchedSpec.

Variable S : Type.
Variable g : sched_graph.
Variable selector : list_sched_selector_t S.
Variable order : nodeset_order.
Variable init_graph : S.
Variable init_block : S → ir_node → S.
Variable finish_block : S → S.

Local Abbreviation sched_blocks :=
  (sched_blocks S g selector order init_block finish_block).
Local Abbreviation be_list_sched_graph :=
  (be_list_sched_graph S g selector order init_graph init_block finish_block).
Local Abbreviation selects_ready := (selects_ready S selector).

(** What the invariant of a block says about its schedule when no operand of
    the block was marked on entry. *)
Lemma sched_inv_before block info0 (env : block_sched_env_t S) :
  sched_inv S g block info0 env →
  start_without_operands g block →
  (∀ u, get_nodes_block g u = block → ¬ flagged info0 u) →
  ∀ i n u, schedule env !! i = Some n → is_Phi g n = false →
           local_operand g block n u → to_appear_in_schedule g u = true →
           ∃ j, j < i ∧ schedule env !! j = Some u.
Proof.
  intros (_ & _ & H3) Hstart Hnf i n u Hi Hphi Hu Happ.
  assert (Hin : u ∈ take i (schedule env)).
  { destruct (be_is_Start g n) eqn:Hs; [by destruct (Hstart n u)|].
    destruct (H3 (take i (schedule env)) n (drop (Datatypes.S i) (schedule env)) u)
      as [Hf|[?|?]]; [|done|done|done| |congruence|done].
    - symmetry. by apply take_drop_middle.
    - exfalso. apply (Hnf u); [|done]. by destruct Hu as (_ & _ & ?). }
  apply elem_of_take in Hin as (j & Hj & Hlt). eauto.
Qed.

Lemma sched_blocks_spec fuel blocks :
  ∀ (done_ : list ir_node) sel info scheds info',
  selects_ready → NoDup blocks →
  (∀ b, b ∈ blocks → b ∉ done_) →
  (∀ b, b ∈ blocks → block_users_local g b ∧ start_without_operands g b) →
  (∀ u, flagged info u → get_nodes_block g u ∈ done_) →
  sched_blocks fuel blocks sel info = (Ok scheds, info') →
  scheds.*1 = blocks
  ∧ ∀ b sch, (b, sch) ∈ scheds →
      (∀ n, n ∈ sch →
            get_nodes_block g n = b ∧ to_appear_in_schedule g n = true)
      ∧ ∀ i n u, sch !! i = Some n → is_Phi g n = false →
                 local_operand g b n u → to_appear_in_schedule g u = true →
                 ∃ j, j < i ∧ sch !! j = Some u.
Proof.
  induction blocks as [|b blocks IH];
    intros done_ sel info scheds info' Hsel Hnd Hnew Hgraph Hflag H; simpl in H.
  { injection H as <- <-. split; [done|]. intros b sch Hin.
    by apply elem_of_nil in Hin. }
  apply NoDup_cons in Hnd as [Hb Hnd].
  destruct (Hgraph b) as [Hloc Hstart]; [by left|].
  pose proof (list_sched_block_inv S g selector order b info fuel
                (init_block sel b) Hsel) as Hinv.
  pose proof (list_sched_block_local_inv S g selector order b info fuel
                (init_block sel b) Hsel Hloc) as (_ & L2 & L3 & _).
  destruct (list_sched_block S g selector order b fuel info (init_block sel b))
    as [[[]|e] env]; [|done]. simpl in Hinv, L2, L3.
  destruct (sched_blocks fuel blocks (finish_block (selector_block_env env))
              (sched_info env)) as [[scheds1|e] info1]
    eqn:Hrest; [|done].
  injection H as <- <-.
  assert (Hnew' : ∀ b', b' ∈ blocks → b' ∉ b :: done_).
  { intros b' Hb' [->|Hd]%elem_of_cons; [done|].
    apply (Hnew b'); [by right | done]. }
  assert (Hgraph' : ∀ b', b' ∈ blocks →
            block_users_local g b' ∧ start_without_operands g b').
  { intros b' Hb'. apply Hgraph. by right. }
  assert (Hflag' : ∀ u, flagged (sched_info env) u →
            get_nodes_block g u ∈ b :: done_).
  { intros u Hu. apply elem_of_cons. destruct (L3 u Hu) as [Hf|Hl].
    - right. by apply Hflag.
    - left. exact Hl. }
  destruct (IH (b :: done_) _ (sched_info env) scheds1 info1 Hsel Hnd Hnew'
              Hgraph' Hflag' Hrest) as [IH1 IH2].
  split; [rewrite fmap_cons; simpl; by rewrite IH1|].
  intros b' sch [[= -> ->]|Hin]%elem_of_cons; [|by apply IH2].
  split; [done|].
  apply (sched_inv_before b info env Hinv Hstart).
  intros u Hu Hf. apply (Hnew b); [by left|]. rewrite <- Hu. by apply Hflag.
Qed.

(** X17: When be_list_sched_graph succeeds on blocks visited once each (with a
    selector that picks from the ready set, Phi and Start users of a block
    node inside the block, and no same-block operand of Start), it yields one
    schedule per block in walk order; every scheduled node belongs to its
    block, and every scheduled instruction other than a Phi comes after each
    of its same-block operands that appears in schedules, although the
    already-scheduled marks are shared by all blocks. *)
Theorem be_list_sched_graph_respects_dag fuel num_nodes blocks scheds :
  selects_ready → NoDup blocks →
  (∀ b, b ∈ blocks → block_users_local g b ∧ start_without_operands g b) →
  be_list_sched_graph fuel num_nodes blocks = Ok scheds →
  scheds.*1 = blocks
  ∧ ∀ b sch, (b, sch) ∈ scheds →
      (∀ n, n ∈ sch →
            get_nodes_block g n = b ∧ to_appear_in_schedule g n = true)
      ∧ ∀ i n u, sch !! i = Some n → is_Phi g n = false →
                 local_operand g b n u → to_appear_in_schedule g u = true →
                 ∃ j, j < i ∧ sch !! j = Some u.
Proof.
  intros Hsel Hnd Hgraph H. unfold ListSchedGraph.be_list_sched_graph in H.
  destruct (sched_blocks fuel blocks init_graph
              (replicate num_nodes (SchedIrn 0 false)))
    as [r info'] eqn:Hr. simpl in H. subst r.
  apply (sched_blocks_spec fuel blocks [] init_graph
           (replicate num_nodes (SchedIrn 0 false)) scheds info' Hsel Hnd); [| | |exact Hr].
  - intros b _ Hb. by apply elem_of_nil in Hb.
  - done.
  - intros u (i & Hi & Ha). apply lookup_replicate in Hi as [-> _]. done.
Qed.

End SchedulerGraph.

(** ** Backend nodes: requirements *)

Section BeNodeReqs.

Import BeNode.
Import BeNodeSpec.

Variable arch_register_req_t : Type.
Variable arch_no_register_req : arch_register_req_t.
Variable arch_register_class_t : Type.
Variable class_req : arch_register_class_t → arch_register_req_t.

Local Abbreviation be_node := (be_node arch_register_req_t).
Local Abbreviation opcode := (opcode arch_register_req_t).
Local Abbreviation node_in := (node_in arch_register_req_t).
Local Abbreviation reg_data := (reg_data arch_register_req_t).
Local Abbreviation out_infos := (out_infos arch_register_req_t).
Local Abbreviation attr := (attr arch_register_req_t).
Local Abbreviation get_irn_arity := (get_irn_arity arch_register_req_t).
Local Abbreviation get_irn_n := (get_irn_n arch_register_req_t).
Local Abbreviation be_set_constr_in := (be_set_constr_in arch_register_req_t).
Local Abbreviation be_set_constr_out := (be_set_constr_out arch_register_req_t).
Local Abbreviation be_node_get_in_reg_req :=
  (be_node_get_in_reg_req arch_register_req_t arch_no_register_req).
Local Abbreviation be_node_get_out_reg_req :=
  (be_node_get_out_reg_req arch_register_req_t).
Local Abbreviation init_node_attr :=
  (init_node_attr arch_register_req_t arch_no_register_req).
Local Abbreviation be_new_Perm :=
  (be_new_Perm arch_register_req_t arch_no_register_req arch_register_class_t
     class_req).
Local Abbreviation perm_set_classes :=
  (perm_set_classes arch_register_req_t arch_register_class_t class_req).
Local Abbreviation be_Perm_reduce := (be_Perm_reduce arch_register_req_t).
Local Abbreviation be_Keep_add_node :=
  (be_Keep_add_node arch_register_req_t arch_no_register_req
     arch_register_class_t class_req).
Local Abbreviation be_new_Return :=
  (be_new_Return arch_register_req_t arch_no_register_req).
Local Abbreviation be_Return_append_node :=
  (be_Return_append_node arch_register_req_t arch_no_register_req).
Local Abbreviation add_inputs :=
  (add_inputs arch_register_req_t arch_no_register_req).

(** The requirement of input [pos], read off the two arrays. *)
Lemma in_reg_req_lookup (n : be_node) (pos : nat) :
  be_node_get_in_reg_req n (Z.of_nat pos)
  = Ok (if bool_decide (pos < get_irn_arity n)
        then default arch_no_register_req (reg_data n !! pos)
        else arch_no_register_req).
Proof.
  unfold BeNode.be_node_get_in_reg_req.
  rewrite (bool_decide_eq_true_2 (0 ≤ Z.of_nat pos)%Z) by lia. simpl.
  destruct (decide (pos < get_irn_arity n)) as [Ha|Ha].
  - rewrite (bool_decide_eq_true_2 (pos < _)) by done.
    rewrite (bool_decide_eq_false_2 (Z.of_nat (get_irn_arity n) ≤ _)%Z) by lia.
    simpl. destruct (decide (pos < length (reg_data n))) as [Hl|Hl].
    + rewrite bool_decide_eq_false_2 by lia. rewrite Nat2Z.id.
      destruct (reg_data n !! pos) eqn:Hr; [done|].
      apply lookup_ge_None in Hr. lia.
    + rewrite bool_decide_eq_true_2 by lia.
      rewrite lookup_ge_None_2 by lia. done.
  - rewrite (bool_decide_eq_false_2 (pos < _)) by done.
    rewrite (bool_decide_eq_true_2 (Z.of_nat (get_irn_arity n) ≤ _)%Z) by lia.
    done.
Qed.

Lemma in_reg_req_negative (n : be_node) (pos : Z) :
  (pos < 0)%Z → be_node_get_in_reg_req n pos = Err assert_failed.
Proof.
  intros H. unfold BeNode.be_node_get_in_reg_req.
  rewrite (bool_decide_eq_false_2 (0 ≤ pos)%Z) by lia. done.
Qed.

(** Two nodes with the same inputs and the same requirements on their inputs
    answer the same. *)
Lemma in_reg_req_ext (n n' : be_node) (pos : Z) :
  length (node_in n') = length (node_in n) →
  (∀ i, i < length (node_in n) → reg_data n' !! i = reg_data n !! i) →
  be_node_get_in_reg_req n' pos = be_node_get_in_reg_req n pos.
Proof.
  intros Hlen Hreq. destruct (decide (pos < 0)%Z) as [Hneg|Hpos].
  - by rewrite !in_reg_req_negative.
  - rewrite <- (Z2Nat.id pos) by lia. rewrite !in_reg_req_lookup.
    unfold BeNode.get_irn_arity. rewrite Hlen.
    case_bool_decide; [|done]. by rewrite Hreq.
Qed.

Lemma be_set_constr_in_Ok (node : be_node) (pos : nat) req :
  pos < length (reg_data node) →
  be_set_constr_in node (Z.of_nat pos) req
  = Ok (set_reg_data _ (<[pos := req]> (reg_data node)) node).
Proof.
  intros H. unfold BeNode.be_set_constr_in.
  rewrite (bool_decide_eq_true_2 (_ < _)%Z) by lia. simpl.
  rewrite (bool_decide_eq_true_2 (0 ≤ _)%Z) by lia. by rewrite Nat2Z.id.
Qed.

Lemma be_set_constr_out_Ok (node : be_node) (pos : nat) req :
  pos < length (out_infos node) →
  be_set_constr_out node (Z.of_nat pos) req
  = Ok (set_out_infos _ (alter (set_out_req _ req) pos (out_infos node)) node).
Proof.
  intros H. unfold BeNode.be_set_constr_out.
  rewrite bool_decide_eq_true_2 by lia. by rewrite Nat2Z.id.
Qed.

(** X18: For pos >= 0, be_set_constr_in fails by its assertion exactly when
    pos >= ARR_LEN(reg_data); for a negative pos it never succeeds. For 0 <=
    pos < ARR_LEN it succeeds, and be_node_get_in_reg_req then returns the
    stored requirement at pos if pos is below the arity and
    arch_no_register_req otherwise; the requirement of every other position,
    the inputs, the output infos, the opcode and the attribute are unchanged. *)
Theorem be_set_constr_in_read_back (node : be_node) (pos : Z) req :
  ((0 ≤ pos)%Z →
   (be_set_constr_in node pos req = Err assert_failed
    ↔ (Z.of_nat (length (reg_data node)) ≤ pos)%Z))
  ∧ ((pos < 0)%Z → ¬ is_Ok (be_set_constr_in node pos req))
  ∧ ((0 ≤ pos < Z.of_nat (length (reg_data node)))%Z →
     ∃ node', be_set_constr_in node pos req = Ok node'
       ∧ be_node_get_in_reg_req node' pos
         = Ok (if bool_decide (pos < Z.of_nat (get_irn_arity node))%Z
               then req else arch_no_register_req)
       ∧ (∀ p, p ≠ pos →
               be_node_get_in_reg_req node' p = be_node_get_in_reg_req node p)
       ∧ node_in node' = node_in node ∧ out_infos node' = out_infos node
       ∧ opcode node' = opcode node ∧ attr node' = attr node
       ∧ length (reg_data node') = length (reg_data node)).
Proof.
  split_and!.
  - intros H0. unfold BeNode.be_set_constr_in.
    destruct (decide (pos < Z.of_nat (length (reg_data node)))%Z) as [Hlt|Hge].
    + rewrite (bool_decide_eq_true_2 (_ < _)%Z) by done. simpl.
      split; [|lia]. by case_bool_decide.
    + rewrite (bool_decide_eq_false_2 (_ < _)%Z) by done. simpl.
      split; [lia|done].
  - intros Hneg [node' H]. unfold BeNode.be_set_constr_in in H.
    destruct (bool_decide (pos < _)%Z); simpl in H; [|done].
    by rewrite (bool_decide_eq_false_2 (0 ≤ pos)%Z) in H by lia.
  - intros [H0 Hlt]. rewrite <- (Z2Nat.id pos) by lia.
    set (k := Z.to_nat pos). assert (Hk : k < length (reg_data node)) by lia.
    rewrite be_set_constr_in_Ok by done. eexists. split; [done|].
    split_and!; try done.
    + rewrite in_reg_req_lookup. simpl. unfold BeNode.get_irn_arity. simpl.
      destruct (decide (k < length (node_in node))).
      * rewrite !bool_decide_eq_true_2 by lia.
        by rewrite list_lookup_insert_eq.
      * by rewrite !bool_decide_eq_false_2 by lia.
    + intros p Hp. destruct (decide (p < 0)%Z) as [Hneg|Hpos].
      * by rewrite !in_reg_req_negative.
      * rewrite <- (Z2Nat.id p) by lia. rewrite !in_reg_req_lookup.
        unfold BeNode.get_irn_arity. simpl.
        rewrite list_lookup_insert_ne; [done|]. lia.
    + simpl. by rewrite length_insert.
Qed.

Lemma replicate_snoc_cons {A} (x : A) k r :
  replicate k x ++ x :: r = replicate (S k) x ++ r.
Proof. by rewrite replicate_S_end, <- app_assoc. Qed.

(** The loop of [be_new_Perm] after [k] rounds. *)
Lemma perm_classes_loop cls (irn : be_node) n k :
  k ≤ n →
  reg_data irn = replicate n arch_no_register_req →
  out_infos irn = replicate n (OutInfo _ None arch_no_register_req) →
  foldM (perm_set_classes cls) (seq 0 k) irn
  = Ok (Node _ (opcode irn) (node_in irn)
          (replicate k (class_req cls) ++ replicate (n - k) arch_no_register_req)
          (replicate k (OutInfo _ None (class_req cls))
           ++ replicate (n - k) (OutInfo _ None arch_no_register_req))
          (attr irn)).
Proof.
  intros Hk Hr Ho. induction k as [|k IH].
  - simpl. rewrite Nat.sub_0_r, <- Hr, <- Ho. by destruct irn.
  - rewrite seq_S, foldM_app, IH by lia. simpl.
    unfold BeNode.perm_set_classes, BeNode.be_node_set_reg_class_in,
      BeNode.be_node_set_reg_class_out.
    rewrite be_set_constr_in_Ok
      by (simpl; rewrite length_app, !length_replicate; lia).
    simpl. rewrite be_set_constr_out_Ok
      by (simpl; rewrite length_app, !length_replicate; lia).
    unfold BeNode.set_out_infos, BeNode.set_reg_data.
    cbn [BeNode.opcode BeNode.node_in BeNode.reg_data BeNode.out_infos
         BeNode.attr].
    replace (n - k) with (S (n - S k)) by lia.
    rewrite insert_app_r_alt by (rewrite length_replicate; lia).
    rewrite alter_app_r_alt by (rewrite length_replicate; lia).
    rewrite !length_replicate, !Nat.sub_diag.
    cbn [replicate insert list_insert alter list_alter].
    by rewrite !replicate_snoc_cons.
Qed.

(** X19: be_new_Perm(cls, n, in) with n inputs available succeeds with a Perm
    whose inputs are the first n nodes of in; every input i < n and every
    output i < n has the requirement cls->class_req, no output has a register
    yet, and asking for the requirement of an input at or beyond n gives
    arch_no_register_req. *)
Theorem be_new_Perm_requirements cls n ins :
  n ≤ length ins →
  ∃ irn, be_new_Perm cls n ins = Ok irn
    ∧ opcode irn = beo_Perm ∧ node_in irn = take n ins
    ∧ attr irn = attr_node
    ∧ length (reg_data irn) = n ∧ length (out_infos irn) = n
    ∧ (∀ i, i < n →
         be_node_get_in_reg_req irn (Z.of_nat i) = Ok (class_req cls)
         ∧ be_node_get_out_reg_req irn (Z.of_nat i) = Ok (class_req cls)
         ∧ out_reg _ <$> out_infos irn !! i = Some None)
    ∧ (∀ i, n ≤ i →
         be_node_get_in_reg_req irn (Z.of_nat i) = Ok arch_no_register_req).
Proof.
  intros Hn. unfold BeNode.be_new_Perm.
  rewrite bool_decide_eq_true_2 by done. simpl.
  rewrite (perm_classes_loop cls _ n n); [|done| |].
  2:{ simpl. rewrite bool_decide_eq_true_2 by lia. by rewrite Nat2Z.id. }
  2:{ simpl. rewrite bool_decide_eq_true_2 by lia. by rewrite Nat2Z.id. }
  simpl. rewrite Nat.sub_diag. simpl. rewrite !app_nil_r.
  eexists. split; [done|]. simpl.
  split_and!; try done; try apply length_replicate.
  - intros i Hi. split_and!.
    + rewrite in_reg_req_lookup. unfold BeNode.get_irn_arity. simpl.
      rewrite length_take, bool_decide_eq_true_2 by lia.
      by rewrite lookup_replicate_2.
    + unfold BeNode.be_node_get_out_reg_req. simpl.
      rewrite length_replicate.
      rewrite (bool_decide_eq_true_2 (_ < _)%Z) by lia. simpl.
      rewrite (bool_decide_eq_true_2 (0 ≤ _)%Z) by lia.
      by rewrite Nat2Z.id, lookup_replicate_2.
    + by rewrite lookup_replicate_2.
  - intros i Hi. rewrite in_reg_req_lookup. unfold BeNode.get_irn_arity. simpl.
    by rewrite length_take, bool_decide_eq_false_2 by lia.
Qed.

(** The loop of [be_Perm_reduce] after [k] rounds. *)
Lemma perm_reduce_loop (perm : be_node) (map : list Z) k :
  get_irn_arity perm ≤ length (reg_data perm) →
  get_irn_arity perm ≤ length (out_infos perm) →
  k ≤ get_irn_arity perm →
  (∀ i, i < k → ∃ idx, map !! i = Some idx
                       ∧ (0 ≤ idx < Z.of_nat (get_irn_arity perm))%Z) →
  ∃ st, foldM (perm_reduce_step _ perm map
                 (take (get_irn_arity perm) (reg_data perm))
                 (take (get_irn_arity perm) (out_infos perm)))
          (seq 0 k) ([], perm) = Ok st
    ∧ length st.1 = k
    ∧ opcode st.2 = opcode perm ∧ node_in st.2 = node_in perm
    ∧ attr st.2 = attr perm
    ∧ length (reg_data st.2) = length (reg_data perm)
    ∧ length (out_infos st.2) = length (out_infos perm)
    ∧ (∀ i idx, i < k → map !! i = Some idx →
         st.1 !! i = node_in perm !! Z.to_nat idx
         ∧ reg_data st.2 !! i = reg_data perm !! Z.to_nat idx
         ∧ out_infos st.2 !! i = out_infos perm !! Z.to_nat idx)
    ∧ (∀ i, k ≤ i → reg_data st.2 !! i = reg_data perm !! i
                    ∧ out_infos st.2 !! i = out_infos perm !! i).
Proof.
  intros Hr Ho Hk Hmap. induction k as [|k IH].
  - exists ([], perm). simpl. split_and!; try done. intros; lia.
  - destruct IH as (st & Hst & Hlen & Hop & Hin & Hat & Hlr & Hlo & Hlow & Hhigh);
      [lia | intros; apply Hmap; lia |].
    rewrite seq_S, foldM_app, Hst. simpl.
    destruct (Hmap k) as (idx & Hidx & Hrange); [lia|].
    unfold BeNode.perm_reduce_step. rewrite Hidx.
    unfold BeNode.get_irn_n. rewrite bool_decide_eq_true_2 by lia.
    unfold BeNode.get_irn_arity in *.
    destruct (node_in perm !! Z.to_nat idx) as [op|] eqn:Eop.
    2:{ apply lookup_ge_None in Eop. lia. }
    simpl.
    destruct (lookup_lt_is_Some_2 (take (length (node_in perm)) (reg_data perm))
                (Z.to_nat idx)) as [rd Erd]; [rewrite length_take; lia|].
    destruct (lookup_lt_is_Some_2 (take (length (node_in perm)) (out_infos perm))
                (Z.to_nat idx)) as [oi Eoi]; [rewrite length_take; lia|].
    rewrite Erd, Eoi.
    rewrite lookup_take_lt in Erd by lia. rewrite lookup_take_lt in Eoi by lia.
    rewrite !bool_decide_eq_true_2 by lia. simpl.
    eexists. split; [done|]. simpl.
    split_and!; try done.
    + rewrite length_app, Hlen. simpl. lia.
    + by rewrite length_insert.
    + by rewrite length_insert.
    + intros i idx' Hi Hidx'. destruct (decide (i = k)) as [->|Hne].
      * assert (idx' = idx) as -> by congruence.
        rewrite lookup_app_r by lia. rewrite Hlen, Nat.sub_diag. simpl.
        rewrite !list_lookup_insert_eq by lia. by rewrite Eop, Erd, Eoi.
      * rewrite lookup_app_l by lia.
        rewrite !list_lookup_insert_ne by done. apply Hlow; [lia | done].
    + intros i Hi. rewrite !list_lookup_insert_ne by lia. apply Hhigh. lia.
Qed.

(** X20: For a Perm whose requirement arrays cover its inputs, 0 <= new_size
    <= arity and a map whose first new_size entries are input positions,
    be_Perm_reduce succeeds: the new arity is new_size and input i, its
    requirement and output info i are those of old position map[i] (also when
    map overwrites positions it reads later, because the old arrays are saved
    first). The two arrays keep their length: input requirements at or beyond
    new_size read as arch_no_register_req, while the output infos there stay
    as they were. *)
Theorem be_Perm_reduce_gathers (perm : be_node) (new_size : Z) (map : list Z) :
  be_is_Perm _ perm = true →
  (0 ≤ new_size ≤ Z.of_nat (get_irn_arity perm))%Z →
  get_irn_arity perm ≤ length (reg_data perm) →
  get_irn_arity perm ≤ length (out_infos perm) →
  (∀ i, i < Z.to_nat new_size →
        ∃ idx, map !! i = Some idx
               ∧ (0 ≤ idx < Z.of_nat (get_irn_arity perm))%Z) →
  ∃ perm', be_Perm_reduce perm new_size map = Ok perm'
    ∧ opcode perm' = opcode perm ∧ attr perm' = attr perm
    ∧ get_irn_arity perm' = Z.to_nat new_size
    ∧ length (reg_data perm') = length (reg_data perm)
    ∧ length (out_infos perm') = length (out_infos perm)
    ∧ (∀ i idx, i < Z.to_nat new_size → map !! i = Some idx →
         get_irn_n perm' (Z.of_nat i) = get_irn_n perm idx
         ∧ be_node_get_in_reg_req perm' (Z.of_nat i)
           = be_node_get_in_reg_req perm idx
         ∧ out_infos perm' !! i = out_infos perm !! Z.to_nat idx)
    ∧ (∀ i, Z.to_nat new_size ≤ i →
         be_node_get_in_reg_req perm' (Z.of_nat i) = Ok arch_no_register_req
         ∧ out_infos perm' !! i = out_infos perm !! i).
Proof.
  intros Hperm Hsize Hr Ho Hmap. unfold BeNode.be_Perm_reduce.
  rewrite Hperm. simpl.
  rewrite (bool_decide_eq_true_2 (new_size ≤ _)%Z) by lia. simpl.
  rewrite !bool_decide_eq_true_2 by done. simpl.
  destruct (perm_reduce_loop perm map (Z.to_nat new_size) Hr Ho)
    as (st & -> & Hlen & Hop & Hin & Hat & Hlr & Hlo & Hlow & Hhigh);
    [lia | done |].
  simpl. unfold BeNode.set_irn_in.
  rewrite !bool_decide_eq_true_2 by lia. simpl.
  eexists. split; [done|].
  unfold BeNode.get_irn_arity. simpl.
  rewrite firstn_all2 by lia.
  split_and!; try done.
  - intros i idx Hi Hidx.
    destruct (Hmap i Hi) as (idx' & Hidx' & Hrange).
    assert (idx' = idx) as -> by congruence.
    destruct (Hlow i idx Hi Hidx) as (L1 & L2 & L3).
    split_and!; [| |done].
    + unfold BeNode.get_irn_n. simpl.
      rewrite !bool_decide_eq_true_2 by lia. by rewrite Nat2Z.id, L1.
    + rewrite <- (Z2Nat.id idx) by lia. rewrite !in_reg_req_lookup.
      unfold BeNode.get_irn_arity in *. simpl.
      rewrite !bool_decide_eq_true_2 by lia. by rewrite L2.
  - intros i Hi. split; [|by apply Hhigh].
    rewrite in_reg_req_lookup. unfold BeNode.get_irn_arity. simpl.
    by rewrite bool_decide_eq_false_2 by lia.
Qed.

(** X21: be_Keep_add_node succeeds exactly when the node is a Keep and
    ARR_LEN(reg_data) is at least its arity. It then appends the node as last
    input, which reads back at the old arity, gives that position the
    requirement cls->class_req, lengthens reg_data by one, and changes no
    other input requirement, output info, opcode or attribute. *)
Theorem be_Keep_add_node_appends (keep : be_node) cls node :
  (is_Ok (be_Keep_add_node keep cls node)
   ↔ be_is_Keep _ keep = true ∧ get_irn_arity keep ≤ length (reg_data keep))
  ∧ ∀ keep', be_Keep_add_node keep cls node = Ok keep' →
      node_in keep' = node_in keep ++ [node]
      ∧ get_irn_n keep' (Z.of_nat (get_irn_arity keep)) = Ok node
      ∧ be_node_get_in_reg_req keep' (Z.of_nat (get_irn_arity keep))
        = Ok (class_req cls)
      ∧ (∀ p, p ≠ Z.of_nat (get_irn_arity keep) →
              be_node_get_in_reg_req keep' p = be_node_get_in_reg_req keep p)
      ∧ length (reg_data keep') = S (length (reg_data keep))
      ∧ out_infos keep' = out_infos keep
      ∧ opcode keep' = opcode keep ∧ attr keep' = attr keep.
Proof.
  unfold BeNode.be_Keep_add_node, BeNode.add_irn_n,
    BeNode.be_node_set_reg_class_in, BeNode.get_irn_arity.
  destruct (be_is_Keep _ keep) eqn:Hk; simpl.
  2:{ split; [|done]. split; [by intros [? ?] | by intros [? _]]. }
  destruct (decide (length (node_in keep) ≤ length (reg_data keep)))
    as [Hle|Hgt].
  - rewrite be_set_constr_in_Ok by (simpl; rewrite length_app; simpl; lia).
    split; [split; [done | by eexists]|].
    intros keep' [= <-]. simpl.
    split_and!; try done.
    + unfold BeNode.get_irn_n. simpl.
      rewrite bool_decide_eq_true_2 by lia.
      rewrite Nat2Z.id, lookup_app_r by lia. by rewrite Nat.sub_diag.
    + rewrite in_reg_req_lookup. unfold BeNode.get_irn_arity. simpl.
      rewrite length_app. simpl. rewrite bool_decide_eq_true_2 by lia.
      rewrite list_lookup_insert_eq; [done|]. rewrite length_app. simpl. lia.
    + intros p Hp. destruct (decide (p < 0)%Z) as [Hneg|Hpos].
      * by rewrite !in_reg_req_negative.
      * rewrite <- (Z2Nat.id p) by lia. rewrite !in_reg_req_lookup.
        unfold BeNode.get_irn_arity. simpl. rewrite length_app. simpl.
        destruct (decide (Z.to_nat p < length (node_in keep))) as [Hlt|Hge].
        -- rewrite !bool_decide_eq_true_2 by lia.
           rewrite list_lookup_insert_ne by lia.
           by rewrite lookup_app_l by lia.
        -- by rewrite !bool_decide_eq_false_2 by lia.
    + rewrite length_insert, length_app. simpl. lia.
  - unfold BeNode.be_set_constr_in. simpl. rewrite length_app. simpl.
    rewrite (bool_decide_eq_false_2 (_ < _)%Z) by lia. simpl.
    split; [|done]. split; [by intros [? ?] | intros [_ ?]; lia].
Qed.

Lemma add_inputs_spec l : ∀ res : be_node,
  node_in (add_inputs res l) = node_in res ++ l
  ∧ reg_data (add_inputs res l)
    = reg_data res ++ replicate (length l) arch_no_register_req
  ∧ out_infos (add_inputs res l) = out_infos res
  ∧ opcode (add_inputs res l) = opcode res
  ∧ attr (add_inputs res l) = attr res.
Proof.
  unfold BeNode.add_inputs.
  induction l as [|x l IH]; intros res.
  - simpl. by rewrite !app_nil_r.
  - cbn [foldl].
    destruct (IH (add_register_req_in _ arch_no_register_req
                    (add_irn_n _ res x).1)) as (E1 & E2 & E3 & E4 & E5).
    rewrite E1, E2, E3, E4, E5. simpl. by rewrite <- !app_assoc.
Qed.

Lemma be_new_Return_Ok n_res pop n ins :
  n ≤ length ins →
  be_new_Return n_res pop n ins
  = Ok (Node _ beo_Return (take n ins) (replicate n arch_no_register_req)
          [OutInfo _ None arch_no_register_req] (attr_return n_res pop 0)).
Proof.
  intros Hn. unfold BeNode.be_new_Return.
  rewrite bool_decide_eq_true_2 by done. cbn [mbind result_bind].
  destruct (add_inputs_spec (take n ins)
              (BeNode.init_node_attr _ arch_no_register_req
                 (new_ir_node _ beo_Return []) (-1) 1))
    as (Hin & Hrd & Hoi & Hop & Hat).
  destruct (add_inputs _ _) as [op i rd oi a].
  simpl in Hin, Hrd, Hoi, Hop, Hat. subst.
  rewrite length_take, Nat.min_l by done. done.
Qed.

(** X22: be_new_Return with n inputs available succeeds with a Return whose
    inputs are the first n nodes, with n_res and pop stored and emit_pop = 0,
    one requirement entry per input, and arch_no_register_req for every input
    and for output 0. be_Return_append_node on it returns position n, where
    the appended node reads back, keeps one requirement entry per input, and
    every input requirement is still arch_no_register_req. *)
Theorem be_new_Return_appends n_res pop n ins node :
  n ≤ length ins →
  ∃ res, be_new_Return n_res pop n ins = Ok res
    ∧ opcode res = beo_Return ∧ attr res = attr_return n_res pop 0
    ∧ node_in res = take n ins
    ∧ length (reg_data res) = n
    ∧ (∀ p, (0 ≤ p)%Z →
            be_node_get_in_reg_req res p = Ok arch_no_register_req)
    ∧ be_node_get_out_reg_req res 0 = Ok arch_no_register_req
    ∧ (be_Return_append_node res node).2 = Z.of_nat n
    ∧ get_irn_n (be_Return_append_node res node).1 (Z.of_nat n) = Ok node
    ∧ node_in (be_Return_append_node res node).1 = take n ins ++ [node]
    ∧ length (reg_data (be_Return_append_node res node).1) = S n
    ∧ (∀ p, (0 ≤ p)%Z →
            be_node_get_in_reg_req (be_Return_append_node res node).1 p
            = Ok arch_no_register_req).
Proof.
  intros Hn. rewrite be_new_Return_Ok by done.
  eexists. split; [done|]. simpl.
  assert (Hall : ∀ (irn : be_node) p,
            (∀ i r, reg_data irn !! i = Some r → r = arch_no_register_req) →
            (0 ≤ p)%Z →
            be_node_get_in_reg_req irn p = Ok arch_no_register_req).
  { intros irn p Hnone Hp. rewrite <- (Z2Nat.id p) by lia.
    rewrite in_reg_req_lookup. case_bool_decide; [|done].
    destruct (reg_data irn !! Z.to_nat p) eqn:E; [|done].
    simpl. by rewrite (Hnone _ _ E). }
  split_and!; try done.
  - apply length_replicate.
  - intros p Hp. apply Hall; [|done]. simpl. intros i r E.
    by apply lookup_replicate in E as [-> _].
  - unfold BeNode.get_irn_arity. simpl. by rewrite length_take, Nat.min_l.
  - unfold BeNode.get_irn_n. simpl. rewrite bool_decide_eq_true_2 by lia.
    rewrite Nat2Z.id, lookup_app_r by (rewrite length_take; lia).
    by rewrite length_take, Nat.min_l, Nat.sub_diag by done.
  - rewrite length_app, length_replicate. simpl. lia.
  - intros p Hp. apply Hall; [|done]. simpl. intros i r E.
    apply lookup_app_Some in E as [E|[_ E]].
    + by apply lookup_replicate in E as [-> _].
    + apply list_lookup_singleton_Some in E as [_ <-]. done.
Qed.

End BeNodeReqs.

(** ** Backend nodes: frame entities *)

Section BeNodeFrame.

Import BeNode.
Import BeNodeSpec.

Variable arch_register_req_t : Type.

Local Abbreviation be_node := (be_node arch_register_req_t).
Local Abbreviation be_has_frame_entity :=
  (be_has_frame_entity arch_register_req_t).
Local Abbreviation be_get_frame_entity :=
  (be_get_frame_entity arch_register_req_t).
Local Abbreviation be_get_frame_offset :=
  (be_get_frame_offset arch_register_req_t).
Local Abbreviation be_node_set_frame_entity :=
  (be_node_set_frame_entity arch_register_req_t).
Local Abbreviation be_node_set_frame_offset :=
  (be_node_set_frame_offset arch_register_req_t).
Local Abbreviation node_wf := (node_wf arch_register_req_t).

(** X23: On a Spill, Reload or FrameAddr (whose attribute is a frame
    attribute), be_node_set_frame_entity and be_node_set_frame_offset succeed,
    be_get_frame_entity and be_get_frame_offset return what was set last,
    setting the one leaves the other alone, and nothing else of the node
    changes. On every other backend node be_node_set_frame_entity fails by its
    assertion, be_node_set_frame_offset silently does nothing, the entity
    reads as NULL and the offset as 0. *)
Theorem frame_entity_accessors (irn : be_node) ent offset :
  node_wf irn →
  (be_has_frame_entity irn = true →
   ∃ irn1 irn2,
     be_node_set_frame_entity irn ent = Ok irn1
     ∧ be_node_set_frame_offset irn1 offset = Ok irn2
     ∧ be_get_frame_entity irn1 = Ok ent
     ∧ be_get_frame_offset irn1 = be_get_frame_offset irn
     ∧ be_get_frame_entity irn2 = Ok ent
     ∧ be_get_frame_offset irn2 = Ok offset
     ∧ node_wf irn2
     ∧ opcode _ irn2 = opcode _ irn ∧ node_in _ irn2 = node_in _ irn
     ∧ reg_data _ irn2 = reg_data _ irn ∧ out_infos _ irn2 = out_infos _ irn)
  ∧ (be_has_frame_entity irn = false →
     be_node_set_frame_entity irn ent = Err assert_failed
     ∧ be_node_set_frame_offset irn offset = Ok irn
     ∧ be_get_frame_entity irn = Ok None
     ∧ be_get_frame_offset irn = Ok 0%Z).
Proof.
  intros Hwf. destruct irn as [op ins rd oi a].
  unfold BeNodeSpec.node_wf, BeNode.be_has_frame_entity,
    BeNode.be_node_set_frame_entity, BeNode.be_node_set_frame_offset,
    BeNode.be_get_frame_entity, BeNode.be_get_frame_offset in *.
  simpl in *. split.
  - intros Hf. destruct op; try discriminate;
      destruct a; try discriminate; simpl;
      eexists _, _; split_and!; reflexivity.
  - intros Hf. destruct op; try discriminate; by split_and!.
Qed.

End BeNodeFrame.

(** ** The requirement of a Phi *)

Section PhiReqFacts.

Import PhiReq.
Import PhiReqSpec.

Variable g : ir_graph.
Variable arch_register_req_t : Type.
Variable arch_no_register_req : arch_register_req_t.
Variable arch_register_class_t : Type.
Variable req_cls : arch_register_req_t → option arch_register_class_t.
Variable class_req : arch_register_class_t → arch_register_req_t.
Variable arch_get_register_req_out : ir_node → arch_register_req_t.
Variable mode_is_datab : ir_node → bool.

Local Abbreviation pset := (option (gset ir_node)).
Local Abbreviation first_req := (first_req arch_register_req_t).
Local Abbreviation get_Phi_reg_req_recursive :=
  (get_Phi_reg_req_recursive g arch_register_req_t arch_get_register_req_out).
Local Abbreviation phi_get_irn_reg_req :=
  (phi_get_irn_reg_req g arch_register_req_t arch_no_register_req
     arch_register_class_t req_cls class_req arch_get_register_req_out
     mode_is_datab).
Local Abbreviation phi_chain := (phi_chain g).
Local Abbreviation reaches_operand := (reaches_operand g).
Local Abbreviation phi_closed := (phi_closed g).
Local Abbreviation vis := (default (∅ : gset ir_node)).

Local Abbreviation search_post :=
  (search_post g arch_register_req_t arch_get_register_req_out).

Lemma size_unvisited_mono (U V V' : gset ir_node) :
  V ⊆ V' → size (U ∖ V') ≤ size (U ∖ V).
Proof.
  intros Hsub. apply subseteq_size. intros y Hy.
  apply elem_of_difference in Hy as [Hy1 Hy2].
  apply elem_of_difference. split; [done|]. intros Hy3. apply Hy2. by apply Hsub.
Qed.

Lemma size_unvisited_insert (U V : gset ir_node) x :
  x ∈ U → x ∉ V → size (U ∖ ({[x]} ∪ V)) < size (U ∖ V).
Proof.
  intros Hx Hv. apply subset_size. split.
  - intros y Hy. apply elem_of_difference in Hy as [Hy1 Hy2].
    apply elem_of_difference. split; [done|]. intros Hy3. apply Hy2.
    apply elem_of_union. by right.
  - intros Hsub. assert (Hin : x ∈ U ∖ ({[x]} ∪ V)).
    { apply Hsub. by apply elem_of_difference. }
    apply elem_of_difference in Hin as [_ Hin]. apply Hin.
    apply elem_of_union. left. by apply elem_of_singleton.
Qed.

Lemma pset_find_ptr_spec (v : pset) n :
  pset_find_ptr v n = true ↔ n ∈ vis v.
Proof.
  destruct v as [s|]; simpl.
  - apply bool_decide_eq_true.
  - split; [done | set_solver].
Qed.

Lemma reaches_operand_step p q op :
  q ∈ get_irn_in g p → is_Phi g q = true →
  reaches_operand q op → reaches_operand p op.
Proof.
  intros Hq Hphi (q' & Hc & Hop & Hn). exists q'.
  split; [|done]. by eapply rtc_l.
Qed.

Lemma grown_inside (A B C U : gset ir_node) :
  B ⊆ A ∪ U → C ⊆ B ∪ U → C ⊆ A ∪ U.
Proof.
  intros HB HC y Hy. apply HC in Hy. apply elem_of_union in Hy as [Hy|Hy].
  - by apply HB.
  - apply elem_of_union. by right.
Qed.

(** The loop over the operands, given that the search answers as specified
    for every operand. *)
Lemma first_req_spec U phi
    (rec : ir_node → pset → result (option arch_register_req_t * pset))
    fuel ops :
  (∀ op v, op ∈ U → size (U ∖ vis v) < fuel →
           ∃ r, rec op v = Ok r ∧ search_post U op v r) →
  ∀ v,
    (∀ op, op ∈ ops → op ∈ get_irn_in g phi ∧ is_Phi g op = true ∧ op ∈ U) →
    size (U ∖ vis v) < fuel →
    ∃ r, first_req rec ops v = Ok r
      ∧ vis v ⊆ vis r.2 ∧ vis r.2 ⊆ vis v ∪ U
      ∧ match r.1 with
        | Some req =>
            ∃ op, reaches_operand phi op ∧ req = arch_get_register_req_out op
        | None =>
            (∀ op, op ∈ ops → op ∈ vis r.2)
            ∧ ∀ x, x ∈ vis r.2 → x ∉ vis v →
                   ∀ op, op ∈ get_irn_in g x →
                         is_Phi g op = true ∧ op ∈ vis r.2
        end.
Proof.
  intros Hrec. induction ops as [|op ops IH]; intros v Hops Hsize.
  - exists (None, v). simpl. split_and!; [done|done| | |done].
    + apply union_subseteq_l.
    + intros op Hop. by apply elem_of_nil in Hop.
  - destruct (Hops op) as (Hin & Hphi & HU); [by left|].
    destruct (Hrec op v HU Hsize) as ([r1 v1] & Hr1 & Hsub1 & Hsup1 & Hpost1).
    simpl in Hsub1, Hsup1, Hpost1. cbn [PhiReq.first_req]. rewrite Hr1. simpl.
    destruct r1 as [req|].
    + exists (Some req, v1). simpl. split_and!; try done.
      destruct Hpost1 as (op' & Hreach & ->). exists op'. split; [|done].
      by eapply reaches_operand_step.
    + destruct Hpost1 as [Hop1 Hclosed1].
      destruct (IH v1) as ([r2 v2] & Hr2 & Hsub2 & Hsup2 & Hpost2).
      { intros op' Hop'. apply Hops. by right. }
      { eapply Nat.le_lt_trans; [by apply size_unvisited_mono|done]. }
      exists (r2, v2). simpl in Hsub2, Hsup2, Hpost2. simpl.
      split; [done|]. split; [by transitivity (vis v1)|].
      split; [by eapply grown_inside|].
      destruct r2 as [req|]; [done|].
      destruct Hpost2 as [Hops2 Hclosed2]. split.
      * intros op' Hop'. apply elem_of_cons in Hop' as [->|Hop'].
        -- by apply Hsub2.
        -- by apply Hops2.
      * intros x Hx Hnv op' Hop'.
        destruct (decide (x ∈ vis v1)) as [Hx1|Hx1].
        -- destruct (Hclosed1 x Hx1 Hnv op' Hop') as [Hp Hv1].
           split; [done | by apply Hsub2].
        -- by apply (Hclosed2 x).
Qed.

Lemma search_spec U : phi_closed U →
  ∀ fuel phi v, phi ∈ U → size (U ∖ vis v) < fuel →
    ∃ r, get_Phi_reg_req_recursive fuel phi v = Ok r ∧ search_post U phi v r.
Proof.
  intros HU. induction fuel as [|fuel IH]; intros phi v Hphi Hsize; [lia|].
  cbn [PhiReq.get_Phi_reg_req_recursive].
  destruct (pset_find_ptr v phi) eqn:Hfind.
  { apply pset_find_ptr_spec in Hfind. exists (None, v).
    split; [done|]. split; [done|]. split; [apply union_subseteq_l|].
    simpl. split; [done|]. intros x Hx Hnx. done. }
  assert (Hnv : phi ∉ vis v).
  { intros Hin. apply pset_find_ptr_spec in Hin. congruence. }
  destruct (list_find _ _) as [[i op]|] eqn:Hf.
  { apply list_find_Some in Hf as (Hop & Hn & _).
    exists (Some (arch_get_register_req_out op), v).
    split; [done|]. split; [done|]. split; [apply union_subseteq_l|].
    simpl. exists op. split; [|done].
    exists phi. split_and!; [apply rtc_refl | by eapply list_elem_of_lookup_2 | done]. }
  pose proof (proj1 (list_find_None _ _) Hf) as Hall.
  rewrite Forall_forall in Hall.
  assert (Hphis : ∀ op, op ∈ get_irn_in g phi → is_Phi g op = true).
  { intros op Hop. specialize (Hall op Hop). simpl in Hall.
    by destruct (is_Phi g op). }
  assert (Hlt : size (U ∖ ({[phi]} ∪ vis v)) < size (U ∖ vis v))
    by (by apply size_unvisited_insert).
  destruct (first_req_spec U phi (get_Phi_reg_req_recursive fuel) fuel
              (get_irn_in g phi) IH (pset_insert_ptr v phi))
    as ([r v'] & Hr & Hsub & Hsup & Hpost).
  { intros op Hop. split_and!; [done | by apply Hphis |].
    apply (HU phi); [done | done | by apply Hphis]. }
  { simpl. lia. }
  simpl in Hsub, Hsup, Hpost.
  assert (Hphi' : phi ∈ vis v').
  { apply Hsub. apply elem_of_union. left. by apply elem_of_singleton. }
  exists (r, v'). split; [done|]. simpl.
  split. { intros y Hy. apply Hsub. apply elem_of_union. by right. }
  split.
  { intros y Hy. apply Hsup in Hy.
    apply elem_of_union in Hy as [Hy|Hy]; [|apply elem_of_union; by right].
    apply elem_of_union in Hy as [Hy|Hy]; [|apply elem_of_union; by left].
    apply elem_of_singleton in Hy as ->. apply elem_of_union. by right. }
  destruct r as [req|]; [done|].
  destruct Hpost as [Hops Hclosed]. split; [done|].
  intros x Hx Hxv op Hop.
  destruct (decide (x = phi)) as [->|Hne].
  - split; [by apply Hphis | by apply Hops].
  - apply (Hclosed x); [done| |done]. intros Hin.
    apply elem_of_union in Hin as [Hin|Hin]; [|done].
    by apply elem_of_singleton in Hin.
Qed.

Lemma phi_search_answer (U : gset ir_node) fuel phi :
  phi_closed U → phi ∈ U → size U < fuel →
  ∃ r v, get_Phi_reg_req_recursive fuel phi None = Ok (r, v)
    ∧ match r with
      | Some req =>
          ∃ op, reaches_operand phi op ∧ req = arch_get_register_req_out op
      | None => ∀ op, ¬ reaches_operand phi op
      end.
Proof.
  intros HU Hphi Hsize.
  destruct (search_spec U HU fuel phi None Hphi) as ([r v] & Hr & _ & _ & Hpost).
  { simpl. by rewrite difference_empty_L. }
  exists r, v. split; [done|]. simpl in Hpost.
  destruct r as [req|]; [done|].
  destruct Hpost as [Hin Hclosed].
  assert (Hchain : ∀ q, phi_chain phi q → q ∈ vis v).
  { intros q Hq. apply rtc_nsteps in Hq as [n Hq]. revert q Hq.
    induction n as [|n IH]; intros q Hq.
    - by inversion Hq; subst.
    - apply nsteps_inv_r in Hq as (y & Hy & Hz & _).
      by apply (Hclosed y (IH y Hy) (not_elem_of_empty _) q). }
  intros op (q & Hq & Hop & Hn).
  destruct (Hclosed q (Hchain q Hq) (not_elem_of_empty _) op Hop) as [Hp _].
  congruence.
Qed.

(** X24: Started with no visited set on a node of a finite set of nodes that
    contains the Phi operands of its members, get_Phi_reg_req_recursive
    returns (a recursion budget above the size of the set is enough). A
    requirement it returns is arch_get_register_req_out of an operand that is
    no Phi and belongs to the node or to a Phi reached from it through Phi
    operands; it returns NULL only if no such operand exists, as in a cycle of
    Phis. *)
Theorem get_Phi_reg_req_search (U : gset ir_node) fuel phi :
  phi_closed U → phi ∈ U → size U < fuel →
  ∃ r v, get_Phi_reg_req_recursive fuel phi None = Ok (r, v)
    ∧ match r with
      | Some req =>
          ∃ op, reaches_operand phi op ∧ req = arch_get_register_req_out op
      | None => ∀ op, ¬ reaches_operand phi op
      end.
Proof. apply phi_search_answer. Qed.


(** X25: phi_get_irn_reg_req returns a cached requirement unchanged; without
    one, a Phi whose mode is not data gets arch_no_register_req; a data Phi
    from which no operand that is no Phi can be reached makes it dereference
    NULL (req->cls); otherwise it returns cls->class_req for the class of the
    requirement of such an operand, or fails the assertion when that
    requirement has no class. Every successful call stores its answer, so a
    second call returns the same answer from the cache. *)
Theorem phi_get_irn_reg_req_cases (U : gset ir_node) fuel node cache :
  phi_closed U → node ∈ U → size U < fuel →
  (∀ req, cache !! node = Some req →
          phi_get_irn_reg_req fuel node cache = Ok (req, cache))
  ∧ (cache !! node = None → mode_is_datab node = false →
     phi_get_irn_reg_req fuel node cache
     = Ok (arch_no_register_req, <[node := arch_no_register_req]> cache))
  ∧ (cache !! node = None → mode_is_datab node = true →
     (∀ op, ¬ reaches_operand node op) →
     phi_get_irn_reg_req fuel node cache = Err null_deref)
  ∧ (cache !! node = None → mode_is_datab node = true →
     ∀ op0, reaches_operand node op0 →
       ∃ op, reaches_operand node op
         ∧ match req_cls (arch_get_register_req_out op) with
           | Some cls =>
               phi_get_irn_reg_req fuel node cache
               = Ok (class_req cls, <[node := class_req cls]> cache)
           | None => phi_get_irn_reg_req fuel node cache = Err assert_failed
           end)
  ∧ (∀ r cache', phi_get_irn_reg_req fuel node cache = Ok (r, cache') →
       ∀ fuel', phi_get_irn_reg_req fuel' node cache' = Ok (r, cache')).
Proof.
  intros HU Hnode Hsize.
  destruct (phi_search_answer U fuel node HU Hnode Hsize)
    as (r & v & Hr & Hpost).
  unfold PhiReq.phi_get_irn_reg_req. split_and!.
  - by intros req ->.
  - by intros -> ->.
  - intros -> -> Hnone. simpl. rewrite Hr. simpl.
    destruct r as [req|]; [|done].
    destruct Hpost as (op & Hop & _). by destruct (Hnone op).
  - intros -> -> op0 Hop0. simpl. rewrite Hr. simpl.
    destruct r as [req|]; [|by destruct (Hpost op0)].
    destruct Hpost as (op & Hop & ->). exists op. split; [done|].
    by destruct (req_cls _).
  - intros r' cache' H fuel'.
    assert (Hc : cache' !! node = Some r').
    { destruct (cache !! node) as [req|] eqn:Ec.
      - by injection H as <- <-.
      - destruct (mode_is_datab node); simpl in H.
        + rewrite Hr in H. simpl in H. destruct r as [req|]; [|done].
          destruct (req_cls req); [|done]. injection H as <- <-.
          apply lookup_insert_eq.
        + injection H as <- <-. apply lookup_insert_eq. }
    by rewrite Hc.
Qed.

End PhiReqFacts.

(** ** Examples of the further properties *)

Lemma workset_insert_full_fails_witness :
  Belady.workset_insert plain_graph 0 2 full_ws 12 = Err assert_failed.
Proof.
  destruct (workset_insert_full_fails plain_graph 0 2 full_ws 12) as [H _].
  - split; [reflexivity | simpl; lia].
  - apply H. split_and!; [reflexivity | | reflexivity].
    intros Hin. repeat (apply elem_of_cons in Hin as [Hin|Hin]; [discriminate|]).
    by apply elem_of_nil in Hin.
Defined.

Lemma workset_remove_member_witness :
  Belady.len (Belady.workset_remove full_ws 10) = Belady.len full_ws - 1.
Proof.
  destruct (workset_remove_member 2 full_ws 10) as (_ & H & _).
  - split; [reflexivity | simpl; lia].
  - apply NoDup_cons. split; [|apply NoDup_singleton].
    intros Hin. apply list_elem_of_singleton in Hin. discriminate.
  - apply H. by left.
Defined.

Lemma displace_records_reloads_witness :
  ∃ env', Belady.displace loop_graph 0 2 Belady.merge_qsort loop_env3
            (Belady.Workset 1 [Belady.Loc 11 0; Belady.Loc 0 0]) true = Ok env'
          ∧ Belady.reloads (Belady.senv env') = [(11, 30)].
Proof.
  destruct (Belady.displace loop_graph 0 2 Belady.merge_qsort loop_env3
              (Belady.Workset 1 [Belady.Loc 11 0; Belady.Loc 0 0]) true)
    as [env'|e] eqn:Hrun; [|by vm_compute in Hrun].
  exists env'. split; [reflexivity|].
  destruct (displace_records_reloads loop_graph 0 2 Belady.merge_qsort loop_env3
              (Belady.Workset 1 [Belady.Loc 11 0; Belady.Loc 0 0]) true env')
    as [H _].
  - split; [split; [reflexivity | simpl; lia]|].
    intros b info w Hb Hw. unfold loop_env3 in Hb. cbn [Belady.links] in Hb.
    apply lookup_singleton_Some in Hb as [<- <-].
    simpl in Hw. destruct Hw as [Hw|Hw]; [|discriminate].
    injection Hw as <-. split; [reflexivity | simpl; lia].
  - exact Hrun.
  - rewrite H. reflexivity.
Defined.

Lemma loop_env3_inv : BeladySpec.belady_inv 2 loop_env3.
Proof.
  split; [split; [reflexivity | simpl; lia]|].
  intros b info w Hb Hw. unfold loop_env3 in Hb. cbn [Belady.links] in Hb.
  apply lookup_singleton_Some in Hb as [<- <-].
  simpl in Hw. destruct Hw as [Hw|Hw]; [|discriminate].
  injection Hw as <-. split; [reflexivity | simpl; lia].
Qed.

Lemma belady_instr_round_witness :
  ∃ st', Belady.belady_instr loop_graph 0 2 Belady.merge_qsort 30 []
           (loop_env3, loop_new_vals3) = Ok st'
         ∧ Belady.instr st'.1 = 30
         ∧ Belady.len (Belady.ws st'.1) ≤ 2.
Proof.
  destruct (Belady.belady_instr loop_graph 0 2 Belady.merge_qsort 30 []
              (loop_env3, loop_new_vals3)) as [st'|e] eqn:Hrun;
    [|by vm_compute in Hrun].
  exists st'. split; [reflexivity|].
  destruct (belady_instr_round loop_graph 0 2 Belady.merge_qsort 30 []
              (loop_env3, loop_new_vals3) st')
    as (_ & _ & _ & Hi & _ & Hlen).
  - split; [exact loop_env3_inv | split; [reflexivity | simpl; lia]].
  - reflexivity.
  - reflexivity.
  - exact Hrun.
  - split; [exact Hi | exact Hlen].
Defined.

Lemma initial_links_complete n :
  BeladyPassSpec.links_complete (Belady.links (Belady.initial_env n)).
Proof. intros b info Hb. simpl in Hb. by rewrite lookup_empty in Hb. Qed.

Lemma belady_block_once_witness :
  ∃ env', Belady.belady loop_graph 0 2 Belady.merge_qsort 5 1
            (Belady.initial_env 2) = Ok env'
          ∧ ∀ fuel', Belady.belady loop_graph 0 2 Belady.merge_qsort (S fuel') 1
                       env' = Ok env'.
Proof.
  destruct (Belady.belady loop_graph 0 2 Belady.merge_qsort 5 1
              (Belady.initial_env 2)) as [env'|e] eqn:Hrun;
    [|by vm_compute in Hrun].
  exists env'. split; [reflexivity|].
  apply (belady_block_once loop_graph 0 2 Belady.merge_qsort 5 1
           (Belady.initial_env 2) env');
    [apply initial_links_complete | exact Hrun].
Defined.

Lemma loop_graph_phi_args b :
  b ∈ [3; 2; 1] →
  b ∈ [1; 2; 3] ∧ BeladyPassSpec.phi_args_cover loop_graph b
  ∧ ∀ p, p ∈ get_Block_cfgpred_blocks loop_graph b → p ∈ [1; 2; 3].
Proof.
  intros Hb.
  assert (Hphi : ∀ v, is_Phi loop_graph v = true → v = 20).
  { intros v Hv. simpl in Hv. by apply bool_decide_eq_true in Hv. }
  repeat (apply elem_of_cons in Hb as [->|Hb]); [| | |by apply elem_of_nil in Hb].
  - split; [by right; right; left|]. split.
    + intros v Hv Hblk. apply Hphi in Hv as ->. by vm_compute in Hblk.
    + intros p Hp. simpl in Hp. apply list_elem_of_singleton in Hp as ->.
      by right; left.
  - split; [by right; left|]. split.
    + intros v Hv Hblk. apply Hphi in Hv as ->. simpl. lia.
    + intros p Hp. simpl in Hp.
      apply elem_of_cons in Hp as [->|Hp]; [by left|].
      apply list_elem_of_singleton in Hp as ->. by right; left.
  - split; [by left|]. split.
    + intros v Hv Hblk. apply Hphi in Hv as ->. by vm_compute in Hblk.
    + intros p Hp. simpl in Hp. by apply elem_of_nil in Hp.
Qed.

Lemma be_spill_belady_borders_witness :
  is_Ok (Belady.be_spill_belady loop_graph 0 2 Belady.merge_qsort 5
           [1; 2; 3] [3; 2; 1]).
Proof.
  destruct (foldM (λ env blk, Belady.belady loop_graph 0 2 Belady.merge_qsort 5
                                blk env)
              [1; 2; 3] (Belady.initial_env 2)) as [env1|e] eqn:Hrun;
    [|by vm_compute in Hrun].
  destruct (be_spill_belady_borders loop_graph 0 2 Belady.merge_qsort 5
              [1; 2; 3] [3; 2; 1] env1 Hrun loop_graph_phi_args) as [_ H].
  rewrite H. by eexists.
Defined.

Lemma start_set_spills_left_phis_witness :
  ∃ env', Belady.compute_block_start_info loop_graph 0 1 Belady.merge_qsort
            (Belady.belady loop_graph 0 1 Belady.merge_qsort 5) 2
            (Belady.initial_env 1) = Ok env'
          ∧ Belady.reloads (Belady.senv env') = [].
Proof.
  destruct (start_set_spills_left_phis loop_graph 0 1 Belady.merge_qsort
              (Belady.belady loop_graph 0 1 Belady.merge_qsort 5) 2
              (Belady.initial_env 1)) as (env' & H & _ & Hr & _).
  - reflexivity.
  - intros [Hlen _]. discriminate Hlen.
  - exists env'. split; [exact H | exact Hr].
Defined.

Lemma assign_distinct_registers_witness :
  ∃ st, Chordal.assign plain_graph 0 3 7%Z 1
          [Chordal.Border true 10; Chordal.Border true 11] ∅ = Ok st
        ∧ ∀ v w r, ColouringSpec.live_at st v → ColouringSpec.live_at st w →
                   Chordal.registers st !! v = Some r →
                   Chordal.registers st !! w = Some r → v = w.
Proof.
  destruct (Chordal.assign plain_graph 0 3 7%Z 1
              [Chordal.Border true 10; Chordal.Border true 11] ∅)
    as [st|e] eqn:Hrun; [|by vm_compute in Hrun].
  exists st. split; [reflexivity|].
  apply (assign_distinct_registers plain_graph 0 3 7%Z 1
           [Chordal.Border true 10; Chordal.Border true 11] ∅)
    with (pre := [Chordal.Border true 10; Chordal.Border true 11]) (post := []).
  - intros v w r _ _ Hv. by rewrite lookup_empty in Hv.
  - simpl. split; [discriminate|]. split; [discriminate | exact I].
  - reflexivity.
  - exact Hrun.
Defined.

Lemma assign_keeps_registers_witness :
  ∃ st, Chordal.assign plain_graph 0 3 7%Z 1
          [Chordal.Border true 10; Chordal.Border false 10] {[ 12 := 2 ]} = Ok st
        ∧ ∀ v r, ({[ 12 := 2 ]} : gmap nat nat) !! v = Some r →
                 Chordal.registers st !! v = Some r.
Proof.
  destruct (Chordal.assign plain_graph 0 3 7%Z 1
              [Chordal.Border true 10; Chordal.Border false 10] {[ 12 := 2 ]})
    as [st|e] eqn:Hrun; [|by vm_compute in Hrun].
  exists st. split; [reflexivity|].
  apply (assign_keeps_registers plain_graph 0 3 7%Z 1
           [Chordal.Border true 10; Chordal.Border false 10] {[ 12 := 2 ]} st
           Hrun).
Defined.

Lemma perm_projs_coloured_witness :
  ∃ registers', ChordalConstr.assign_perm_projs 3 7%Z [30; 31; 32] {[ 31 := 0 ]}
                = Ok registers'
                ∧ ∀ p, p ∈ [30; 31; 32] → is_Some (registers' !! p).
Proof.
  destruct (ChordalConstr.assign_perm_projs 3 7%Z [30; 31; 32] {[ 31 := 0 ]})
    as [registers'|e] eqn:Hrun; [|by vm_compute in Hrun].
  exists registers'. split; [reflexivity|].
  apply (perm_projs_coloured 3 7%Z [30; 31; 32] {[ 31 := 0 ]} registers' Hrun).
Defined.

Lemma pair_out_choice_witness :
  is_Ok (ChordalConstr.pair_out 3 (λ _, false) 1 insn_ops 0).
Proof.
  destruct (pair_out_choice 3 (λ _, false) 1 insn_ops 0
              (Chordal.Operand 20 3%Z 0 None)) as (ops' & H & _).
  - lia.
  - reflexivity.
  - rewrite H. by eexists.
Defined.

Lemma insn_ops_unpaired o : o ∈ insn_ops → Chordal.partner o = None.
Proof.
  intros Ho. unfold insn_ops in Ho.
  repeat (apply elem_of_cons in Ho as [->|Ho]; [reflexivity|]).
  by apply elem_of_nil in Ho.
Qed.

Lemma pair_up_operands_partners_witness :
  ∃ ops', ChordalConstr.pair_up_operands 3 (λ _, false) 1 insn_ops = Ok ops'
          ∧ PairingSpec.same_operands insn_ops ops'.
Proof.
  destruct (pair_up_operands_partners 3 (λ _, false) 1 insn_ops)
    as (ops' & H & Hsame & _).
  - simpl. lia.
  - exact insn_ops_unpaired.
  - exists ops'. split; [exact H | exact Hsame].
Defined.

Lemma one_pair_clean :
  MatchingSpec.clean_pairs (Chordal.ConstrState {[ 20 := Some 10 ]} [20] []).
Proof.
  split; [apply NoDup_singleton|]. split.
  - intros a Ha. apply list_elem_of_singleton in Ha as ->. discriminate.
  - intros a p Ha Hp. simpl in Ha, Hp.
    apply list_elem_of_singleton in Ha as ->.
    rewrite lookup_singleton_eq in Hp. injection Hp as <-. split.
    + intros Hin. simpl in Hin. apply list_elem_of_singleton in Hin. discriminate.
    + intros a' Ha' _. simpl in Ha'. by apply list_elem_of_singleton in Ha'.
Qed.

Lemma assign_matching_partners_witness :
  ∃ registers',
    Chordal.assign_matching 3 (Chordal.ConstrState {[ 20 := Some 10 ]} [20] [])
      [1%Z] ∅ = Ok registers'
    ∧ ∃ c, registers' !! 20 = Some c ∧ registers' !! 10 = Some c.
Proof.
  destruct (Chordal.assign_matching 3
              (Chordal.ConstrState {[ 20 := Some 10 ]} [20] []) [1%Z] ∅)
    as [registers'|e] eqn:Hrun; [|by vm_compute in Hrun].
  exists registers'. split; [reflexivity|].
  destruct (assign_matching_partners 3
              (Chordal.ConstrState {[ 20 := Some 10 ]} [20] []) [1%Z] ∅
              registers' one_pair_clean Hrun) as [H _].
  destruct (H 0 20 eq_refl) as (c & _ & _ & Hc & Hp).
  exists c. split; [exact Hc|]. apply Hp; [reflexivity | discriminate].
Defined.

Lemma insn_ops_paired_ok : MatchingSpec.paired_operands 1 insn_ops_paired.
Proof.
  unfold MatchingSpec.paired_operands, insn_ops_paired. split_and!.
  - intros [|j] o s Ho Hj Hp; [|lia]. simpl in Ho. injection Ho as <-.
    simpl in Hp. injection Hp as <-. split; [lia|]. by eexists.
  - intros [|[|[|i]]] o j Ho Hi Hp; simpl in Ho; try lia; try discriminate;
      injection Ho as <-; simpl in Hp; try discriminate.
    injection Hp as <-. split; [lia|]. by eexists _, 1, _.
  - intros [|[|[|i]]] [|[|[|i']]] o o' Ho Ho' Hi Hi' Hc; simpl in Ho, Ho';
      try lia; try discriminate; injection Ho as <-; injection Ho' as <-;
      try discriminate; reflexivity.
  - intros [|j] [|[|[|i]]] o o' Ho Ho' Hj Hc; simpl in Ho, Ho'; try lia;
      try discriminate; injection Ho as <-; injection Ho' as <-;
      try discriminate; reflexivity.
  - intros o Ho. repeat (apply elem_of_cons in Ho as [->|Ho]; [discriminate|]).
    by apply elem_of_nil in Ho.
Qed.

Lemma handle_operands_left_nodes_witness :
  ∃ st, Chordal.handle_operands 3 insn_ops_paired = Ok st
        ∧ NoDup (Chordal.alloc_nodes st).
Proof.
  destruct (Chordal.handle_operands 3 insn_ops_paired) as [st|e] eqn:Hrun;
    [|by vm_compute in Hrun].
  exists st. split; [reflexivity|].
  apply (handle_operands_left_nodes 3 1 insn_ops_paired st insn_ops_paired_ok
           Hrun).
Defined.

Lemma handle_constraints_registers_witness :
  ∃ st st2 registers',
    Chordal.handle_operands 3 insn_ops_paired = Ok st
    ∧ ChordalConstr.handle_perm_projs perm_graph 3 7%Z (λ _, true) (Some [30]) st
      = Ok st2
    ∧ Chordal.assign_matching 3 st2 [0%Z; 1%Z; 2%Z] ∅ = Ok registers'
    ∧ registers' !! 20 = registers' !! 10.
Proof.
  destruct (Chordal.handle_operands 3 insn_ops_paired) as [st|e] eqn:Hrun;
    [|by vm_compute in Hrun].
  destruct (ChordalConstr.handle_perm_projs perm_graph 3 7%Z (λ _, true)
              (Some [30]) st) as [st2|e] eqn:H2;
    [|by vm_compute in Hrun; injection Hrun as <-; vm_compute in H2].
  destruct (Chordal.assign_matching 3 st2 [0%Z; 1%Z; 2%Z] ∅) as [registers'|e]
    eqn:Hm;
    [|by vm_compute in Hrun; injection Hrun as <-; vm_compute in H2;
         injection H2 as <-; vm_compute in Hm].
  exists st, st2, registers'.
  split; [reflexivity|]. split; [exact H2|]. split; [exact Hm|].
  destruct (handle_constraints_registers perm_graph 3 7%Z (λ _, true) 1
              insn_ops_paired (Some [30]) st st2 [0%Z; 1%Z; 2%Z] ∅ registers'
              insn_ops_paired_ok) as (_ & H & _); [|exact Hrun|exact H2|exact Hm|].
  - intros projs [= <-] Hin. apply list_elem_of_singleton in Hin. discriminate.
  - apply (H 0 (Chordal.Operand 20 3%Z 0 (Some 1)) 1
             (Chordal.Operand 10 3%Z 0 (Some 0))); reflexivity.
Defined.

Lemma sched_loop_users_local b :
  b ∈ [1; 2] →
  LocalSchedSpec.block_users_local sched_loop_graph b
  ∧ ListSchedSpec.start_without_operands sched_loop_graph b.
Proof.
  intros Hb. split; [|intros n u Hn; discriminate].
  intros n Hn [Hphi|Hstart]; [|discriminate].
  simpl in Hphi. apply bool_decide_eq_true in Hphi as ->.
  repeat (apply elem_of_cons in Hb as [->|Hb]); [| |by apply elem_of_nil in Hb].
  - simpl in Hn. repeat (apply elem_of_cons in Hn as [Hn|Hn]; [discriminate|]).
    by apply elem_of_nil in Hn.
  - reflexivity.
Qed.

Lemma list_sched_block_local_witness :
  Forall (λ n, get_nodes_block (ListSched.irg sched_loop_graph) n = 2
               ∧ ListSched.to_appear_in_schedule sched_loop_graph n = true)
    (ListSched.schedule
       (ListSched.list_sched_block unit sched_loop_graph first_selector
          ListSched.insertion_order 2 10 fresh_sched_info tt).2).
Proof.
  apply Forall_forall.
  apply (list_sched_block_local unit sched_loop_graph first_selector
           ListSched.insertion_order 2 fresh_sched_info 10 tt
           first_selector_selects_ready).
  apply sched_loop_users_local. by right; left.
Defined.

Lemma be_list_sched_graph_respects_dag_witness :
  ∃ scheds,
    ListSchedGraph.be_list_sched_graph unit sched_loop_graph first_selector
      ListSched.insertion_order tt (λ _ _, tt) (λ s, s) 10 40 [1; 2] = Ok scheds
    ∧ scheds.*1 = [1; 2].
Proof.
  destruct (ListSchedGraph.be_list_sched_graph unit sched_loop_graph
              first_selector ListSched.insertion_order tt (λ _ _, tt) (λ s, s)
              10 40 [1; 2]) as [scheds|e] eqn:Hrun; [|by vm_compute in Hrun].
  exists scheds. split; [reflexivity|].
  apply (be_list_sched_graph_respects_dag unit sched_loop_graph first_selector
           ListSched.insertion_order tt (λ _ _, tt) (λ s, s) 10 40 [1; 2] scheds
           first_selector_selects_ready).
  - apply NoDup_cons. split; [|apply NoDup_singleton].
    intros Hin. apply list_elem_of_singleton in Hin. discriminate.
  - exact sched_loop_users_local.
  - exact Hrun.
Defined.

Lemma be_new_Perm_requirements_witness :
  ∃ irn, BeNode.be_new_Perm nat 0 nat S 4 2 [10; 11; 12] = Ok irn
         ∧ BeNode.node_in nat irn = [10; 11].
Proof.
  destruct (be_new_Perm_requirements nat 0 nat S 4 2 [10; 11; 12])
    as (irn & H & _ & Hin & _).
  - simpl. lia.
  - exists irn. split; [exact H | exact Hin].
Defined.

Lemma be_Perm_reduce_gathers_witness :
  ∃ perm', BeNode.be_Perm_reduce nat perm3 2 [2%Z; 0%Z] = Ok perm'
           ∧ BeNode.get_irn_arity nat perm' = 2.
Proof.
  destruct (be_Perm_reduce_gathers nat 0 perm3 2 [2%Z; 0%Z])
    as (perm' & H & _ & _ & Har & _).
  - reflexivity.
  - unfold perm3, BeNode.get_irn_arity. simpl. lia.
  - unfold perm3, BeNode.get_irn_arity. simpl. lia.
  - unfold perm3, BeNode.get_irn_arity. simpl. lia.
  - intros [|[|i]] Hi; [exists 2%Z | exists 0%Z | simpl in Hi; lia];
      (split; [reflexivity | unfold perm3, BeNode.get_irn_arity; simpl; lia]).
  - exists perm'. split; [exact H | exact Har].
Defined.

Lemma be_new_Return_appends_witness :
  ∃ res, BeNode.be_new_Return nat 0 1 0 2 [10; 11] = Ok res
         ∧ (BeNode.be_Return_append_node nat 0 res 12).2 = 2%Z.
Proof.
  destruct (be_new_Return_appends nat 0 1 0 2 [10; 11] 12)
    as (res & H & _ & _ & _ & _ & _ & _ & Hpos & _).
  - simpl. lia.
  - exists res. split; [exact H | exact Hpos].
Defined.

Lemma frame_entity_accessors_witness :
  ∃ irn1, BeNode.be_node_set_frame_entity nat spill_node (Some 7) = Ok irn1
          ∧ BeNode.be_get_frame_entity nat irn1 = Ok (Some 7).
Proof.
  destruct (frame_entity_accessors nat spill_node (Some 7) 8%Z) as [H _].
  - reflexivity.
  - destruct (H eq_refl) as (irn1 & irn2 & H1 & _ & H2 & _).
    exists irn1. split; [exact H1 | exact H2].
Defined.

Lemma loop_phi_closed : PhiReqSpec.phi_closed loop_graph {[ 20 ]}.
Proof.
  intros q op _ _ Hphi. simpl in Hphi.
  apply bool_decide_eq_true in Hphi as ->. by apply elem_of_singleton.
Qed.

Lemma get_Phi_reg_req_search_witness :
  ∃ r v, PhiReq.get_Phi_reg_req_recursive loop_graph nat (λ n, n) 2 20 None
         = Ok (r, v).
Proof.
  destruct (get_Phi_reg_req_search loop_graph nat (λ n, n) {[ 20 ]} 2 20)
    as (r & v & H & _).
  - exact loop_phi_closed.
  - by apply elem_of_singleton.
  - rewrite size_singleton. lia.
  - exists r, v. exact H.
Defined.

Lemma phi_get_irn_reg_req_cases_witness :
  PhiReq.phi_get_irn_reg_req loop_graph nat 0 nat (λ r, Some r) S (λ n, n)
    (λ _, false) 2 20 ∅
  = Ok (0, {[ 20 := 0 ]}).
Proof.
  destruct (phi_get_irn_reg_req_cases loop_graph nat 0 nat (λ r, Some r) S
              (λ n, n) (λ _, false) {[ 20 ]} 2 20 ∅) as (_ & H & _).
  - exact loop_phi_closed.
  - by apply elem_of_singleton.
  - rewrite size_singleton. lia.
  - rewrite H; reflexivity.
Defined.
